(** * hacktile: the rules engine of a falling-block game

    A shallow embedding of the model layer of hacktile (tile.hpp, tile.cpp,
    tetromino.cpp, generator.cpp, playground.cpp) and the verification of
    its specification against it.

    Conventions of the embedding:
    - fixed-width integers are [Z] with the wrap-around written out
      ([u8], [u16], [u64], [i8]);
    - a C++ call that can throw or whose behaviour is undefined returns an
      [outcome]; [Throw] carries the text of the [std::runtime_error],
      [Undefined] stands for behaviour the C++ standard leaves undefined
      (dereferencing a null tile pointer, indexing a vector or an array
      past its end, shifting a 64-bit word by 64 or more);
    - a [const tile*] is an [option tile], [None] being [nullptr];
    - the events a playground dispatches to its listeners are appended to
      a log. *)

From Stdlib Require Import ZArith Lia String Bool Permutation.
From stdpp Require Import base tactics option list.

Local Open Scope Z_scope.

(** ** Machine integers *)

Definition u8 (z : Z) : Z := z mod 2 ^ 8.
Definition u16 (z : Z) : Z := z mod 2 ^ 16.
Definition u64 (z : Z) : Z := z mod 2 ^ 64.

(** Conversion to [int8_t] (modular, as every supported compiler does). *)
Definition i8 (z : Z) : Z := (z + 128) mod 256 - 128.

(** Conversion of an [int] to [size_t], as the usual arithmetic conversions
    do when an [int] is compared with a [size_t]. *)
Definition to_size_t (z : Z) : Z := z mod 2 ^ 64.

Definition INT_MAX : Z := 2 ^ 31 - 1.

(** ** Outcomes of a call *)

Inductive outcome (A : Type) : Type :=
| Ret (a : A)
| Throw (what : string)
| Undefined.
Arguments Ret {A} a.
Arguments Throw {A} what.
Arguments Undefined {A}.

#[global] Instance outcome_ret : MRet outcome := fun A a => Ret a.
#[global] Instance outcome_bind : MBind outcome := fun A B k m =>
  match m with
  | Ret a => k a
  | Throw what => Throw what
  | Undefined => Undefined
  end.

#[global] Instance outcome_fmap : FMap outcome := fun A B g m =>
  match m with
  | Ret a => Ret (g a)
  | Throw what => Throw what
  | Undefined => Undefined
  end.

Definition returns {A} (m : outcome A) : Prop := exists a, m = Ret a.

(** [*p] for a pointer [p]. *)
Definition deref {A} (p : option A) : outcome A :=
  match p with
  | Some a => Ret a
  | None => Undefined
  end.

(** ** compactField: a 6x10 window of the field in one 64-bit word *)

Definition compactField := Z.

Module CompactField.

Definition fieldMask : Z := Z.shiftl 1 10 - 1.
Definition fullMask : Z := Z.shiftl 1 60 - 1.

Definition collide (field f : compactField) : bool :=
  negb (Z.land field f =? 0).

(** [result <<= x] or [result >>= (-x)] on a [uint64_t]. *)
Definition tileMove (field : compactField) (x : Z) : compactField :=
  if 0 <=? x then u64 (Z.shiftl field x) else Z.shiftr field (- x).

(** The shift counts for which [tileMove] is defined in C++. *)
Definition shiftDefined (x : Z) : bool := (-64 <? x) && (x <? 64).

Definition fieldDown (field : compactField) (row : Z) : compactField :=
  let result := u64 (Z.shiftl field 10) in
  let result := Z.land result fullMask in
  let rowData := Z.land row fieldMask in
  Z.lor result rowData.

Definition fieldUp (field : compactField) (row : Z) : compactField :=
  let result := Z.land field fullMask in
  let result := Z.shiftr result 10 in
  let rowData := Z.land row fieldMask in
  Z.lor result (u64 (Z.shiftl rowData 50)).

End CompactField.

(** ** tileDirection

    The class wraps a [uint8_t]; every direction the model layer builds is
    one of the four values of [enumTileDirection] (the rotation methods mask
    with [0x03]), and the four-entry arrays of a tile are indexed by it. *)

Inductive tileDirection : Type := initial | right | halfTurned | left.

#[global] Instance tileDirection_eq_dec : EqDecision tileDirection.
Proof. solve_decision. Defined.

Module TileDirection.

Definition getValue (d : tileDirection) : Z :=
  match d with initial => 0 | right => 1 | halfTurned => 2 | left => 3 end.

Definition ofValue (v : Z) : tileDirection :=
  match v with 0 => initial | 1 => right | 2 => halfTurned | _ => left end.

Definition rotateCW (d : tileDirection) : tileDirection :=
  ofValue (Z.land (getValue d + 1) 3).

Definition rotateCCW (d : tileDirection) : tileDirection :=
  ofValue (Z.land (getValue d - 1) 3).

Definition halfTurn (d : tileDirection) : tileDirection :=
  ofValue (Z.land (getValue d + 2) 3).

Definition all : list tileDirection := [initial; right; halfTurned; left].

End TileDirection.

(** ** tileState *)

Record tileState : Type := mkTileState {
  state_dir : tileDirection;
  state_x : Z;   (* int8_t *)
  state_y : Z    (* int8_t *)
}.

Definition tileState_default : tileState := mkTileState initial 0 0.

(** ** tileCoord

    A byte overlaid with two signed 4-bit fields; [x] is the low nibble and
    [y] the high one (the layout of GCC and Clang on little-endian
    targets). *)

Module TileCoord.

Definition sext4 (n : Z) : Z := if n <? 8 then n else n - 16.

Definition x (value : Z) : Z := sext4 (value mod 16).
Definition y (value : Z) : Z := sext4 ((value / 16) mod 16).

Definition set_x (value v : Z) : Z := ((value / 16) mod 16) * 16 + v mod 16.
Definition set_y (value v : Z) : Z := (v mod 16) * 16 + value mod 16.

End TileCoord.

Definition tileCoordAt (x y : Z) : Z :=
  TileCoord.set_y (TileCoord.set_x 0 x) y.

(** ** tile *)

Definition maxNumPixels : Z := 8.
Definition maxNumRotations : Z := 12.

(** [uint8_t[4][6][6]]. *)
Definition tileData := list (list (list Z)).

(** [uint8_t[4][4][maxNumRotations]], as the 192 bytes it occupies:
    [result[i][j][k]] is the byte at [48 * i + 12 * j + k]. *)
Definition tileRotationTable := list Z.

Module RotationTable.

Definition index (i j k : Z) : nat := Z.to_nat (48 * i + 12 * j + k).

(** [t[i][j][k]]; an index [k] outside the twelve bytes of [t[i][j]] is
    outside the array that is read. *)
Definition get (t : tileRotationTable) (i j k : Z) : outcome Z :=
  if (0 <=? k) && (k <? maxNumRotations)
  then match t !! index i j k with
       | Some v => Ret v
       | None => Undefined
       end
  else Undefined.

Definition set (t : tileRotationTable) (i j k v : Z) : tileRotationTable :=
  <[index i j k := v]> t.

End RotationTable.

(** The arrays of a tile hold what the constructor wrote: the pixels (or
    kicks) and, when there is room, the zero that ends them. The bytes
    after that zero are never written and never read. *)
Record tile : Type := mkTile {
  tile_data : tileDirection -> list Z;
  tile_loc : tileDirection -> list Z;
  tile_min : tileDirection -> Z;
  tile_max : tileDirection -> Z;
  tile_compactTile : tileDirection -> Z;
  tile_rotateTable : tileDirection -> tileDirection -> list Z
}.

Module Tile.

(** State of the scan of one orientation. *)
Record scan : Type := mkScan {
  s_data : list Z;
  s_loc : list Z;
  s_compact : Z;
  s_vmin : Z;
  s_vmax : Z
}.

Definition input_at (input : tileData) (i y x : Z) : Z :=
  nth (Z.to_nat x) (nth (Z.to_nat (5 - y)) (nth (Z.to_nat i) input []) []) 0.

(** Body of the loop over [x], at the cell [(x, y)]. *)
Definition scanCell (input : tileData) (i : Z) (s : scan) (c : Z * Z)
  : outcome scan :=
  let '(x, y) := c in
  let v := input_at input i y x in
  if v =? 0 then Ret s
  else if maxNumPixels <=? Z.of_nat (length (s_data s))
  then Throw "too many pixels"
  else
    let vmin := s_vmin s in
    let vmax := s_vmax s in
    let vmin := if (TileCoord.x vmin =? 0) || (x <? TileCoord.x vmin)
                then TileCoord.set_x vmin x else vmin in
    let vmin := if (TileCoord.y vmin =? 0) || (y <? TileCoord.y vmin)
                then TileCoord.set_y vmin y else vmin in
    let vmax := if (TileCoord.x vmax =? 0) || (TileCoord.x vmax <? x)
                then TileCoord.set_x vmax x else vmax in
    let vmax := if (TileCoord.y vmax =? 0) || (TileCoord.y vmax <? y)
                then TileCoord.set_y vmax y else vmax in
    Ret {| s_data := s_data s ++ [v];
           s_loc := s_loc s ++ [tileCoordAt x y];
           s_compact := Z.lor (s_compact s)
                          (u64 (Z.shiftl (u64 (Z.shiftl 1 x)) (10 * y)));
           s_vmin := vmin;
           s_vmax := vmax |}.

(** The cells in the order the two loops visit them: [y] outside, [x]
    inside. *)
Definition cells : list (Z * Z) :=
  y ← [0; 1; 2; 3; 4; 5]; x ← [0; 1; 2; 3; 4; 5]; [(x, y)].

Fixpoint scanCells (input : tileData) (i : Z) (cs : list (Z * Z)) (s : scan)
  : outcome scan :=
  match cs with
  | [] => Ret s
  | c :: cs' => s' ← scanCell input i s c; scanCells input i cs' s'
  end.

Definition scanOrientation (input : tileData) (i : Z) : outcome scan :=
  s ← scanCells input i cells (mkScan [] [] 0 0 0);
  if Z.of_nat (length (s_data s)) <? maxNumPixels
  then Ret {| s_data := s_data s ++ [0]; s_loc := s_loc s ++ [0];
              s_compact := s_compact s;
              s_vmin := s_vmin s; s_vmax := s_vmax s |}
  else Ret s.

(** The [while] loop that copies the kicks of one [(i, j)] entry;
    [acc] holds the [numRotations] bytes copied so far. After twelve
    non-zero bytes the condition of the loop reads [rotation[i][j][12]],
    past the entry, before the test that throws is reached. *)
Fixpoint copyRotations (fuel : nat) (rotation : tileRotationTable)
    (i j : Z) (acc : list Z) : outcome (list Z) :=
  match fuel with
  | O => Undefined
  | S fuel' =>
    let numRotations := Z.of_nat (length acc) in
    v ← RotationTable.get rotation i j numRotations;
    if v =? 0
    then Ret (if numRotations <? maxNumRotations then acc ++ [0] else acc)
    else if maxNumRotations <=? numRotations
    then Throw "too many rotations"
    else copyRotations fuel' rotation i j (acc ++ [v])
  end.

Definition scanRotation (rotation : tileRotationTable) (i j : Z)
  : outcome (list Z) :=
  copyRotations 14 rotation i j [].

(** [tile::tile(dataType, rotationType)]. *)
Definition make (input : tileData) (rotation : tileRotationTable)
  : outcome tile :=
  s0 ← scanOrientation input 0;
  s1 ← scanOrientation input 1;
  s2 ← scanOrientation input 2;
  s3 ← scanOrientation input 3;
  let pick (d : tileDirection) :=
    match d with initial => s0 | right => s1 | halfTurned => s2 | left => s3 end in
  rs ← mapM (fun i =>
          mapM (fun j => scanRotation rotation i j) [0; 1; 2; 3])
        [0; 1; 2; 3];
  Ret {| tile_data := fun d => s_data (pick d);
         tile_loc := fun d => s_loc (pick d);
         tile_min := fun d => s_vmin (pick d);
         tile_max := fun d => s_vmax (pick d);
         tile_compactTile := fun d => s_compact (pick d);
         tile_rotateTable := fun i j =>
           nth (Z.to_nat (TileDirection.getValue j))
             (nth (Z.to_nat (TileDirection.getValue i)) rs []) [] |}.

(** [tile::initTileState]. *)
Definition initTileState (t : tile) : tileState :=
  {| state_dir := initial;
     state_x := 2;
     state_y := i8 (19 - TileCoord.y (tile_min t initial)) |}.

End Tile.

(** ** The seven tetrominoes (tetromino.hpp, tetromino.cpp) *)

Inductive tetromino : Type :=
| tetromino_J | tetromino_L | tetromino_S | tetromino_Z
| tetromino_T | tetromino_I | tetromino_O.

Definition tetromino_value (typ : tetromino) : Z :=
  match typ with
  | tetromino_J => 1 | tetromino_L => 2 | tetromino_S => 3 | tetromino_Z => 4
  | tetromino_T => 5 | tetromino_I => 6 | tetromino_O => 7
  end.

(** The bitmaps are written upside-down: the first row of a bitmap is the
    top row of the tile. *)
Definition createTetrominoTileData (typ : tetromino) (value : Z) : tileData :=
  let v := if value =? 0 then tetromino_value typ else value in
  match typ with
  | tetromino_J =>
    [ [ [0;0;0;0;0;0]; [0;0;0;0;0;0]; [0;v;0;0;0;0];
        [0;v;v;v;0;0]; [0;0;0;0;0;0]; [0;0;0;0;0;0] ];
      [ [0;0;0;0;0;0]; [0;0;0;0;0;0]; [0;0;v;v;0;0];
        [0;0;v;0;0;0]; [0;0;v;0;0;0]; [0;0;0;0;0;0] ];
      [ [0;0;0;0;0;0]; [0;0;0;0;0;0]; [0;0;0;0;0;0];
        [0;v;v;v;0;0]; [0;0;0;v;0;0]; [0;0;0;0;0;0] ];
      [ [0;0;0;0;0;0]; [0;0;0;0;0;0]; [0;0;v;0;0;0];
        [0;0;v;0;0;0]; [0;v;v;0;0;0]; [0;0;0;0;0;0] ] ]
  | tetromino_L =>
    [ [ [0;0;0;0;0;0]; [0;0;0;0;0;0]; [0;0;0;v;0;0];
        [0;v;v;v;0;0]; [0;0;0;0;0;0]; [0;0;0;0;0;0] ];
      [ [0;0;0;0;0;0]; [0;0;0;0;0;0]; [0;0;v;0;0;0];
        [0;0;v;0;0;0]; [0;0;v;v;0;0]; [0;0;0;0;0;0] ];
      [ [0;0;0;0;0;0]; [0;0;0;0;0;0]; [0;0;0;0;0;0];
        [0;v;v;v;0;0]; [0;v;0;0;0;0]; [0;0;0;0;0;0] ];
      [ [0;0;0;0;0;0]; [0;0;0;0;0;0]; [0;v;v;0;0;0];
        [0;0;v;0;0;0]; [0;0;v;0;0;0]; [0;0;0;0;0;0] ] ]
  | tetromino_S =>
    [ [ [0;0;0;0;0;0]; [0;0;0;0;0;0]; [0;0;v;v;0;0];
        [0;v;v;0;0;0]; [0;0;0;0;0;0]; [0;0;0;0;0;0] ];
      [ [0;0;0;0;0;0]; [0;0;0;0;0;0]; [0;0;v;0;0;0];
        [0;0;v;v;0;0]; [0;0;0;v;0;0]; [0;0;0;0;0;0] ];
      [ [0;0;0;0;0;0]; [0;0;0;0;0;0]; [0;0;0;0;0;0];
        [0;0;v;v;0;0]; [0;v;v;0;0;0]; [0;0;0;0;0;0] ];
      [ [0;0;0;0;0;0]; [0;0;0;0;0;0]; [0;v;0;0;0;0];
        [0;v;v;0;0;0]; [0;0;v;0;0;0]; [0;0;0;0;0;0] ] ]
  | tetromino_Z =>
    [ [ [0;0;0;0;0;0]; [0;0;0;0;0;0]; [0;v;v;0;0;0];
        [0;0;v;v;0;0]; [0;0;0;0;0;0]; [0;0;0;0;0;0] ];
      [ [0;0;0;0;0;0]; [0;0;0;0;0;0]; [0;0;0;v;0;0];
        [0;0;v;v;0;0]; [0;0;v;0;0;0]; [0;0;0;0;0;0] ];
      [ [0;0;0;0;0;0]; [0;0;0;0;0;0]; [0;0;0;0;0;0];
        [0;v;v;0;0;0]; [0;0;v;v;0;0]; [0;0;0;0;0;0] ];
      [ [0;0;0;0;0;0]; [0;0;0;0;0;0]; [0;0;v;0;0;0];
        [0;v;v;0;0;0]; [0;v;0;0;0;0]; [0;0;0;0;0;0] ] ]
  | tetromino_I =>
    [ [ [0;0;0;0;0;0]; [0;0;0;0;0;0]; [0;v;v;v;v;0];
        [0;0;0;0;0;0]; [0;0;0;0;0;0]; [0;0;0;0;0;0] ];
      [ [0;0;0;0;0;0]; [0;0;0;v;0;0]; [0;0;0;v;0;0];
        [0;0;0;v;0;0]; [0;0;0;v;0;0]; [0;0;0;0;0;0] ];
      [ [0;0;0;0;0;0]; [0;0;0;0;0;0]; [0;0;0;0;0;0];
        [0;v;v;v;v;0]; [0;0;0;0;0;0]; [0;0;0;0;0;0] ];
      [ [0;0;0;0;0;0]; [0;0;v;0;0;0]; [0;0;v;0;0;0];
        [0;0;v;0;0;0]; [0;0;v;0;0;0]; [0;0;0;0;0;0] ] ]
  | tetromino_O =>
    [ [ [0;0;0;0;0;0]; [0;0;0;0;0;0]; [0;0;v;v;0;0];
        [0;0;v;v;0;0]; [0;0;0;0;0;0]; [0;0;0;0;0;0] ];
      [ [0;0;0;0;0;0]; [0;0;0;0;0;0]; [0;0;v;v;0;0];
        [0;0;v;v;0;0]; [0;0;0;0;0;0]; [0;0;0;0;0;0] ];
      [ [0;0;0;0;0;0]; [0;0;0;0;0;0]; [0;0;v;v;0;0];
        [0;0;v;v;0;0]; [0;0;0;0;0;0]; [0;0;0;0;0;0] ];
      [ [0;0;0;0;0;0]; [0;0;0;0;0;0]; [0;0;v;v;0;0];
        [0;0;v;v;0;0]; [0;0;0;0;0;0]; [0;0;0;0;0;0] ] ]
  | tetromino_T =>
    [ [ [0;0;0;0;0;0]; [0;0;0;0;0;0]; [0;0;v;0;0;0];
        [0;v;v;v;0;0]; [0;0;0;0;0;0]; [0;0;0;0;0;0] ];
      [ [0;0;0;0;0;0]; [0;0;0;0;0;0]; [0;0;v;0;0;0];
        [0;0;v;v;0;0]; [0;0;v;0;0;0]; [0;0;0;0;0;0] ];
      [ [0;0;0;0;0;0]; [0;0;0;0;0;0]; [0;0;0;0;0;0];
        [0;v;v;v;0;0]; [0;0;v;0;0;0]; [0;0;0;0;0;0] ];
      [ [0;0;0;0;0;0]; [0;0;0;0;0;0]; [0;0;v;0;0;0];
        [0;v;v;0;0;0]; [0;0;v;0;0;0]; [0;0;0;0;0;0] ] ]
  end.

Module TetrominoRotation.

(** [coord.x = -coord.x; coord.y = -coord.y]. *)
Definition negate (value : Z) : Z :=
  let value := TileCoord.set_x value (- TileCoord.x value) in
  TileCoord.set_y value (- TileCoord.y value).

(** First loop: [result[i][j][0] = 0] for every [i], [j]. *)
Definition clearHeads (result : tileRotationTable) : tileRotationTable :=
  foldl (fun r '(i, j) => RotationTable.set r i j 0 0) result
    (i ← [0; 1; 2; 3]; j ← [0; 1; 2; 3]; [(i, j)]).

(** [result[i][j][0..3] = a, b, c, d; result[i][j][4] = 0]. *)
Definition fill (result : tileRotationTable) (i j a b c d : Z)
  : tileRotationTable :=
  let r := RotationTable.set result i j 0 a in
  let r := RotationTable.set r i j 1 b in
  let r := RotationTable.set r i j 2 c in
  let r := RotationTable.set r i j 3 d in
  RotationTable.set r i j 4 0.

Definition monotonic (result : tileRotationTable) (typ : tetromino)
  : tileRotationTable :=
  match typ with
  | tetromino_J | tetromino_L | tetromino_S | tetromino_Z | tetromino_T =>
    let r := fill result 0 1 (tileCoordAt (-1) 0) (tileCoordAt (-1) 1)
               (tileCoordAt 0 (-2)) (tileCoordAt (-1) (-2)) in
    let r := fill r 1 2 (tileCoordAt 1 0) (tileCoordAt 1 (-1))
               (tileCoordAt 0 2) (tileCoordAt 1 2) in
    let r := fill r 2 3 (tileCoordAt 1 0) (tileCoordAt 1 1)
               (tileCoordAt 0 (-2)) (tileCoordAt 1 (-2)) in
    fill r 3 0 (tileCoordAt (-1) 0) (tileCoordAt (-1) (-1))
      (tileCoordAt 0 2) (tileCoordAt (-1) 2)
  | tetromino_I =>
    let r := fill result 0 1 (tileCoordAt (-2) 0) (tileCoordAt 1 0)
               (tileCoordAt (-2) (-1)) (tileCoordAt 1 2) in
    let r := fill r 1 2 (tileCoordAt 2 0) (tileCoordAt (-1) 0)
               (tileCoordAt (-1) 2) (tileCoordAt 2 (-1)) in
    let r := fill r 2 3 (tileCoordAt 2 0) (tileCoordAt (-1) 0)
               (tileCoordAt 2 1) (tileCoordAt (-1) (-2)) in
    fill r 3 0 (tileCoordAt (-2) 0) (tileCoordAt 1 0)
      (tileCoordAt 1 (-2)) (tileCoordAt (-2) 1)
  | tetromino_O => result
  end.

(** The loop over [k] of the inverse transform, from [k] on: it stops at
    the first zero byte of [result[i][j]], before writing anything for
    it. *)
Fixpoint inverseEntry (fuel : nat) (k i j : Z) (result : tileRotationTable)
  : outcome tileRotationTable :=
  match fuel with
  | O => Ret result
  | S fuel' =>
    v ← RotationTable.get result i j k;
    if v =? 0 then Ret result
    else inverseEntry fuel' (k + 1) i j
           (RotationTable.set result j i k (negate v))
  end.

Fixpoint inverseAll (ijs : list (Z * Z)) (result : tileRotationTable)
  : outcome tileRotationTable :=
  match ijs with
  | [] => Ret result
  | (i, j) :: ijs' =>
    r ← inverseEntry 5 0 i j result; inverseAll ijs' r
  end.

End TetrominoRotation.

(** [createTetrominoRotation(result, typ)]: [result] is the caller's array,
    with whatever bytes it holds on entry; the value returned is its
    content on exit. *)
Definition createTetrominoRotation (result : tileRotationTable)
    (typ : tetromino) : outcome tileRotationTable :=
  let r := TetrominoRotation.clearHeads result in
  let r := TetrominoRotation.monotonic r typ in
  TetrominoRotation.inverseAll
    (i ← [0; 1; 2; 3]; j ← [0; 1; 2; 3]; [(i, j)]) r.

(** ** tilePathFinder *)

Record tilePathFinder : Type := mkPathFinder {
  pfd_typ : option tile;
  pfd_state : tileState;
  pfd_version : Z;            (* uint64_t *)
  pfd_current : compactField;
  pfd_previousWallKick : bool
}.

Module TilePathFinder.

(** [tilePathFinder()]. *)
Definition null : tilePathFinder :=
  mkPathFinder None tileState_default 0 0 false.

(** [tilePathFinder(typ, state)]. *)
Definition at_state (typ : option tile) (state : tileState) : tilePathFinder :=
  mkPathFinder typ state 0 0 false.

(** [tilePathFinder(typ)], which calls [typ->initTileState()]. *)
Definition of_type (typ : option tile) : outcome tilePathFinder :=
  t ← deref typ; Ret (at_state typ (Tile.initTileState t)).

Definition with_current (pfd : tilePathFinder) (c : compactField) :=
  mkPathFinder (pfd_typ pfd) (pfd_state pfd) (pfd_version pfd) c
    (pfd_previousWallKick pfd).

Definition with_state (pfd : tilePathFinder) (s : tileState) :=
  mkPathFinder (pfd_typ pfd) s (pfd_version pfd) (pfd_current pfd)
    (pfd_previousWallKick pfd).

Definition with_version (pfd : tilePathFinder) (v : Z) :=
  mkPathFinder (pfd_typ pfd) (pfd_state pfd) v (pfd_current pfd)
    (pfd_previousWallKick pfd).

Definition with_previousWallKick (pfd : tilePathFinder) (b : bool) :=
  mkPathFinder (pfd_typ pfd) (pfd_state pfd) (pfd_version pfd)
    (pfd_current pfd) b.

End TilePathFinder.

(** ** field *)

(** [std::array<uint8_t, 10>]. *)
Abbreviation fieldRow := (list Z).

Record field : Type := mkField {
  field_compactFields : list Z;     (* std::vector<uint16_t> *)
  field_fields : list fieldRow;     (* std::vector<fieldRow> *)
  field_version : Z                 (* uint64_t *)
}.

Module Field.

(** [field()]. *)
Definition new : field := mkField [] [] 1.

Definition solidRow : Z := Z.shiftl 1 10 - 1.

(** [v[i]] on a vector, for an index already converted to [size_t]. *)
Definition at_index {A} (v : list A) (i : Z) : outcome A :=
  if (0 <=? i) && (i <? Z.of_nat (length v))
  then deref (v !! Z.to_nat i) else Undefined.

Definition compactRowAt (f : field) (y : Z) : Z :=
  if y <? 0 then solidRow
  else if Z.of_nat (length (field_compactFields f)) <=? to_size_t y then 0
  else nth (Z.to_nat y) (field_compactFields f) 0.

Definition rowAt (f : field) (y : Z) (solidCell : Z) : outcome fieldRow :=
  if Z.of_nat (length (field_compactFields f)) <=? to_size_t y
  then Ret (replicate 10 0)
  else if y <? 0 then Ret (replicate 10 solidCell)
  else at_index (field_fields f) y.

Definition assertLegit (f : field) (pfd : tilePathFinder) : outcome unit :=
  if negb (pfd_version pfd =? 0) && negb (pfd_version pfd =? field_version f)
  then Throw "mismatched field version"
  else Ret tt.

(** [isValid], for the tile [*pfd.typ]. *)
Definition isValidFor (typ : tile) (pfd : tilePathFinder) : bool :=
  let state := pfd_state pfd in
  let dir := state_dir state in
  let min := tile_min typ dir in
  let max := tile_max typ dir in
  if state_x state + TileCoord.x min <? 0 then false
  else if 10 <=? state_x state + TileCoord.x max then false
  else if state_y state + TileCoord.y max <? 0 then false
  else
    let compactTile :=
      CompactField.tileMove (tile_compactTile typ dir) (state_x state) in
    negb (CompactField.collide (pfd_current pfd) compactTile).

Definition isValid (pfd : tilePathFinder) : outcome bool :=
  typ ← deref (pfd_typ pfd); Ret (isValidFor typ pfd).

Definition envalidate (f : field) (pfd : tilePathFinder) : tilePathFinder :=
  TilePathFinder.with_version pfd (field_version f).

(** The window of the six rows [y .. y + 5], as [spawn] folds it: row
    [y + 5] goes in first and ends in the top ten bits. *)
Definition window (f : field) (y : Z) : compactField :=
  foldl (fun current i =>
           CompactField.fieldDown current (compactRowAt f (y + i - 1)))
        0 [6; 5; 4; 3; 2; 1].

(** [spawn(pfd)]; the path finder returned is [pfd] as the call leaves
    it. *)
Definition spawn (f : field) (pfd : tilePathFinder)
  : outcome (bool * tilePathFinder) :=
  match pfd_typ pfd with
  | None => Throw "tile not specified"
  | Some typ =>
    let state := pfd_state pfd in
    let pfd := TilePathFinder.with_current pfd (window f (state_y state)) in
    if negb (isValidFor typ pfd) then Ret (false, pfd)
    else Ret (true, envalidate f pfd)
  end.

(** The loop of [move] for [numSteps > 0]; the result is the final [x]. *)
Fixpoint moveRight (numSteps : nat) (current : compactField) (maxx : Z)
    (x : Z) (tile : compactField) : Z :=
  match numSteps with
  | O => x
  | S numSteps' =>
    if x + maxx <? 9 then
      let x := i8 (x + 1) in
      let tile := CompactField.tileMove tile 1 in
      if CompactField.collide current tile then i8 (x - 1)
      else moveRight numSteps' current maxx x tile
    else x
  end.

(** The loop of [move] for [numSteps < 0], [numSteps] counting the steps
    left. *)
Fixpoint moveLeft (numSteps : nat) (current : compactField) (minx : Z)
    (x : Z) (tile : compactField) : Z :=
  match numSteps with
  | O => x
  | S numSteps' =>
    if 0 <? x + minx then
      let x := i8 (x - 1) in
      let tile := CompactField.tileMove tile (-1) in
      if CompactField.collide current tile then i8 (x + 1)
      else moveLeft numSteps' current minx x tile
    else x
  end.

(** [move(pfd, numSteps, result)]; the second component is [result]. *)
Definition move (f : field) (pfd : tilePathFinder) (numSteps : Z)
  : outcome (bool * tilePathFinder) :=
  _ ← assertLegit f pfd;
  let current := pfd_current pfd in
  let state := pfd_state pfd in
  let dir := state_dir state in
  typ ← deref (pfd_typ pfd);
  let tile := tile_compactTile typ dir in
  let x := state_x state in
  if negb (CompactField.shiftDefined x) then Undefined else
  let tile := CompactField.tileMove tile x in
  let x :=
    if 0 <? numSteps then
      moveRight (Z.to_nat numSteps) current
        (TileCoord.x (tile_max typ dir)) x tile
    else if numSteps <? 0 then
      moveLeft (Z.to_nat (- numSteps)) current
        (TileCoord.x (tile_min typ dir)) x tile
    else x in
  if x =? state_x state then Ret (false, TilePathFinder.null)
  else
    let result := TilePathFinder.at_state (pfd_typ pfd) state in
    let result := TilePathFinder.with_current result (pfd_current pfd) in
    let result := TilePathFinder.with_state result
                    (mkTileState (state_dir state) x (state_y state)) in
    Ret (true, envalidate f result).

(** The loop of [drop]; the result is the number of steps left, and
    [result.state.y] and [result.current] on exit. *)
Fixpoint dropLoop (f : field) (tile : compactField) (numSteps : nat)
    (y : Z) (rcurrent : compactField) : nat * Z * compactField :=
  match numSteps with
  | O => (O, y, rcurrent)
  | S numSteps' =>
    let current := CompactField.fieldDown rcurrent (compactRowAt f (y - 1)) in
    if CompactField.collide current tile then (numSteps, y, rcurrent)
    else dropLoop f tile numSteps' (i8 (y - 1)) current
  end.

(** [drop(pfd, numSteps, result)], [numSteps] a [uint8_t]. *)
Definition drop (f : field) (pfd : tilePathFinder) (numSteps : Z)
  : outcome (bool * tilePathFinder) :=
  _ ← assertLegit f pfd;
  let state := pfd_state pfd in
  let dir := state_dir state in
  typ ← deref (pfd_typ pfd);
  let inSteps := Z.to_nat numSteps in
  let tile := tile_compactTile typ dir in
  if negb (CompactField.shiftDefined (state_x state)) then Undefined else
  let tile := CompactField.tileMove tile (state_x state) in
  let '(numSteps, y, rcurrent) :=
    dropLoop f tile inSteps (state_y state) (pfd_current pfd) in
  if Nat.eqb inSteps numSteps then Ret (false, TilePathFinder.null)
  else
    let result := TilePathFinder.at_state (pfd_typ pfd)
                    (mkTileState (state_dir state) (state_x state) y) in
    let result := TilePathFinder.with_current result rcurrent in
    Ret (true, envalidate f result).

(** [while(result.state.y < newStateY)] of [rotate]. *)
Fixpoint windowUp (fuel : nat) (f : field) (newStateY : Z)
    (y : Z) (current : compactField) : Z * compactField :=
  match fuel with
  | O => (y, current)
  | S fuel' =>
    if y <? newStateY then
      windowUp fuel' f newStateY (i8 (y + 1))
        (CompactField.fieldUp current (compactRowAt f (y + 6)))
    else (y, current)
  end.

(** [while(result.state.y > newStateY)] of [rotate]. *)
Fixpoint windowDown (fuel : nat) (f : field) (newStateY : Z)
    (y : Z) (current : compactField) : Z * compactField :=
  match fuel with
  | O => (y, current)
  | S fuel' =>
    if newStateY <? y then
      windowDown fuel' f newStateY (i8 (y - 1))
        (CompactField.fieldDown current (compactRowAt f (y - 1)))
    else (y, current)
  end.

(** The loop of [rotate] over the kicks [table[n]], [n < maxNumRotations];
    [fuel] is the number of entries left and [result] the path finder the
    loop updates. Both [while] loops run at most 255 times, the rows
    being [int8_t]. *)
Fixpoint kickLoop (fuel : nat) (f : field) (typ : tile) (state : tileState)
    (table : list Z) (result : tilePathFinder)
  : outcome (option tilePathFinder) :=
  match fuel with
  | O => Ret None
  | S fuel' =>
    match table with
    | [] => Undefined
    | value :: table' =>
      if value =? 0 then Ret None
      else
        let rx := i8 (state_x state + TileCoord.x value) in
        let newStateY := i8 (state_y state + TileCoord.y value) in
        let '(ry, rcurrent) :=
          windowUp (Z.to_nat 256) f newStateY (state_y (pfd_state result))
            (pfd_current result) in
        let '(ry, rcurrent) := windowDown (Z.to_nat 256) f newStateY ry rcurrent in
        let result := TilePathFinder.with_state result
              (mkTileState (state_dir (pfd_state result)) rx ry) in
        let result := TilePathFinder.with_current result rcurrent in
        if isValidFor typ result
        then Ret (Some (envalidate f
                          (TilePathFinder.with_previousWallKick result true)))
        else kickLoop fuel' f typ state table' result
    end
  end.

(** [rotate(pfd, targetDir, result)]. *)
Definition rotate (f : field) (pfd : tilePathFinder)
    (targetDir : tileDirection) : outcome (bool * tilePathFinder) :=
  _ ← assertLegit f pfd;
  let state := pfd_state pfd in
  let result := TilePathFinder.at_state (pfd_typ pfd) state in
  let result := TilePathFinder.with_state result
                  (mkTileState targetDir (state_x state) (state_y state)) in
  let result := TilePathFinder.with_current result (pfd_current pfd) in
  typ ← deref (pfd_typ pfd);
  if isValidFor typ result then Ret (true, envalidate f result)
  else
    let table := tile_rotateTable typ (state_dir state) targetDir in
    r ← kickLoop (Z.to_nat maxNumRotations) f typ state table result;
    match r with
    | Some result => Ret (true, result)
    | None => Ret (false, TilePathFinder.null)
    end.

(** The loop of [lock] that writes the pixels of the tile. *)
Fixpoint placePixels (fuel : nat) (data loc : list Z) (state : tileState)
    (compactFields : list Z) (fields : list fieldRow)
  : outcome (list Z * list fieldRow) :=
  match fuel with
  | O => Ret (compactFields, fields)
  | S fuel' =>
    match data with
    | [] => Undefined
    | d :: data' =>
      if d =? 0 then Ret (compactFields, fields)
      else
        match loc with
        | [] => Undefined
        | l :: loc' =>
          let x := u8 (state_x state + TileCoord.x l) in
          let y := u8 (state_y state + TileCoord.y l) in
          row ← at_index fields y;
          if Z.of_nat (length row) <=? x then Undefined else
          c ← at_index compactFields y;
          placePixels fuel' data' loc' state
            (<[Z.to_nat y := u16 (Z.lor c (Z.shiftl 1 x))]> compactFields)
            (<[Z.to_nat y := <[Z.to_nat x := d]> row]> fields)
        end
    end
  end.

(** The loop of [lock] that erases the full rows, from [j] on; the result
    carries [clear]. The loop runs at most 256 times, [j] being a
    [uint8_t] below [max.y]. *)
Fixpoint eraseRows (fuel : nat) (j maxy stateY clear : Z)
    (compactFields : list Z) (fields : list fieldRow)
  : outcome (list Z * list fieldRow * Z) :=
  match fuel with
  | O => Ret (compactFields, fields, clear)
  | S fuel' =>
    if j <=? maxy then
      let row := u8 (stateY + j - clear) in
      c ← at_index compactFields row;
      if c =? solidRow then
        if Z.of_nat (length fields) <=? row then Undefined else
        eraseRows fuel' (u8 (j + 1)) maxy stateY (u8 (clear + 1))
          (delete (Z.to_nat row) compactFields)
          (delete (Z.to_nat row) fields)
      else eraseRows fuel' (u8 (j + 1)) maxy stateY clear compactFields fields
    else Ret (compactFields, fields, clear)
  end.

(** [lock(pfd, clear)]: the value returned, the field and [clear] as the
    call leaves them. *)
Definition lock (f : field) (pfd : tilePathFinder)
  : outcome (bool * field * Z) :=
  _ ← assertLegit f pfd;
  typ ← deref (pfd_typ pfd);
  if negb (isValidFor typ pfd) then Ret (false, f, 0) else
  '(dropped, _) ← drop f pfd 1;
  if (dropped : bool) then Ret (false, f, 0) else
  let state := pfd_state pfd in
  let dir := state_dir state in
  let min := tile_min typ dir in
  let max := tile_max typ dir in
  (* while(state.y + max.y >= fields.size()), the left side converted
     to size_t; it is not negative after isValid. *)
  let top := to_size_t (state_y state + TileCoord.y max) in
  let missing := Z.to_nat (top + 1 - Z.of_nat (length (field_fields f))) in
  let fields := field_fields f ++ replicate missing (replicate 10 0) in
  let compactFields := field_compactFields f ++ replicate missing 0 in
  '(compactFields, fields) ←
    placePixels (Z.to_nat maxNumPixels) (tile_data typ dir) (tile_loc typ dir)
      state compactFields fields;
  '(compactFields, fields, clear) ←
    eraseRows (Z.to_nat 256) (u8 (TileCoord.y min)) (TileCoord.y max) (state_y state) 0
      compactFields fields;
  Ret (true, mkField compactFields fields (u64 (field_version f + 1)), clear).

(** [grow(row)]. *)
Definition grow (f : field) (row : fieldRow) : field :=
  let compactLine :=
    foldl (fun line i =>
             u16 (Z.lor line (if nth (Z.to_nat i) row 0 =? 0 then 0
                              else Z.shiftl 1 i)))
          0 [0; 1; 2; 3; 4; 5; 6; 7; 8; 9] in
  mkField (compactLine :: field_compactFields f) (row :: field_fields f)
    (u64 (field_version f + 1)).

End Field.

(** ** Tile generators (generator.hpp, generator.cpp) *)

(** The interface [tileGenerator]: [generate] returns the next tile, or
    [nullptr] when the tiles are exhausted, and the generator after the
    call. *)
Class tileGenerator (G : Type) : Type :=
  generate : G -> outcome (option tile * G).

(** [std::shuffle] with the [std::mt19937] engine kept in [workData] is
    library code: the permutator is modelled over any engine state [R],
    any seeding function and any shuffle. *)
Record tilePermutator (R : Type) : Type := mkPermutator {
  perm_series : list (option tile);
  perm_numTiles : Z;    (* size_t *)
  perm_pointer : Z;     (* int *)
  perm_workData : R
}.
Arguments mkPermutator {R}.
Arguments perm_series {R}.
Arguments perm_numTiles {R}.
Arguments perm_pointer {R}.
Arguments perm_workData {R}.

Module TilePermutator.
Section with_engine.

Context {R : Type}.
Variable seedEngine : Z -> R.
Variable shuffle : R -> list (option tile) -> list (option tile) * R.

Definition permutate (p : tilePermutator R) : tilePermutator R :=
  let '(series, workData) := shuffle (perm_workData p) (perm_series p) in
  mkPermutator series (perm_numTiles p) (perm_pointer p) workData.

(** [tilePermutator(tiles, numTiles, seed)], [tiles] being the
    [numTiles] pointers of the caller's array. *)
Definition make (tiles : list (option tile)) (seed : Z) : tilePermutator R :=
  permutate (mkPermutator tiles (Z.of_nat (length tiles)) 0 (seedEngine seed)).

(** [generate()]; incrementing an [int] equal to [INT_MAX] is undefined. *)
Definition generate (p : tilePermutator R)
  : outcome (option tile * tilePermutator R) :=
  result ← Field.at_index (perm_series p) (perm_pointer p);
  if INT_MAX <=? perm_pointer p then Undefined else
  let pointer := perm_pointer p + 1 in
  if perm_numTiles p <=? to_size_t pointer then
    Ret (result,
         permutate (mkPermutator (perm_series p) (perm_numTiles p) 0
                      (perm_workData p)))
  else
    Ret (result,
         mkPermutator (perm_series p) (perm_numTiles p) pointer
           (perm_workData p)).

(** The results of [n] successive calls of [generate()]. *)
Fixpoint draws (n : nat) (p : tilePermutator R)
  : outcome (list (option tile) * tilePermutator R) :=
  match n with
  | O => Ret ([], p)
  | S n' =>
    '(t, p) ← generate p;
    '(ts, p) ← draws n' p;
    Ret (t :: ts, p)
  end.

End with_engine.
End TilePermutator.

(** ** playground (playground.hpp, playground.cpp) *)

Inductive playgroundState : Type :=
| notStarted | inGame | topOut | exhausted | completed.

#[global] Instance playgroundState_eq_dec : EqDecision playgroundState.
Proof. solve_decision. Defined.

(** The calls [dispatch] makes on the listeners. *)
Inductive event : Type :=
| tileSpawn (type : tile) (location locationShadow : tileState)
| tileMove (type : tile) (before beforeShadow after afterShadow : tileState)
    (wallKick : bool)
| tileBeforeLock (type : tile) (location : tileState)
| tileLock (type : tile) (location : tileState) (clear : Z)
| tileSwap (type : tile) (location locationShadow : tileState)
| gameEnd (endState : playgroundState).

Record playground (G : Type) : Type := mkPlayground {
  pg_f : field;
  pg_generator : G;
  pg_swap : option tile;
  pg_swapEnabled : bool;
  pg_current : tilePathFinder;
  pg_shadow : tilePathFinder;
  pg_numPreviews : Z;               (* int *)
  pg_preview : list (option tile);
  pg_previewCursor : Z;             (* int *)
  pg_state : playgroundState;
  pg_events : list event            (* what was dispatched, oldest first *)
}.
Arguments mkPlayground {G}.
Arguments pg_f {G}.
Arguments pg_generator {G}.
Arguments pg_swap {G}.
Arguments pg_swapEnabled {G}.
Arguments pg_current {G}.
Arguments pg_shadow {G}.
Arguments pg_numPreviews {G}.
Arguments pg_preview {G}.
Arguments pg_previewCursor {G}.
Arguments pg_state {G}.
Arguments pg_events {G}.

Module Playground.
Section with_generator.

Context {G : Type} `{!tileGenerator G}.

#[local] Abbreviation playground := (playground G).

Definition dispatch (pg : playground) (e : event) : playground :=
  mkPlayground (pg_f pg) (pg_generator pg) (pg_swap pg) (pg_swapEnabled pg)
    (pg_current pg) (pg_shadow pg) (pg_numPreviews pg) (pg_preview pg)
    (pg_previewCursor pg) (pg_state pg) (pg_events pg ++ [e]).

Definition set_pieces (pg : playground) (current shadow : tilePathFinder)
  : playground :=
  mkPlayground (pg_f pg) (pg_generator pg) (pg_swap pg) (pg_swapEnabled pg)
    current shadow (pg_numPreviews pg) (pg_preview pg)
    (pg_previewCursor pg) (pg_state pg) (pg_events pg).

Definition set_state (pg : playground) (state : playgroundState)
  : playground :=
  mkPlayground (pg_f pg) (pg_generator pg) (pg_swap pg) (pg_swapEnabled pg)
    (pg_current pg) (pg_shadow pg) (pg_numPreviews pg) (pg_preview pg)
    (pg_previewCursor pg) state (pg_events pg).

Definition set_swap (pg : playground) (swap : option tile)
    (swapEnabled : bool) : playground :=
  mkPlayground (pg_f pg) (pg_generator pg) swap swapEnabled
    (pg_current pg) (pg_shadow pg) (pg_numPreviews pg) (pg_preview pg)
    (pg_previewCursor pg) (pg_state pg) (pg_events pg).

Definition set_field (pg : playground) (f : field) : playground :=
  mkPlayground f (pg_generator pg) (pg_swap pg) (pg_swapEnabled pg)
    (pg_current pg) (pg_shadow pg) (pg_numPreviews pg) (pg_preview pg)
    (pg_previewCursor pg) (pg_state pg) (pg_events pg).

Definition set_previews (pg : playground) (generator : G)
    (preview : list (option tile)) (previewCursor : Z) : playground :=
  mkPlayground (pg_f pg) generator (pg_swap pg) (pg_swapEnabled pg)
    (pg_current pg) (pg_shadow pg) (pg_numPreviews pg) preview
    previewCursor (pg_state pg) (pg_events pg).

Definition isInGame (pg : playground) : bool :=
  bool_decide (pg_state pg = inGame).

(** The loop of the constructor that fills the previews. *)
Fixpoint fillPreviews (n : nat) (generator : G)
  : outcome (list (option tile) * G) :=
  match n with
  | O => Ret ([], generator)
  | S n' =>
    '(t, generator) ← generate generator;
    '(ts, generator) ← fillPreviews n' generator;
    Ret (t :: ts, generator)
  end.

(** [playground(generator, numPreviews)]; [new const tile*[numPreviews]]
    throws for a negative size. *)
Definition make (generator : G) (numPreviews : Z) : outcome playground :=
  if numPreviews <? 0 then Throw "std::bad_array_new_length" else
  '(preview, generator) ← fillPreviews (Z.to_nat numPreviews) generator;
  Ret (mkPlayground Field.new generator None true TilePathFinder.null
         TilePathFinder.null numPreviews preview 0 notStarted []).

(** [spawnTile(typ)]. *)
Definition spawnTile (pg : playground) (typ : option tile)
  : outcome playground :=
  current ← TilePathFinder.of_type typ;
  shadow ← TilePathFinder.of_type typ;
  '(spawned, current) ← Field.spawn (pg_f pg) current;
  if negb spawned then
    current ← TilePathFinder.of_type typ;
    let pg := set_state (set_pieces pg current shadow) topOut in
    type ← deref (pfd_typ current);
    let pg := dispatch pg
                (tileSpawn type (pfd_state current) (pfd_state shadow)) in
    Ret (dispatch pg (gameEnd topOut))
  else
    '(dropped, newShadow) ← Field.drop (pg_f pg) current 20;
    let shadow := if (dropped : bool) then newShadow else shadow in
    let pg := set_pieces pg current shadow in
    type ← deref (pfd_typ current);
    Ret (dispatch pg
           (tileSpawn type (pfd_state current) (pfd_state shadow))).

(** [spawnNextTile()]. *)
Definition spawnNextTile (pg : playground) : outcome playground :=
  currentType ← Field.at_index (pg_preview pg) (pg_previewCursor pg);
  match currentType with
  | None =>
    let pg := set_pieces pg TilePathFinder.null TilePathFinder.null in
    let pg := set_state pg exhausted in
    Ret (dispatch pg (gameEnd exhausted))
  | Some _ =>
    previous ←
      (if pg_previewCursor pg =? 0
       then Field.at_index (pg_preview pg) (pg_numPreviews pg - 1)
       else Field.at_index (pg_preview pg) (pg_previewCursor pg - 1));
    '(next, generator) ←
      match previous with
      | Some _ => generate (pg_generator pg)
      | None => Ret (None, pg_generator pg)
      end;
    let preview :=
      <[Z.to_nat (pg_previewCursor pg) := next]> (pg_preview pg) in
    let previewCursor := pg_previewCursor pg + 1 in
    let previewCursor :=
      if pg_numPreviews pg <=? previewCursor then 0 else previewCursor in
    spawnTile (set_previews pg generator preview previewCursor) currentType
  end.

(** [start()]. *)
Definition start (pg : playground) : outcome playground :=
  if negb (bool_decide (pg_state pg = notStarted)) then Ret pg
  else spawnNextTile (set_state pg inGame).

(** [complete()]. *)
Definition complete (pg : playground) : outcome playground :=
  if negb (isInGame pg) then Ret pg
  else Ret (dispatch (set_state pg completed) (gameEnd completed)).

(** [tileMove(pfd)]. *)
Definition tileMove (pg : playground) (pfd : tilePathFinder)
  : outcome playground :=
  let before := pg_current pg in
  let current := pfd in
  '(dropped, newShadow) ← Field.drop (pg_f pg) current 20;
  let newShadow := if (dropped : bool) then newShadow else current in
  let beforeShadow := pg_shadow pg in
  let pg := set_pieces pg current newShadow in
  type ← deref (pfd_typ current);
  Ret (dispatch pg
         (tileMove type (pfd_state before) (pfd_state beforeShadow)
            (pfd_state current) (pfd_state newShadow)
            (pfd_previousWallKick current))).

(** [move(movement)]. *)
Definition move (pg : playground) (movement : Z)
  : outcome (bool * playground) :=
  if negb (isInGame pg) then Ret (false, pg) else
  '(moved, pfd) ← Field.move (pg_f pg) (pg_current pg) movement;
  if negb moved then Ret (false, pg) else
  pg ← tileMove pg pfd; Ret (true, pg).

(** [drop(movement)]. *)
Definition drop (pg : playground) (movement : Z)
  : outcome (bool * playground) :=
  if negb (isInGame pg) then Ret (false, pg) else
  '(moved, pfd) ← Field.drop (pg_f pg) (pg_current pg) movement;
  if negb moved then Ret (false, pg) else
  pg ← tileMove pg pfd; Ret (true, pg).

(** [rotate(newDir)]. *)
Definition rotate (pg : playground) (newDir : tileDirection)
  : outcome (bool * playground) :=
  if negb (isInGame pg) then Ret (false, pg) else
  '(moved, pfd) ← Field.rotate (pg_f pg) (pg_current pg) newDir;
  if negb moved then Ret (false, pg) else
  pg ← tileMove pg pfd; Ret (true, pg).

Definition rotateCCW (pg : playground) : outcome (bool * playground) :=
  if negb (isInGame pg) then Ret (false, pg) else
  rotate pg (TileDirection.rotateCCW (state_dir (pfd_state (pg_current pg)))).

Definition rotateCW (pg : playground) : outcome (bool * playground) :=
  if negb (isInGame pg) then Ret (false, pg) else
  rotate pg (TileDirection.rotateCW (state_dir (pfd_state (pg_current pg)))).

Definition halfTurn (pg : playground) : outcome (bool * playground) :=
  if negb (isInGame pg) then Ret (false, pg) else
  rotate pg (TileDirection.halfTurn (state_dir (pfd_state (pg_current pg)))).

(** [hardDrop()]. *)
Definition hardDrop (pg : playground) : outcome (bool * playground) :=
  if negb (isInGame pg) then Ret (false, pg) else
  '(_, pg) ← drop pg 20;
  type ← deref (pfd_typ (pg_current pg));
  let location := pfd_state (pg_current pg) in
  let pg := dispatch pg (tileBeforeLock type location) in
  '(_, f, clear) ← Field.lock (pg_f pg) (pg_current pg);
  let pg := set_field pg f in
  let pg := set_pieces pg TilePathFinder.null TilePathFinder.null in
  let pg := set_swap pg (pg_swap pg) true in
  let pg := dispatch pg (tileLock type location clear) in
  pg ← (if isInGame pg then spawnNextTile pg else Ret pg);
  Ret (true, pg).

(** [swapTile()]. *)
Definition swapTile (pg : playground) : outcome (bool * playground) :=
  if negb (isInGame pg) then Ret (false, pg) else
  if negb (pg_swapEnabled pg) then Ret (false, pg) else
  let typ := pfd_typ (pg_current pg) in
  let previous := pg_swap pg in
  let location := pfd_state (pg_current pg) in
  let locationShadow := pfd_state (pg_shadow pg) in
  let pg := set_pieces pg TilePathFinder.null TilePathFinder.null in
  let pg := set_swap pg typ (bool_decide (previous = None)) in
  type ← deref typ;
  let pg := dispatch pg (tileSwap type location locationShadow) in
  pg ← match previous with
       | None => spawnNextTile pg
       | Some _ => spawnTile pg previous
       end;
  Ret (true, pg).

(** The calls a controller can make on a playground. *)
Inductive command : Type :=
| Start | Complete | Move (dx : Z) | Drop (dy : Z) | HardDrop
| RotateCCW | RotateCW | HalfTurn | SwapTile.

Definition step (pg : playground) (c : command) : outcome playground :=
  match c with
  | Start => start pg
  | Complete => complete pg
  | Move dx => snd <$> move pg dx
  | Drop dy => snd <$> drop pg dy
  | HardDrop => snd <$> hardDrop pg
  | RotateCCW => snd <$> rotateCCW pg
  | RotateCW => snd <$> rotateCW pg
  | HalfTurn => snd <$> halfTurn pg
  | SwapTile => snd <$> swapTile pg
  end.

Fixpoint run (cs : list command) (pg : playground) : outcome playground :=
  match cs with
  | [] => Ret pg
  | c :: cs' => pg ← step pg c; run cs' pg
  end.

End with_generator.
End Playground.

(** ** The tiles of the game

    The tiles as [main] builds them: the bitmap and the kick table of a
    tetromino handed to the constructor of [tile]. [main] declares the kick
    table without initializing it; here its bytes are zero on entry. *)

Definition zeroTable : tileRotationTable := replicate 192 0.

Definition tetrominoTile (typ : tetromino) : outcome tile :=
  kick ← createTetrominoRotation zeroTable typ;
  Tile.make (createTetrominoTileData typ 0) kick.

(** A tile with no pixel and no kick, for the outcomes that are not [Ret]. *)
Definition blankTile : tile :=
  mkTile (fun _ => [0]) (fun _ => [0]) (fun _ => 0) (fun _ => 0) (fun _ => 0)
    (fun _ _ => [0]).

Definition theTile (typ : tetromino) : tile :=
  match tetrominoTile typ with
  | Ret t => t
  | _ => blankTile
  end.

Definition tileT : tile := Eval vm_compute in theTile tetromino_T.

(** A field of [n] garbage rows, each with the cells of [row]. *)
Definition garbage (n : nat) (row : fieldRow) : field :=
  Nat.iter n (fun f => Field.grow f row) Field.new.

(** ** Well-formed values

    What the embedding into [Z] and lists leaves open: the ranges of the
    machine integers and the class invariants of [tile] and [field]. *)

Definition int8 (z : Z) : Prop := -128 <= z <= 127.

Definition tileState_ok (s : tileState) : Prop :=
  int8 (state_x s) /\ int8 (state_y s).

(** The two vectors of a field grow and shrink together, a row has ten
    cells, and the version is a [uint64_t]. *)
Definition field_ok (f : field) : Prop :=
  length (field_fields f) = length (field_compactFields f)
  /\ Forall (fun row => length row = 10%nat) (field_fields f)
  /\ 0 <= field_version f < 2 ^ 64.

Module TileShape.

(** The pixels of an orientation: the bytes of [data] before the zero
    that ends them (at most [maxNumPixels]), each with its location. *)
Fixpoint pixels (fuel : nat) (data loc : list Z) : list (Z * Z) :=
  match fuel, data, loc with
  | S fuel', d :: data', l :: loc' =>
    if d =? 0 then [] else (d, l) :: pixels fuel' data' loc'
  | _, _, _ => []
  end.

(** The array ends with a zero or is full: the loops that read it stop
    inside what the constructor wrote. *)
Fixpoint terminated (fuel : nat) (l : list Z) : bool :=
  match fuel, l with
  | O, _ => true
  | S _, [] => false
  | S fuel', v :: l' => (v =? 0) || terminated fuel' l'
  end.

(** Bit [n] of the mask is the cell in column [n mod 10] of row [n / 10]. *)
Definition inBox (minx maxx miny maxy n : Z) : bool :=
  (minx <=? n mod 10) && (n mod 10 <=? maxx)
  && (miny <=? n / 10) && (n / 10 <=? maxy).

Definition bits : list Z := Z.of_nat <$> seq 0 64.

(** The checks for one orientation: the bounding box lies in the 6x6
    frame; every bit of the mask lies in the bounding box; the mask has a
    bit in the bottom row of the box; every pixel of the list has its bit
    in the mask; the arrays are terminated. *)
Definition checkDir (t : tile) (d : tileDirection) : bool :=
  let mask := tile_compactTile t d in
  let minx := TileCoord.x (tile_min t d) in
  let maxx := TileCoord.x (tile_max t d) in
  let miny := TileCoord.y (tile_min t d) in
  let maxy := TileCoord.y (tile_max t d) in
  (0 <=? minx) && (maxx <=? 5) && (0 <=? miny) && (maxy <=? 5)
  && (0 <=? mask) && (mask <? 2 ^ 64)
  && forallb (fun n => implb (Z.testbit mask n) (inBox minx maxx miny maxy n))
       bits
  && existsb (fun n => Z.testbit mask n && (n / 10 =? miny)) bits
  && forallb (fun '(_, l) =>
                (0 <=? TileCoord.x l) && (TileCoord.x l <=? 5)
                && (0 <=? TileCoord.y l) && (TileCoord.y l <=? 5)
                && Z.testbit mask (10 * TileCoord.y l + TileCoord.x l))
       (pixels (Z.to_nat maxNumPixels) (tile_data t d) (tile_loc t d))
  && terminated (Z.to_nat maxNumPixels) (tile_data t d)
  && (length (tile_data t d) <=? length (tile_loc t d))%nat
  && forallb (fun j => terminated (Z.to_nat maxNumRotations)
                         (tile_rotateTable t d j))
       TileDirection.all.

Definition check (t : tile) : bool := forallb (checkDir t) TileDirection.all.

End TileShape.

(** The invariant of a tile: its bounding boxes bound its masks and its
    pixel lists agree with them. *)
Definition tile_ok (t : tile) : Prop := TileShape.check t = true.

(** ** Validity of a path finder against a field

    The path finder holds the tile [t]; its cached window is the window of
    the field at its row; its bounding box is inside the ten columns and not
    wholly below the floor; its mask, moved to its column, does not
    intersect the window. *)
Definition validFor (f : field) (t : tile) (pfd : tilePathFinder) : Prop :=
  let s := pfd_state pfd in
  let d := state_dir s in
  pfd_typ pfd = Some t
  /\ pfd_current pfd = Field.window f (state_y s)
  /\ 0 <= state_x s + TileCoord.x (tile_min t d)
  /\ state_x s + TileCoord.x (tile_max t d) <= 9
  /\ 0 <= state_y s + TileCoord.y (tile_max t d)
  /\ Z.land (Field.window f (state_y s))
       (CompactField.tileMove (tile_compactTile t d) (state_x s)) = 0.

(** An outcome that is no exception. *)
Definition noThrow {A} (m : outcome A) : Prop := forall what, m <> Throw what.

(** The version stamp is nonzero and is not the version of the field. *)
Definition stale (f : field) (pfd : tilePathFinder) : Prop :=
  pfd_version pfd <> 0 /\ pfd_version pfd <> field_version f.

(** The bottom of the bounding box is on or above the floor. *)
Definition aboveFloor (t : tile) (pfd : tilePathFinder) : Prop :=
  0 <= state_y (pfd_state pfd)
       + TileCoord.y (tile_min t (state_dir (pfd_state pfd))).

(** The version stamp passes [assertLegit]. *)
Definition legit (f : field) (pfd : tilePathFinder) : Prop :=
  pfd_version pfd = 0 \/ pfd_version pfd = field_version f.

(** ** The rotation, as the specification words it

    The candidates of a rotation are the unchanged position and then the
    position moved by each kick of the [(source, target)] entry, in table
    order; the result is the first candidate that is valid. *)
Module RotateSpec.

(** The kicks of a table entry: the bytes before the zero that ends
    them, at most [maxNumRotations]. *)
Fixpoint kicks (fuel : nat) (table : list Z) : list (Z * Z) :=
  match fuel, table with
  | S fuel', value :: table' =>
    if value =? 0 then []
    else (TileCoord.x value, TileCoord.y value) :: kicks fuel' table'
  | _, _ => []
  end.

Definition unkicked (f : field) (pfd : tilePathFinder)
    (targetDir : tileDirection) : tilePathFinder :=
  let s := pfd_state pfd in
  mkPathFinder (pfd_typ pfd) (mkTileState targetDir (state_x s) (state_y s))
    (field_version f) (Field.window f (state_y s)) false.

Definition kicked (f : field) (pfd : tilePathFinder)
    (targetDir : tileDirection) (k : Z * Z) : tilePathFinder :=
  let s := pfd_state pfd in
  let x := i8 (state_x s + fst k) in
  let y := i8 (state_y s + snd k) in
  mkPathFinder (pfd_typ pfd) (mkTileState targetDir x y)
    (field_version f) (Field.window f y) true.

Definition rotate (f : field) (t : tile) (pfd : tilePathFinder)
    (targetDir : tileDirection) : bool * tilePathFinder :=
  if Field.isValidFor t (unkicked f pfd targetDir)
  then (true, unkicked f pfd targetDir)
  else
    let table := tile_rotateTable t (state_dir (pfd_state pfd)) targetDir in
    match find (fun k => Field.isValidFor t (kicked f pfd targetDir k))
            (kicks (Z.to_nat maxNumRotations) table) with
    | Some k => (true, kicked f pfd targetDir k)
    | None => (false, TilePathFinder.null)
    end.

End RotateSpec.

(** ** An engine for the examples

    A linear congruential engine, and a shuffle that inserts each element
    at a position drawn from it. *)
Module ExampleEngine.

Definition next (g : Z) : Z := (g * 1103515245 + 12345) mod 2 ^ 31.

Definition insertAt {A} (i : nat) (a : A) (l : list A) : list A :=
  take i l ++ a :: drop i l.

Fixpoint shuffle (g : Z) (l : list (option tile))
  : list (option tile) * Z :=
  match l with
  | [] => ([], g)
  | a :: l' =>
    let '(s, g) := shuffle g l' in
    (insertAt (Z.to_nat (g mod (Z.of_nat (length s) + 1))) a s, next g)
  end.

Definition seed (s : Z) : Z := s mod 2 ^ 31.

#[global] Instance generator : tileGenerator (tilePermutator Z) :=
  TilePermutator.generate shuffle.

Definition permutator (tiles : list (option tile)) (s : Z)
  : tilePermutator Z :=
  TilePermutator.make seed shuffle tiles s.

End ExampleEngine.

(** ** Values for the examples *)

(** The path finder [tilePathFinder(&t)] of the T tetromino. *)
Definition spawnT : tilePathFinder :=
  TilePathFinder.at_state (Some tileT) (Tile.initTileState tileT).

(** The same path finder after a [spawn] in a field of thirty full rows. *)
Definition buried : tilePathFinder :=
  TilePathFinder.with_current spawnT
    (Field.window (garbage 30 (replicate 10 1)) 17).

(** A kick table whose bytes are all [0x11] on entry. *)
Definition dirtyTable : tileRotationTable := replicate 192 17.

(** The twelve bytes of [table[i][j]]. *)
Definition tableEntry (table : tileRotationTable) (i j : Z) : list Z :=
  take 12 (drop (RotationTable.index i j 0) table).

(** The kicks of [table[i][j]], as the constructor of [tile] and [rotate]
    read them. *)
Definition tableKicks (table : tileRotationTable) (i j : Z) : list (Z * Z) :=
  RotateSpec.kicks (Z.to_nat maxNumRotations) (tableEntry table i j).

Definition negateKick (k : Z * Z) : Z * Z := (- fst k, - snd k).

(** [kick(i -> j)[k] == -kick(j -> i)[k]] for every populated entry, with
    as many entries on both sides. *)
Definition negations (table : tileRotationTable) : Prop :=
  forall i j, 0 <= i < 4 -> 0 <= j < 4 ->
    tableKicks table i j = negateKick <$> tableKicks table j i.

(** The working set of the examples: three of the tetrominoes. *)
Definition exampleTiles : list (option tile) :=
  [Some tileT; Some (theTile tetromino_O); Some (theTile tetromino_I)].

(** The invariant of a permutator over the working set [tiles], between
    two calls of [generate]. *)
Definition bag {R : Type} (tiles : list (option tile)) (p : tilePermutator R)
  : Prop :=
  Permutation (perm_series p) tiles
  /\ perm_numTiles p = Z.of_nat (length tiles)
  /\ 0 <= perm_pointer p
  /\ (tiles <> [] -> perm_pointer p < Z.of_nat (length tiles)).

(** ** The supply of a playground *)

(** A generator that never runs dry: [ok] holds between two calls, and
    every call returns a tile. *)
Definition neverDry {G : Type} `{!tileGenerator G} (ok : G -> Prop) : Prop :=
  forall g, ok g -> exists t g', generate g = Ret (Some t, g') /\ ok g'.

(** The previews are all tiles, and the game is not exhausted. *)
Definition supplied {G : Type} (ok : G -> Prop) (pg : playground G) : Prop :=
  ok (pg_generator pg)
  /\ 1 <= pg_numPreviews pg
  /\ Z.of_nat (length (pg_preview pg)) = pg_numPreviews pg
  /\ 0 <= pg_previewCursor pg < pg_numPreviews pg
  /\ Forall (fun t => t <> None) (pg_preview pg)
  /\ pg_state pg <> exhausted.

(** The parts of a playground that only the spawn of the next tile
    changes. *)
Definition sameSupply {G : Type} (pg pg' : playground G) : Prop :=
  pg_generator pg' = pg_generator pg
  /\ pg_numPreviews pg' = pg_numPreviews pg
  /\ pg_preview pg' = pg_preview pg
  /\ pg_previewCursor pg' = pg_previewCursor pg.

(** What the moves of the active tile leave alone: the field, the held
    tile, the supply and the state of the game. *)
Definition onlyMoves {G : Type} (pg pg' : playground G) : Prop :=
  pg_f pg' = pg_f pg
  /\ sameSupply pg pg'
  /\ pg_swap pg' = pg_swap pg
  /\ pg_swapEnabled pg' = pg_swapEnabled pg
  /\ pg_state pg' = pg_state pg.

(** The playground of the examples: five previews, fed by a permutator
    over [exampleTiles]. *)
Definition examplePlayground : outcome (playground (tilePermutator Z)) :=
  Playground.make (ExampleEngine.permutator exampleTiles 0) 5.

(** The playground of the examples after the calls [cs]. *)
Definition exampleAfter (cs : list Playground.command)
  : playground (tilePermutator Z) :=
  match pg ← examplePlayground; Playground.run cs pg with
  | Ret pg => pg
  | _ => mkPlayground Field.new (ExampleEngine.permutator [] 0) None true
           TilePathFinder.null TilePathFinder.null 0 [] 0 notStarted []
  end.

(** The invariant of a tile, spelled out for one orientation. *)
Record shape (t : tile) (d : tileDirection) : Prop := {
  shape_minx : 0 <= TileCoord.x (tile_min t d);
  shape_maxx : TileCoord.x (tile_max t d) <= 5;
  shape_miny : 0 <= TileCoord.y (tile_min t d);
  shape_maxy : TileCoord.y (tile_max t d) <= 5;
  shape_mask : 0 <= tile_compactTile t d < 2 ^ 64;
  shape_box : forall n,
    Z.testbit (tile_compactTile t d) n = true ->
    0 <= n < 60
    /\ TileCoord.x (tile_min t d) <= n mod 10 <= TileCoord.x (tile_max t d)
    /\ TileCoord.y (tile_min t d) <= n / 10 <= TileCoord.y (tile_max t d);
  shape_bottom : exists n,
    Z.testbit (tile_compactTile t d) n = true
    /\ n / 10 = TileCoord.y (tile_min t d);
  shape_pixels :
    Forall (fun p =>
              0 <= TileCoord.x (snd p) <= 5 /\ 0 <= TileCoord.y (snd p) <= 5
              /\ Z.testbit (tile_compactTile t d)
                   (10 * TileCoord.y (snd p) + TileCoord.x (snd p)) = true)
      (TileShape.pixels (Z.to_nat maxNumPixels) (tile_data t d) (tile_loc t d));
  shape_data :
    TileShape.terminated (Z.to_nat maxNumPixels) (tile_data t d) = true;
  shape_loc : (length (tile_data t d) <= length (tile_loc t d))%nat;
  shape_table : forall j,
    TileShape.terminated (Z.to_nat maxNumRotations) (tile_rotateTable t d j)
    = true
}.

(** The field of the unit test [Tile.TSpinMini]: one row, full but for its
    leftmost cell. *)
Definition holeField : field := Field.grow Field.new [0; 1; 1; 1; 1; 1; 1; 1; 1; 1].

(** The T tetromino of the unit test after its drop on that row. *)
Definition landed : tilePathFinder :=
  mkPathFinder (Some tileT) (mkTileState initial 2 (-1)) 2
    (Field.window holeField (-1)) false.

(** The same tetromino moved against the left wall, where a clockwise
    rotation needs a kick. *)
Definition wedged : tilePathFinder :=
  mkPathFinder (Some tileT) (mkTileState initial (-1) (-1)) 2
    (Field.window holeField (-1)) false.

(** It after the kicked rotation, resting in the hole. *)
Definition spun : tilePathFinder :=
  mkPathFinder (Some tileT) (mkTileState right (-2) (-1)) 2
    (Field.window holeField (-1)) true.

(** ** A tile with a cell in column 0 of its frame *)

(** In each orientation, a cell in column 0 of the bottom row of the frame
    and a cell in column 1 of the row above. *)
Definition cornerData : tileData :=
  replicate 4
    [ [0; 0; 0; 0; 0; 0];
      [0; 0; 0; 0; 0; 0];
      [0; 0; 0; 0; 0; 0];
      [0; 0; 0; 0; 0; 0];
      [0; 1; 0; 0; 0; 0];
      [1; 0; 0; 0; 0; 0] ].

(** The tile that the constructor builds from it, without kicks. *)
Definition cornerTile : tile :=
  Eval vm_compute in
    match Tile.make cornerData zeroTable with
    | Ret t => t
    | _ => blankTile
    end.

(** A field of one row, whose only cell is in column 0. *)
Definition cornerField : field :=
  Field.grow Field.new [1; 0; 0; 0; 0; 0; 0; 0; 0; 0].

(** That tile in row 0, one column to the left of the field: its cell of
    column 1 stands in column 0 of the field, above the cell of the
    field. *)
Definition cornered : tilePathFinder :=
  mkPathFinder (Some cornerTile) (mkTileState initial (-1) 0) 2
    (Field.window cornerField 0) false.

(** ** The invariant of a playground *)

(** A generator that never runs dry and deals well-formed tiles. *)
Definition steadySupply {G : Type} `{!tileGenerator G} (ok : G -> Prop)
  : Prop :=
  forall g, ok g ->
    exists t g', generate g = Ret (Some t, g') /\ ok g' /\ tile_ok t.

(** The active tile of a game in progress is valid against the field and
    stamped with its version. *)
Definition activeValid {G : Type} (pg : playground G) : Prop :=
  pg_state pg = inGame ->
  exists t, tile_ok t
            /\ validFor (pg_f pg) t (pg_current pg)
            /\ tileState_ok (pfd_state (pg_current pg))
            /\ pfd_version (pg_current pg) = field_version (pg_f pg).

(** The field is well formed, and so are the tiles in the previews and in
    the hold slot. *)
Definition wellStocked {G : Type} (pg : playground G) : Prop :=
  field_ok (pg_f pg)
  /\ Forall (fun o => forall t, o = Some t -> tile_ok t) (pg_preview pg)
  /\ (forall t, pg_swap pg = Some t -> tile_ok t).

Definition sound {G : Type} (pg : playground G) : Prop :=
  wellStocked pg /\ activeValid pg.

(** ** The two representations of a field *)

(** The ten bits of a row of cells, as [grow] packs them: bit [i] is set
    when cell [i] is not zero. *)
Definition compactOf (row : fieldRow) : Z :=
  foldl (fun line i =>
           u16 (Z.lor line (if nth (Z.to_nat i) row 0 =? 0 then 0
                            else Z.shiftl 1 i)))
        0 [0; 1; 2; 3; 4; 5; 6; 7; 8; 9].

(** The packed rows of a field are the bits of its rows of cells. *)
Definition coherent (f : field) : Prop :=
  field_compactFields f = compactOf <$> field_fields f.

(** The cell in column [c] of row [r]; zero above the top of the field. *)
Definition cellAt (f : field) (r c : Z) : Z :=
  nth (Z.to_nat c) (nth (Z.to_nat r) (field_fields f) []) 0.

(** A pixel of the tile, at the state [s], lies in column [c] of row [r]. *)
Definition covers (t : tile) (s : tileState) (r c : Z) : bool :=
  existsb (fun p => (state_y s + TileCoord.y (snd p) =? r)
                    && (state_x s + TileCoord.x (snd p) =? c))
    (TileShape.pixels (Z.to_nat maxNumPixels)
       (tile_data t (state_dir s)) (tile_loc t (state_dir s))).

(** ** Positions of a tile in a field *)

(** The tile [t], turned to [d], fits at column [x] and row [y] of the
    field: [isValid] accepts it there, against the window of the field at
    that row. *)
Definition freeAt (f : field) (t : tile) (d : tileDirection) (x y : Z)
  : bool :=
  Field.isValidFor t
    (mkPathFinder (Some t) (mkTileState d x y) 0 (Field.window f y) false).

(** The path finder a successful [move] or [drop] returns: the tile of
    [pfd], in its direction, at column [x] and row [y], with the window and
    the version of the field, and the wall-kick flag unset. *)
Definition placedAt (f : field) (pfd : tilePathFinder) (x y : Z)
  : tilePathFinder :=
  mkPathFinder (pfd_typ pfd) (mkTileState (state_dir (pfd_state pfd)) x y)
    (field_version f) (Field.window f y) false.

(** ** The accessors of a playground *)

(** [playground::getPreview(i)]: the previews are a ring, read from the
    cursor on. The sum [previewCursor + i] is an [int]. *)
Definition getPreview {G : Type} (pg : playground G) (i : Z)
  : outcome (option tile) :=
  if (i <? 0) || (pg_numPreviews pg <=? i) then Ret None
  else if INT_MAX <? pg_previewCursor pg + i then Undefined
  else Field.at_index (pg_preview pg)
         (Z.rem (pg_previewCursor pg + i) (pg_numPreviews pg)).

(** ** The shadow of the active tile *)

(** Where [drop] by 20 rows takes the path finder, or where the path
    finder is when it cannot fall. *)
Definition landing (f : field) (current : tilePathFinder) : tileState :=
  match Field.drop f current 20 with
  | Ret (true, r) => pfd_state r
  | _ => pfd_state current
  end.

(** While a game is on, the shadow stands where the active tile lands. *)
Definition shadowed {G : Type} (pg : playground G) : Prop :=
  pg_state pg = inGame ->
  pfd_state (pg_shadow pg) = landing (pg_f pg) (pg_current pg).

(** ** What the listeners are told *)




(** ** historyRoll (generator.hpp, generator.cpp) *)

(** [std::uniform_int_distribution] over the [std::mt19937] engine kept in
    [workData] is library code: the generator is modelled over any engine
    state [R], any seeding function and any sampler [sample engine a b],
    which returns a value of the closed range from [a] to [b] and the
    engine after the draw. The deque [history] is a list, oldest entry
    first. *)
Record historyRoll (R : Type) : Type := mkHistoryRoll {
  roll_history : list Z;            (* std::deque<std::size_t> *)
  roll_counts : list Z;             (* std::size_t[numTiles] *)
  roll_tiles : list (option tile);
  roll_numTiles : Z;                (* std::size_t *)
  roll_retryTimes : Z;              (* std::size_t *)
  roll_historySize : Z;             (* std::size_t *)
  roll_workData : R
}.
Arguments mkHistoryRoll {R}.
Arguments roll_history {R}.
Arguments roll_counts {R}.
Arguments roll_tiles {R}.
Arguments roll_numTiles {R}.
Arguments roll_retryTimes {R}.
Arguments roll_historySize {R}.
Arguments roll_workData {R}.

Module HistoryRoll.
Section with_engine.

Context {R : Type}.
Variable seedEngine : Z -> R.
Variable sample : R -> Z -> Z -> Z * R.

(** The loop of the constructor over the history: [if (i < numTiles)
    counts[i]++]. *)
Definition countHistory (numTiles : Z) (counts : list Z) (history : list Z)
  : list Z :=
  foldl (fun counts i =>
           if i <? numTiles
           then <[Z.to_nat i := u64 (nth (Z.to_nat i) counts 0 + 1)]> counts
           else counts)
        counts history.

(** [historyRoll(tiles_, numTiles, retryTimes, initialHistory, historySize,
    seed)], [tiles_] being the [numTiles] pointers and [initialHistory] the
    [historySize] indices of the caller's arrays. *)
Definition make (tiles : list (option tile)) (retryTimes : Z)
    (initialHistory : list Z) (seed : Z) : historyRoll R :=
  let numTiles := Z.of_nat (length tiles) in
  let counts := replicate (length tiles) 0 in
  mkHistoryRoll initialHistory (countHistory numTiles counts initialHistory)
    tiles numTiles retryTimes (Z.of_nat (length initialHistory))
    (seedEngine seed).

(** The loop of [generate]: [for (i = 0; i < retryTimes && counts[result]
    > 0; ++i) result = sampler(engine)], [fuel] being [retryTimes - i]. *)
Fixpoint retry (fuel : nat) (counts : list Z) (bound : Z) (result : Z)
    (engine : R) : outcome (Z * R) :=
  match fuel with
  | O => Ret (result, engine)
  | S fuel' =>
    c ← Field.at_index counts result;
    if 0 <? c then
      let '(result, engine) := sample engine 0 bound in
      retry fuel' counts bound result engine
    else Ret (result, engine)
  end.

(** [generate()]. *)
Definition generate (r : historyRoll R)
  : outcome (option tile * historyRoll R) :=
  let bound := to_size_t (roll_numTiles r - 1) in
  let '(result, engine) := sample (roll_workData r) 0 bound in
  '(result, engine) ←
    retry (Z.to_nat (roll_retryTimes r)) (roll_counts r) bound result engine;
  let history := roll_history r ++ [result] in
  c ← Field.at_index (roll_counts r) result;
  let counts := <[Z.to_nat result := u64 (c + 1)]> (roll_counts r) in
  front ← deref (head history);
  counts ←
    (if front <? roll_numTiles r then
       c ← Field.at_index counts front;
       Ret (<[Z.to_nat front := u64 (c - 1)]> counts)
     else Ret counts);
  let history := tail history in
  t ← Field.at_index (roll_tiles r) result;
  Ret (t, mkHistoryRoll history counts (roll_tiles r) (roll_numTiles r)
            (roll_retryTimes r) (roll_historySize r) engine).

(** The values of the first [n] draws of the sampler from [engine]. *)
Fixpoint samples (n : nat) (bound : Z) (engine : R) : list Z :=
  match n with
  | O => []
  | S n' =>
    let '(result, engine) := sample engine 0 bound in
    result :: samples n' bound engine
  end.

(** The results of [n] successive calls of [generate()]. *)
Fixpoint draws (n : nat) (r : historyRoll R)
  : outcome (list (option tile) * historyRoll R) :=
  match n with
  | O => Ret ([], r)
  | S n' =>
    '(t, r) ← generate r;
    '(ts, r) ← draws n' r;
    Ret (t :: ts, r)
  end.

End with_engine.
End HistoryRoll.

(** A sampler for the examples, over the engine of [ExampleEngine]. *)
Definition exampleSample (engine a b : Z) : Z * Z :=
  (a + engine mod (b - a + 1), ExampleEngine.next engine).

(** How many times the index [i] stands in a history. *)
Definition occurrences (i : Z) (history : list Z) : Z :=
  Z.of_nat (length (filter (eq i) history)).

(** The invariant of a [historyRoll] over the tiles [tiles]: the history
    holds [historySize] indices, each a [std::size_t], and the counts are
    the occurrences of each index of a tile in the history. *)
Definition rolling {R : Type} (tiles : list (option tile))
    (r : historyRoll R) : Prop :=
  roll_tiles r = tiles
  /\ roll_numTiles r = Z.of_nat (length tiles)
  /\ length (roll_counts r) = length tiles
  /\ Z.of_nat (length (roll_history r)) = roll_historySize r
  /\ roll_historySize r < 2 ^ 64 - 1
  /\ Forall (fun i => 0 <= i < 2 ^ 64) (roll_history r)
  /\ forall i, 0 <= i < Z.of_nat (length tiles) ->
       roll_counts r !! Z.to_nat i = Some (occurrences i (roll_history r)).

(** ** The bitmap of a tile *)

(** The non-zero cells of the orientation [i] of a bitmap as [(x, y)],
    [y] counted from the bottom row, in the order in which the constructor
    of [tile] meets them. *)
Definition litCells (input : tileData) (i : Z) : list (Z * Z) :=
  filter (fun c => Tile.input_at input i (snd c) (fst c) <> 0) Tile.cells.

(** The pixel the constructor stores for the cell [c]: colour and
    location. *)
Definition pixelAt (input : tileData) (i : Z) (c : Z * Z) : Z * Z :=
  (Tile.input_at input i (snd c) (fst c), tileCoordAt (fst c) (snd c)).

(** The state of the scan of an orientation after the lit cells [ps]:
    the pixels stored, the bits of the mask, and the bounding box, which
    is that of [ps] (and zero while [ps] is empty). *)
Definition scanned (input : tileData) (i : Z) (ps : list (Z * Z))
    (s : Tile.scan) : Prop :=
  Tile.s_data s = (fun c => Tile.input_at input i (snd c) (fst c)) <$> ps
  /\ Tile.s_loc s = (fun c => tileCoordAt (fst c) (snd c)) <$> ps
  /\ 0 <= Tile.s_compact s
  /\ (forall n, Z.testbit (Tile.s_compact s) n = true
                <-> exists c, c ∈ ps /\ n = 10 * snd c + fst c)
  /\ exists minx miny maxx maxy,
       Tile.s_vmin s = 16 * miny + minx
       /\ Tile.s_vmax s = 16 * maxy + maxx
       /\ 0 <= minx <= 5 /\ 0 <= miny <= 5
       /\ 0 <= maxx <= 5 /\ 0 <= maxy <= 5
       /\ (ps = [] -> minx = 0 /\ miny = 0 /\ maxx = 0 /\ maxy = 0)
       /\ (forall c, c ∈ ps ->
             minx <= fst c <= maxx /\ miny <= snd c <= maxy)
       /\ (ps <> [] ->
           (exists c, c ∈ ps /\ fst c = minx)
           /\ (exists c, c ∈ ps /\ snd c = miny)
           /\ (exists c, c ∈ ps /\ fst c = maxx)
           /\ (exists c, c ∈ ps /\ snd c = maxy)).

(** The bytes of an array up to its first zero, that zero included. *)
Fixpoint upToZero (l : list Z) : list Z :=
  match l with
  | [] => []
  | v :: l' => if v =? 0 then [0] else v :: upToZero l'
  end.

(** The kick table of the T tetromino, for the examples. *)
Definition exampleKicks : tileRotationTable :=
  match createTetrominoRotation zeroTable tetromino_T with
  | Ret kick => kick
  | _ => zeroTable
  end.

(** ** Reading a tile back (tile.hpp) *)

(** [buffer[i] = x] on an array of the caller. *)
Definition store (buffer : list Z) (i x : Z) : outcome (list Z) :=
  if (0 <=? i) && (i <? Z.of_nat (length buffer))
  then Ret (<[Z.to_nat i := x]> buffer) else Undefined.

(** The loop of [retrieveTileData], [fuel] being [maxNumPixels - i]. *)
Fixpoint retrieveLoop (fuel : nat) (i : Z) (data loc rdata rloc : list Z)
  : outcome (Z * list Z * list Z) :=
  match fuel with
  | O => Ret (maxNumPixels, rdata, rloc)
  | S fuel' =>
    d ← Field.at_index data i;
    rdata ← store rdata i d;
    l ← Field.at_index loc i;
    rloc ← store rloc i l;
    if l =? 0 then Ret (i, rdata, rloc)
    else retrieveLoop fuel' (i + 1) data loc rdata rloc
  end.

(** [tile::retrieveTileData(dir, rdata, rloc)]: the number of pixels and
    the two buffers after the call. *)
Definition retrieveTileData (t : tile) (dir : tileDirection)
    (rdata rloc : list Z) : outcome (Z * list Z * list Z) :=
  retrieveLoop (Z.to_nat maxNumPixels) 0 (tile_data t dir) (tile_loc t dir)
    rdata rloc.

(** [tile::retrieveBoundingBox(dir, rmin, rmax)]. *)
Definition retrieveBoundingBox (t : tile) (dir : tileDirection) : Z * Z :=
  (tile_min t dir, tile_max t dir).

(** ** Moves one after the other *)

(** The path finder after [drop(numSteps)], as the playground keeps it:
    the result when the tile fell, the path finder itself when it did
    not. *)
Definition afterDrop (f : field) (pfd : tilePathFinder) (numSteps : Z)
  : tilePathFinder :=
  match Field.drop f pfd numSteps with
  | Ret (true, r) => r
  | _ => pfd
  end.

(** ** eventSubscription and eventRegistry (util/event.hpp)

    The subscriptions are objects that point at each other: they live in a
    store, an address is an index in it and [nullptr] is [None]. A new
    object takes the next free address, and a destroyed object keeps its
    place, so that a dangling pointer still names the object it pointed
    at. Going through a null pointer, or through an address that holds no
    object, is undefined. *)
Record eventSubscription (H : Type) : Type := mkSubscription {
  sub_previous : option nat;
  sub_next : option nat;
  sub_handler : option H
}.
Arguments mkSubscription {H}.
Arguments sub_previous {H}.
Arguments sub_next {H}.
Arguments sub_handler {H}.

Module EventSubscription.
Section with_handler.

Context {H : Type}.

#[local] Abbreviation store := (list (eventSubscription H)).

(** [*p]. *)
Definition load (m : store) (p : option nat) : outcome (eventSubscription H) :=
  a ← deref p; deref (m !! a).

(** [p->next = v]. *)
Definition set_next (m : store) (p : option nat) (v : option nat)
  : outcome store :=
  a ← deref p; n ← deref (m !! a);
  Ret (<[a := mkSubscription (sub_previous n) v (sub_handler n)]> m).

(** [p->previous = v]. *)
Definition set_previous (m : store) (p : option nat) (v : option nat)
  : outcome store :=
  a ← deref p; n ← deref (m !! a);
  Ret (<[a := mkSubscription v (sub_next n) (sub_handler n)]> m).

(** [eventSubscription()]: the address of the new object and the store. *)
Definition make (m : store) : nat * store :=
  (length m, m ++ [mkSubscription None None None]).

(** [eventSubscription(eventSubscription&& r)], the new object [this]
    taking the place of [r] among its neighbours. *)
Definition move (m : store) (r : nat) : outcome (nat * store) :=
  old ← load m (Some r);
  let this := length m in
  let m := m ++ [mkSubscription (sub_previous old) (sub_next old)
                   (sub_handler old)] in
  m ← (match sub_previous old with
       | Some _ => set_next m (sub_previous old) (Some this)
       | None => Ret m
       end);
  m ← (match sub_next old with
       | Some _ => set_previous m (sub_next old) (Some this)
       | None => Ret m
       end);
  m ← set_previous m (Some r) None;
  m ← set_next m (Some r) None;
  Ret (this, m).

(** [~eventSubscription()] of the object at [this]. *)
Definition destroy (m : store) (this : nat) : outcome store :=
  n ← load m (Some this);
  m ← (match sub_previous n with
       | Some _ => set_next m (sub_previous n) (sub_next n)
       | None => Ret m
       end);
  n ← load m (Some this);
  match sub_next n with
  | Some _ => set_previous m (sub_next n) (sub_previous n)
  | None => Ret m
  end.

(** The [while] loop of [dissolveChain]; a chain with more links than
    [fuel] keeps the loop running. *)
Fixpoint dissolveLoop (fuel : nat) (m : store) (this : nat) : outcome store :=
  match fuel with
  | O => Undefined
  | S fuel' =>
    n ← load m (Some this);
    match sub_next n with
    | None => Ret m
    | Some _ =>
      m ← set_previous m (sub_next n) None;
      next ← load m (sub_next n);
      let nextNext := sub_next next in
      m ← set_next m (sub_next n) None;
      m ← set_next m (Some this) nextNext;
      dissolveLoop fuel' m this
    end
  end.

(** [dissolveChain()] of the object at [this]. *)
Definition dissolveChain (m : store) (this : nat) : outcome store :=
  n ← load m (Some this);
  m ← (match sub_previous n with
       | Some _ => set_next m (sub_previous n) None
       | None => Ret m
       end);
  dissolveLoop (S (length m)) m this.

(** The private constructor [eventSubscription(previous, handler)], which
    puts the new object right after [previous]. *)
Definition insert (m : store) (previous : option nat) (handler : option H)
  : outcome (nat * store) :=
  before ← load m previous;
  let this := length m in
  let next := sub_next before in
  let m := m ++ [mkSubscription previous next handler] in
  m ← set_next m previous (Some this);
  m ← (match next with
       | Some _ => set_previous m next (Some this)
       | None => Ret m
       end);
  Ret (this, m).

End with_handler.
End EventSubscription.

Module EventRegistry.
Section with_handler.

Context {H : Type}.

#[local] Abbreviation store := (list (eventSubscription H)).

(** [eventRegistry()]: the address of the sentinel and the store. *)
Definition make (m : store) : nat * store :=
  let sentinel := length m in
  (sentinel, m ++ [mkSubscription (Some sentinel) (Some sentinel) None]).

(** [~eventRegistry()], and the destructor of its member [sentinel]. *)
Definition destroy (m : store) (sentinel : nat) : outcome store :=
  m ← EventSubscription.dissolveChain m sentinel;
  EventSubscription.destroy m sentinel.

(** [subscribe(handler)]: the temporary is built after
    [sentinel.previous], the result is moved out of it, and the temporary
    is destroyed. *)
Definition subscribe (m : store) (sentinel : nat) (handler : option H)
  : outcome (nat * store) :=
  s ← EventSubscription.load m (Some sentinel);
  '(temporary, m) ← EventSubscription.insert m (sub_previous s) handler;
  '(result, m) ← EventSubscription.move m temporary;
  m ← EventSubscription.destroy m temporary;
  Ret (result, m).

(** The loop of [dispatch] and [prefilter] from [sub]: the handlers of
    the subscriptions it visits, in order. *)
Fixpoint visit (fuel : nat) (m : store) (sentinel : nat) (sub : option nat)
  : outcome (list H) :=
  match fuel with
  | O => Undefined
  | S fuel' =>
    if bool_decide (sub = Some sentinel) then Ret []
    else
      n ← EventSubscription.load m sub;
      handler ← deref (sub_handler n);
      rest ← visit fuel' m sentinel (sub_next n);
      Ret (handler :: rest)
  end.

(** [dispatch(f, event)]: the handlers on which [f] is called, in the
    order of the calls. The handlers do not change the registry. *)
Definition dispatch (m : store) (sentinel : nat) : outcome (list H) :=
  s ← EventSubscription.load m (Some sentinel);
  visit (S (length m)) m sentinel (sub_next s).

(** The loop of [prefilter] from [sub], [accepts] telling what [f]
    returns on a handler: the result, and the handlers that were asked. *)
Fixpoint ask (fuel : nat) (m : store) (sentinel : nat) (sub : option nat)
    (accepts : H -> bool) : outcome (bool * list H) :=
  match fuel with
  | O => Undefined
  | S fuel' =>
    if bool_decide (sub = Some sentinel) then Ret (true, [])
    else
      n ← EventSubscription.load m sub;
      handler ← deref (sub_handler n);
      if negb (accepts handler) then Ret (false, [handler])
      else
        '(result, rest) ← ask fuel' m sentinel (sub_next n) accepts;
        Ret (result, handler :: rest)
  end.

(** [prefilter(f, event)]. *)
Definition prefilter (m : store) (sentinel : nat) (accepts : H -> bool)
  : outcome (bool * list H) :=
  s ← EventSubscription.load m (Some sentinel);
  ask (S (length m)) m sentinel (sub_next s) accepts.

End with_handler.
End EventRegistry.

(** The field [next] (resp. [previous], [handler]) of the object at [a],
    if there is one. *)
Definition next_at {H : Type} (m : list (eventSubscription H)) (a : nat)
  : option (option nat) := sub_next <$> m !! a.
Definition previous_at {H : Type} (m : list (eventSubscription H)) (a : nat)
  : option (option nat) := sub_previous <$> m !! a.
Definition handler_at {H : Type} (m : list (eventSubscription H)) (a : nat)
  : option (option H) := sub_handler <$> m !! a.

(** The objects [a], [l], [z] stand one after the other in the store
    [m]. *)
Fixpoint chain {H : Type} (m : list (eventSubscription H)) (a : nat)
    (l : list nat) (z : nat) : Prop :=
  match l with
  | [] => next_at m a = Some (Some z) /\ previous_at m z = Some (Some a)
  | b :: l' =>
    next_at m a = Some (Some b) /\ previous_at m b = Some (Some a)
    /\ chain m b l' z
  end.

(** The registry whose sentinel is at [sentinel] holds the subscriptions
    [l], each an address with its handler, in the order of the ring. *)
Definition ring {H : Type} (m : list (eventSubscription H)) (sentinel : nat)
    (l : list (nat * H)) : Prop :=
  NoDup (sentinel :: l.*1)
  /\ chain m sentinel l.*1 sentinel
  /\ Forall (fun s => handler_at m (fst s) = Some (Some (snd s))) l.

(** A registry with two subscriptions, built by the code: the sentinel
    is at address 0 and the subscriptions are at 2 and 4 (1 and 3 held
    the temporaries of [subscribe]). *)
Definition exampleStore : list (eventSubscription string) :=
  Eval cbv in
    match
      (let '(sentinel, m) := EventRegistry.make [] in
       '(_, m) ← EventRegistry.subscribe m sentinel (Some "view"%string);
       '(_, m) ← EventRegistry.subscribe m sentinel (Some "sound"%string);
       Ret m)
    with
    | Ret m => m
    | _ => []
    end.

(** * Verification *)

Lemma tetromino_tiles_ok (typ : tetromino) : tile_ok (theTile typ).
Proof. destruct typ; vm_compute; reflexivity. Qed.

Lemma tetromino_tiles_built (typ : tetromino) :
  tetrominoTile typ = Ret (theTile typ).
Proof. unfold theTile. destruct typ; vm_compute; reflexivity. Qed.

(** Fuel and powers of two stay folded under [simpl]. *)
#[global] Arguments Z.to_nat : simpl never.
#[global] Arguments Z.pow : simpl never.
#[global] Arguments Field.window : simpl never.

(** The projections of a path finder built by the setters. *)
Ltac pfd_simpl :=
  unfold Field.envalidate, TilePathFinder.with_version,
    TilePathFinder.with_previousWallKick, TilePathFinder.with_current,
    TilePathFinder.with_state, TilePathFinder.at_state,
    RotateSpec.kicked, RotateSpec.unkicked;
  cbn [pfd_typ pfd_state pfd_version pfd_current pfd_previousWallKick
       state_dir state_x state_y fst snd].

(** * Outcomes *)

Lemma bind_Ret_l {A B} (a : A) (k : A -> outcome B) : Ret a ≫= k = k a.
Proof. reflexivity. Qed.

Lemma bind_Ret {A B} (m : outcome A) (k : A -> outcome B) (b : B) :
  m ≫= k = Ret b -> exists a, m = Ret a /\ k a = Ret b.
Proof. destruct m; simpl; intros; try discriminate. eauto. Qed.

(** One step of the outcome monad, the loops left folded. *)
Ltac obind := cbn [mbind outcome_bind deref fmap outcome_fmap mret outcome_ret].
Tactic Notation "obind" "in" hyp(H) :=
  cbn [mbind outcome_bind deref fmap outcome_fmap mret outcome_ret] in H.


Lemma noThrow_bind {A B} (m : outcome A) (k : A -> outcome B) :
  noThrow m -> (forall a, noThrow (k a)) -> noThrow (m ≫= k).
Proof.
  intros Hm Hk what. destruct m; simpl; [apply Hk | | discriminate].
  intros H. by apply (Hm what0).
Qed.

Lemma noThrow_Ret {A} (a : A) : noThrow (Ret a).
Proof. intros what. discriminate. Qed.

Lemma noThrow_Undefined {A} : noThrow (@Undefined A).
Proof. intros what. discriminate. Qed.

Lemma noThrow_deref {A} (p : option A) : noThrow (deref p).
Proof. destruct p; [apply noThrow_Ret | apply noThrow_Undefined]. Qed.

Lemma noThrow_at_index {A} (v : list A) i : noThrow (Field.at_index v i).
Proof.
  unfold Field.at_index. destruct (_ && _); [apply noThrow_deref | apply noThrow_Undefined].
Qed.


Ltac nothrow :=
  repeat first
    [ apply noThrow_Ret | apply noThrow_Undefined | apply noThrow_deref
    | apply noThrow_at_index
    | apply noThrow_bind; [| intros ?]
    | match goal with
      | |- noThrow (if ?b then _ else _) => destruct b
      | |- noThrow (match ?x with _ => _ end) => destruct x
      | |- noThrow (let '(_, _) := ?x in _) => destruct x
      end ].

Lemma kickLoop_noThrow fuel f typ state table result :
  noThrow (Field.kickLoop fuel f typ state table result).
Proof.
  revert table result. induction fuel as [|fuel IH]; intros table result; cbn [Field.kickLoop].
  - nothrow.
  - destruct table as [|value table]; [nothrow|].
    destruct (value =? 0); [nothrow|].
    destruct (Field.windowUp _ _ _ _ _) as [ry rc].
    destruct (Field.windowDown _ _ _ _ _) as [ry' rc'].
    destruct (Field.isValidFor _ _); [nothrow | apply IH].
Qed.

Lemma placePixels_noThrow fuel data loc state cf fs :
  noThrow (Field.placePixels fuel data loc state cf fs).
Proof.
  revert data loc cf fs. induction fuel as [|fuel IH]; intros data loc cf fs; cbn [Field.placePixels].
  - nothrow.
  - destruct data as [|d data]; [nothrow|].
    destruct (d =? 0); [nothrow|].
    destruct loc as [|l loc]; [nothrow|].
    apply noThrow_bind; [nothrow|intros row].
    destruct (_ <=? _); [nothrow|].
    apply noThrow_bind; [nothrow|intros c]. apply IH.
Qed.

Lemma eraseRows_noThrow fuel j maxy stateY clear cf fs :
  noThrow (Field.eraseRows fuel j maxy stateY clear cf fs).
Proof.
  revert j clear cf fs. induction fuel as [|fuel IH]; intros j clear cf fs; cbn [Field.eraseRows].
  - nothrow.
  - destruct (j <=? maxy); [|nothrow].
    apply noThrow_bind; [nothrow|intros c].
    destruct (c =? Field.solidRow); [|apply IH].
    destruct (_ <=? _); [nothrow|apply IH].
Qed.


Lemma assertLegit_stale f pfd :
  stale f pfd -> Field.assertLegit f pfd = Throw "mismatched field version".
Proof.
  intros [H0 Hv]. unfold Field.assertLegit.
  destruct (Z.eqb_spec (pfd_version pfd) 0); [done|].
  destruct (Z.eqb_spec (pfd_version pfd) (field_version f)); done.
Qed.

Lemma assertLegit_legit f pfd :
  ~ stale f pfd -> Field.assertLegit f pfd = Ret tt.
Proof.
  intros H. unfold Field.assertLegit, stale in *.
  destruct (Z.eqb_spec (pfd_version pfd) 0); [done|].
  destruct (Z.eqb_spec (pfd_version pfd) (field_version f)); [done|].
  exfalso. apply H. done.
Qed.

Lemma stale_dec f pfd : stale f pfd \/ ~ stale f pfd.
Proof. unfold stale. lia. Qed.

Lemma move_after_check f pfd n :
  Field.assertLegit f pfd = Ret tt -> noThrow (Field.move f pfd n).
Proof.
  intros H. unfold Field.move. rewrite H. cbn [mbind outcome_bind]. nothrow.
Qed.

Lemma drop_after_check f pfd n :
  Field.assertLegit f pfd = Ret tt -> noThrow (Field.drop f pfd n).
Proof.
  intros H. unfold Field.drop. rewrite H. cbn [mbind outcome_bind].
  apply noThrow_bind; [nothrow|intros typ].
  destruct (negb _); [nothrow|].
  destruct (Field.dropLoop _ _ _ _ _) as [[k y] c]. nothrow.
Qed.

Lemma rotate_after_check f pfd d :
  Field.assertLegit f pfd = Ret tt -> noThrow (Field.rotate f pfd d).
Proof.
  intros H. unfold Field.rotate. rewrite H. cbn [mbind outcome_bind].
  apply noThrow_bind; [nothrow|intros typ].
  destruct (Field.isValidFor _ _); [nothrow|].
  apply noThrow_bind; [apply kickLoop_noThrow|intros r]. nothrow.
Qed.

Lemma lock_after_check f pfd :
  Field.assertLegit f pfd = Ret tt -> noThrow (Field.lock f pfd).
Proof.
  intros H. unfold Field.lock. rewrite H. cbn [mbind outcome_bind].
  apply noThrow_bind; [nothrow|intros typ].
  destruct (negb _); [nothrow|].
  apply noThrow_bind; [by apply drop_after_check|intros [dropped r]].
  destruct dropped; [nothrow|].
  apply noThrow_bind; [apply placePixels_noThrow|intros [cf fs]].
  apply noThrow_bind; [apply eraseRows_noThrow|intros [[cf' fs'] clear]].
  nothrow.
Qed.

(** C8: a path finder whose version stamp is nonzero and differs from the
    version of the field makes [move], [drop], [rotate] and [lock] throw
    (a [std::runtime_error], no value is returned); a path finder with
    version stamp 0 passes [assertLegit] against any field, and none of the
    four operations throws on it. *)
Theorem stale_path_finder_is_fatal (f : field) (pfd : tilePathFinder) :
  (stale f pfd ->
     (forall n, Field.move f pfd n = Throw "mismatched field version")
     /\ (forall n, Field.drop f pfd n = Throw "mismatched field version")
     /\ (forall d, Field.rotate f pfd d = Throw "mismatched field version")
     /\ Field.lock f pfd = Throw "mismatched field version")
  /\ (pfd_version pfd = 0 ->
      Field.assertLegit f pfd = Ret tt
      /\ (forall n, noThrow (Field.move f pfd n))
      /\ (forall n, noThrow (Field.drop f pfd n))
      /\ (forall d, noThrow (Field.rotate f pfd d))
      /\ noThrow (Field.lock f pfd)).
Proof.
  split.
  - intros Hs. pose proof (assertLegit_stale f pfd Hs) as H.
    unfold Field.move, Field.drop, Field.rotate, Field.lock.
    rewrite H. done.
  - intros H0.
    assert (H : Field.assertLegit f pfd = Ret tt).
    { apply assertLegit_legit. intros [Hn _]. done. }
    split; [done|]. split; [|split; [|split]].
    + intros n. by apply move_after_check.
    + intros n. by apply drop_after_check.
    + intros d. by apply rotate_after_check.
    + by apply lock_after_check.
Qed.

(** C9: for every field and every negative row index [y], [rowAt] returns
    the all-zero row whatever [solidCell] is: the comparison with the size
    converts [y] to [size_t], so the branch for [y < 0] is never reached.
    [compactRowAt] does return the solid row there. *)
Theorem rowAt_below_floor_is_empty (f : field) (y solidCell : Z) :
  - 2 ^ 31 <= y < 0 ->
  Z.of_nat (length (field_compactFields f)) < 2 ^ 63 ->
  Field.rowAt f y solidCell = Ret (replicate 10 0)
  /\ Field.compactRowAt f y = Field.solidRow.
Proof.
  intros Hy Hlen. unfold Field.rowAt, Field.compactRowAt, to_size_t.
  assert (Hc : y mod 2 ^ 64 = y + 2 ^ 64).
  { symmetry. apply Z.mod_unique with (q := -1); lia. }
  rewrite Hc. split.
  - destruct (Z.leb_spec (Z.of_nat (length (field_compactFields f))) (y + 2 ^ 64)); [done | lia].
  - destruct (Z.ltb_spec y 0); [done | lia].
Qed.

Lemma rowAt_below_floor_is_empty_witness :
  Field.rowAt (garbage 2 (replicate 10 1)) (-1) 7 = Ret (replicate 10 0)
  /\ Field.compactRowAt (garbage 2 (replicate 10 1)) (-1) = Field.solidRow.
Proof.
  apply (rowAt_below_floor_is_empty (garbage 2 (replicate 10 1)) (-1) 7).
  - lia.
  - vm_compute. reflexivity.
Defined.


(** C4, as stated, fails for [spawn]: in a field of twenty full rows the
    spawn of the T tetromino returns false and leaves the path finder with
    its tile, its state and a non-empty cached window. *)
Lemma failed_spawn_keeps_the_tile :
  exists r, Field.spawn (garbage 20 (replicate 10 1)) spawnT = Ret (false, r)
            /\ pfd_typ r = Some tileT
            /\ pfd_state r = mkTileState initial 2 17
            /\ pfd_current r = 1073741823
            /\ r <> TilePathFinder.null.
Proof.
  eexists. split; [vm_compute; reflexivity|].
  split; [reflexivity|]. split; [reflexivity|]. split; [reflexivity|].
  discriminate.
Qed.

(** C4, amended: whenever [move], [drop] or [rotate] returns false, the
    path finder it hands back is the null path finder; [spawn], which works
    in place, returns false with its path finder unchanged but for the
    cached window, which holds the rows of the field at its position. *)
Theorem failed_output_is_null (f : field) (pfd : tilePathFinder) :
  (forall n r, Field.move f pfd n = Ret (false, r) -> r = TilePathFinder.null)
  /\ (forall n r, Field.drop f pfd n = Ret (false, r) -> r = TilePathFinder.null)
  /\ (forall d r, Field.rotate f pfd d = Ret (false, r) -> r = TilePathFinder.null)
  /\ (forall r, Field.spawn f pfd = Ret (false, r) ->
        r = TilePathFinder.with_current pfd
              (Field.window f (state_y (pfd_state pfd)))).
Proof.
  split; [|split; [|split]].
  - intros n r. unfold Field.move.
    destruct (Field.assertLegit f pfd); obind; try discriminate.
    destruct (pfd_typ pfd); obind; try discriminate.
    destruct (negb _); try discriminate.
    destruct (_ =? state_x _); intros H; by simplify_eq.
  - intros n r. unfold Field.drop.
    destruct (Field.assertLegit f pfd); obind; try discriminate.
    destruct (pfd_typ pfd); obind; try discriminate.
    destruct (negb _); try discriminate.
    destruct (Field.dropLoop _ _ _ _ _) as [[k y] c].
    destruct (Nat.eqb _ _); intros H; by simplify_eq.
  - intros d r. unfold Field.rotate.
    destruct (Field.assertLegit f pfd); obind; try discriminate.
    destruct (pfd_typ pfd); obind; try discriminate.
    destruct (Field.isValidFor _ _); [intros H; by simplify_eq|].
    destruct (Field.kickLoop _ _ _ _ _ _) as [[r'|]| |]; obind; intros H; by simplify_eq.
  - intros r. unfold Field.spawn.
    destruct (pfd_typ pfd); try discriminate.
    destruct (negb _); intros H; by simplify_eq.
Qed.


Lemma failed_output_is_null_witness :
  Field.move (garbage 30 (replicate 10 1)) buried 0
    = Ret (false, TilePathFinder.null)
  /\ Field.drop (garbage 30 (replicate 10 1)) buried 1
    = Ret (false, TilePathFinder.null)
  /\ Field.rotate (garbage 30 (replicate 10 1)) buried right
    = Ret (false, TilePathFinder.null)
  /\ Field.spawn (garbage 30 (replicate 10 1)) spawnT = Ret (false, buried).
Proof.
  pose proof (failed_output_is_null (garbage 30 (replicate 10 1)) buried)
    as (Hmove & Hdrop & Hrotate & _).
  pose proof (failed_output_is_null (garbage 30 (replicate 10 1)) spawnT)
    as (_ & _ & _ & Hspawn).
  assert (Em : exists r, Field.move (garbage 30 (replicate 10 1)) buried 0
                         = Ret (false, r))
    by (eexists; vm_compute; reflexivity).
  assert (Ed : exists r, Field.drop (garbage 30 (replicate 10 1)) buried 1
                         = Ret (false, r))
    by (eexists; vm_compute; reflexivity).
  assert (Er : exists r, Field.rotate (garbage 30 (replicate 10 1)) buried right
                         = Ret (false, r))
    by (eexists; vm_compute; reflexivity).
  assert (Es : exists r, Field.spawn (garbage 30 (replicate 10 1)) spawnT
                         = Ret (false, r))
    by (eexists; vm_compute; reflexivity).
  destruct Em as [r1 E1], Ed as [r2 E2], Er as [r3 E3], Es as [r4 E4].
  rewrite E1, E2, E3, E4.
  rewrite (Hmove _ _ E1), (Hdrop _ _ E2), (Hrotate _ _ E3), (Hspawn _ E4).
  repeat split; reflexivity.
Defined.

(** * The kick tables of the tetrominoes *)

(** On a table whose bytes are zero on entry, every entry is the negation
    of the transposed one. *)
Lemma createTetrominoRotation_zeroed (typ : tetromino) :
  exists table, createTetrominoRotation zeroTable typ = Ret table
                /\ negations table.
Proof.
  destruct typ; (eexists; split; [vm_compute; reflexivity|]);
    intros i j Hi Hj;
    assert (Ei : i = 0 \/ i = 1 \/ i = 2 \/ i = 3) by lia;
    assert (Ej : j = 0 \/ j = 1 \/ j = 2 \/ j = 3) by lia;
    destruct Ei as [->|[->|[->| ->]]], Ej as [->|[->|[->| ->]]];
    vm_compute; reflexivity.
Qed.

(** C7, at a failing input: on a table whose bytes are all [0x11] on entry,
    the kicks of the T tetromino from [left] to [initial] are the four of
    the source, ended by a zero, while the kicks from [initial] to [left]
    are their four negations followed by eight stale bytes, the zero that
    ends them never being written. *)
Theorem createTetrominoRotation_stale_bytes :
  exists table,
    createTetrominoRotation dirtyTable tetromino_T = Ret table
    /\ tableKicks table 3 0 = [(-1, 0); (-1, -1); (0, 2); (-1, 2)]
    /\ tableKicks table 0 3 =
         [(1, 0); (1, 1); (0, -2); (1, -2);
          (1, 1); (1, 1); (1, 1); (1, 1); (1, 1); (1, 1); (1, 1); (1, 1)]
    /\ ~ negations table.
Proof.
  eexists. split; [vm_compute; reflexivity|].
  split; [vm_compute; reflexivity|]. split; [vm_compute; reflexivity|].
  intros H. specialize (H 0 3 ltac:(lia) ltac:(lia)).
  vm_compute in H. discriminate.
Qed.

(** * The permutator *)

Lemma insertAt_Permutation {A} (i : nat) (a : A) (l : list A) :
  Permutation (ExampleEngine.insertAt i a l) (a :: l).
Proof.
  unfold ExampleEngine.insertAt.
  rewrite <- (take_drop i l) at 3.
  symmetry. apply Permutation_middle.
Qed.

Lemma example_shuffle_permutes (g : Z) (l : list (option tile)) :
  Permutation (fst (ExampleEngine.shuffle g l)) l.
Proof.
  induction l as [|a l IH]; simpl; [constructor|].
  destruct (ExampleEngine.shuffle g l) as [s g']. simpl in *.
  rewrite insertAt_Permutation. by constructor.
Qed.

Section permutator.

Context {R : Type}.
Variable seedEngine : Z -> R.
Variable shuffle : R -> list (option tile) -> list (option tile) * R.
Hypothesis shuffle_permutes :
  forall g l, Permutation (fst (shuffle g l)) l.

Variable tiles : list (option tile).
Hypothesis tiles_fit : Z.of_nat (length tiles) <= INT_MAX.

#[local] Abbreviation generate := (TilePermutator.generate shuffle).
#[local] Abbreviation draws := (TilePermutator.draws shuffle).
#[local] Abbreviation permutate := (TilePermutator.permutate shuffle).

#[local] Abbreviation bag := (bag tiles).

Lemma permutate_series p :
  Permutation (perm_series (permutate p)) (perm_series p)
  /\ perm_numTiles (permutate p) = perm_numTiles p
  /\ perm_pointer (permutate p) = perm_pointer p.
Proof.
  unfold TilePermutator.permutate.
  pose proof (shuffle_permutes (perm_workData p) (perm_series p)) as H.
  destruct (shuffle _ _) as [s g]. simpl in *. done.
Qed.

Lemma bag_make seed : bag (TilePermutator.make seedEngine shuffle tiles seed)
  /\ perm_pointer (TilePermutator.make seedEngine shuffle tiles seed) = 0.
Proof.
  unfold TilePermutator.make.
  destruct (permutate_series
              (mkPermutator tiles (Z.of_nat (length tiles)) 0 (seedEngine seed)))
    as (Hs & Hn & Hp).
  simpl in *. split; [|done].
  split; [done|]. split; [done|]. rewrite Hp. split; [lia|].
  intros Hne. destruct tiles; [done|]. simpl. lia.
Qed.

Lemma bag_length (p : tilePermutator R) :
  bag p -> length (perm_series p) = length tiles.
Proof. intros (Hs & _). by apply Permutation_length. Qed.

(** One call: the tile at the pointer is returned; the pointer moves on,
    or goes back to the start of a reshuffled series. *)
Lemma generate_bag p :
  tiles <> [] -> bag p ->
  exists t p',
    generate p = Ret (t, p')
    /\ perm_series p !! Z.to_nat (perm_pointer p) = Some t
    /\ bag p'
    /\ (perm_pointer p + 1 < Z.of_nat (length tiles) ->
        perm_pointer p' = perm_pointer p + 1
        /\ perm_series p' = perm_series p)
    /\ (perm_pointer p + 1 = Z.of_nat (length tiles) ->
        perm_pointer p' = 0).
Proof.
  intros Hne Hbag. pose proof (bag_length p Hbag) as Hlen.
  destruct Hbag as (Hs & Hn & Hp0 & Hp). specialize (Hp Hne).
  unfold TilePermutator.generate, Field.at_index.
  destruct (lookup_lt_is_Some_2 (perm_series p) (Z.to_nat (perm_pointer p)))
    as [t Ht]; [lia|].
  rewrite Ht.
  replace ((0 <=? perm_pointer p)
           && (perm_pointer p <? Z.of_nat (length (perm_series p))))
    with true by (symmetry; apply andb_true_iff; lia).
  obind.
  destruct (Z.leb_spec INT_MAX (perm_pointer p)); [lia|].
  unfold to_size_t. rewrite Z.mod_small by (unfold INT_MAX in *; lia).
  destruct (Z.leb_spec (perm_numTiles p) (perm_pointer p + 1)).
  - eexists _, _. split; [reflexivity|]. split; [done|].
    destruct (permutate_series
                (mkPermutator (perm_series p) (perm_numTiles p) 0
                   (perm_workData p))) as (Hs' & Hn' & Hp').
    cbn [perm_series perm_numTiles perm_pointer] in Hs', Hn', Hp'.
    split; [|split; [lia|intros _; exact Hp']].
    split; [by rewrite Hs'|]. split; [lia|]. rewrite Hp'. split; [lia|].
    intros _. lia.
  - eexists _, _. split; [reflexivity|]. split; [done|].
    unfold bag. cbn [perm_series perm_numTiles perm_pointer].
    split; [|split; [intros _; split; reflexivity|lia]].
    split; [done|]. split; [done|]. split; [lia|]. intros _. lia.
Qed.

Lemma draws_app n m p :
  draws (n + m) p =
  '(ts, p) ← draws n p; '(us, p) ← draws m p; Ret (ts ++ us, p).
Proof.
  revert p. induction n as [|n IH]; intros p; simpl.
  - destruct (draws m p) as [[us p']| |]; reflexivity.
  - destruct (generate p) as [[t p1]| |]; obind; try reflexivity.
    rewrite IH. destruct (draws n p1) as [[ts p2]| |]; obind; try reflexivity.
    destruct (draws m p2) as [[us p3]| |]; reflexivity.
Qed.

(** From the pointer on, the rest of the series is drawn in order, and
    the next call starts a reshuffled series. *)
Lemma draws_rest n p :
  bag p ->
  Z.of_nat n + perm_pointer p = Z.of_nat (length tiles) ->
  (0 < n)%nat ->
  exists p',
    draws n p = Ret (drop (Z.to_nat (perm_pointer p)) (perm_series p), p')
    /\ bag p' /\ perm_pointer p' = 0.
Proof.
  revert p. induction n as [|n IH]; intros p Hbag Hn Hpos; [lia|].
  assert (Hne : tiles <> []) by (intros ->; destruct Hbag as (_&_&?&_); simpl in *; lia).
  destruct (generate_bag p Hne Hbag) as (t & p1 & Hg & Ht & Hbag1 & Hin & Hend).
  cbn [TilePermutator.draws]. rewrite Hg. obind.
  pose proof (bag_length p Hbag) as Hlen.
  pose proof Hbag as (_ & _ & Hp0 & _).
  rewrite (drop_S _ _ _ Ht).
  destruct n as [|n].
  - cbn [TilePermutator.draws]. obind.
    rewrite drop_ge by lia.
    exists p1. split; [done|]. split; [done|]. apply Hend. lia.
  - destruct Hin as [Hp1 Hs1]; [lia|].
    destruct (IH p1 Hbag1) as (p' & Hd & Hbag' & Hp'); [lia|lia|].
    rewrite Hd. obind. exists p'. split; [|done].
    rewrite Hp1, Hs1. repeat f_equal. lia.
Qed.

Lemma draws_window p :
  bag p -> perm_pointer p = 0 ->
  exists p',
    draws (length tiles) p = Ret (perm_series p, p')
    /\ bag p' /\ perm_pointer p' = 0.
Proof.
  intros Hbag Hp. pose proof (bag_length p Hbag) as Hlen.
  destruct (Nat.eq_dec (length tiles) 0%nat) as [E|E].
  - exists p. rewrite E in *. apply nil_length_inv in Hlen.
    rewrite Hlen. done.
  - destruct (draws_rest (length tiles) p Hbag) as (p' & Hd & H');
      [lia|lia|].
    rewrite Hp in Hd. exists p'. done.
Qed.

Lemma draws_windows k p :
  bag p -> perm_pointer p = 0 ->
  exists ts p',
    draws (k * length tiles) p = Ret (ts, p')
    /\ bag p' /\ perm_pointer p' = 0.
Proof.
  revert p. induction k as [|k IH]; intros p Hbag Hp.
  - exists [], p. done.
  - destruct (draws_window p Hbag Hp) as (p1 & Hd1 & Hbag1 & Hp1).
    destruct (IH p1 Hbag1 Hp1) as (ts & p' & Hd & H').
    replace (S k * length tiles)%nat
      with (length tiles + k * length tiles)%nat by lia.
    rewrite draws_app, Hd1. obind. rewrite Hd. obind. eauto.
Qed.

(** Every call returns a tile of the working set. *)
Lemma draws_total n p :
  tiles <> [] -> bag p ->
  exists ts p',
    draws n p = Ret (ts, p') /\ bag p' /\ Forall (fun t => t ∈ tiles) ts.
Proof.
  intros Hne. revert p. induction n as [|n IH]; intros p Hbag.
  - exists [], p. done.
  - destruct (generate_bag p Hne Hbag) as (t & p1 & Hg & Ht & Hbag1 & _).
    destruct (IH p1 Hbag1) as (ts & p' & Hd & Hbag' & Hts).
    cbn [TilePermutator.draws]. rewrite Hg. obind. rewrite Hd. obind.
    exists (t :: ts), p'. split; [done|]. split; [done|].
    constructor; [|done].
    destruct Hbag as (Hs & _). rewrite <- Hs.
    by eapply list_elem_of_lookup_2.
Qed.

End permutator.

(** C6: for every permutator over [N] tiles (with any engine, and any
    shuffle that returns a permutation), and for every [k], the calls
    [k * N + 1] to [k * N + N] of [generate] return a permutation of the
    working set; when the tiles are distinct, each is returned exactly
    once. *)
Theorem permutator_deals_every_tile_once {R : Type} (seedEngine : Z -> R)
    (shuffle : R -> list (option tile) -> list (option tile) * R)
    (tiles : list (option tile)) (seed : Z) (k : nat) :
  (forall g l, Permutation (fst (shuffle g l)) l) ->
  Z.of_nat (length tiles) <= INT_MAX ->
  exists before p window p',
    TilePermutator.draws shuffle (k * length tiles)
      (TilePermutator.make seedEngine shuffle tiles seed) = Ret (before, p)
    /\ TilePermutator.draws shuffle (length tiles) p = Ret (window, p')
    /\ Permutation window tiles
    /\ (NoDup tiles -> NoDup window /\ forall t, t ∈ window <-> t ∈ tiles).
Proof.
  intros Hshuffle Hfit.
  destruct (bag_make seedEngine shuffle Hshuffle tiles Hfit seed) as [Hbag Hp].
  destruct (draws_windows shuffle Hshuffle tiles Hfit k _ Hbag Hp)
    as (before & p & Hd & Hbag1 & Hp1).
  destruct (draws_window shuffle Hshuffle tiles Hfit p Hbag1 Hp1)
    as (p' & Hw & _).
  exists before, p, (perm_series p), p'.
  split; [done|]. split; [done|].
  destruct Hbag1 as (Hs & _). split; [done|].
  intros Hnd. split.
  - by rewrite Hs.
  - intros t. by rewrite Hs.
Qed.

Lemma permutator_deals_every_tile_once_witness :
  exists before p window p',
    TilePermutator.draws ExampleEngine.shuffle (2 * length exampleTiles)
      (TilePermutator.make ExampleEngine.seed ExampleEngine.shuffle
         exampleTiles 0) = Ret (before, p)
    /\ TilePermutator.draws ExampleEngine.shuffle (length exampleTiles) p
       = Ret (window, p')
    /\ Permutation window exampleTiles
    /\ (NoDup exampleTiles ->
        NoDup window /\ forall t, t ∈ window <-> t ∈ exampleTiles).
Proof.
  apply (permutator_deals_every_tile_once ExampleEngine.seed
           ExampleEngine.shuffle exampleTiles 0 2).
  - apply example_shuffle_permutes.
  - vm_compute. discriminate.
Defined.

(** * The playground *)

(** Splits a hypothesis [m ≫= k = Ret r] along its binds and branches. *)
Ltac split_outcome H :=
  repeat (obind in H;
    match type of H with
    | Ret _ = Ret _ => injection H as H; try subst
    | Throw _ = Ret _ => discriminate H
    | Undefined = Ret _ => discriminate H
    | (match ?m with Ret _ => _ | Throw _ => _ | Undefined => _ end) = Ret _ =>
      let E := fresh "E" in destruct m eqn:E; [|discriminate H..]
    | (mbind _ ?m) = Ret _ =>
      let E := fresh "E" in destruct m eqn:E; [|discriminate H..]
    | (fmap _ ?m) = Ret _ =>
      let E := fresh "E" in destruct m eqn:E; [|discriminate H..]
    | (if ?c then _ else _) = Ret _ =>
      let E := fresh "E" in destruct c eqn:E
    | (let '(_, _) := ?p in _) = Ret _ => destruct p
    | (match ?p with (_, _) => _ end) = Ret _ => destruct p
    | (match ?o with Some _ => _ | None => _ end) = Ret _ =>
      let E := fresh "E" in destruct o eqn:E
    end).

Lemma at_index_Ret {A} (v : list A) i a :
  Field.at_index v i = Ret a ->
  0 <= i < Z.of_nat (length v) /\ v !! Z.to_nat i = Some a.
Proof.
  unfold Field.at_index. destruct (_ && _) eqn:E; [|discriminate].
  apply andb_true_iff in E as [E1 E2].
  destruct (v !! Z.to_nat i); [|discriminate].
  intros H. injection H as <-. split; [lia|done].
Qed.

Lemma at_index_lookup {A} (v : list A) i a :
  0 <= i -> v !! Z.to_nat i = Some a -> Field.at_index v i = Ret a.
Proof.
  intros Hi Hl. unfold Field.at_index. rewrite Hl.
  apply lookup_lt_Some in Hl.
  replace ((0 <=? i) && (i <? Z.of_nat (length v))) with true; [done|].
  symmetry. apply andb_true_iff. lia.
Qed.

Lemma spawn_typ f p b p' :
  Field.spawn f p = Ret (b, p') -> pfd_typ p' = pfd_typ p.
Proof.
  unfold Field.spawn. intros H.
  destruct (pfd_typ p) eqn:Et; [|discriminate].
  destruct (negb _); injection H as _ <-; done.
Qed.

Lemma of_type_typ typ p :
  TilePathFinder.of_type typ = Ret p -> pfd_typ p = typ.
Proof.
  unfold TilePathFinder.of_type. destruct typ; obind; [|discriminate].
  intros H. injection H as <-. done.
Qed.

Ltac use_typ :=
  repeat match goal with
    | H : TilePathFinder.of_type _ = Ret _ |- _ => apply of_type_typ in H
    | H : Field.spawn _ _ = Ret _ |- _ => apply spawn_typ in H
    end.

Section playground.

Context {G : Type} `{!tileGenerator G}.

(** What [spawnTile] leaves alone, and what it sets. *)
Lemma spawnTile_frame (pg pg' : playground G) typ :
  Playground.spawnTile pg typ = Ret pg' ->
  pg_f pg' = pg_f pg
  /\ pg_generator pg' = pg_generator pg
  /\ pg_swap pg' = pg_swap pg
  /\ pg_swapEnabled pg' = pg_swapEnabled pg
  /\ pg_numPreviews pg' = pg_numPreviews pg
  /\ pg_preview pg' = pg_preview pg
  /\ pg_previewCursor pg' = pg_previewCursor pg
  /\ pfd_typ (pg_current pg') = typ
  /\ (pg_state pg' = pg_state pg \/ pg_state pg' = topOut).
Proof.
  unfold Playground.spawnTile. intros H. split_outcome H; use_typ; cbn;
    intuition congruence.
Qed.

Lemma tileMove_frame (pg pg' : playground G) pfd :
  Playground.tileMove pg pfd = Ret pg' ->
  pg_f pg' = pg_f pg
  /\ sameSupply pg pg'
  /\ pg_swap pg' = pg_swap pg
  /\ pg_swapEnabled pg' = pg_swapEnabled pg
  /\ pg_current pg' = pfd
  /\ pg_state pg' = pg_state pg.
Proof.
  unfold Playground.tileMove, sameSupply. intros H. split_outcome H; cbn;
    intuition congruence.
Qed.

Lemma onlyMoves_refl (pg : playground G) : onlyMoves pg pg.
Proof. unfold onlyMoves, sameSupply. tauto. Qed.

Lemma tileMove_onlyMoves (pg pg' : playground G) pfd :
  Playground.tileMove pg pfd = Ret pg' -> onlyMoves pg pg'.
Proof. intros H. apply tileMove_frame in H. unfold onlyMoves. tauto. Qed.

Lemma move_frame (pg : playground G) dx b pg' :
  Playground.move pg dx = Ret (b, pg') -> onlyMoves pg pg'.
Proof.
  unfold Playground.move. intros H. split_outcome H;
    eauto using onlyMoves_refl, tileMove_onlyMoves.
Qed.

Lemma drop_frame (pg : playground G) dy b pg' :
  Playground.drop pg dy = Ret (b, pg') -> onlyMoves pg pg'.
Proof.
  unfold Playground.drop. intros H. split_outcome H;
    eauto using onlyMoves_refl, tileMove_onlyMoves.
Qed.

Lemma rotate_frame (pg : playground G) d b pg' :
  Playground.rotate pg d = Ret (b, pg') -> onlyMoves pg pg'.
Proof.
  unfold Playground.rotate. intros H. split_outcome H;
    eauto using onlyMoves_refl, tileMove_onlyMoves.
Qed.

Lemma rotations_frame (pg : playground G) b pg' :
  Playground.rotateCCW pg = Ret (b, pg')
  \/ Playground.rotateCW pg = Ret (b, pg')
  \/ Playground.halfTurn pg = Ret (b, pg') ->
  onlyMoves pg pg'.
Proof.
  unfold Playground.rotateCCW, Playground.rotateCW, Playground.halfTurn.
  intros [H|[H|H]]; destruct (negb _);
    try (injection H as _ <-; apply onlyMoves_refl);
    by eapply rotate_frame.
Qed.

(** [spawnNextTile]: with no tile at the head of the previews the game is
    exhausted; with a tile there, that tile is spawned, and the vacated
    slot takes the next tile of the generator. *)
Lemma spawnNextTile_frame (pg pg' : playground G) :
  Playground.spawnNextTile pg = Ret pg' ->
  pg_f pg' = pg_f pg
  /\ pg_swap pg' = pg_swap pg
  /\ pg_swapEnabled pg' = pg_swapEnabled pg
  /\ pg_numPreviews pg' = pg_numPreviews pg
  /\ exists head,
       pg_preview pg !! Z.to_nat (pg_previewCursor pg) = Some head
       /\ pfd_typ (pg_current pg') = head
       /\ match head with
          | None => pg_state pg' = exhausted /\ sameSupply pg pg'
          | Some _ => pg_state pg' = pg_state pg \/ pg_state pg' = topOut
          end.
Proof.
  unfold Playground.spawnNextTile. intros H. split_outcome H;
    match goal with
    | E : Field.at_index _ (pg_previewCursor _) = Ret _ |- _ =>
      apply at_index_Ret in E as [_ E]
    end;
    first
      [ apply spawnTile_frame in H; cbn in H;
        (repeat split; try tauto); eexists; (split; [eassumption|]); tauto
      | cbn; unfold sameSupply; cbn; repeat split; exists None; done ].
Qed.

Variable ok : G -> Prop.
Hypothesis generator_neverDry : neverDry ok.

Lemma supplied_same (pg pg' : playground G) :
  sameSupply pg pg' ->
  pg_state pg' = pg_state pg \/ pg_state pg' <> exhausted ->
  supplied ok pg -> supplied ok pg'.
Proof.
  unfold sameSupply, supplied. intros (-> & -> & -> & ->) Hs.
  intros (? & ? & ? & ? & ? & ?). repeat split; try done; try lia.
  destruct Hs as [-> | Hs]; done.
Qed.

Lemma supplied_preview (pg : playground G) i a :
  supplied ok pg -> Field.at_index (pg_preview pg) i = Ret a -> a <> None.
Proof.
  intros (_ & _ & _ & _ & Hall & _) H. apply at_index_Ret in H as [_ H].
  rewrite Forall_lookup in Hall. by eapply Hall.
Qed.

Lemma spawnNextTile_supplied (pg pg' : playground G) :
  supplied ok pg -> Playground.spawnNextTile pg = Ret pg' ->
  supplied ok pg'.
Proof.
  intros Hs H. unfold Playground.spawnNextTile in H.
  destruct (Field.at_index (pg_preview pg) (pg_previewCursor pg))
    as [head| |] eqn:Eh; try discriminate.
  pose proof (supplied_preview _ _ _ Hs Eh) as Hhead.
  obind in H. destruct head as [t|]; [|done].
  destruct (if pg_previewCursor pg =? 0 then _ else _)
    as [previous| |] eqn:Ep; try discriminate.
  assert (Hprev : previous <> None).
  { destruct (pg_previewCursor pg =? 0);
      eapply supplied_preview; eauto. }
  obind in H. destruct previous as [tp|]; [|done].
  destruct Hs as (Hok & Hn & Hlen & Hc & Hall & Hst).
  destruct (generator_neverDry _ Hok) as (next & g' & Hg & Hok').
  rewrite Hg in H. obind in H.
  apply spawnTile_frame in H. cbn in H.
  destruct H as (_ & Hgen & _ & _ & Hnum & Hpre & Hcur & _ & Hstate).
  unfold supplied. rewrite Hgen, Hnum, Hpre, Hcur.
  repeat split; try done.
  - rewrite length_insert. done.
  - destruct (_ <=? _); lia.
  - destruct (Z.leb_spec (pg_numPreviews pg) (pg_previewCursor pg + 1)); lia.
  - apply Forall_insert; done.
  - destruct Hstate as [-> | ->]; done.
Qed.

Lemma hardDrop_supplied (pg pg' : playground G) b :
  supplied ok pg -> Playground.hardDrop pg = Ret (b, pg') ->
  supplied ok pg'.
Proof.
  intros Hs H. unfold Playground.hardDrop in H.
  destruct (negb (Playground.isInGame pg)); [by injection H as _ <-|].
  destruct (Playground.drop pg 20) as [[b1 pg1]| |] eqn:Ed; try discriminate.
  apply drop_frame in Ed. destruct Ed as (_ & Hsame & _ & _ & Hst).
  pose proof (supplied_same _ _ Hsame (or_introl Hst) Hs) as Hs1.
  obind in H. split_outcome H.
  match goal with
  | E : (if ?c then _ else _) = Ret _ |- _ =>
    destruct c; [|injection E as <-]
  end.
  - eapply spawnNextTile_supplied; [|eassumption].
    eapply supplied_same; [| |exact Hs1]; unfold sameSupply; cbn; tauto.
  - eapply supplied_same; [| |exact Hs1]; unfold sameSupply; cbn; tauto.
Qed.

Lemma swapTile_supplied (pg pg' : playground G) b :
  supplied ok pg -> Playground.swapTile pg = Ret (b, pg') ->
  supplied ok pg'.
Proof.
  intros Hs H. unfold Playground.swapTile in H.
  destruct (negb (Playground.isInGame pg)); [by injection H as _ <-|].
  destruct (negb (pg_swapEnabled pg)); [by injection H as _ <-|].
  destruct (pg_swap pg) as [held|] eqn:Eheld; split_outcome H.
  - match goal with
    | E : Playground.spawnTile _ _ = Ret _ |- _ =>
      apply spawnTile_frame in E; cbn in E;
      destruct E as (_&?&_&_&?&?&?&_&Hst)
    end.
    eapply supplied_same; [| |exact Hs]; unfold sameSupply; [tauto|].
    destruct Hst as [-> | ->]; [by left|by right].
  - eapply spawnNextTile_supplied; [|eassumption].
    eapply supplied_same; [| |exact Hs]; unfold sameSupply; cbn; tauto.
Qed.

Lemma step_supplied (pg pg' : playground G) c :
  supplied ok pg -> Playground.step pg c = Ret pg' -> supplied ok pg'.
Proof.
  intros Hs H. destruct c; cbn [Playground.step] in H.
  - unfold Playground.start in H. destruct (negb _); [by injection H as <-|].
    eapply spawnNextTile_supplied; [|eassumption].
    eapply supplied_same; [| |exact Hs]; unfold sameSupply; cbn; [tauto|].
    by right.
  - unfold Playground.complete in H.
    destruct (negb _); injection H as <-; [done|].
    eapply supplied_same; [| |exact Hs]; unfold sameSupply; cbn; [tauto|].
    by right.
  - destruct (Playground.move pg dx) as [[b p]| |] eqn:E; try discriminate.
    injection H as <-. apply move_frame in E as (_ & ? & _ & _ & ?).
    eapply supplied_same; eauto.
  - destruct (Playground.drop pg dy) as [[b p]| |] eqn:E; try discriminate.
    injection H as <-. apply drop_frame in E as (_ & ? & _ & _ & ?).
    eapply supplied_same; eauto.
  - destruct (Playground.hardDrop pg) as [[b p]| |] eqn:E; try discriminate.
    injection H as <-. by eapply hardDrop_supplied.
  - destruct (Playground.rotateCCW pg) as [[b p]| |] eqn:E; try discriminate.
    injection H as <-.
    destruct (rotations_frame pg b p) as (_ & ? & _ & _ & ?); [by left|].
    eapply supplied_same; eauto.
  - destruct (Playground.rotateCW pg) as [[b p]| |] eqn:E; try discriminate.
    injection H as <-.
    destruct (rotations_frame pg b p) as (_ & ? & _ & _ & ?);
      [by right; left|].
    eapply supplied_same; eauto.
  - destruct (Playground.halfTurn pg) as [[b p]| |] eqn:E; try discriminate.
    injection H as <-.
    destruct (rotations_frame pg b p) as (_ & ? & _ & _ & ?);
      [by right; right|].
    eapply supplied_same; eauto.
  - destruct (Playground.swapTile pg) as [[b p]| |] eqn:E; try discriminate.
    injection H as <-. by eapply swapTile_supplied.
Qed.

Lemma run_supplied cs (pg pg' : playground G) :
  supplied ok pg -> Playground.run cs pg = Ret pg' -> supplied ok pg'.
Proof.
  revert pg. induction cs as [|c cs IH]; intros pg Hs H; cbn in H.
  - by injection H as <-.
  - destruct (Playground.step pg c) as [pg1| |] eqn:E; try discriminate.
    obind in H. eapply IH; [|eassumption]. by eapply step_supplied.
Qed.

Lemma fillPreviews_neverDry n g :
  ok g ->
  exists ts g', Playground.fillPreviews n g = Ret (ts, g')
                /\ ok g' /\ length ts = n
                /\ Forall (fun t => t <> None) ts.
Proof.
  revert g. induction n as [|n IH]; intros g Hok.
  - exists [], g. done.
  - destruct (generator_neverDry _ Hok) as (t & g1 & Hg & Hok1).
    destruct (IH g1 Hok1) as (ts & g' & Hf & Hok' & Hlen & Hall).
    cbn [Playground.fillPreviews]. rewrite Hg. obind. rewrite Hf. obind.
    exists (Some t :: ts), g'. split; [done|]. split; [done|].
    split; [by rewrite <- Hlen|]. by constructor.
Qed.

Lemma make_supplied g numPreviews :
  ok g -> 1 <= numPreviews ->
  exists pg, Playground.make g numPreviews = Ret pg /\ supplied ok pg.
Proof.
  intros Hok Hn. unfold Playground.make.
  destruct (Z.ltb_spec numPreviews 0); [lia|].
  destruct (fillPreviews_neverDry (Z.to_nat numPreviews) g Hok)
    as (ts & g' & Hf & Hok' & Hlen & Hall).
  rewrite Hf. obind. eexists. split; [reflexivity|].
  unfold supplied. cbn. repeat split; try done; lia.
Qed.

End playground.

(** * The hold slot *)

(** C3, as stated, fails for an empty hold slot: after the first swap of a
    game the playground is in game and swap is still enabled. *)
Lemma swap_with_empty_hold_stays_enabled :
  (pg ← examplePlayground; Playground.run [Playground.Start] pg)
  = Ret (exampleAfter [Playground.Start])
  /\ pg_state (exampleAfter [Playground.Start]) = inGame
  /\ pg_swapEnabled (exampleAfter [Playground.Start]) = true
  /\ pg_swap (exampleAfter [Playground.Start]) = None
  /\ Playground.swapTile (exampleAfter [Playground.Start])
     = Ret (true, exampleAfter [Playground.Start; Playground.SwapTile])
  /\ pg_state (exampleAfter [Playground.Start; Playground.SwapTile]) = inGame
  /\ pg_swapEnabled (exampleAfter [Playground.Start; Playground.SwapTile])
     = true.
Proof.
  split; [vm_compute; reflexivity|]. split; [vm_compute; reflexivity|].
  split; [vm_compute; reflexivity|]. split; [vm_compute; reflexivity|].
  split; [vm_compute; reflexivity|]. split; vm_compute; reflexivity.
Qed.

Section hold.

Context {G : Type} `{!tileGenerator G}.

Lemma swapEnabled_kept (pg pg' : playground G) c :
  c <> Playground.HardDrop ->
  pg_swapEnabled pg = false ->
  Playground.step pg c = Ret pg' ->
  pg_swapEnabled pg' = false.
Proof.
  intros Hc Hoff H. destruct c; cbn [Playground.step] in H; try done.
  - unfold Playground.start in H. destruct (negb _); [by injection H as <-|].
    apply spawnNextTile_frame in H as (_ & _ & H & _). by rewrite H.
  - unfold Playground.complete in H. destruct (negb _); by injection H as <-.
  - destruct (Playground.move pg dx) as [[b p]| |] eqn:E; try discriminate.
    injection H as <-. apply move_frame in E as (_ & _ & _ & E & _).
    by rewrite E.
  - destruct (Playground.drop pg dy) as [[b p]| |] eqn:E; try discriminate.
    injection H as <-. apply drop_frame in E as (_ & _ & _ & E & _).
    by rewrite E.
  - destruct (Playground.rotateCCW pg) as [[b p]| |] eqn:E; try discriminate.
    injection H as <-.
    destruct (rotations_frame pg b p) as (_ & _ & _ & E' & _); [by left|].
    by rewrite E'.
  - destruct (Playground.rotateCW pg) as [[b p]| |] eqn:E; try discriminate.
    injection H as <-.
    destruct (rotations_frame pg b p) as (_ & _ & _ & E' & _);
      [by right; left|].
    by rewrite E'.
  - destruct (Playground.halfTurn pg) as [[b p]| |] eqn:E; try discriminate.
    injection H as <-.
    destruct (rotations_frame pg b p) as (_ & _ & _ & E' & _);
      [by right; right|].
    by rewrite E'.
  - unfold Playground.swapTile in H. rewrite Hoff in H.
    destruct (negb _); by injection H as <-.
Qed.

Lemma swapEnabled_kept_run cs (pg pg' : playground G) :
  Forall (fun c => c <> Playground.HardDrop) cs ->
  pg_swapEnabled pg = false ->
  Playground.run cs pg = Ret pg' ->
  pg_swapEnabled pg' = false.
Proof.
  revert pg. induction cs as [|c cs IH]; intros pg Hcs Hoff H;
    cbn [Playground.run] in H.
  - by injection H as <-.
  - apply Forall_cons in Hcs as [Hc Hcs].
    destruct (Playground.step pg c) as [pg1| |] eqn:E; try discriminate.
    obind in H. eapply IH; [done| |eassumption].
    by eapply swapEnabled_kept.
Qed.

Lemma hardDrop_enables_swap (pg pg' : playground G) :
  Playground.hardDrop pg = Ret (true, pg') -> pg_swapEnabled pg' = true.
Proof.
  unfold Playground.hardDrop. intros H.
  destruct (negb _); [discriminate|]. split_outcome H.
  match goal with
  | E : (if ?c then _ else _) = Ret _ |- _ =>
    destruct c; [|by injection E as <-]
  end.
  match goal with
  | E : Playground.spawnNextTile _ = Ret _ |- _ =>
    apply spawnNextTile_frame in E as (_ & _ & E & _); by rewrite E
  end.
Qed.

(** C3, amended: a successful [swapTile] (the playground in game, swap
    enabled) puts the active tile in the hold slot. With an occupied hold
    slot the held tile is respawned and swap is disabled until the next
    [hardDrop], which enables it again. With an empty hold slot the tile at
    the head of the previews is spawned (the game is exhausted when there is
    none) and swap stays enabled. *)
Theorem swapTile_holds_the_tile (pg pg' : playground G) :
  Playground.swapTile pg = Ret (true, pg') ->
  pg_state pg = inGame
  /\ pg_swapEnabled pg = true
  /\ pg_swap pg' = pfd_typ (pg_current pg)
  /\ match pg_swap pg with
     | Some held =>
       pfd_typ (pg_current pg') = Some held
       /\ pg_swapEnabled pg' = false
       /\ (forall cs pg'',
             Forall (fun c => c <> Playground.HardDrop) cs ->
             Playground.run cs pg' = Ret pg'' -> pg_swapEnabled pg'' = false)
       /\ (forall pg'', Playground.hardDrop pg' = Ret (true, pg'') ->
             pg_swapEnabled pg'' = true)
     | None =>
       pg_swapEnabled pg' = true
       /\ exists head,
            pg_preview pg !! Z.to_nat (pg_previewCursor pg) = Some head
            /\ pfd_typ (pg_current pg') = head
            /\ (head = None -> pg_state pg' = exhausted)
     end.
Proof.
  unfold Playground.swapTile, Playground.isInGame. intros H.
  destruct (bool_decide_reflect (pg_state pg = inGame)) as [Hin|];
    [|discriminate].
  cbn [negb] in H. destruct (pg_swapEnabled pg); [|discriminate].
  cbn [negb] in H. split; [done|]. split; [done|].
  destruct (pfd_typ (pg_current pg)) as [t|] eqn:Et; [|discriminate].
  obind in H.
  destruct (pg_swap pg) as [held|] eqn:Eheld.
  - destruct (Playground.spawnTile _ _) as [pg1| |] eqn:E; try discriminate.
    injection H as <-.
    apply spawnTile_frame in E. cbn in E.
    destruct E as (_ & _ & Hswap & Hen & _ & _ & _ & Htyp & _).
    split; [done|]. split; [done|]. split; [done|]. split.
    + intros cs pg'' Hcs Hrun. by eapply swapEnabled_kept_run.
    + apply hardDrop_enables_swap.
  - destruct (Playground.spawnNextTile _) as [pg1| |] eqn:E; try discriminate.
    injection H as <-.
    apply spawnNextTile_frame in E. cbn in E.
    destruct E as (_ & Hswap & Hen & _ & head & Hhead & Htyp & Hst).
    split; [done|]. split; [done|].
    exists head. split; [done|]. split; [done|].
    intros ->. tauto.
Qed.

End hold.

Lemma swapTile_holds_the_tile_witness :
  Playground.swapTile (exampleAfter [Playground.Start; Playground.SwapTile])
  = Ret (true, exampleAfter [Playground.Start; Playground.SwapTile;
                             Playground.SwapTile])
  /\ pg_swap (exampleAfter [Playground.Start; Playground.SwapTile;
                            Playground.SwapTile])
     = pfd_typ (pg_current
                  (exampleAfter [Playground.Start; Playground.SwapTile]))
  /\ pg_swapEnabled (exampleAfter [Playground.Start; Playground.SwapTile;
                                   Playground.SwapTile]) = false.
Proof.
  assert (E : Playground.swapTile
                (exampleAfter [Playground.Start; Playground.SwapTile])
              = Ret (true, exampleAfter [Playground.Start; Playground.SwapTile;
                                         Playground.SwapTile]))
    by (vm_compute; reflexivity).
  pose proof (swapTile_holds_the_tile _ _ E) as (_ & _ & Hswap & Hheld).
  split; [exact E|]. split; [exact Hswap|].
  assert (Es : exists held,
             pg_swap (exampleAfter [Playground.Start; Playground.SwapTile])
             = Some held)
    by (eexists; vm_compute; reflexivity).
  destruct Es as [held Es]. rewrite Es in Hheld. tauto.
Defined.

(** * A permutator never runs dry *)

Lemma permutator_neverDry {R : Type}
    (shuffle : R -> list (option tile) -> list (option tile) * R)
    (tiles : list (option tile)) :
  (forall g l, Permutation (fst (shuffle g l)) l) ->
  Z.of_nat (length tiles) <= INT_MAX ->
  tiles <> [] ->
  Forall (fun t => t <> None) tiles ->
  neverDry (tileGenerator0 := TilePermutator.generate shuffle) (bag tiles).
Proof.
  intros Hshuffle Hfit Hne Hall p Hbag.
  destruct (generate_bag shuffle Hshuffle tiles Hfit p Hne Hbag)
    as (t & p' & Hg & Ht & Hbag' & _).
  assert (Hin : t ∈ tiles).
  { destruct Hbag as (Hs & _). rewrite <- Hs. by eapply list_elem_of_lookup_2. }
  rewrite Forall_forall in Hall. specialize (Hall t Hin).
  destruct t as [t|]; [|done]. by exists t, p'.
Qed.

(** * Bits of the windows *)

Lemma testbit_u64 a n : Z.testbit (u64 a) n = (n <? 64) && Z.testbit a n.
Proof. unfold u64. apply Z.testbit_mod_pow2. lia. Qed.

Lemma testbit_fullMask n :
  0 <= n -> Z.testbit CompactField.fullMask n = (n <? 60).
Proof.
  intros Hn. change CompactField.fullMask with (Z.ones 60).
  apply Z.testbit_ones_nonneg; lia.
Qed.

Lemma testbit_fieldMask n :
  0 <= n -> Z.testbit CompactField.fieldMask n = (n <? 10).
Proof.
  intros Hn. change CompactField.fieldMask with (Z.ones 10).
  apply Z.testbit_ones_nonneg; lia.
Qed.

Lemma testbit_solidRow n :
  0 <= n -> Z.testbit Field.solidRow n = (n <? 10).
Proof.
  intros Hn. change Field.solidRow with (Z.ones 10).
  apply Z.testbit_ones_nonneg; lia.
Qed.

Ltac bool_lia :=
  repeat match goal with
    | |- context [?a <? ?b] => destruct (Z.ltb_spec a b)
    | |- context [?a <=? ?b] => destruct (Z.leb_spec a b)
    end;
  cbn [andb orb negb]; rewrite ?andb_true_r, ?andb_false_r, ?orb_false_r;
  try reflexivity; try lia.

Lemma fieldDown_bits c r n :
  0 <= n ->
  Z.testbit (CompactField.fieldDown c r) n =
  if n <? 10 then Z.testbit r n else (n <? 60) && Z.testbit c (n - 10).
Proof.
  intros Hn. unfold CompactField.fieldDown.
  rewrite Z.lor_spec, !Z.land_spec, testbit_u64, Z.shiftl_spec by lia.
  rewrite testbit_fullMask, testbit_fieldMask by lia.
  destruct (Z.ltb_spec n 10).
  - rewrite (Z.testbit_neg_r c) by lia.
    rewrite andb_false_r, andb_true_r. reflexivity.
  - rewrite andb_false_r, orb_false_r.
    destruct (Z.ltb_spec n 60); destruct (Z.ltb_spec n 64); try lia;
      rewrite ?andb_true_r, ?andb_false_r; reflexivity.
Qed.

Lemma fieldUp_bits c r n :
  0 <= n ->
  Z.testbit (CompactField.fieldUp c r) n =
  if n <? 50 then Z.testbit c (n + 10) else (n <? 60) && Z.testbit r (n - 50).
Proof.
  intros Hn. unfold CompactField.fieldUp.
  rewrite Z.lor_spec, Z.shiftr_spec, Z.land_spec, testbit_u64 by lia.
  rewrite Z.shiftl_spec, Z.land_spec by lia.
  rewrite testbit_fullMask by lia.
  destruct (Z.ltb_spec n 50).
  - rewrite (Z.testbit_neg_r r) by lia.
    destruct (Z.ltb_spec (n + 10) 60); [|lia].
    rewrite andb_true_r, andb_false_l, andb_false_r, orb_false_r. reflexivity.
  - destruct (Z.ltb_spec (n + 10) 60); [lia|].
    rewrite andb_false_r, orb_false_l.
    rewrite testbit_fieldMask by lia.
    destruct (Z.ltb_spec n 60); destruct (Z.ltb_spec n 64);
      destruct (Z.ltb_spec (n - 50) 10); try lia;
      rewrite ?andb_true_r, ?andb_true_l, ?andb_false_l; reflexivity.
Qed.

(** Bit [n] of a window is the cell in column [n mod 10] of its row
    [n / 10]. *)
Lemma window_bits f y n :
  0 <= n ->
  Z.testbit (Field.window f y) n =
  (n <? 60) && Z.testbit (Field.compactRowAt f (y + n / 10)) (n mod 10).
Proof.
  intros Hn. unfold Field.window. cbn [foldl].
  destruct (Z.ltb_spec n 60) as [H60|H60].
  - assert (Hq : n / 10 = 0 \/ n / 10 = 1 \/ n / 10 = 2 \/ n / 10 = 3
                 \/ n / 10 = 4 \/ n / 10 = 5).
    { assert (0 <= n / 10 < 6); [|lia].
      split; [apply Z.div_pos; lia | apply Z.div_lt_upper_bound; lia]. }
    pose proof (Z.div_mod n 10 ltac:(lia)) as Hdm.
    pose proof (Z.mod_pos_bound n 10 ltac:(lia)) as Hm.
    cbn [andb].
    repeat (rewrite fieldDown_bits by lia;
            match goal with
            | |- context [?a <? 10] => destruct (Z.ltb_spec a 10)
            end;
            [f_equal; [f_equal; lia|lia]|];
            match goal with
            | |- context [?a <? 60] => destruct (Z.ltb_spec a 60); [|lia]
            end; cbn [andb]).
    lia.
  - cbn [andb]. rewrite fieldDown_bits by lia.
    destruct (Z.ltb_spec n 10); [lia|].
    destruct (Z.ltb_spec n 60); [lia|]. reflexivity.
Qed.

Lemma testbit_row_eq f y y' n n' :
  y = y' -> n = n' ->
  Z.testbit (Field.compactRowAt f y) n = Z.testbit (Field.compactRowAt f y') n'.
Proof. intros -> ->. reflexivity. Qed.

Lemma div_mod_shift n : (n - 10) / 10 = n / 10 - 1 /\ (n - 10) mod 10 = n mod 10.
Proof.
  replace (n - 10) with (n + (-1) * 10) by lia.
  rewrite Z.div_add, Z.mod_add by lia. lia.
Qed.

Lemma div_mod_shift_up n : (n + 10) / 10 = n / 10 + 1 /\ (n + 10) mod 10 = n mod 10.
Proof.
  replace (n + 10) with (n + 1 * 10) by lia.
  rewrite Z.div_add, Z.mod_add by lia. lia.
Qed.

(** Shifting a window down, the row below pulled in, gives the window one
    row lower. *)
Lemma window_down f y :
  CompactField.fieldDown (Field.window f y) (Field.compactRowAt f (y - 1))
  = Field.window f (y - 1).
Proof.
  apply Z.bits_inj'. intros n Hn.
  rewrite fieldDown_bits by lia.
  destruct (Z.ltb_spec n 10).
  - rewrite window_bits by lia. rewrite Z.div_small, Z.mod_small by lia.
    destruct (Z.ltb_spec n 60); [|lia]. cbn [andb]. apply testbit_row_eq; lia.
  - rewrite !window_bits by lia. destruct (div_mod_shift n) as [-> ->].
    destruct (Z.ltb_spec n 60); [|reflexivity].
    destruct (Z.ltb_spec (n - 10) 60); [|lia].
    cbn [andb]. apply testbit_row_eq; lia.
Qed.

(** Shifting a window up, the row above pulled in, gives the window one
    row higher. *)
Lemma window_up f y :
  CompactField.fieldUp (Field.window f y) (Field.compactRowAt f (y + 6))
  = Field.window f (y + 1).
Proof.
  apply Z.bits_inj'. intros n Hn.
  rewrite fieldUp_bits by lia.
  destruct (Z.ltb_spec n 50).
  - rewrite !window_bits by lia. destruct (div_mod_shift_up n) as [-> ->].
    destruct (Z.ltb_spec (n + 10) 60); [|lia].
    destruct (Z.ltb_spec n 60); [|lia].
    cbn [andb]. apply testbit_row_eq; lia.
  - rewrite window_bits by lia.
    destruct (Z.ltb_spec n 60); [|reflexivity]. cbn [andb].
    assert (Hq : n / 10 = 5).
    { assert (5 <= n / 10 < 6); [|lia].
      split; [apply Z.div_le_lower_bound; lia
             |apply Z.div_lt_upper_bound; lia]. }
    pose proof (Z.div_mod n 10 ltac:(lia)) as Hdm.
    rewrite Hq. apply testbit_row_eq; lia.
Qed.

(** * The loops that move a window *)

Lemma i8_small z : int8 z -> i8 z = z.
Proof.
  unfold int8, i8. intros H.
  rewrite Z.mod_small by lia. lia.
Qed.

Lemma i8_int8 z : int8 (i8 z).
Proof.
  unfold int8, i8. pose proof (Z.mod_pos_bound (z + 128) 256). lia.
Qed.

Lemma windowUp_below fuel f newY y c :
  newY <= y -> Field.windowUp fuel f newY y c = (y, c).
Proof.
  intros H. destruct fuel; cbn [Field.windowUp]; [done|].
  destruct (Z.ltb_spec y newY); [lia|done].
Qed.

Lemma windowDown_above fuel f newY y c :
  y <= newY -> Field.windowDown fuel f newY y c = (y, c).
Proof.
  intros H. destruct fuel; cbn [Field.windowDown]; [done|].
  destruct (Z.ltb_spec newY y); [lia|done].
Qed.

Lemma windowUp_reaches fuel f newY y :
  int8 y -> int8 newY -> y <= newY -> newY - y <= Z.of_nat fuel ->
  Field.windowUp fuel f newY y (Field.window f y)
  = (newY, Field.window f newY).
Proof.
  revert y. induction fuel as [|fuel IH]; intros y Hy Hn Hle Hfuel.
  - cbn [Field.windowUp]. repeat f_equal; lia.
  - cbn [Field.windowUp]. destruct (Z.ltb_spec y newY).
    + unfold int8 in *. rewrite i8_small by (unfold int8; lia).
      rewrite window_up. apply IH; unfold int8; lia.
    + repeat f_equal; lia.
Qed.

Lemma windowDown_reaches fuel f newY y :
  int8 y -> int8 newY -> newY <= y -> y - newY <= Z.of_nat fuel ->
  Field.windowDown fuel f newY y (Field.window f y)
  = (newY, Field.window f newY).
Proof.
  revert y. induction fuel as [|fuel IH]; intros y Hy Hn Hle Hfuel.
  - cbn [Field.windowDown]. repeat f_equal; lia.
  - cbn [Field.windowDown]. destruct (Z.ltb_spec newY y).
    + unfold int8 in *. rewrite i8_small by (unfold int8; lia).
      rewrite window_down. apply IH; unfold int8; lia.
    + repeat f_equal; lia.
Qed.

(** The two loops of a kick leave the window of the target row. *)
Lemma window_moves f newY y :
  int8 y -> int8 newY ->
  (let '(ry, rc) := Field.windowUp (Z.to_nat 256) f newY y (Field.window f y) in
   Field.windowDown (Z.to_nat 256) f newY ry rc)
  = (newY, Field.window f newY).
Proof.
  intros Hy Hn. unfold int8 in *.
  destruct (Z.le_gt_cases y newY).
  - rewrite windowUp_reaches by (unfold int8; lia).
    apply windowDown_above. lia.
  - rewrite windowUp_below by lia.
    apply windowDown_reaches; unfold int8; lia.
Qed.

(** * What the invariant of a tile gives *)

Lemma tile_ok_dir t d : tile_ok t -> TileShape.checkDir t d = true.
Proof.
  unfold tile_ok, TileShape.check. cbn [forallb TileDirection.all].
  rewrite !andb_true_iff. destruct d; tauto.
Qed.

Lemma bits_range n : n ∈ TileShape.bits <-> 0 <= n < 64.
Proof.
  unfold TileShape.bits. rewrite list_elem_of_fmap. split.
  - intros (k & -> & Hk). apply elem_of_seq in Hk. lia.
  - intros Hn. exists (Z.to_nat n). split; [lia|]. apply elem_of_seq. lia.
Qed.

Lemma tile_ok_shape t d : tile_ok t -> shape t d.
Proof.
  intros H. apply (tile_ok_dir t d) in H. unfold TileShape.checkDir in H.
  rewrite !andb_true_iff in H.
  destruct H as (((((((((((H1 & H2) & H3) & H4) & H5) & H6) & H7) & H8) & H9)
                   & H10) & H11) & H12).
  rewrite forallb_forall in H7. rewrite existsb_exists in H8.
  rewrite forallb_forall in H9. rewrite forallb_forall in H12.
  assert (Hmask : 0 <= tile_compactTile t d < 2 ^ 64) by lia.
  constructor.
  - lia.
  - lia.
  - lia.
  - lia.
  - lia.
  - intros n Hn.
    assert (Hr : 0 <= n < 64).
    { destruct (Z.lt_ge_cases n 0); [by rewrite Z.testbit_neg_r in Hn|].
      destruct (Z.lt_ge_cases n 64); [lia|].
      rewrite <- (Z.mod_small _ _ Hmask) in Hn.
      rewrite Z.mod_pow2_bits_high in Hn by lia. done. }
    specialize (H7 n). rewrite <- list_elem_of_In, bits_range in H7.
    specialize (H7 Hr). rewrite Hn in H7. cbn [implb] in H7.
    unfold TileShape.inBox in H7. rewrite !andb_true_iff in H7.
    assert (n / 10 <= 5) by lia.
    assert (n / 10 < 6) by lia.
    pose proof (Z.div_mod n 10 ltac:(lia)). 
    pose proof (Z.mod_pos_bound n 10 ltac:(lia)). lia.
  - destruct H8 as (n & _ & Hn). rewrite andb_true_iff in Hn.
    exists n. split; [tauto|lia].
  - rewrite Forall_forall. intros [v l] Hp. cbn [snd].
    specialize (H9 (v, l)). rewrite <- list_elem_of_In in H9.
    specialize (H9 Hp). cbn in H9. rewrite !andb_true_iff in H9.
    repeat split; try lia. tauto.
  - done.
  - apply Nat.leb_le. done.
  - intros j. apply H12. destruct j; cbn; tauto.
Qed.

(** * Validity *)

Lemma isValidFor_ext t a b :
  pfd_state a = pfd_state b -> pfd_current a = pfd_current b ->
  Field.isValidFor t a = Field.isValidFor t b.
Proof. unfold Field.isValidFor. intros -> ->. reflexivity. Qed.

Lemma isValidFor_true t p :
  Field.isValidFor t p = true <->
  0 <= state_x (pfd_state p)
       + TileCoord.x (tile_min t (state_dir (pfd_state p)))
  /\ state_x (pfd_state p)
     + TileCoord.x (tile_max t (state_dir (pfd_state p))) <= 9
  /\ 0 <= state_y (pfd_state p)
          + TileCoord.y (tile_max t (state_dir (pfd_state p)))
  /\ Z.land (pfd_current p)
       (CompactField.tileMove
          (tile_compactTile t (state_dir (pfd_state p)))
          (state_x (pfd_state p))) = 0.
Proof.
  unfold Field.isValidFor, CompactField.collide.
  destruct (Z.ltb_spec (state_x (pfd_state p)
              + TileCoord.x (tile_min t (state_dir (pfd_state p)))) 0);
    [split; [discriminate|lia]|].
  destruct (Z.leb_spec 10 (state_x (pfd_state p)
              + TileCoord.x (tile_max t (state_dir (pfd_state p)))));
    [split; [discriminate|lia]|].
  destruct (Z.ltb_spec (state_y (pfd_state p)
              + TileCoord.y (tile_max t (state_dir (pfd_state p)))) 0);
    [split; [discriminate|lia]|].
  rewrite negb_involutive.
  destruct (Z.eqb_spec (Z.land (pfd_current p)
              (CompactField.tileMove
                 (tile_compactTile t (state_dir (pfd_state p)))
                 (state_x (pfd_state p)))) 0); split;
    try discriminate; try tauto; try lia.
Qed.

Lemma validFor_isValidFor f t p :
  validFor f t p <->
  pfd_typ p = Some t
  /\ pfd_current p = Field.window f (state_y (pfd_state p))
  /\ Field.isValidFor t p = true.
Proof.
  unfold validFor. rewrite isValidFor_true. split.
  - intros (Ht & Hc & H1 & H2 & H3 & H4). rewrite Hc. tauto.
  - intros (Ht & Hc & H1 & H2 & H3 & H4). rewrite Hc in H4. tauto.
Qed.

Lemma legit_assertLegit f pfd :
  legit f pfd -> Field.assertLegit f pfd = Ret tt.
Proof.
  intros H. apply assertLegit_legit. unfold stale, legit in *. lia.
Qed.

(** * The rotation *)

Lemma kicks_terminated_nil fuel table :
  TileShape.terminated fuel table = true -> table = [] -> fuel = O.
Proof. destruct fuel; [done|]. intros H ->. discriminate. Qed.

(** The loop over the kicks finds the first valid kick. *)
Lemma kickLoop_find f t pfd targetDir fuel table result :
  tileState_ok (pfd_state pfd) ->
  TileShape.terminated fuel table = true ->
  pfd_typ result = pfd_typ pfd ->
  state_dir (pfd_state result) = targetDir ->
  int8 (state_y (pfd_state result)) ->
  pfd_current result = Field.window f (state_y (pfd_state result)) ->
  Field.kickLoop fuel f t (pfd_state pfd) table result
  = Ret (RotateSpec.kicked f pfd targetDir
           <$> find (fun k => Field.isValidFor t
                                (RotateSpec.kicked f pfd targetDir k))
                 (RotateSpec.kicks fuel table)).
Proof.
  intros [Hx Hy]. revert table result.
  induction fuel as [|fuel IH]; intros table result Hterm Htyp Hdir Hry Hcur.
  - reflexivity.
  - cbn [Field.kickLoop RotateSpec.kicks].
    destruct table as [|value table]; [discriminate|].
    cbn [TileShape.terminated] in Hterm.
    destruct (Z.eqb_spec value 0) as [->|Hv]; [reflexivity|].
    cbn [orb] in Hterm. cbn [find].
    rewrite Hcur.
    pose proof (window_moves f (i8 (state_y (pfd_state pfd) + TileCoord.y value))
                  (state_y (pfd_state result)) Hry (i8_int8 _)) as Hmove.
    destruct (Field.windowUp _ _ _ _ _) as [ry rc].
    destruct (Field.windowDown _ _ _ _ _) as [ry' rc'].
    injection Hmove as -> ->.
    match goal with
    | |- (if Field.isValidFor t ?a then _ else _) = _ =>
      rewrite (isValidFor_ext t a
                 (RotateSpec.kicked f pfd targetDir
                    (TileCoord.x value, TileCoord.y value)))
        by (pfd_simpl; rewrite ?Hdir; reflexivity)
    end.
    destruct (Field.isValidFor t (RotateSpec.kicked f pfd targetDir _)).
    + cbn [fmap option_fmap option_map]. pfd_simpl.
      rewrite Htyp, Hdir. reflexivity.
    + apply IH; pfd_simpl; try done. apply i8_int8.
Qed.

(** C5: for every valid path finder and target orientation, [rotate] first
    tests the target orientation at the unchanged position and returns it
    with the wall-kick flag unset when it is valid; otherwise it returns the
    first kick of the (source, target) entry, in table order, whose position
    is valid, with the flag set; it returns false, with the null path
    finder, exactly when no candidate is valid. [RotateSpec.rotate] is that
    description. *)
Theorem rotate_takes_first_valid_candidate (f : field) (t : tile)
    (pfd : tilePathFinder) (targetDir : tileDirection) :
  tile_ok t ->
  validFor f t pfd ->
  legit f pfd ->
  tileState_ok (pfd_state pfd) ->
  Field.rotate f pfd targetDir = Ret (RotateSpec.rotate f t pfd targetDir).
Proof.
  intros Hok Hvalid Hlegit Hstate.
  destruct Hvalid as (Htyp & Hcur & _).
  unfold Field.rotate, RotateSpec.rotate.
  rewrite (legit_assertLegit _ _ Hlegit). obind. rewrite Htyp. obind.
  match goal with
  | |- (if Field.isValidFor t ?a then _ else _) = _ =>
    rewrite (isValidFor_ext t a (RotateSpec.unkicked f pfd targetDir))
      by (pfd_simpl; rewrite ?Hcur; reflexivity)
  end.
  destruct (Field.isValidFor t (RotateSpec.unkicked f pfd targetDir)).
  - pfd_simpl. rewrite Htyp, Hcur. reflexivity.
  - rewrite (kickLoop_find f t pfd targetDir); try done.
    + obind. destruct (find _ _); reflexivity.
    + apply (shape_table _ _ (tile_ok_shape t (state_dir (pfd_state pfd)) Hok)).
    + apply Hstate.
Qed.

Lemma tileT_ok : tile_ok tileT.
Proof. vm_compute. reflexivity. Qed.

Ltac by_computation :=
  lazymatch goal with
  | |- _ /\ _ => split; by_computation
  | |- _ <= _ => apply Z.leb_le; vm_compute; reflexivity
  | |- _ < _ => apply Z.ltb_lt; vm_compute; reflexivity
  | |- _ = _ => vm_compute; reflexivity
  | |- _ \/ _ => first [left; by_computation | right; by_computation]
  end.

Lemma wedged_valid : validFor holeField tileT wedged.
Proof. unfold validFor. by_computation. Qed.

Lemma rotate_takes_first_valid_candidate_witness :
  Field.rotate holeField wedged right
  = Ret (RotateSpec.rotate holeField tileT wedged right)
  /\ RotateSpec.rotate holeField tileT wedged right = (true, spun).
Proof.
  split; [|vm_compute; reflexivity].
  apply (rotate_takes_first_valid_candidate holeField tileT wedged right).
  - vm_compute. reflexivity.
  - unfold validFor. by_computation.
  - unfold legit. by_computation.
  - unfold tileState_ok, int8. by_computation.
Defined.

(** * The mask of a tile, moved to its column *)

Lemma cell_index r c :
  0 <= c <= 9 -> (10 * r + c) / 10 = r /\ (10 * r + c) mod 10 = c.
Proof.
  intros Hc. split.
  - symmetry. apply Z.div_unique with (r := c); lia.
  - symmetry. apply Z.mod_unique with (q := r); lia.
Qed.

Lemma index_cell n : n = 10 * (n / 10) + n mod 10 /\ 0 <= n mod 10 <= 9.
Proof.
  pose proof (Z.div_mod n 10 ltac:(lia)).
  pose proof (Z.mod_pos_bound n 10 ltac:(lia)). lia.
Qed.

Section mask.

Variables (t : tile) (d : tileDirection).
Hypothesis Hshape : shape t d.

#[local] Abbreviation mask := (tile_compactTile t d).
#[local] Abbreviation minx := (TileCoord.x (tile_min t d)).
#[local] Abbreviation maxx := (TileCoord.x (tile_max t d)).
#[local] Abbreviation miny := (TileCoord.y (tile_min t d)).
#[local] Abbreviation maxy := (TileCoord.y (tile_max t d)).

(** No bit of the mask moved by [x] lies at or beyond bit 60, nor below
    bit 0, while the bounding box is inside the ten columns. *)
Lemma mask_bit_moved x n :
  0 <= x + minx -> x + maxx <= 9 ->
  Z.testbit mask (n - x) = true ->
  0 <= n < 60
  /\ n / 10 = (n - x) / 10
  /\ n mod 10 = (n - x) mod 10 + x.
Proof.
  intros Hl Hr Hbit.
  destruct (shape_box _ _ Hshape _ Hbit) as (Hn & Hc & Hrow).
  destruct (index_cell (n - x)) as [Hdm Hm].
  assert (En : n = 10 * ((n - x) / 10) + ((n - x) mod 10 + x)) by lia.
  pose proof (shape_maxy _ _ Hshape). pose proof (shape_miny _ _ Hshape).
  destruct (cell_index ((n - x) / 10) ((n - x) mod 10 + x)) as [Hq Hrm];
    [lia|].
  rewrite <- En in Hq, Hrm. lia.
Qed.

Lemma tileMove_bits x n :
  0 <= x + minx -> x + maxx <= 9 -> 0 <= n ->
  Z.testbit (CompactField.tileMove mask x) n = Z.testbit mask (n - x).
Proof.
  intros Hl Hr Hn. unfold CompactField.tileMove.
  destruct (Z.leb_spec 0 x).
  - rewrite testbit_u64, Z.shiftl_spec by lia.
    destruct (Z.ltb_spec n 64); [reflexivity|]. cbn [andb].
    destruct (Z.testbit mask (n - x)) eqn:Hbit; [|reflexivity].
    destruct (mask_bit_moved x n Hl Hr Hbit). lia.
  - rewrite Z.shiftr_spec by lia. reflexivity.
Qed.

Lemma tileMove_right x :
  0 <= x + minx -> x + 1 + maxx <= 9 ->
  CompactField.tileMove (CompactField.tileMove mask x) 1
  = CompactField.tileMove mask (x + 1).
Proof.
  intros Hl Hr. apply Z.bits_inj'. intros n Hn.
  rewrite (tileMove_bits (x + 1)) by lia.
  unfold CompactField.tileMove at 1. cbn [Z.leb Z.compare].
  rewrite testbit_u64, Z.shiftl_spec by lia.
  destruct (Z.testbit mask (n - (x + 1))) eqn:Hbit.
  - destruct (mask_bit_moved (x + 1) n ltac:(lia) Hr Hbit) as (Hn60 & _).
    destruct (Z.ltb_spec n 64); [|lia]. cbn [andb].
    destruct (Z.eq_dec n 0) as [->|Hn0].
    + exfalso. destruct (shape_box _ _ Hshape _ Hbit) as (Hi & Hc & _).
      pose proof (shape_maxx _ _ Hshape).
      rewrite Z.mod_small in Hc by lia. lia.
    + rewrite tileMove_bits by lia. rewrite <- Hbit. f_equal. lia.
  - destruct (Z.eq_dec n 0) as [->|Hn0].
    + rewrite Z.testbit_neg_r by lia. apply andb_false_r.
    + rewrite tileMove_bits by lia.
      replace (n - 1 - x) with (n - (x + 1)) by lia.
      rewrite Hbit. apply andb_false_r.
Qed.

Lemma tileMove_left x :
  0 <= x - 1 + minx -> x + maxx <= 9 ->
  CompactField.tileMove (CompactField.tileMove mask x) (-1)
  = CompactField.tileMove mask (x - 1).
Proof.
  intros Hl Hr. apply Z.bits_inj'. intros n Hn.
  rewrite (tileMove_bits (x - 1)) by lia.
  unfold CompactField.tileMove at 1. cbn [Z.leb Z.compare Z.opp Pos.compare].
  rewrite Z.shiftr_spec by lia.
  rewrite tileMove_bits by lia. f_equal. lia.
Qed.

(** A cell of the tile, at a valid position, is inside the ten columns,
    on or above the floor, and free in the field. *)
Lemma cell_free f x y n :
  0 <= x + minx -> x + maxx <= 9 ->
  Z.land (Field.window f y) (CompactField.tileMove mask x) = 0 ->
  Z.testbit mask n = true ->
  0 <= x + n mod 10 <= 9
  /\ 0 <= y + n / 10
  /\ Z.testbit (Field.compactRowAt f (y + n / 10)) (x + n mod 10) = false.
Proof.
  intros Hl Hr Hland Hbit.
  destruct (shape_box _ _ Hshape _ Hbit) as (Hn & Hc & Hrow).
  assert (Hbit' : Z.testbit mask (n + x - x) = true)
    by (replace (n + x - x) with n by lia; done).
  destruct (mask_bit_moved x (n + x) Hl Hr Hbit') as (Hnx & Hq & Hm).
  replace (n + x - x) with n in Hq, Hm by lia.
  assert (Hb : Z.testbit (Z.land (Field.window f y)
                            (CompactField.tileMove mask x)) (n + x) = false)
    by (rewrite Hland; apply Z.bits_0).
  rewrite Z.land_spec, tileMove_bits, window_bits in Hb by lia.
  replace (n + x - x) with n in Hb by lia. rewrite Hbit in Hb.
  rewrite andb_true_r in Hb.
  destruct (Z.ltb_spec (n + x) 60); [|lia]. cbn [andb] in Hb.
  rewrite Hq, Hm in Hb.
  split; [lia|].
  replace (x + n mod 10) with (n mod 10 + x) by lia.
  split; [|done].
  destruct (Z.lt_ge_cases (y + n / 10) 0) as [Hneg|]; [|done].
  unfold Field.compactRowAt in Hb.
  destruct (Z.ltb_spec (y + n / 10) 0); [|lia].
  rewrite testbit_solidRow in Hb by lia.
  destruct (Z.ltb_spec (n mod 10 + x) 10); [discriminate|lia].
Qed.

(** At a valid position the whole bounding box is on or above the
    floor. *)
Lemma above_floor f x y :
  0 <= x + minx -> x + maxx <= 9 ->
  Z.land (Field.window f y) (CompactField.tileMove mask x) = 0 ->
  0 <= y + miny /\ miny <= maxy.
Proof.
  intros Hl Hr Hland.
  destruct (shape_bottom _ _ Hshape) as (n & Hbit & Hrow).
  destruct (cell_free f x y n Hl Hr Hland Hbit) as (_ & Hy & _).
  destruct (shape_box _ _ Hshape _ Hbit) as (_ & _ & Hb). lia.
Qed.

End mask.

(** * The moves preserve validity *)

Lemma collide_false a b :
  CompactField.collide a b = false <-> Z.land a b = 0.
Proof.
  unfold CompactField.collide. destruct (Z.eqb_spec (Z.land a b) 0); split;
    try done; discriminate.
Qed.

Lemma coord_range v :
  -8 <= TileCoord.x v <= 7 /\ -8 <= TileCoord.y v <= 7.
Proof.
  unfold TileCoord.x, TileCoord.y, TileCoord.sext4.
  pose proof (Z.mod_pos_bound v 16 ltac:(lia)).
  pose proof (Z.mod_pos_bound (v / 16) 16 ltac:(lia)).
  destruct (Z.ltb_spec (v mod 16) 8); destruct (Z.ltb_spec ((v / 16) mod 16) 8);
    lia.
Qed.

Section moves.

Variables (f : field) (t : tile).
Hypothesis Hok : tile_ok t.

(** The loop to the right stops inside the columns, at a column where
    the tile does not collide. *)
Lemma moveRight_valid d numSteps current x :
  0 <= x + TileCoord.x (tile_min t d) ->
  x + TileCoord.x (tile_max t d) <= 9 ->
  Z.land current (CompactField.tileMove (tile_compactTile t d) x) = 0 ->
  let x' := Field.moveRight numSteps current (TileCoord.x (tile_max t d)) x
              (CompactField.tileMove (tile_compactTile t d) x) in
  x <= x'
  /\ x' + TileCoord.x (tile_max t d) <= 9
  /\ Z.land current (CompactField.tileMove (tile_compactTile t d) x') = 0.
Proof.
  pose proof (tile_ok_shape t d Hok) as Hshape.
  pose proof (shape_maxx _ _ Hshape). pose proof (shape_minx _ _ Hshape).
  pose proof (coord_range (tile_min t d)).
  pose proof (coord_range (tile_max t d)).
  revert x. induction numSteps as [|n IH]; intros x Hl Hr Hfree;
    cbn [Field.moveRight].
  - cbv zeta. lia.
  - destruct (Z.ltb_spec (x + TileCoord.x (tile_max t d)) 9);
      [|cbv zeta; lia].
    rewrite (i8_small (x + 1)) by (unfold int8; lia).
    rewrite (tileMove_right t d Hshape) by lia.
    destruct (CompactField.collide _ _) eqn:Hc.
    + rewrite i8_small by (unfold int8; lia).
      replace (x + 1 - 1) with x by lia. cbv zeta. lia.
    + apply collide_false in Hc.
      specialize (IH (x + 1) ltac:(lia) ltac:(lia) Hc). cbv zeta in *. lia.
Qed.

Lemma moveLeft_valid d numSteps current x :
  0 <= x + TileCoord.x (tile_min t d) ->
  x + TileCoord.x (tile_max t d) <= 9 ->
  Z.land current (CompactField.tileMove (tile_compactTile t d) x) = 0 ->
  let x' := Field.moveLeft numSteps current (TileCoord.x (tile_min t d)) x
              (CompactField.tileMove (tile_compactTile t d) x) in
  x' <= x
  /\ 0 <= x' + TileCoord.x (tile_min t d)
  /\ Z.land current (CompactField.tileMove (tile_compactTile t d) x') = 0.
Proof.
  pose proof (tile_ok_shape t d Hok) as Hshape.
  pose proof (shape_maxx _ _ Hshape). pose proof (shape_minx _ _ Hshape).
  pose proof (coord_range (tile_min t d)).
  pose proof (coord_range (tile_max t d)).
  revert x. induction numSteps as [|n IH]; intros x Hl Hr Hfree;
    cbn [Field.moveLeft].
  - cbv zeta. lia.
  - destruct (Z.ltb_spec 0 (x + TileCoord.x (tile_min t d)));
      [|cbv zeta; lia].
    rewrite (i8_small (x - 1)) by (unfold int8; lia).
    rewrite (tileMove_left t d Hshape) by lia.
    destruct (CompactField.collide _ _) eqn:Hc.
    + rewrite i8_small by (unfold int8; lia).
      replace (x - 1 + 1) with x by lia. cbv zeta. lia.
    + apply collide_false in Hc.
      specialize (IH (x - 1) ltac:(lia) ltac:(lia) Hc). cbv zeta in *. lia.
Qed.

(** The loop of [drop] stops at a row where the tile does not collide,
    with the window of that row. *)
Lemma dropLoop_valid d x numSteps y :
  0 <= x + TileCoord.x (tile_min t d) ->
  x + TileCoord.x (tile_max t d) <= 9 ->
  int8 y ->
  Z.land (Field.window f y)
    (CompactField.tileMove (tile_compactTile t d) x) = 0 ->
  exists left y',
    Field.dropLoop f (CompactField.tileMove (tile_compactTile t d) x)
      numSteps y (Field.window f y) = (left, y', Field.window f y')
    /\ (left <= numSteps)%nat
    /\ y' = y - Z.of_nat (numSteps - left)
    /\ int8 y'
    /\ Z.land (Field.window f y')
         (CompactField.tileMove (tile_compactTile t d) x) = 0
    /\ (left <> O ->
        Z.land (Field.window f (y' - 1))
          (CompactField.tileMove (tile_compactTile t d) x) <> 0).
Proof.
  pose proof (tile_ok_shape t d Hok) as Hshape.
  pose proof (shape_maxy _ _ Hshape). pose proof (shape_miny _ _ Hshape).
  pose proof (coord_range (tile_min t d)).
  pose proof (coord_range (tile_max t d)).
  intros Hl Hr. revert y.
  induction numSteps as [|n IH]; intros y Hy Hfree; cbn [Field.dropLoop].
  - exists O, y. unfold int8 in *. repeat split; try done; try lia.
  - rewrite window_down.
    destruct (CompactField.collide _ _) eqn:Hc.
    + exists (S n), y. unfold int8 in *. repeat split; try done; try lia.
      intros _ Hz. apply collide_false in Hz. congruence.
    + apply collide_false in Hc.
      destruct (above_floor t d Hshape f x (y - 1) Hl Hr Hc) as [Hfl Hmm].
      assert (Hy1 : int8 (y - 1)) by (unfold int8 in *; lia).
      rewrite (i8_small _ Hy1).
      destruct (IH (y - 1) Hy1 Hc) as (left & y' & Hd & Hle & Hy' & Hi & Hf & Hs).
      exists left, y'. split; [done|]. unfold int8 in *.
      repeat split; try done; try lia.
Qed.

End moves.

Lemma assertLegit_Ret f pfd u : Field.assertLegit f pfd = Ret u -> legit f pfd.
Proof.
  unfold Field.assertLegit, legit.
  destruct (Z.eqb_spec (pfd_version pfd) 0); [by left|].
  destruct (Z.eqb_spec (pfd_version pfd) (field_version f)); [by right|].
  discriminate.
Qed.

Section validity.

Variables (f : field) (t : tile) (pfd : tilePathFinder).
Hypothesis Hok : tile_ok t.
Hypothesis Hvalid : validFor f t pfd.
Hypothesis Hstate : tileState_ok (pfd_state pfd).

Lemma move_valid n r :
  Field.move f pfd n = Ret (true, r) ->
  validFor f t r /\ tileState_ok (pfd_state r)
  /\ pfd_version r = field_version f.
Proof.
  destruct Hvalid as (Htyp & Hcur & Hl & Hr & Hy & Hfree).
  destruct Hstate as [Hsx Hsy].
  pose proof (coord_range (tile_min t (state_dir (pfd_state pfd)))) as Hcmin.
  pose proof (coord_range (tile_max t (state_dir (pfd_state pfd)))) as Hcmax.
  unfold Field.move. intros H.
  destruct (Field.assertLegit f pfd); try discriminate. obind in H.
  rewrite Htyp in H. obind in H.
  destruct (negb _); [discriminate|].
  rewrite Hcur in H.
  pose proof (moveRight_valid t Hok (state_dir (pfd_state pfd))
                (Z.to_nat n) _ _ Hl Hr Hfree) as HR.
  pose proof (moveLeft_valid t Hok (state_dir (pfd_state pfd))
                (Z.to_nat (- n)) _ _ Hl Hr Hfree) as HL.
  cbv zeta in HR, HL.
  match type of H with
  | (if ?x' =? _ then _ else _) = _ =>
    assert (Hx' : 0 <= x' + TileCoord.x (tile_min t (state_dir (pfd_state pfd)))
                  /\ x' + TileCoord.x (tile_max t (state_dir (pfd_state pfd))) <= 9
                  /\ Z.land (Field.window f (state_y (pfd_state pfd)))
                       (CompactField.tileMove
                          (tile_compactTile t (state_dir (pfd_state pfd))) x')
                     = 0)
      by (destruct (0 <? n); [lia|destruct (n <? 0); [lia|tauto]]);
    destruct (x' =? _); [discriminate|]; injection H as <-
  end.
  pfd_simpl. unfold validFor, tileState_ok, int8 in *. pfd_simpl.
  repeat split; try done; try lia.
Qed.

Lemma drop_valid n r :
  Field.drop f pfd n = Ret (true, r) ->
  validFor f t r /\ tileState_ok (pfd_state r)
  /\ pfd_version r = field_version f.
Proof.
  destruct Hvalid as (Htyp & Hcur & Hl & Hr & Hy & Hfree).
  destruct Hstate as [Hsx Hsy].
  unfold Field.drop. intros H.
  destruct (Field.assertLegit f pfd); try discriminate. obind in H.
  rewrite Htyp in H. obind in H.
  destruct (negb _); [discriminate|].
  rewrite Hcur in H.
  destruct (dropLoop_valid f t Hok (state_dir (pfd_state pfd))
              (state_x (pfd_state pfd)) (Z.to_nat n) _ Hl Hr Hsy Hfree)
    as (left & y' & Hd & Hle & Hy' & Hi & Hf & _).
  rewrite Hd in H.
  destruct (Nat.eqb _ _); [discriminate|]. injection H as <-.
  pose proof (tile_ok_shape t (state_dir (pfd_state pfd)) Hok) as Hshape.
  destruct (above_floor t _ Hshape f _ y' Hl Hr Hf) as [Hfl Hmm].
  pfd_simpl. unfold validFor, tileState_ok, int8 in *. pfd_simpl.
  repeat split; try done; try lia.
Qed.

Lemma rotate_valid d r :
  Field.rotate f pfd d = Ret (true, r) ->
  validFor f t r /\ tileState_ok (pfd_state r)
  /\ pfd_version r = field_version f.
Proof.
  destruct Hvalid as (Htyp & Hcur & _). destruct Hstate as [Hsx Hsy].
  unfold Field.rotate. intros H.
  destruct (Field.assertLegit f pfd); try discriminate. obind in H.
  rewrite Htyp in H. obind in H.
  match type of H with
  | (if Field.isValidFor t ?a then _ else _) = _ =>
    destruct (Field.isValidFor t a) eqn:Hu
  end.
  - injection H as <-. split; [|split; [done|reflexivity]].
    apply validFor_isValidFor. done.
  - rewrite (kickLoop_find f t pfd d) in H; try done;
      [|apply (shape_table _ _ (tile_ok_shape t (state_dir (pfd_state pfd)) Hok))].
    obind in H.
    destruct (find _ _) as [k|] eqn:Hk; [|discriminate].
    injection H as <-. apply find_some in Hk as [_ Hk].
    split; [|split; [|reflexivity]].
    + apply validFor_isValidFor. done.
    + split; pfd_simpl; apply i8_int8.
Qed.

End validity.

Lemma valid_aboveFloor f t r : tile_ok t -> validFor f t r -> aboveFloor t r.
Proof.
  intros Hok (_ & _ & Hl & Hr & _ & Hfree).
  pose proof (tile_ok_shape t (state_dir (pfd_state r)) Hok) as Hshape.
  destruct (above_floor t _ Hshape f _ _ Hl Hr Hfree) as [Hfl _]. exact Hfl.
Qed.

(** Over a tile that satisfies the invariant of tiles, for every path
    finder valid against the field, every path finder that [move], [drop]
    or [rotate] returns with success is valid: its cached window is the
    window of the field at its row, its bounding box is inside the columns
    0..9 and on or above the floor, and its mask does not intersect the
    window. *)
Theorem moves_preserve_validity (f : field) (t : tile) (pfd : tilePathFinder) :
  tile_ok t ->
  tileState_ok (pfd_state pfd) ->
  validFor f t pfd ->
  (forall n r, Field.move f pfd n = Ret (true, r) ->
     validFor f t r /\ aboveFloor t r)
  /\ (forall n r, Field.drop f pfd n = Ret (true, r) ->
     validFor f t r /\ aboveFloor t r)
  /\ (forall d r, Field.rotate f pfd d = Ret (true, r) ->
     validFor f t r /\ aboveFloor t r).
Proof.
  intros Hok Hstate Hvalid. split; [|split].
  - intros n r H.
    destruct (move_valid f t pfd Hok Hvalid Hstate n r H) as [Hr _].
    split; [done|]. by eapply valid_aboveFloor.
  - intros n r H.
    destruct (drop_valid f t pfd Hok Hvalid Hstate n r H) as [Hr _].
    split; [done|]. by eapply valid_aboveFloor.
  - intros d r H.
    destruct (rotate_valid f t pfd Hok Hvalid Hstate d r H) as [Hr _].
    split; [done|]. by eapply valid_aboveFloor.
Qed.

(** C1, at a failing input: the constructor takes the coordinate 0 of the
    minimum for "not set yet", so that for the bitmap [cornerData] it
    stores the bounding box (1,1)-(1,1) although the mask has a cell in
    column 0 of row 0, and the tile does not satisfy the invariant of
    tiles. The path finder [cornered], which [spawn] accepts
    and which the spawned tile reaches by [move] and [drop], is valid; the
    [move] by one column to the right returns true with a path finder in
    column 0, whose mask intersects the window of the field in the cell of
    column 0, row 0: [isValid] is false on it, and it is not valid. *)
Theorem move_into_an_occupied_cell :
  Tile.make cornerData zeroTable = Ret cornerTile
  /\ tile_min cornerTile initial = tileCoordAt 1 1
  /\ tile_max cornerTile initial = tileCoordAt 1 1
  /\ Z.testbit (tile_compactTile cornerTile initial) 0 = true
  /\ ~ tile_ok cornerTile
  /\ Field.spawn cornerField
       (TilePathFinder.at_state (Some cornerTile) (mkTileState initial (-1) 0))
     = Ret (true, cornered)
  /\ (exists p0 p1 p2,
        TilePathFinder.of_type (Some cornerTile) = Ret p0
        /\ Field.spawn cornerField p0 = Ret (true, p1)
        /\ Field.move cornerField p1 (-3) = Ret (true, p2)
        /\ Field.drop cornerField p2 18 = Ret (true, cornered))
  /\ validFor cornerField cornerTile cornered
  /\ Field.isValid cornered = Ret true
  /\ exists r,
       Field.move cornerField cornered 1 = Ret (true, r)
       /\ pfd_state r = mkTileState initial 0 0
       /\ Z.land (Field.window cornerField 0)
            (CompactField.tileMove (tile_compactTile cornerTile initial) 0)
          = 1
       /\ Field.isValid r = Ret false
       /\ ~ validFor cornerField cornerTile r.
Proof.
  split; [vm_compute; reflexivity|]. split; [vm_compute; reflexivity|].
  split; [vm_compute; reflexivity|]. split; [vm_compute; reflexivity|].
  split; [intros Hok; vm_compute in Hok; discriminate Hok|].
  split; [vm_compute; reflexivity|]. split.
  { do 3 eexists. split; [vm_compute; reflexivity|].
    split; [vm_compute; reflexivity|].
    split; [vm_compute; reflexivity|]. vm_compute. reflexivity. }
  split; [unfold validFor; by_computation|].
  split; [vm_compute; reflexivity|].
  eexists. split; [vm_compute; reflexivity|].
  split; [vm_compute; reflexivity|]. split; [vm_compute; reflexivity|].
  split; [vm_compute; reflexivity|].
  intros (_ & _ & _ & _ & _ & Hfree). vm_compute in Hfree. discriminate Hfree.
Qed.

(** * Locking *)

Lemma u8_small z : 0 <= z < 256 -> u8 z = z.
Proof. intros H. unfold u8. apply Z.mod_small. lia. Qed.

Lemma at_index_in_range {A} (v : list A) i :
  0 <= i < Z.of_nat (length v) -> exists a, Field.at_index v i = Ret a.
Proof.
  intros Hi. destruct (lookup_lt_is_Some_2 v (Z.to_nat i)) as [a Ha]; [lia|].
  exists a. apply at_index_lookup; [lia|done].
Qed.

Section placing.

Variables (t : tile) (d : tileDirection) (state : tileState) (rows : Z).
Hypothesis Hpixel : forall l,
  0 <= TileCoord.x l <= 5 -> 0 <= TileCoord.y l <= 5 ->
  Z.testbit (tile_compactTile t d) (10 * TileCoord.y l + TileCoord.x l) = true ->
  0 <= state_x state + TileCoord.x l <= 9
  /\ 0 <= state_y state + TileCoord.y l < rows.
Hypothesis Hrows : state_y state <= 127.

(** The pixels of the tile are written inside the field. *)
Lemma placePixels_inside fuel data loc cf (fs : list fieldRow) :
  TileShape.terminated fuel data = true ->
  (length data <= length loc)%nat ->
  Forall (fun p =>
            0 <= TileCoord.x (snd p) <= 5 /\ 0 <= TileCoord.y (snd p) <= 5
            /\ Z.testbit (tile_compactTile t d)
                 (10 * TileCoord.y (snd p) + TileCoord.x (snd p)) = true)
    (TileShape.pixels fuel data loc) ->
  Z.of_nat (length cf) = rows -> length fs = length cf ->
  Forall (fun row => length row = 10%nat) fs ->
  exists cf' fs',
    Field.placePixels fuel data loc state cf fs = Ret (cf', fs')
    /\ length cf' = length cf /\ length fs' = length cf
    /\ Forall (fun row => length row = 10%nat) fs'.
Proof.
  revert data loc cf fs.
  induction fuel as [|fuel IH]; intros data loc cf fs Hterm Hlen Hpix Hcf Hfs Hw;
    cbn [Field.placePixels].
  - exists cf, fs. done.
  - destruct data as [|v data]; [discriminate|].
    cbn [TileShape.terminated TileShape.pixels] in Hterm, Hpix.
    destruct (Z.eqb_spec v 0) as [->|Hv]; [exists cf, fs; done|].
    cbn [orb] in Hterm.
    destruct loc as [|l loc]; [cbn in Hlen; lia|].
    apply Forall_cons in Hpix as [(Hx & Hy & Hbit) Hpix]. cbn [snd] in *.
    destruct (Hpixel l Hx Hy Hbit) as [Hcol Hrow].
    cbv zeta. rewrite !u8_small by lia.
    destruct (at_index_in_range fs (state_y state + TileCoord.y l))
      as [row Hr]; [lia|].
    rewrite Hr. obind.
    pose proof Hr as Hr'. apply at_index_Ret in Hr' as [_ Hr'].
    rewrite Forall_lookup in Hw. pose proof (Hw _ _ Hr') as Hrow10.
    destruct (Z.leb_spec (Z.of_nat (length row))
                (state_x state + TileCoord.x l)); [lia|].
    destruct (at_index_in_range cf (state_y state + TileCoord.y l))
      as [c Hc]; [lia|].
    rewrite Hc. obind.
    destruct (IH data loc
                (<[Z.to_nat (state_y state + TileCoord.y l)
                   := u16 (Z.lor c (Z.shiftl 1 (state_x state + TileCoord.x l)))]>
                   cf)
                (<[Z.to_nat (state_y state + TileCoord.y l)
                   := <[Z.to_nat (state_x state + TileCoord.x l) := v]> row]>
                   fs))
      as (cf' & fs' & Hp & Hl1 & Hl2 & Hw').
    + done.
    + cbn in Hlen. lia.
    + done.
    + rewrite length_insert. done.
    + rewrite !length_insert. done.
    + apply Forall_insert; [by rewrite Forall_lookup|].
      cbv beta. rewrite length_insert. done.
    + exists cf', fs'. rewrite length_insert in Hl1, Hl2. done.
Qed.

End placing.

Section erasing.

Variables (miny maxy stateY rows : Z).
Hypothesis Hminy : 0 <= miny.
Hypothesis Hmaxy : maxy <= 5.
Hypothesis Hlow : 0 <= stateY + miny.
Hypothesis Hhigh : stateY + maxy < rows.
Hypothesis Hy : stateY <= 127.

(** The scan for full rows stays inside the field, and removes [clear]
    rows. *)
Lemma eraseRows_inside fuel j clear cf (fs : list fieldRow) :
  miny <= j -> 0 <= clear <= j - miny ->
  maxy - j < Z.of_nat fuel ->
  Z.of_nat (length cf) = rows - clear -> length fs = length cf ->
  Forall (fun row => length row = 10%nat) fs ->
  exists cf' fs' clear',
    Field.eraseRows fuel j maxy stateY clear cf fs = Ret (cf', fs', clear')
    /\ clear <= clear' <= clear + Z.max 0 (maxy - j + 1)
    /\ Z.of_nat (length cf') = rows - clear'
    /\ length fs' = length cf'
    /\ Forall (fun row => length row = 10%nat) fs'.
Proof.
  revert j clear cf fs.
  induction fuel as [|fuel IH]; intros j clear cf fs Hj Hclear Hfuel Hcf Hfs Hw;
    cbn [Field.eraseRows].
  - exists cf, fs, clear. repeat split; try done; lia.
  - destruct (Z.leb_spec j maxy); [|exists cf, fs, clear; repeat split; try done; lia].
    cbv zeta. rewrite (u8_small (stateY + j - clear)) by lia.
    rewrite (u8_small (j + 1)) by lia.
    destruct (at_index_in_range cf (stateY + j - clear)) as [c Hc]; [lia|].
    rewrite Hc. obind.
    destruct (Z.eqb_spec c Field.solidRow).
    + destruct (Z.leb_spec (Z.of_nat (length fs)) (stateY + j - clear)); [lia|].
      rewrite (u8_small (clear + 1)) by lia.
      destruct (IH (j + 1) (clear + 1)
                  (delete (Z.to_nat (stateY + j - clear)) cf)
                  (delete (Z.to_nat (stateY + j - clear)) fs))
        as (cf' & fs' & clear' & He & Hc' & Hl1 & Hl2 & Hw');
        try lia.
      * rewrite length_delete by (apply lookup_lt_is_Some_2; lia). lia.
      * rewrite !length_delete by (apply lookup_lt_is_Some_2; lia). lia.
      * by apply Forall_delete.
      * exists cf', fs', clear'. repeat split; try done; lia.
    + destruct (IH (j + 1) clear cf fs)
        as (cf' & fs' & clear' & He & Hc' & Hl1 & Hl2 & Hw'); try done; try lia.
      exists cf', fs', clear'. repeat split; try done; lia.
Qed.

End erasing.

Lemma drop_false_null f pfd n r :
  Field.drop f pfd n = Ret (false, r) -> r = TilePathFinder.null.
Proof.
  unfold Field.drop.
  destruct (Field.assertLegit f pfd); obind; try discriminate.
  destruct (pfd_typ pfd); obind; try discriminate.
  destruct (negb _); try discriminate.
  destruct (Field.dropLoop _ _ _ _ _) as [[k y] c].
  destruct (Nat.eqb _ _); intros H; by simplify_eq.
Qed.

Lemma drop_returns f t pfd n :
  legit f pfd -> pfd_typ pfd = Some t ->
  -64 < state_x (pfd_state pfd) < 64 ->
  exists b r, Field.drop f pfd n = Ret (b, r).
Proof.
  intros Hlegit Htyp Hx. unfold Field.drop.
  rewrite (legit_assertLegit _ _ Hlegit). obind. rewrite Htyp. obind.
  unfold CompactField.shiftDefined.
  destruct (Z.ltb_spec (-64) (state_x (pfd_state pfd))); [|lia].
  destruct (Z.ltb_spec (state_x (pfd_state pfd)) 64); [|lia].
  cbn [andb negb].
  destruct (Field.dropLoop _ _ _ _ _) as [[k y] c].
  destruct (Nat.eqb _ _); eauto.
Qed.

#[local] Opaque Field.eraseRows Field.placePixels Z.to_nat.

Section locking.

Variables (f : field) (t : tile) (pfd : tilePathFinder).
Hypothesis Hok : tile_ok t.
Hypothesis Hfield : field_ok f.
Hypothesis Hstate : tileState_ok (pfd_state pfd).
Hypothesis Hlegit : legit f pfd.
Hypothesis Hvalid : validFor f t pfd.

#[local] Abbreviation dir := (state_dir (pfd_state pfd)).
#[local] Abbreviation top :=
  (state_y (pfd_state pfd) + TileCoord.y (tile_max t dir)).

(** A valid tile that cannot drop is locked: its pixels are written, the
    full rows among those it touches are removed, and the version
    advances. *)
Lemma lock_resting :
  Field.drop f pfd 1 = Ret (false, TilePathFinder.null) ->
  exists f' clear,
    Field.lock f pfd = Ret (true, f', clear)
    /\ field_ok f'
    /\ field_version f' = u64 (field_version f + 1)
    /\ 0 <= clear <= 6
    /\ Z.of_nat (length (field_compactFields f'))
       = Z.max (Z.of_nat (length (field_compactFields f))) (top + 1) - clear
    /\ Z.of_nat (length (field_fields f'))
       = Z.max (Z.of_nat (length (field_fields f))) (top + 1) - clear.
Proof.
  intros Hdrop.
  pose proof (tile_ok_shape t dir Hok) as Hshape.
  pose proof Hvalid as (Htyp & Hcur & Hl & Hr & Hy & Hfree).
  destruct (above_floor t dir Hshape f _ _ Hl Hr Hfree) as [Hfl Hmm].
  destruct Hfield as (Hlen & Hw & Hver). destruct Hstate as [Hsx Hsy].
  pose proof (shape_maxy _ _ Hshape) as Hmaxy.
  pose proof (shape_miny _ _ Hshape) as Hminy.
  assert (Hv : Field.isValidFor t pfd = true)
    by (apply validFor_isValidFor in Hvalid; tauto).
  unfold Field.lock.
  rewrite (legit_assertLegit _ _ Hlegit). obind. rewrite Htyp. obind.
  rewrite Hv. cbn [negb]. rewrite Hdrop. obind.
  unfold to_size_t. unfold int8 in *.
  rewrite (Z.mod_small top) by lia.
  set (missing := Z.to_nat (top + 1 - Z.of_nat (length (field_fields f)))).
  set (rows := Z.of_nat (length (field_compactFields f ++ replicate missing 0))).
  assert (Hrows : rows = Z.max (Z.of_nat (length (field_compactFields f))) (top + 1)).
  { unfold rows, missing. rewrite length_app, length_replicate. lia. }
  destruct (placePixels_inside t dir (pfd_state pfd) rows) with
    (fuel := Z.to_nat maxNumPixels) (data := tile_data t dir)
    (loc := tile_loc t dir)
    (cf := field_compactFields f ++ replicate missing 0)
    (fs := field_fields f ++ replicate missing (replicate 10 0))
    as (cf1 & fs1 & Hp & Hl1 & Hl2 & Hw1).
  - intros l Hlx Hly Hbit.
    destruct (cell_free t dir Hshape f _ _ _ Hl Hr Hfree Hbit) as (Hc & Hrw & _).
    destruct (shape_box _ _ Hshape _ Hbit) as (_ & _ & Hb).
    destruct (cell_index (TileCoord.y l) (TileCoord.x l)) as [Hq Hm]; [lia|].
    rewrite Hq, Hm in *. lia.
  - lia.
  - apply (shape_data _ _ Hshape).
  - apply (shape_loc _ _ Hshape).
  - apply (shape_pixels _ _ Hshape).
  - done.
  - rewrite !length_app, !length_replicate. lia.
  - apply Forall_app. split; [done|].
    apply Forall_replicate. apply length_replicate.
  - rewrite Hp, bind_Ret_l. cbv beta iota.
    rewrite (u8_small (TileCoord.y (tile_min t dir))) by lia.
    destruct (eraseRows_inside (TileCoord.y (tile_min t dir))
                (TileCoord.y (tile_max t dir)) (state_y (pfd_state pfd)) rows)
      with (fuel := Z.to_nat 256) (j := TileCoord.y (tile_min t dir))
           (clear := 0) (cf := cf1) (fs := fs1)
      as (cf2 & fs2 & clear & He & Hc & Hl3 & Hl4 & Hw2); try lia; try done.
    rewrite He, bind_Ret_l. cbv beta iota.
    exists (mkField cf2 fs2 (u64 (field_version f + 1))), clear.
    split; [reflexivity|]. cbn [field_compactFields field_fields field_version].
    split.
    { unfold field_ok. cbn. split; [done|]. split; [done|].
      unfold u64. apply Z.mod_pos_bound. lia. }
    split; [done|]. split; [lia|]. split; [lia|]. lia.
Qed.

End locking.

Lemma lock_refuses f t pfd :
  legit f pfd -> pfd_typ pfd = Some t ->
  Field.isValidFor t pfd = false
  \/ (exists r, Field.drop f pfd 1 = Ret (true, r)) ->
  (exists b r, Field.drop f pfd 1 = Ret (b, r)) ->
  Field.lock f pfd = Ret (false, f, 0).
Proof.
  intros Hlegit Htyp Hwhy (b & r & Hd). unfold Field.lock.
  rewrite (legit_assertLegit _ _ Hlegit), bind_Ret_l.
  rewrite Htyp. unfold deref. rewrite bind_Ret_l.
  destruct (Field.isValidFor t pfd); [|reflexivity].
  cbn [negb]. rewrite Hd, bind_Ret_l.
  destruct b; [reflexivity|].
  destruct Hwhy as [?|[r' Hd']]; [discriminate|]. congruence.
Qed.

Lemma valid_shiftDefined f t pfd :
  validFor f t pfd -> -64 < state_x (pfd_state pfd) < 64.
Proof.
  intros (_ & _ & Hl & Hr & _).
  pose proof (coord_range (tile_min t (state_dir (pfd_state pfd)))).
  pose proof (coord_range (tile_max t (state_dir (pfd_state pfd)))). lia.
Qed.


Lemma holeField_ok : field_ok holeField.
Proof.
  unfold field_ok. split; [reflexivity|]. split.
  - repeat constructor.
  - by_computation.
Qed.

Lemma moves_preserve_validity_witness :
  (forall n r, Field.move holeField landed n = Ret (true, r) ->
               validFor holeField tileT r /\ aboveFloor tileT r)
  /\ (forall n r, Field.drop holeField landed n = Ret (true, r) ->
                  validFor holeField tileT r /\ aboveFloor tileT r)
  /\ (forall d r, Field.rotate holeField landed d = Ret (true, r) ->
                  validFor holeField tileT r /\ aboveFloor tileT r).
Proof.
  apply (moves_preserve_validity holeField tileT landed).
  - vm_compute. reflexivity.
  - unfold tileState_ok, int8. by_computation.
  - unfold validFor. by_computation.
Defined.


Example lock_of_the_unit_test :
  Field.lock holeField spun
  = Ret (true,
         mkField [3; 1]
           [[5; 5; 0; 0; 0; 0; 0; 0; 0; 0]; [5; 0; 0; 0; 0; 0; 0; 0; 0; 0]] 3,
         1).
Proof. vm_compute. reflexivity. Qed.

Lemma stale_path_finder_is_fatal_witness :
  stale Field.new spun
  /\ Field.lock Field.new spun = Throw "mismatched field version"
  /\ pfd_version spawnT = 0
  /\ noThrow (Field.lock holeField spawnT).
Proof.
  pose proof (stale_path_finder_is_fatal Field.new spun) as [Hstale _].
  pose proof (stale_path_finder_is_fatal holeField spawnT) as [_ Hzero].
  assert (Hs : stale Field.new spun) by (split; vm_compute; discriminate).
  split; [exact Hs|]. split; [apply (Hstale Hs)|].
  split; [reflexivity|]. apply (Hzero eq_refl).
Defined.

(** * A sound playground answers every call *)

(** * A game never leaves the defined behaviour *)

Lemma initTileState_ok t : tileState_ok (Tile.initTileState t).
Proof.
  unfold tileState_ok, Tile.initTileState. cbn [state_x state_y].
  split; [unfold int8; lia|apply i8_int8].
Qed.

(** A successful [spawn] gives a valid path finder. *)
Lemma spawn_valid f t p :
  pfd_typ p = Some t ->
  exists b r,
    Field.spawn f p = Ret (b, r)
    /\ pfd_state r = pfd_state p
    /\ (b = true -> validFor f t r /\ pfd_version r = field_version f).
Proof.
  intros Htyp. unfold Field.spawn. rewrite Htyp.
  destruct (Field.isValidFor t _) eqn:Hv; cbn [negb].
  - eexists true, _. split; [reflexivity|]. split; [reflexivity|].
    intros _. split; [|reflexivity].
    apply validFor_isValidFor. pfd_simpl. split; [done|]. split; [done|].
    rewrite <- Hv. apply isValidFor_ext; reflexivity.
  - eexists false, _. split; [reflexivity|]. split; [reflexivity|].
    discriminate.
Qed.

Lemma move_returns f t pfd n :
  legit f pfd -> pfd_typ pfd = Some t ->
  -64 < state_x (pfd_state pfd) < 64 ->
  exists b r, Field.move f pfd n = Ret (b, r).
Proof.
  intros Hlegit Htyp Hx. unfold Field.move.
  rewrite (legit_assertLegit _ _ Hlegit). obind. rewrite Htyp. obind.
  unfold CompactField.shiftDefined.
  destruct (Z.ltb_spec (-64) (state_x (pfd_state pfd))); [|lia].
  destruct (Z.ltb_spec (state_x (pfd_state pfd)) 64); [|lia].
  cbn [andb negb].
  destruct (_ =? state_x _); eauto.
Qed.

Lemma rotate_returns f t pfd d :
  tile_ok t -> validFor f t pfd -> legit f pfd ->
  tileState_ok (pfd_state pfd) ->
  exists b r, Field.rotate f pfd d = Ret (b, r).
Proof.
  intros Hok (Htyp & Hcur & _) Hlegit Hstate. unfold Field.rotate.
  rewrite (legit_assertLegit _ _ Hlegit). obind. rewrite Htyp. obind.
  destruct (Field.isValidFor t _); [eauto|].
  rewrite (kickLoop_find f t pfd d); try done;
    [|apply (shape_table _ _ (tile_ok_shape t (state_dir (pfd_state pfd)) Hok))
     |apply Hstate].
  obind. destruct (find _ _); cbn [fmap option_fmap option_map]; eauto.
Qed.

(** [lock] returns on every valid path finder, with a well-formed field. *)
Lemma lock_returns f t pfd :
  tile_ok t -> field_ok f -> tileState_ok (pfd_state pfd) ->
  legit f pfd -> validFor f t pfd ->
  exists b f' clear, Field.lock f pfd = Ret (b, f', clear) /\ field_ok f'.
Proof.
  intros Hok Hfield Hstate Hlegit Hvalid.
  pose proof Hvalid as (Htyp & _).
  destruct (drop_returns f t pfd 1 Hlegit Htyp
              (valid_shiftDefined f t pfd Hvalid)) as (b & r & Hd).
  destruct b.
  - exists false, f, 0. split; [|done].
    apply (lock_refuses f t pfd Hlegit Htyp); eauto.
  - pose proof (drop_false_null _ _ _ _ Hd) as ->.
    destruct (lock_resting f t pfd Hok Hfield Hstate Hlegit Hvalid Hd)
      as (f' & clear & Hl & Hf' & _).
    exists true, f', clear. done.
Qed.

Section game.

Context {G : Type} `{!tileGenerator G}.
Variable ok : G -> Prop.
Hypothesis Hsteady : steadySupply ok.

Lemma steadySupply_neverDry : neverDry ok.
Proof.
  intros g Hg. destruct (Hsteady g Hg) as (t & g' & Hgen & Hg' & _). eauto.
Qed.

Lemma spawnTile_total (pg : playground G) t :
  tile_ok t ->
  exists pg', Playground.spawnTile pg (Some t) = Ret pg' /\ activeValid pg'.
Proof.
  intros Hok. unfold Playground.spawnTile, TilePathFinder.of_type. obind.
  destruct (spawn_valid (pg_f pg) t
              (TilePathFinder.at_state (Some t) (Tile.initTileState t)))
    as (b & r & Hs & Hst & Hv); [reflexivity|].
  rewrite Hs. obind. destruct b; cbn [negb].
  - destruct (Hv eq_refl) as [Hvalid Hver].
    pose proof Hvalid as (Htyp & _).
    destruct (drop_returns (pg_f pg) t r 20) as (b' & r' & Hd);
      [by right|done|by eapply valid_shiftDefined|].
    rewrite Hd. obind. rewrite Htyp. obind.
    eexists. split; [reflexivity|]. intros _. cbn.
    exists t. split; [done|]. split; [done|]. split; [|done].
    rewrite Hst. apply initTileState_ok.
  - eexists. split; [reflexivity|]. intros Hin. cbn in Hin. discriminate.
Qed.

Lemma spawnTile_sound (pg : playground G) t :
  tile_ok t -> wellStocked pg -> supplied ok pg ->
  exists pg', Playground.spawnTile pg (Some t) = Ret pg'
              /\ sound pg' /\ supplied ok pg'.
Proof.
  intros Hok (Hf & Hpre & Hswap) Hsup.
  destruct (spawnTile_total pg t Hok) as (pg' & Hs & Hact).
  exists pg'. split; [done|].
  pose proof (spawnTile_frame _ _ _ Hs)
    as (Ef & Eg & Esw & Een & En & Ep & Ec & _ & Est).
  split.
  - unfold sound, wellStocked. rewrite Ef, Ep, Esw. done.
  - eapply supplied_same; [| |exact Hsup].
    + unfold sameSupply. done.
    + destruct Est as [-> | ->]; [by left|by right].
Qed.

Lemma spawnNextTile_sound (pg : playground G) :
  wellStocked pg -> supplied ok pg ->
  exists pg', Playground.spawnNextTile pg = Ret pg'
              /\ sound pg' /\ supplied ok pg'.
Proof.
  intros (Hf & Hpre & Hswap) Hsup.
  pose proof Hsup as (Hok & Hn & Hlen & Hc & Hall & Hst).
  unfold Playground.spawnNextTile.
  destruct (at_index_in_range (pg_preview pg) (pg_previewCursor pg))
    as [head Hhead]; [lia|].
  rewrite Hhead. obind.
  pose proof (supplied_preview ok _ _ _ Hsup Hhead) as Hnn.
  destruct head as [t|]; [|done].
  assert (Ht : tile_ok t).
  { apply at_index_Ret in Hhead as [_ Hl].
    rewrite Forall_lookup in Hpre. by eapply Hpre. }
  assert (Hprev : exists tp,
             (if pg_previewCursor pg =? 0
              then Field.at_index (pg_preview pg) (pg_numPreviews pg - 1)
              else Field.at_index (pg_preview pg) (pg_previewCursor pg - 1))
             = Ret (Some tp)).
  { destruct (Z.eqb_spec (pg_previewCursor pg) 0).
    - destruct (at_index_in_range (pg_preview pg) (pg_numPreviews pg - 1))
        as [[tp|] Hp]; [lia|eauto|].
      by apply (supplied_preview ok _ _ _ Hsup) in Hp.
    - destruct (at_index_in_range (pg_preview pg) (pg_previewCursor pg - 1))
        as [[tp|] Hp]; [lia|eauto|].
      by apply (supplied_preview ok _ _ _ Hsup) in Hp. }
  destruct Hprev as [tp Hprev]. rewrite Hprev. obind.
  destruct (Hsteady _ Hok) as (next & g' & Hgen & Hok' & Hnext).
  rewrite Hgen. obind.
  apply spawnTile_sound; [done| |].
  - unfold wellStocked. cbn. split; [done|]. split; [|done].
    apply Forall_insert; [done|]. by intros ? [= <-].
  - unfold supplied. cbn. repeat split; try done; try lia.
    + rewrite length_insert. done.
    + destruct (_ <=? _); lia.
    + destruct (Z.leb_spec (pg_numPreviews pg) (pg_previewCursor pg + 1)); lia.
    + apply Forall_insert; done.
Qed.

(** The shadow of a valid tile is computed, and the move is dispatched. *)
Lemma tileMove_sound (pg : playground G) t pfd :
  wellStocked pg -> supplied ok pg -> pg_state pg = inGame ->
  tile_ok t -> validFor (pg_f pg) t pfd -> tileState_ok (pfd_state pfd) ->
  pfd_version pfd = field_version (pg_f pg) ->
  exists pg', Playground.tileMove pg pfd = Ret pg'
              /\ sound pg' /\ supplied ok pg' /\ pg_state pg' = inGame.
Proof.
  intros Hws Hsup Hin Hok Hvalid Hstate Hver.
  assert (E : exists pg', Playground.tileMove pg pfd = Ret pg').
  { unfold Playground.tileMove. pose proof Hvalid as (Htyp & _).
    destruct (drop_returns (pg_f pg) t pfd 20) as (b & r & Hd);
      [by right|done|by eapply valid_shiftDefined|].
    rewrite Hd. obind. rewrite Htyp. obind. eauto. }
  destruct E as [pg' E]. exists pg'. split; [done|].
  pose proof (tileMove_frame _ _ _ E) as (Ef & Hsame & Esw & _ & Ecur & Est).
  pose proof Hsame as (_ & _ & Ep & _).
  destruct Hws as (Hf & Hpre & Hswap).
  split; [|split].
  - split.
    + unfold wellStocked. rewrite Ef, Ep, Esw. done.
    + intros _. rewrite Ef, Ecur. exists t. done.
  - eapply supplied_same; [exact Hsame| |exact Hsup]. by left.
  - congruence.
Qed.

Lemma sound_active (pg : playground G) :
  sound pg -> pg_state pg = inGame ->
  exists t, tile_ok t
            /\ validFor (pg_f pg) t (pg_current pg)
            /\ tileState_ok (pfd_state (pg_current pg))
            /\ legit (pg_f pg) (pg_current pg)
            /\ pfd_version (pg_current pg) = field_version (pg_f pg).
Proof.
  intros [_ Hact] Hin. destruct (Hact Hin) as (t & ? & ? & ? & ?).
  exists t. split; [done|]. split; [done|]. split; [done|].
  split; [by right|done].
Qed.

Lemma isInGame_true (pg : playground G) :
  pg_state pg = inGame -> Playground.isInGame pg = true.
Proof. intros H. unfold Playground.isInGame. by apply bool_decide_eq_true. Qed.

Lemma isInGame_false (pg : playground G) :
  pg_state pg <> inGame -> Playground.isInGame pg = false.
Proof. intros H. unfold Playground.isInGame. by apply bool_decide_eq_false. Qed.

Lemma move_sound (pg : playground G) dx :
  sound pg -> supplied ok pg ->
  exists b pg', Playground.move pg dx = Ret (b, pg')
                /\ sound pg' /\ supplied ok pg'
                /\ pg_state pg' = pg_state pg.
Proof.
  intros Hs Hsup. unfold Playground.move.
  destruct (decide (pg_state pg = inGame)) as [Hin|Hout];
    [|rewrite (isInGame_false _ Hout); cbn [negb]; eauto 6].
  rewrite (isInGame_true _ Hin). cbn [negb].
  destruct (sound_active pg Hs Hin) as (t & Hok & Hvalid & Hstate & Hlegit & Hver).
  pose proof Hvalid as (Htyp & _).
  destruct (move_returns (pg_f pg) t (pg_current pg) dx Hlegit Htyp
              (valid_shiftDefined _ _ _ Hvalid)) as (b & r & Hm).
  rewrite Hm. obind. destruct b; cbn [negb]; [|eauto 6].
  destruct (move_valid _ _ _ Hok Hvalid Hstate _ _ Hm) as (Hv' & Hs' & Hver').
  destruct (tileMove_sound pg t r (proj1 Hs) Hsup Hin Hok Hv' Hs' Hver')
    as (pg' & Ht & Hsound & Hsup' & Hin').
  rewrite Ht. obind. exists true, pg'.
  split; [done|]. split; [done|]. split; [done|]. congruence.
Qed.

Lemma drop_sound (pg : playground G) dy :
  sound pg -> supplied ok pg ->
  exists b pg', Playground.drop pg dy = Ret (b, pg')
                /\ sound pg' /\ supplied ok pg'
                /\ pg_state pg' = pg_state pg.
Proof.
  intros Hs Hsup. unfold Playground.drop.
  destruct (decide (pg_state pg = inGame)) as [Hin|Hout];
    [|rewrite (isInGame_false _ Hout); cbn [negb]; eauto 6].
  rewrite (isInGame_true _ Hin). cbn [negb].
  destruct (sound_active pg Hs Hin) as (t & Hok & Hvalid & Hstate & Hlegit & Hver).
  pose proof Hvalid as (Htyp & _).
  destruct (drop_returns (pg_f pg) t (pg_current pg) dy Hlegit Htyp
              (valid_shiftDefined _ _ _ Hvalid)) as (b & r & Hm).
  rewrite Hm. obind. destruct b; cbn [negb]; [|eauto 6].
  destruct (drop_valid _ _ _ Hok Hvalid Hstate _ _ Hm) as (Hv' & Hs' & Hver').
  destruct (tileMove_sound pg t r (proj1 Hs) Hsup Hin Hok Hv' Hs' Hver')
    as (pg' & Ht & Hsound & Hsup' & Hin').
  rewrite Ht. obind. exists true, pg'.
  split; [done|]. split; [done|]. split; [done|]. congruence.
Qed.

Lemma rotate_sound (pg : playground G) d :
  sound pg -> supplied ok pg ->
  exists b pg', Playground.rotate pg d = Ret (b, pg')
                /\ sound pg' /\ supplied ok pg'
                /\ pg_state pg' = pg_state pg.
Proof.
  intros Hs Hsup. unfold Playground.rotate.
  destruct (decide (pg_state pg = inGame)) as [Hin|Hout];
    [|rewrite (isInGame_false _ Hout); cbn [negb]; eauto 6].
  rewrite (isInGame_true _ Hin). cbn [negb].
  destruct (sound_active pg Hs Hin) as (t & Hok & Hvalid & Hstate & Hlegit & Hver).
  destruct (rotate_returns (pg_f pg) t (pg_current pg) d Hok Hvalid Hlegit Hstate)
    as (b & r & Hm).
  rewrite Hm. obind. destruct b; cbn [negb]; [|eauto 6].
  destruct (rotate_valid _ _ _ Hok Hvalid Hstate _ _ Hm) as (Hv' & Hs' & Hver').
  destruct (tileMove_sound pg t r (proj1 Hs) Hsup Hin Hok Hv' Hs' Hver')
    as (pg' & Ht & Hsound & Hsup' & Hin').
  rewrite Ht. obind. exists true, pg'.
  split; [done|]. split; [done|]. split; [done|]. congruence.
Qed.

Lemma rotations_sound (pg : playground G) :
  sound pg -> supplied ok pg ->
  (exists b pg', Playground.rotateCCW pg = Ret (b, pg')
                 /\ sound pg' /\ supplied ok pg')
  /\ (exists b pg', Playground.rotateCW pg = Ret (b, pg')
                    /\ sound pg' /\ supplied ok pg')
  /\ (exists b pg', Playground.halfTurn pg = Ret (b, pg')
                    /\ sound pg' /\ supplied ok pg').
Proof.
  intros Hs Hsup.
  unfold Playground.rotateCCW, Playground.rotateCW, Playground.halfTurn.
  destruct (negb (Playground.isInGame pg));
    [split; [|split]; exists false, pg; done|].
  split; [|split].
  - destruct (rotate_sound pg (TileDirection.rotateCCW
                (state_dir (pfd_state (pg_current pg)))) Hs Hsup)
      as (b & pg' & ? & ? & ? & _); eauto.
  - destruct (rotate_sound pg (TileDirection.rotateCW
                (state_dir (pfd_state (pg_current pg)))) Hs Hsup)
      as (b & pg' & ? & ? & ? & _); eauto.
  - destruct (rotate_sound pg (TileDirection.halfTurn
                (state_dir (pfd_state (pg_current pg)))) Hs Hsup)
      as (b & pg' & ? & ? & ? & _); eauto.
Qed.

Lemma hardDrop_sound (pg : playground G) :
  sound pg -> supplied ok pg ->
  exists b pg', Playground.hardDrop pg = Ret (b, pg')
                /\ sound pg' /\ supplied ok pg'.
Proof.
  intros Hs Hsup. unfold Playground.hardDrop.
  destruct (decide (pg_state pg = inGame)) as [Hin|Hout];
    [|rewrite (isInGame_false _ Hout); cbn [negb]; eauto 6].
  rewrite (isInGame_true _ Hin). cbn [negb].
  destruct (drop_sound pg 20 Hs Hsup) as (b1 & pg1 & Hd & Hs1 & Hsup1 & Hst1).
  rewrite Hd. obind.
  assert (Hin1 : pg_state pg1 = inGame) by congruence.
  destruct (sound_active pg1 Hs1 Hin1)
    as (t & Hok & Hvalid & Hstate & Hlegit & Hver).
  pose proof Hvalid as (Htyp & _). rewrite Htyp. obind.
  destruct Hs1 as [(Hf & Hpre & Hswap) _].
  destruct (lock_returns (pg_f pg1) t (pg_current pg1) Hok Hf Hstate Hlegit Hvalid)
    as (b2 & f' & clear & Hl & Hf').
  cbn [Playground.dispatch pg_f pg_current]. rewrite Hl. obind.
  rewrite isInGame_true by (cbn; done).
  match goal with
  | |- context [Playground.spawnNextTile ?p] =>
    destruct (spawnNextTile_sound p) as (pg' & Hn & Hs' & Hsup')
  end.
  - unfold wellStocked. cbn. done.
  - eapply supplied_same; [| |exact Hsup1]; unfold sameSupply; cbn; tauto.
  - rewrite Hn. obind. eauto.
Qed.

Lemma swapTile_sound (pg : playground G) :
  sound pg -> supplied ok pg ->
  exists b pg', Playground.swapTile pg = Ret (b, pg')
                /\ sound pg' /\ supplied ok pg'.
Proof.
  intros Hs Hsup. unfold Playground.swapTile.
  destruct (decide (pg_state pg = inGame)) as [Hin|Hout];
    [|rewrite (isInGame_false _ Hout); cbn [negb]; eauto 6].
  rewrite (isInGame_true _ Hin). cbn [negb].
  destruct (pg_swapEnabled pg); cbn [negb]; [|eauto 6].
  destruct (sound_active pg Hs Hin) as (t & Hok & Hvalid & _).
  pose proof Hvalid as (Htyp & _). rewrite Htyp. obind.
  destruct Hs as [(Hf & Hpre & Hswap) _].
  destruct (pg_swap pg) as [held|] eqn:Eheld.
  - match goal with
    | |- context [Playground.spawnTile ?p _] =>
      destruct (spawnTile_sound p held) as (pg' & Hn & Hs' & Hsup')
    end.
    + by apply Hswap.
    + unfold wellStocked. cbn. split; [done|]. split; [done|].
      by intros ? [= <-].
    + eapply supplied_same; [| |exact Hsup]; unfold sameSupply; cbn; tauto.
    + rewrite Hn. obind. eauto.
  - match goal with
    | |- context [Playground.spawnNextTile ?p] =>
      destruct (spawnNextTile_sound p) as (pg' & Hn & Hs' & Hsup')
    end.
    + unfold wellStocked. cbn. split; [done|]. split; [done|].
      by intros ? [= <-].
    + eapply supplied_same; [| |exact Hsup]; unfold sameSupply; cbn; tauto.
    + rewrite Hn. obind. eauto.
Qed.

Lemma step_sound (pg : playground G) c :
  sound pg -> supplied ok pg ->
  exists pg', Playground.step pg c = Ret pg' /\ sound pg' /\ supplied ok pg'.
Proof.
  intros Hs Hsup. destruct c; cbn [Playground.step].
  - unfold Playground.start.
    destruct (decide (pg_state pg = notStarted)) as [Hn|Hn].
    + rewrite bool_decide_eq_true_2 by done. cbn [negb].
      apply spawnNextTile_sound.
      * destruct Hs as [Hws _]. exact Hws.
      * eapply supplied_same; [| |exact Hsup]; unfold sameSupply; cbn;
          [tauto|by right].
    + rewrite bool_decide_eq_false_2 by done. cbn [negb]. eauto.
  - unfold Playground.complete.
    destruct (decide (pg_state pg = inGame)) as [Hin|Hout].
    + rewrite (isInGame_true _ Hin). cbn [negb].
      eexists. split; [reflexivity|]. split.
      * destruct Hs as [Hws _]. split; [exact Hws|].
        intros Hc. cbn in Hc. discriminate.
      * eapply supplied_same; [| |exact Hsup]; unfold sameSupply; cbn;
          [tauto|by right].
    + rewrite (isInGame_false _ Hout). cbn [negb]. eauto.
  - destruct (move_sound pg dx Hs Hsup) as (b & pg' & -> & ? & ? & _).
    obind. eauto.
  - destruct (drop_sound pg dy Hs Hsup) as (b & pg' & -> & ? & ? & _).
    obind. eauto.
  - destruct (hardDrop_sound pg Hs Hsup) as (b & pg' & -> & ? & ?).
    obind. eauto.
  - destruct (rotations_sound pg Hs Hsup) as ((b & pg' & -> & ? & ?) & _).
    obind. eauto.
  - destruct (rotations_sound pg Hs Hsup) as (_ & (b & pg' & -> & ? & ?) & _).
    obind. eauto.
  - destruct (rotations_sound pg Hs Hsup) as (_ & _ & (b & pg' & -> & ? & ?)).
    obind. eauto.
  - destruct (swapTile_sound pg Hs Hsup) as (b & pg' & -> & ? & ?).
    obind. eauto.
Qed.

(** Every sequence of calls returns, in a sound playground that is not
    exhausted. *)
Lemma run_sound cs (pg : playground G) :
  sound pg -> supplied ok pg ->
  exists pg', Playground.run cs pg = Ret pg' /\ sound pg' /\ supplied ok pg'.
Proof.
  revert pg. induction cs as [|c cs IH]; intros pg Hs Hsup;
    cbn [Playground.run].
  - eauto.
  - destruct (step_sound pg c Hs Hsup) as (pg1 & -> & Hs1 & Hsup1).
    obind. by apply IH.
Qed.

Lemma fillPreviews_steady n g :
  ok g ->
  exists ts g', Playground.fillPreviews n g = Ret (ts, g')
                /\ ok g' /\ length ts = n
                /\ Forall (fun t => t <> None) ts
                /\ Forall (fun o => forall t, o = Some t -> tile_ok t) ts.
Proof.
  revert g. induction n as [|n IH]; intros g Hok.
  - exists [], g. done.
  - destruct (Hsteady _ Hok) as (t & g1 & Hg & Hok1 & Ht).
    destruct (IH g1 Hok1) as (ts & g' & Hf & Hok' & Hlen & Hall & Htiles).
    cbn [Playground.fillPreviews]. rewrite Hg. obind. rewrite Hf. obind.
    exists (Some t :: ts), g'. split; [done|]. split; [done|].
    split; [by rewrite <- Hlen|]. split; [by constructor|].
    constructor; [|done]. by intros ? [= <-].
Qed.

Lemma make_sound g numPreviews :
  ok g -> 1 <= numPreviews ->
  exists pg, Playground.make g numPreviews = Ret pg
             /\ sound pg /\ supplied ok pg.
Proof.
  intros Hok Hn. unfold Playground.make.
  destruct (Z.ltb_spec numPreviews 0); [lia|].
  destruct (fillPreviews_steady (Z.to_nat numPreviews) g Hok)
    as (ts & g' & Hf & Hok' & Hlen & Hall & Htiles).
  rewrite Hf. obind. eexists. split; [reflexivity|]. split.
  - split.
    + unfold wellStocked. cbn. split; [|done].
      unfold field_ok. cbn. split; [done|]. split; [constructor|].
      split; [lia|]. apply Z.ltb_lt. reflexivity.
    + intros Hin. cbn in Hin. discriminate.
  - unfold supplied. cbn. repeat split; try done; lia.
Qed.

End game.

(** * The permutator as the supply of a playground *)

Lemma permutator_steadySupply {R : Type}
    (shuffle : R -> list (option tile) -> list (option tile) * R)
    (tiles : list (option tile)) :
  (forall g l, Permutation (fst (shuffle g l)) l) ->
  Z.of_nat (length tiles) <= INT_MAX ->
  tiles <> [] ->
  Forall (fun t => t <> None) tiles ->
  Forall (fun o => forall t, o = Some t -> tile_ok t) tiles ->
  steadySupply (tileGenerator0 := TilePermutator.generate shuffle) (bag tiles).
Proof.
  intros Hshuffle Hfit Hne Hall Hok p Hbag.
  destruct (generate_bag shuffle Hshuffle tiles Hfit p Hne Hbag)
    as (t & p' & Hg & Ht & Hbag' & _).
  assert (Hin : t ∈ tiles).
  { destruct Hbag as (Hs & _). rewrite <- Hs. by eapply list_elem_of_lookup_2. }
  rewrite Forall_forall in Hall, Hok.
  specialize (Hall t Hin). specialize (Hok t Hin).
  destruct t as [t|]; [|done]. exists t, p'. auto.
Qed.

(** C10: a permutator over a non-empty working set of non-null tiles never
    returns [nullptr], however often [generate] is called; a playground fed
    by it, with at least one preview, is never in state [exhausted],
    whatever the controller calls; and when the tiles of the working set
    are well formed, every sequence of calls of the controller returns. *)
Theorem permutator_never_exhausts {R : Type} (seedEngine : Z -> R)
    (shuffle : R -> list (option tile) -> list (option tile) * R)
    (tiles : list (option tile)) (seed : Z) :
  (forall g l, Permutation (fst (shuffle g l)) l) ->
  Z.of_nat (length tiles) <= INT_MAX ->
  tiles <> [] ->
  Forall (fun t => t <> None) tiles ->
  (forall n, exists ts p,
      TilePermutator.draws shuffle n
        (TilePermutator.make seedEngine shuffle tiles seed) = Ret (ts, p)
      /\ Forall (fun t => t <> None) ts)
  /\ (forall numPreviews, 1 <= numPreviews ->
      exists pg,
        Playground.make (tileGenerator0 := TilePermutator.generate shuffle)
          (TilePermutator.make seedEngine shuffle tiles seed) numPreviews
        = Ret pg
        /\ (forall cs pg',
             Playground.run (tileGenerator0 := TilePermutator.generate shuffle)
               cs pg = Ret pg' ->
             pg_state pg' <> exhausted)
        /\ (Forall (fun o => forall t, o = Some t -> tile_ok t) tiles ->
            forall cs, exists pg',
              Playground.run (tileGenerator0 := TilePermutator.generate shuffle)
                cs pg = Ret pg'
              /\ pg_state pg' <> exhausted)).
Proof.
  intros Hshuffle Hfit Hne Hall.
  destruct (bag_make seedEngine shuffle Hshuffle tiles Hfit seed) as [Hbag _].
  split.
  - intros n.
    destruct (draws_total shuffle Hshuffle tiles Hfit n _ Hne Hbag)
      as (ts & p & Hd & _ & Hts).
    exists ts, p. split; [done|].
    rewrite Forall_forall in *. intros t Ht. apply Hall. by apply Hts.
  - intros numPreviews Hn.
    pose proof (permutator_neverDry shuffle tiles Hshuffle Hfit Hne Hall) as Hdry.
    destruct (make_supplied (tileGenerator0 := TilePermutator.generate shuffle)
                (bag tiles) Hdry _ numPreviews Hbag Hn) as (pg & Hmake & Hs).
    exists pg. split; [done|]. split.
    + intros cs pg' Hrun.
      pose proof (run_supplied (tileGenerator0 := TilePermutator.generate shuffle)
                    (bag tiles) Hdry cs pg pg' Hs Hrun) as Hs'.
      unfold supplied in Hs'. tauto.
    + intros Hok cs.
      pose proof (permutator_steadySupply shuffle tiles Hshuffle Hfit Hne Hall Hok)
        as Hsteady.
      destruct (make_sound (tileGenerator0 := TilePermutator.generate shuffle)
                  (bag tiles) Hsteady _ numPreviews Hbag Hn)
        as (pg0 & Hmake0 & Hsound & Hsup).
      assert (pg0 = pg) as -> by congruence.
      destruct (run_sound (tileGenerator0 := TilePermutator.generate shuffle)
                  (bag tiles) Hsteady cs pg Hsound Hsup)
        as (pg' & Hrun & _ & Hsup').
      exists pg'. split; [done|]. unfold supplied in Hsup'. tauto.
Qed.

Lemma some_tile_ok (t : tile) :
  tile_ok t -> forall t', Some t = Some t' -> tile_ok t'.
Proof. intros Hok t' Ht. injection Ht as <-. exact Hok. Qed.

Lemma exampleTiles_ok :
  Forall (fun o => forall t, o = Some t -> tile_ok t) exampleTiles.
Proof.
  unfold exampleTiles.
  apply Forall_cons; split; [apply some_tile_ok, tileT_ok|].
  apply Forall_cons; split; [apply some_tile_ok, tetromino_tiles_ok|].
  apply Forall_cons; split; [apply some_tile_ok, tetromino_tiles_ok|].
  apply Forall_nil_2.
Qed.

Lemma permutator_never_exhausts_witness :
  (forall n, exists ts p,
      TilePermutator.draws ExampleEngine.shuffle n
        (ExampleEngine.permutator exampleTiles 0) = Ret (ts, p)
      /\ Forall (fun t => t <> None) ts)
  /\ (forall numPreviews, 1 <= numPreviews ->
      exists pg,
        Playground.make (ExampleEngine.permutator exampleTiles 0) numPreviews
        = Ret pg
        /\ forall cs, exists pg',
             Playground.run cs pg = Ret pg' /\ pg_state pg' <> exhausted).
Proof.
  destruct (permutator_never_exhausts ExampleEngine.seed ExampleEngine.shuffle
              exampleTiles 0) as [Hdraws Hgame].
  - apply example_shuffle_permutes.
  - vm_compute. discriminate.
  - discriminate.
  - repeat constructor; discriminate.
  - split; [exact Hdraws|]. intros numPreviews Hn.
    destruct (Hgame numPreviews Hn) as (pg & Hmake & _ & Htotal).
    exists pg. split; [exact Hmake|]. apply Htotal. exact exampleTiles_ok.
Defined.

#[local] Transparent Field.eraseRows Field.placePixels.

(** * Calls outside a game *)

Section idle.

Context {G : Type} `{!tileGenerator G}.

(** While the playground is not in state [inGame], every call of the
    controller but [start] returns false (or nothing) and leaves the
    playground as it is: no field is changed and no event is dispatched;
    once the game has ended ([topOut], [exhausted] or [completed]), no
    sequence of calls changes anything any more. *)
Theorem calls_outside_game_are_ignored (pg : playground G) :
  pg_state pg <> inGame ->
  (forall dx, Playground.move pg dx = Ret (false, pg))
  /\ (forall dy, Playground.drop pg dy = Ret (false, pg))
  /\ Playground.hardDrop pg = Ret (false, pg)
  /\ Playground.rotateCCW pg = Ret (false, pg)
  /\ Playground.rotateCW pg = Ret (false, pg)
  /\ Playground.halfTurn pg = Ret (false, pg)
  /\ Playground.swapTile pg = Ret (false, pg)
  /\ Playground.complete pg = Ret pg
  /\ (pg_state pg <> notStarted ->
      forall cs, Playground.run cs pg = Ret pg).
Proof.
  intros Hout.
  assert (Hin : Playground.isInGame pg = false)
    by (unfold Playground.isInGame; by apply bool_decide_eq_false_2).
  unfold Playground.move, Playground.drop, Playground.hardDrop,
    Playground.rotateCCW, Playground.rotateCW, Playground.halfTurn,
    Playground.swapTile, Playground.complete.
  rewrite Hin. cbn [negb].
  do 8 (split; [done|]).
  intros Hstarted cs. induction cs as [|c cs IH]; [done|].
  cbn [Playground.run].
  assert (Hstep : Playground.step pg c = Ret pg).
  { destruct c; cbn [Playground.step];
      unfold Playground.start, Playground.move, Playground.drop,
        Playground.hardDrop, Playground.rotateCCW, Playground.rotateCW,
        Playground.halfTurn, Playground.swapTile, Playground.complete;
      rewrite ?Hin; cbn [negb]; try done.
    by rewrite bool_decide_eq_false_2. }
  rewrite Hstep. obind. exact IH.
Qed.

End idle.

Lemma calls_outside_game_are_ignored_witness :
  let pg := exampleAfter [Playground.Start; Playground.Complete] in
  pg_state pg = completed
  /\ Playground.hardDrop pg = Ret (false, pg)
  /\ Playground.run [Playground.Start; Playground.Move 1; Playground.SwapTile]
       pg = Ret pg.
Proof.
  intros pg.
  assert (Hstate : pg_state pg = completed) by (vm_compute; reflexivity).
  destruct (calls_outside_game_are_ignored pg) as (_ & _ & Hh & _ & _ & _ & _ & _ & Hrun).
  - rewrite Hstate. discriminate.
  - split; [exact Hstate|]. split; [exact Hh|].
    apply Hrun. rewrite Hstate. discriminate.
Defined.

(** * Directions and coordinates *)

(** The three rotations of a direction stay among the four directions and
    form the cyclic group of order four: [rotateCW] and [rotateCCW] undo
    each other, [halfTurn] is two [rotateCW] and undoes itself, and four
    [rotateCW] give the direction back. *)
Theorem tileDirection_rotations (d : tileDirection) :
  TileDirection.rotateCW (TileDirection.rotateCCW d) = d
  /\ TileDirection.rotateCCW (TileDirection.rotateCW d) = d
  /\ TileDirection.halfTurn (TileDirection.halfTurn d) = d
  /\ TileDirection.rotateCW (TileDirection.rotateCW d)
     = TileDirection.halfTurn d
  /\ TileDirection.rotateCCW (TileDirection.rotateCCW d)
     = TileDirection.halfTurn d
  /\ TileDirection.rotateCW (TileDirection.rotateCW
       (TileDirection.rotateCW (TileDirection.rotateCW d))) = d
  /\ TileDirection.rotateCW d <> d
  /\ 0 <= TileDirection.getValue (TileDirection.rotateCCW d) <= 3.
Proof. destruct d; vm_compute; intuition congruence. Qed.

Lemma bytes_all (P : Z -> bool) :
  forallb P (Z.of_nat <$> seq 0 256) = true ->
  forall v, 0 <= v < 256 -> P v = true.
Proof.
  intros H v Hv. rewrite forallb_forall in H. apply H.
  apply list_elem_of_In, list_elem_of_fmap. exists (Z.to_nat v).
  split; [lia|]. apply elem_of_seq. lia.
Qed.

(** [tileCoordAt] packs two signed nibbles in a byte and the bit-fields
    read them back: for offsets between -8 and 7 the round trip is exact,
    the byte is zero (the value that ends a list of pixels or kicks) only
    for the offset (0, 0), and an offset outside that range is kept
    modulo 16. *)
Theorem tileCoordAt_round_trip (x y : Z) :
  0 <= tileCoordAt x y < 256
  /\ TileCoord.x (tileCoordAt x y) = TileCoord.sext4 (x mod 16)
  /\ TileCoord.y (tileCoordAt x y) = TileCoord.sext4 (y mod 16)
  /\ (-8 <= x <= 7 -> TileCoord.x (tileCoordAt x y) = x)
  /\ (-8 <= y <= 7 -> TileCoord.y (tileCoordAt x y) = y)
  /\ (-8 <= x <= 7 -> -8 <= y <= 7 ->
      (tileCoordAt x y = 0 <-> x = 0 /\ y = 0)).
Proof.
  unfold tileCoordAt, TileCoord.set_x, TileCoord.set_y, TileCoord.x,
    TileCoord.y, TileCoord.sext4.
  pose proof (Z.mod_pos_bound x 16 ltac:(lia)) as Hx.
  pose proof (Z.mod_pos_bound y 16 ltac:(lia)) as Hy.
  change (0 / 16) with 0. change (0 mod 16) with 0.
  rewrite Z.mul_0_l, Z.add_0_l, Z.mod_mod by lia.
  assert (Hlow : (y mod 16 * 16 + x mod 16) mod 16 = x mod 16).
  { rewrite Z.add_comm, Z.mod_add by lia. apply Z.mod_mod. lia. }
  assert (Hhigh : (y mod 16 * 16 + x mod 16) / 16 = y mod 16).
  { rewrite Z.add_comm, Z.div_add by lia.
    rewrite Z.div_small by lia. lia. }
  rewrite Hlow, Hhigh, Z.mod_mod by lia.
  split; [lia|]. split; [done|]. split; [done|].
  assert (Hs : forall z, -8 <= z <= 7 ->
            (if z mod 16 <? 8 then z mod 16 else z mod 16 - 16) = z).
  { intros z Hz. destruct (Z.le_gt_cases 0 z).
    - rewrite Z.mod_small by lia. destruct (Z.ltb_spec z 8); lia.
    - rewrite <- (Z.mod_unique z 16 (-1) (z + 16)) by lia.
      destruct (Z.ltb_spec (z + 16) 8); lia. }
  pose proof (Hs x) as Hsx. pose proof (Hs y) as Hsy.
  split; [exact Hsx|]. split; [exact Hsy|].
  intros Hrx Hry. specialize (Hsx Hrx). specialize (Hsy Hry).
  split.
  - intros H0. assert (x mod 16 = 0 /\ y mod 16 = 0) as [Hx0 Hy0] by lia.
    rewrite Hx0 in Hsx. rewrite Hy0 in Hsy. cbn in Hsx, Hsy. lia.
  - intros [-> ->]. reflexivity.
Qed.

Lemma tileCoordAt_round_trip_witness :
  TileCoord.x (tileCoordAt (-2) 1) = -2
  /\ TileCoord.y (tileCoordAt (-2) 1) = 1
  /\ tileCoordAt (-2) 1 <> 0.
Proof.
  destruct (tileCoordAt_round_trip (-2) 1) as (_ & _ & _ & Hx & Hy & Hz).
  split; [apply Hx; lia|]. split; [apply Hy; lia|].
  intros H0. apply Hz in H0; lia.
Defined.

(** The negation of a kick, as [createTetrominoRotation] computes it in
    the bit-fields, undoes itself on every byte; it negates both offsets,
    but for the offset -8, which four bits cannot negate and which it
    leaves as it is. *)
Theorem negate_involutive (value : Z) :
  0 <= value < 256 ->
  TetrominoRotation.negate (TetrominoRotation.negate value) = value
  /\ (TileCoord.x value <> -8 ->
      TileCoord.x (TetrominoRotation.negate value) = - TileCoord.x value)
  /\ (TileCoord.y value <> -8 ->
      TileCoord.y (TetrominoRotation.negate value) = - TileCoord.y value)
  /\ (TileCoord.x value = -8 ->
      TileCoord.x (TetrominoRotation.negate value) = -8)
  /\ (TileCoord.y value = -8 ->
      TileCoord.y (TetrominoRotation.negate value) = -8)
  /\ (TetrominoRotation.negate value = 0 <-> value = 0).
Proof.
  intros Hv.
  pose (P := fun v =>
    (TetrominoRotation.negate (TetrominoRotation.negate v) =? v)
    && ((TileCoord.x v =? -8)
        || (TileCoord.x (TetrominoRotation.negate v) =? - TileCoord.x v))
    && ((TileCoord.y v =? -8)
        || (TileCoord.y (TetrominoRotation.negate v) =? - TileCoord.y v))
    && (negb (TileCoord.x v =? -8)
        || (TileCoord.x (TetrominoRotation.negate v) =? -8))
    && (negb (TileCoord.y v =? -8)
        || (TileCoord.y (TetrominoRotation.negate v) =? -8))
    && (Bool.eqb (TetrominoRotation.negate v =? 0) (v =? 0))).
  assert (H : P value = true)
    by (apply bytes_all; [vm_compute; reflexivity | exact Hv]).
  unfold P in H.
  rewrite !andb_true_iff, !orb_true_iff, !negb_true_iff in H.
  destruct H as (((((Hinv & Hx) & Hy) & Hx8) & Hy8) & Hzero).
  apply Bool.eqb_prop in Hzero.
  split; [lia|].
  split; [intros ?; destruct Hx; lia|].
  split; [intros ?; destruct Hy; lia|].
  split; [intros ?; destruct Hx8; lia|].
  split; [intros ?; destruct Hy8; lia|].
  split; intros Hz.
  - rewrite Hz in Hzero. cbn in Hzero. symmetry in Hzero. lia.
  - subst value. reflexivity.
Qed.

Lemma negate_involutive_witness :
  TetrominoRotation.negate (TetrominoRotation.negate (tileCoordAt (-1) 2))
  = tileCoordAt (-1) 2.
Proof.
  apply (negate_involutive (tileCoordAt (-1) 2)). vm_compute. split; [discriminate | reflexivity].
Defined.

(** * The packed rows and the rows of cells *)

Lemma testbit_u16 a n : Z.testbit (u16 a) n = (n <? 16) && Z.testbit a n.
Proof. unfold u16. apply Z.testbit_mod_pow2. lia. Qed.

Lemma testbit_one_shifted i n :
  0 <= i -> Z.testbit (Z.shiftl 1 i) n = (n =? i).
Proof.
  intros Hi. rewrite Z.shiftl_1_l, Z.pow2_bits_eqb by lia.
  apply Z.eqb_sym.
Qed.

Lemma compact_fold_bits (row : fieldRow) (cols : list Z) (acc n : Z) :
  0 <= n ->
  Forall (fun i => 0 <= i < 16) cols ->
  (forall m, 16 <= m -> Z.testbit acc m = false) ->
  Z.testbit
    (foldl (fun line i =>
              u16 (Z.lor line (if nth (Z.to_nat i) row 0 =? 0 then 0
                               else Z.shiftl 1 i)))
           acc cols) n
  = Z.testbit acc n
    || (bool_decide (n ∈ cols) && negb (nth (Z.to_nat n) row 0 =? 0)).
Proof.
  intros Hn. revert acc.
  induction cols as [|i cols IH]; intros acc Hcols Hacc; cbn [foldl].
  - rewrite (bool_decide_eq_false_2 (n ∈ [])) by apply not_elem_of_nil.
    cbn [andb]. by rewrite orb_false_r.
  - apply Forall_cons in Hcols as [Hi Hcols].
    rewrite IH; [|done|].
    + rewrite testbit_u16, Z.lor_spec.
      destruct (decide (n = i)) as [->|Hne].
      * rewrite (bool_decide_eq_true_2 (i ∈ i :: cols)) by left.
        destruct (Z.ltb_spec i 16); [|lia]. cbn [andb].
        destruct (nth (Z.to_nat i) row 0 =? 0); cbn [negb andb].
        -- rewrite Z.bits_0.
           destruct (bool_decide (i ∈ cols)), (Z.testbit acc i); reflexivity.
        -- rewrite testbit_one_shifted, Z.eqb_refl by lia.
           destruct (bool_decide (i ∈ cols)), (Z.testbit acc i); reflexivity.
      * assert (Hbit : Z.testbit (if nth (Z.to_nat i) row 0 =? 0 then 0
                                  else Z.shiftl 1 i) n = false).
        { destruct (nth (Z.to_nat i) row 0 =? 0); [apply Z.bits_0|].
          rewrite testbit_one_shifted by lia. by apply Z.eqb_neq. }
        rewrite Hbit, orb_false_r.
        assert (Hin : bool_decide (n ∈ i :: cols) = bool_decide (n ∈ cols)).
        { apply bool_decide_ext. rewrite elem_of_cons. tauto. }
        rewrite Hin.
        destruct (Z.ltb_spec n 16); [done|].
        rewrite Hacc by lia. cbn [andb orb].
        reflexivity.
    + intros m Hm. rewrite testbit_u16.
      destruct (Z.ltb_spec m 16); [lia|done].
Qed.

Lemma compactOf_bits (row : fieldRow) (n : Z) :
  0 <= n ->
  Z.testbit (compactOf row) n
  = (n <? 10) && negb (nth (Z.to_nat n) row 0 =? 0).
Proof.
  intros Hn. unfold compactOf.
  rewrite compact_fold_bits; [|done| |].
  - rewrite Z.bits_0, orb_false_l. f_equal.
    destruct (Z.ltb_spec n 10).
    + apply bool_decide_eq_true_2.
      change [0; 1; 2; 3; 4; 5; 6; 7; 8; 9] with (Z.of_nat <$> seq 0 10).
      apply list_elem_of_fmap. exists (Z.to_nat n).
      split; [lia|]. apply elem_of_seq. lia.
    + apply bool_decide_eq_false_2. rewrite !elem_of_cons, elem_of_nil. lia.
  - repeat (apply Forall_cons; split; [lia|]). apply Forall_nil_2.
  - intros m _. apply Z.bits_0.
Qed.

Lemma compactOf_range (row : fieldRow) : 0 <= compactOf row < 2 ^ 10.
Proof.
  assert (H0 : 0 <= compactOf row).
  { apply Z.bits_iff_nonneg_ex. exists 10. intros m Hm.
    rewrite compactOf_bits by lia. destruct (Z.ltb_spec m 10); [lia|done]. }
  split; [done|].
  apply (Z.bounded_iff_bits_nonneg 10); [lia|done|].
  intros m Hm. rewrite compactOf_bits by lia.
  destruct (Z.ltb_spec m 10); [lia|done].
Qed.

Lemma compactOf_insert (row : fieldRow) (x d : Z) :
  0 <= x < 10 -> (Z.to_nat x < length row)%nat -> d <> 0 ->
  compactOf (<[Z.to_nat x := d]> row)
  = u16 (Z.lor (compactOf row) (Z.shiftl 1 x)).
Proof.
  intros Hx Hlen Hd. apply Z.bits_inj'. intros n Hn.
  rewrite testbit_u16, Z.lor_spec, !compactOf_bits, testbit_one_shifted by lia.
  destruct (Z.eqb_spec n x) as [->|Hne].
  - rewrite (nth_lookup_Some _ _ _ d) by (by apply list_lookup_insert_eq).
    destruct (Z.eqb_spec d 0); [done|].
    destruct (Z.ltb_spec x 10); [|lia]. destruct (Z.ltb_spec x 16); [|lia].
    cbn [negb andb]. by rewrite orb_true_r.
  - rewrite !nth_lookup, list_lookup_insert_ne by lia.
    rewrite orb_false_r.
    destruct (Z.ltb_spec n 10), (Z.ltb_spec n 16); try lia; done.
Qed.

Lemma compactOf_empty : compactOf (replicate 10 0) = 0.
Proof. vm_compute. reflexivity. Qed.

Lemma grow_compactOf f row :
  Field.grow f row
  = mkField (compactOf row :: field_compactFields f) (row :: field_fields f)
      (u64 (field_version f + 1)).
Proof. unfold Field.grow, compactOf. reflexivity. Qed.

#[local] Opaque compactOf.

(** Writing the pixels keeps the rows ten cells wide and the packed rows
    in step with them. *)
Lemma placePixels_coherent fuel data loc state cf (fs : list fieldRow) cf' fs' :
  Field.placePixels fuel data loc state cf fs = Ret (cf', fs') ->
  Forall (fun row => length row = 10%nat) fs ->
  cf = compactOf <$> fs ->
  Forall (fun row => length row = 10%nat) fs' /\ cf' = compactOf <$> fs'.
Proof.
  revert data loc cf fs.
  induction fuel as [|fuel IH]; intros data loc cf fs H Hw Hcf;
    cbn [Field.placePixels] in H.
  - by simplify_eq.
  - destruct data as [|d data]; [discriminate|].
    destruct (Z.eqb_spec d 0) as [->|Hd]; [by simplify_eq|].
    destruct loc as [|l loc]; [discriminate|].
    cbv zeta in H.
    set (x := u8 (state_x state + TileCoord.x l)) in *.
    set (y := u8 (state_y state + TileCoord.y l)) in *.
    destruct (Field.at_index fs y) as [row| |] eqn:Hr; [|discriminate..].
    obind in H.
    destruct (Z.leb_spec (Z.of_nat (length row)) x); [discriminate|].
    destruct (Field.at_index cf y) as [c| |] eqn:Hc; [|discriminate..].
    obind in H.
    apply at_index_Ret in Hr as [Hy Hr]. apply at_index_Ret in Hc as [_ Hc].
    assert (Hx : 0 <= x) by (unfold x, u8; apply Z.mod_pos_bound; lia).
    pose proof Hw as Hw'. rewrite Forall_lookup in Hw'.
    pose proof (Hw' _ _ Hr) as Hrow.
    assert (c = compactOf row) as ->.
    { rewrite Hcf, list_lookup_fmap, Hr in Hc. injection Hc as <-.
      reflexivity. }
    apply IH in H; [done| |].
    + apply Forall_insert; [done|]. by rewrite length_insert.
    + rewrite list_fmap_insert, compactOf_insert by lia. by rewrite Hcf.
Qed.

(** Removing rows removes them from both vectors. *)
Lemma eraseRows_coherent fuel j maxy stateY clear cf (fs : list fieldRow)
    cf' fs' clear' :
  Field.eraseRows fuel j maxy stateY clear cf fs = Ret (cf', fs', clear') ->
  Forall (fun row => length row = 10%nat) fs ->
  cf = compactOf <$> fs ->
  Forall (fun row => length row = 10%nat) fs' /\ cf' = compactOf <$> fs'.
Proof.
  revert j clear cf fs.
  induction fuel as [|fuel IH]; intros j clear cf fs H Hw Hcf;
    cbn [Field.eraseRows] in H.
  - by simplify_eq.
  - destruct (j <=? maxy); [|by simplify_eq].
    cbv zeta in H.
    destruct (Field.at_index cf _) as [c| |]; [|discriminate..].
    obind in H.
    destruct (c =? Field.solidRow).
    + destruct (Z.of_nat (length fs) <=? _); [discriminate|].
      apply IH in H; [done| |].
      * by apply Forall_delete.
      * by rewrite list_fmap_delete, Hcf.
    + by apply IH in H.
Qed.

(** What a call of [lock] that returns has done. *)
Lemma lock_inv f pfd b f' clear :
  Field.lock f pfd = Ret (b, f', clear) ->
  (b = false /\ f' = f /\ clear = 0)
  \/ (b = true /\ exists typ cf1 fs1 cf2 fs2,
        pfd_typ pfd = Some typ
        /\ Field.isValidFor typ pfd = true
        /\ (exists r, Field.drop f pfd 1 = Ret (false, r))
        /\ Field.placePixels (Z.to_nat maxNumPixels)
             (tile_data typ (state_dir (pfd_state pfd)))
             (tile_loc typ (state_dir (pfd_state pfd))) (pfd_state pfd)
             (field_compactFields f
              ++ replicate
                   (Z.to_nat
                      (to_size_t
                         (state_y (pfd_state pfd)
                          + TileCoord.y
                              (tile_max typ (state_dir (pfd_state pfd))))
                       + 1 - Z.of_nat (length (field_fields f)))) 0)
             (field_fields f
              ++ replicate
                   (Z.to_nat
                      (to_size_t
                         (state_y (pfd_state pfd)
                          + TileCoord.y
                              (tile_max typ (state_dir (pfd_state pfd))))
                       + 1 - Z.of_nat (length (field_fields f))))
                   (replicate 10 0))
           = Ret (cf1, fs1)
        /\ Field.eraseRows (Z.to_nat 256)
             (u8 (TileCoord.y (tile_min typ (state_dir (pfd_state pfd)))))
             (TileCoord.y (tile_max typ (state_dir (pfd_state pfd))))
             (state_y (pfd_state pfd)) 0 cf1 fs1
           = Ret (cf2, fs2, clear)
        /\ f' = mkField cf2 fs2 (u64 (field_version f + 1))).
Proof.
  unfold Field.lock. intros H.
  apply bind_Ret in H as (u & _ & H). cbv beta in H.
  apply bind_Ret in H as (typ & Htyp & H). cbv beta in H.
  destruct (pfd_typ pfd) as [typ'|]; [|discriminate].
  injection Htyp as ->.
  destruct (Field.isValidFor typ pfd) eqn:Hv;
    [|left; injection H as <- <- <-; done].
  change (negb true) with false in H. cbv iota in H.
  apply bind_Ret in H as ([dropped r] & Hd & H). cbv beta iota in H.
  destruct dropped; [left; injection H as <- <- <-; done|].
  cbv zeta in H.
  apply bind_Ret in H as ([cf1 fs1] & Hp & H). cbv beta iota in H.
  apply bind_Ret in H as ([[cf2 fs2] clear2] & He & H). cbv beta iota in H.
  injection H as <- <- <-.
  right. split; [done|]. exists typ, cf1, fs1, cf2, fs2.
  split; [done|]. split; [done|]. split; [by exists r|].
  split; [exact Hp|]. split; [exact He|]. reflexivity.
Qed.

Lemma lock_coherent f pfd b f' clear :
  Field.lock f pfd = Ret (b, f', clear) ->
  field_ok f -> coherent f -> field_ok f' /\ coherent f'.
Proof.
  intros H Hok Hco.
  apply lock_inv in H
    as [(-> & -> & ->)|(-> & typ & cf1 & fs1 & cf2 & fs2 & _ & _ & _ & Hp & He & ->)];
    [done|].
  destruct Hok as (Hlen & Hw & Hver). unfold coherent in Hco.
  apply placePixels_coherent in Hp as [Hw1 Hcf1].
  - apply eraseRows_coherent in He as [Hw2 Hcf2]; [|done..].
    split; [|exact Hcf2].
    unfold field_ok. cbn [field_fields field_compactFields field_version].
    split; [by rewrite Hcf2, length_fmap|]. split; [done|].
    unfold u64. apply Z.mod_pos_bound. lia.
  - apply Forall_app. split; [done|].
    apply Forall_replicate, length_replicate.
  - rewrite fmap_app, fmap_replicate, compactOf_empty. by rewrite Hco.
Qed.

Lemma to_size_t_small y : 0 <= y <= INT_MAX -> to_size_t y = y.
Proof.
  intros Hy. unfold to_size_t. apply Z.mod_small.
  unfold INT_MAX in Hy. lia.
Qed.

(** [grow] puts the row at the bottom of the field: row 0 is the new row,
    packed with bit [i] set when cell [i] is not zero; every row that was at
    [y] is at [y + 1]; and the version advances. *)
Theorem grow_adds_a_bottom_row (f : field) (row : fieldRow) :
  (forall i, 0 <= i ->
     Z.testbit (Field.compactRowAt (Field.grow f row) 0) i
     = (i <? 10) && negb (nth (Z.to_nat i) row 0 =? 0))
  /\ (forall solidCell, Field.rowAt (Field.grow f row) 0 solidCell = Ret row)
  /\ (forall y, 0 <= y < INT_MAX ->
        Field.compactRowAt (Field.grow f row) (y + 1)
        = Field.compactRowAt f y)
  /\ (forall y solidCell, 0 <= y < INT_MAX ->
        Field.rowAt (Field.grow f row) (y + 1) solidCell
        = Field.rowAt f y solidCell)
  /\ field_version (Field.grow f row) = u64 (field_version f + 1).
Proof.
  rewrite grow_compactOf.
  split; [|split; [|split; [|split]]].
  - intros i Hi. unfold Field.compactRowAt.
    cbn [field_compactFields length]. rewrite to_size_t_small by (unfold INT_MAX; lia).
    destruct (Z.ltb_spec 0 0); [lia|].
    destruct (Z.leb_spec (Z.of_nat (S (length (field_compactFields f)))) 0);
      [lia|].
    change (Z.to_nat 0) with 0%nat. cbn [nth].
    by apply compactOf_bits.
  - intros s. unfold Field.rowAt.
    cbn [field_compactFields field_fields length].
    rewrite to_size_t_small by (unfold INT_MAX; lia).
    destruct (Z.leb_spec (Z.of_nat (S (length (field_compactFields f)))) 0);
      [lia|].
    destruct (Z.ltb_spec 0 0); [lia|].
    apply at_index_lookup; [lia|]. reflexivity.
  - intros y Hy. unfold Field.compactRowAt.
    cbn [field_compactFields length].
    rewrite !to_size_t_small by lia.
    destruct (Z.ltb_spec (y + 1) 0), (Z.ltb_spec y 0); try lia.
    destruct (Z.leb_spec (Z.of_nat (S (length (field_compactFields f)))) (y + 1)),
      (Z.leb_spec (Z.of_nat (length (field_compactFields f))) y); try lia;
      try done.
    replace (Z.to_nat (y + 1)) with (S (Z.to_nat y)) by lia. reflexivity.
  - intros y s Hy. unfold Field.rowAt.
    cbn [field_compactFields field_fields length].
    rewrite !to_size_t_small by lia.
    destruct (Z.leb_spec (Z.of_nat (S (length (field_compactFields f)))) (y + 1)),
      (Z.leb_spec (Z.of_nat (length (field_compactFields f))) y); try lia;
      try done.
    destruct (Z.ltb_spec (y + 1) 0), (Z.ltb_spec y 0); try lia.
    unfold Field.at_index. cbn [length].
    replace (Z.to_nat (y + 1)) with (S (Z.to_nat y)) by lia.
    cbn [lookup list_lookup].
    destruct (Z.leb_spec 0 (y + 1)), (Z.leb_spec 0 y); try lia.
    destruct (Z.ltb_spec (y + 1) (Z.of_nat (S (length (field_fields f))))),
      (Z.ltb_spec y (Z.of_nat (length (field_fields f)))); try lia; done.
  - reflexivity.
Qed.

Lemma compactRowAt_lookup f y :
  0 <= y <= INT_MAX ->
  Field.compactRowAt f y = default 0 (field_compactFields f !! Z.to_nat y).
Proof.
  intros Hy. unfold Field.compactRowAt. rewrite to_size_t_small by done.
  destruct (Z.ltb_spec y 0); [lia|].
  destruct (Z.leb_spec (Z.of_nat (length (field_compactFields f))) y).
  - rewrite lookup_ge_None_2 by lia. reflexivity.
  - apply nth_lookup.
Qed.

Lemma rowAt_lookup f y s :
  0 <= y <= INT_MAX ->
  length (field_fields f) = length (field_compactFields f) ->
  Field.rowAt f y s
  = Ret (default (replicate 10 0) (field_fields f !! Z.to_nat y)).
Proof.
  intros Hy Hlen. unfold Field.rowAt. rewrite to_size_t_small by done.
  destruct (Z.leb_spec (Z.of_nat (length (field_compactFields f))) y).
  - rewrite lookup_ge_None_2 by lia. reflexivity.
  - destruct (Z.ltb_spec y 0); [lia|].
    destruct (lookup_lt_is_Some_2 (field_fields f) (Z.to_nat y)) as [row Hr];
      [lia|].
    rewrite Hr. apply at_index_lookup; [lia|done].
Qed.

Lemma nth_zeros (n m : nat) : nth n (replicate m 0) 0 = 0.
Proof.
  revert n. induction m as [|m IH]; intros [|n]; cbn [replicate nth]; auto.
Qed.

Lemma cellAt_lookup f y x :
  cellAt f y x
  = nth (Z.to_nat x) (default (replicate 10 0) (field_fields f !! Z.to_nat y)) 0.
Proof.
  unfold cellAt. rewrite (nth_lookup (field_fields f)).
  destruct (field_fields f !! Z.to_nat y) as [row|]; [done|].
  cbn [default]. rewrite nth_zeros. by destruct (Z.to_nat x).
Qed.

Lemma coherent_bits f y x :
  coherent f -> 0 <= y <= INT_MAX -> 0 <= x < 10 ->
  Z.testbit (Field.compactRowAt f y) x = negb (cellAt f y x =? 0).
Proof.
  intros Hco Hy Hx. rewrite compactRowAt_lookup by done.
  unfold coherent in Hco. rewrite Hco, list_lookup_fmap. unfold cellAt.
  rewrite (nth_lookup (field_fields f)).
  destruct (field_fields f !! Z.to_nat y) as [row|];
    cbn [fmap option_fmap option_map default id].
  - rewrite compactOf_bits by lia. destruct (Z.ltb_spec x 10); [done|lia].
  - rewrite Z.bits_0. by destruct (Z.to_nat x).
Qed.

(** The two vectors of a field stay in step: when the packed rows are the
    bits of the rows of cells, they still are after [grow] and after
    [lock], whatever [lock] returns; so bit [x] of [compactRowAt(y)] tells
    whether the cell [x] of [rowAt(y)] is occupied. *)
Theorem fields_stay_coherent (f : field) :
  field_ok f -> coherent f ->
  (forall row, length row = 10%nat ->
     field_ok (Field.grow f row) /\ coherent (Field.grow f row))
  /\ (forall pfd b f' clear,
        Field.lock f pfd = Ret (b, f', clear) ->
        field_ok f' /\ coherent f')
  /\ (forall y x solidCell row,
        0 <= y <= INT_MAX -> 0 <= x < 10 ->
        Field.rowAt f y solidCell = Ret row ->
        Z.testbit (Field.compactRowAt f y) x
        = negb (nth (Z.to_nat x) row 0 =? 0)).
Proof.
  intros Hok Hco. split; [|split].
  - intros row Hrow.
    rewrite grow_compactOf. destruct Hok as (Hlen & Hw & Hver). split.
    + unfold field_ok. cbn [field_compactFields field_fields field_version length].
      split; [by rewrite Hlen|]. split; [by constructor|].
      unfold u64. apply Z.mod_pos_bound. lia.
    + unfold coherent in *. cbn [field_compactFields field_fields].
      rewrite fmap_cons. by rewrite Hco.
  - intros pfd b f' clear H. by apply (lock_coherent f pfd b f' clear).
  - intros y x s row Hy Hx Hr.
    destruct Hok as (Hlen & _).
    rewrite rowAt_lookup in Hr by done. injection Hr as <-.
    rewrite <- cellAt_lookup. by apply coherent_bits.
Qed.

Lemma fields_stay_coherent_witness :
  coherent holeField
  /\ (forall b f' clear,
        Field.lock holeField spun = Ret (b, f', clear) -> coherent f')
  /\ Z.testbit (Field.compactRowAt holeField 0) 0 = false.
Proof.
  destruct (fields_stay_coherent Field.new) as (Hgrow & _ & _).
  - unfold field_ok. split; [reflexivity|]. split; [constructor|].
    by_computation.
  - reflexivity.
  - destruct (Hgrow [0; 1; 1; 1; 1; 1; 1; 1; 1; 1] eq_refl) as [Hok Hco].
    destruct (fields_stay_coherent holeField Hok Hco) as (_ & Hlock & Hbit).
    split; [exact Hco|]. split.
    + intros b f' clear H. by destruct (Hlock spun b f' clear H).
    + rewrite (Hbit 0 0 1 [0; 1; 1; 1; 1; 1; 1; 1; 1; 1]).
      * reflexivity.
      * by_computation.
      * lia.
      * vm_compute. reflexivity.
Defined.

(** * What [lock] writes and what it removes *)

Lemma cell_insert (fs : list fieldRow) (y x : nat) (d : Z) (row : fieldRow)
    (r c : nat) :
  fs !! y = Some row -> (x < length row)%nat ->
  nth c (nth r (<[y := <[x := d]> row]> fs) []) 0
  = if decide (r = y /\ c = x) then d else nth c (nth r fs []) 0.
Proof.
  intros Hy Hx. pose proof (lookup_lt_Some _ _ _ Hy) as Hlen.
  destruct (decide (r = y)) as [->|Hr].
  - rewrite (nth_lookup_Some _ _ _ (<[x := d]> row))
      by (by apply list_lookup_insert_eq).
    rewrite (nth_lookup_Some fs _ _ row) by done.
    destruct (decide (c = x)) as [->|Hc].
    + rewrite decide_True by done.
      apply nth_lookup_Some. by apply list_lookup_insert_eq.
    + rewrite decide_False by tauto.
      rewrite !(nth_lookup _ c). by rewrite list_lookup_insert_ne.
  - rewrite decide_False by tauto.
    rewrite !(nth_lookup _ r). by rewrite list_lookup_insert_ne.
Qed.

Lemma pixels_O data loc : TileShape.pixels 0 data loc = [].
Proof. by destruct data, loc. Qed.

Section placed.

Variable state : tileState.

#[local] Abbreviation rowOf l :=
  (Z.to_nat (u8 (state_y state + TileCoord.y l))).
#[local] Abbreviation colOf l :=
  (Z.to_nat (u8 (state_x state + TileCoord.x l))).

(** The rows that hold no pixel are left as they were. *)
Lemma placePixels_rows fuel data loc cf (fs : list fieldRow) cf' fs' r :
  Field.placePixels fuel data loc state cf fs = Ret (cf', fs') ->
  Forall (fun p => rowOf (snd p) <> r) (TileShape.pixels fuel data loc) ->
  fs' !! r = fs !! r.
Proof.
  revert data loc cf fs.
  induction fuel as [|fuel IH]; intros data loc cf fs H Hp;
    cbn [Field.placePixels] in H.
  - by simplify_eq.
  - destruct data as [|d data]; [discriminate|].
    destruct (Z.eqb_spec d 0) as [->|Hd]; [by simplify_eq|].
    destruct loc as [|l loc]; [discriminate|].
    cbn [TileShape.pixels] in Hp. rewrite (proj2 (Z.eqb_neq d 0) Hd) in Hp.
    cbv zeta in H.
    apply bind_Ret in H as (row & Hr & H). cbv beta in H.
    destruct (Z.leb_spec (Z.of_nat (length row))
                (u8 (state_x state + TileCoord.x l))); [discriminate|].
    apply bind_Ret in H as (c & Hc & H). cbv beta in H.
    apply Forall_cons in Hp as [Hne Hp]. cbn [snd] in Hne.
    rewrite (IH _ _ _ _ H Hp). by apply list_lookup_insert_ne.
Qed.

(** A cell that no pixel covers keeps its value; a cell that pixels cover
    holds the data of one of them. *)
Lemma placePixels_cells fuel data loc cf (fs : list fieldRow) cf' fs' r c :
  Field.placePixels fuel data loc state cf fs = Ret (cf', fs') ->
  (Forall (fun p => ~ (rowOf (snd p) = r /\ colOf (snd p) = c))
     (TileShape.pixels fuel data loc) ->
   nth c (nth r fs' []) 0 = nth c (nth r fs []) 0)
  /\ (Exists (fun p => rowOf (snd p) = r /\ colOf (snd p) = c)
        (TileShape.pixels fuel data loc) ->
      Exists (fun p => (rowOf (snd p) = r /\ colOf (snd p) = c)
                       /\ nth c (nth r fs' []) 0 = fst p)
        (TileShape.pixels fuel data loc)).
Proof.
  revert data loc cf fs.
  induction fuel as [|fuel IH]; intros data loc cf fs H;
    cbn [Field.placePixels] in H.
  - simplify_eq. rewrite pixels_O. split; [done|]. by intros ?%Exists_nil.
  - destruct data as [|d data]; [discriminate|].
    destruct (Z.eqb_spec d 0) as [->|Hd].
    { simplify_eq. destruct loc; cbn [TileShape.pixels Z.eqb];
        (split; [done|]; by intros ?%Exists_nil). }
    destruct loc as [|l loc]; [discriminate|].
    cbn [TileShape.pixels]. rewrite (proj2 (Z.eqb_neq d 0) Hd).
    cbv zeta in H.
    apply bind_Ret in H as (row & Hr & H). cbv beta in H.
    destruct (Z.leb_spec (Z.of_nat (length row))
                (u8 (state_x state + TileCoord.x l))) as [|Hx];
      [discriminate|].
    apply bind_Ret in H as (cc & Hc & H). cbv beta in H.
    apply at_index_Ret in Hr as [Hy Hr].
    assert (Hx0 : 0 <= u8 (state_x state + TileCoord.x l))
      by (unfold u8; apply Z.mod_pos_bound; lia).
    destruct (IH _ _ _ _ H) as [IH1 IH2].
    assert (Hcell : forall r' c',
      nth c' (nth r'
        (<[rowOf l := <[colOf l := d]> row]> fs) []) 0
      = if decide (r' = rowOf l /\ c' = colOf l) then d
        else nth c' (nth r' fs []) 0).
    { intros r' c'. apply cell_insert; [done|lia]. }
    split.
    + intros Hp. apply Forall_cons in Hp as [Hne Hp]. cbn [snd] in Hne.
      rewrite (IH1 Hp), Hcell. rewrite decide_False; [done|].
      intros [-> ->]. by apply Hne.
    + intros Hex.
      destruct (decide (Exists
        (fun p => rowOf (snd p) = r /\ colOf (snd p) = c)
        (TileShape.pixels fuel data loc))) as [Hrest|Hrest].
      * apply Exists_cons. right. by apply IH2.
      * apply Exists_cons in Hex as [Hhit|Hex]; [|done].
        cbn [snd] in Hhit. apply Exists_cons. left. cbn [fst snd].
        split; [done|].
        apply not_Exists_Forall in Hrest; [|intros p; apply _].
        rewrite (IH1 Hrest), Hcell. destruct Hhit as [<- <-].
        by rewrite decide_True.
Qed.

End placed.

Lemma filter_length_eq {A} (P : A -> Prop) `{!forall x, Decision (P x)}
    (l : list A) :
  length (filter P l) = length l -> filter P l = l.
Proof.
  induction l as [|a l IH]; [done|].
  rewrite filter_cons. destruct (decide (P a)); cbn [length].
  - intros Hl. f_equal. apply IH. lia.
  - intros Hl. pose proof (length_filter P l). lia.
Qed.

(** The scan for full rows looks at the [maxy + 1 - j] rows from the row
    [stateY + j - clear] on, and removes those that are full. *)
Lemma eraseRows_filter fuel j maxy stateY clear cf (fs : list fieldRow)
    cf' fs' clear' :
  Field.eraseRows fuel j maxy stateY clear cf fs = Ret (cf', fs', clear') ->
  cf = compactOf <$> fs ->
  0 <= clear <= j -> maxy <= 5 -> stateY <= 127 ->
  0 <= stateY + j - clear ->
  maxy - j < Z.of_nat fuel ->
  let p := Z.to_nat (stateY + j - clear) in
  let k := Z.to_nat (maxy + 1 - j) in
  fs' = take p fs
        ++ filter (fun row => compactOf row <> Field.solidRow)
             (take k (drop p fs))
        ++ drop (p + k) fs
  /\ clear' = clear + Z.of_nat k
              - Z.of_nat (length
                  (filter (fun row => compactOf row <> Field.solidRow)
                     (take k (drop p fs)))).
Proof.
  revert j clear cf fs.
  induction fuel as [|fuel IH]; intros j clear cf fs H Hcf Hclear Hmaxy Hy Hp Hfuel;
    cbn [Field.eraseRows] in H.
  - replace (Z.to_nat (maxy + 1 - j)) with 0%nat by lia.
    simplify_eq. cbv zeta. rewrite Nat.add_0_r, take_0, filter_nil.
    cbn [app length].
    split; [by rewrite take_drop|lia].
  - destruct (Z.leb_spec j maxy) as [Hj|Hj].
    2:{ replace (Z.to_nat (maxy + 1 - j)) with 0%nat by lia.
        simplify_eq. cbv zeta. rewrite take_0, filter_nil, Nat.add_0_r.
        cbn [app length]. split; [by rewrite take_drop|lia]. }
    cbv zeta in H.
    rewrite (u8_small (stateY + j - clear)) in H by lia.
    rewrite (u8_small (j + 1)) in H by lia.
    apply bind_Ret in H as (c & Hc & H). cbv beta in H.
    apply at_index_Ret in Hc as [Hrange Hc].
    rewrite Hcf, list_lookup_fmap in Hc.
    destruct (fs !! Z.to_nat (stateY + j - clear)) as [row|] eqn:Hrow;
      [|discriminate].
    cbn in Hc. injection Hc as <-.
    set (p := Z.to_nat (stateY + j - clear)) in *.
    assert (Hk : Z.to_nat (maxy + 1 - j) = S (Z.to_nat (maxy + 1 - (j + 1))))
      by lia.
    rewrite Hk.
    assert (Hseg : take (S (Z.to_nat (maxy + 1 - (j + 1)))) (drop p fs)
                   = row :: take (Z.to_nat (maxy + 1 - (j + 1)))
                              (drop (S p) fs)).
    { rewrite (drop_S _ _ _ Hrow). reflexivity. }
    cbv zeta. rewrite Hseg, filter_cons.
    destruct (Z.eqb_spec (compactOf row) Field.solidRow) as [Hsolid|Hsolid].
    + destruct (Z.leb_spec (Z.of_nat (length fs)) (stateY + j - clear));
        [discriminate|].
      rewrite (u8_small (clear + 1)) in H by lia.
      apply IH in H; [|by rewrite list_fmap_delete, Hcf|lia..].
      cbv zeta in H.
      replace (Z.to_nat (stateY + (j + 1) - (clear + 1))) with p in H by lia.
      destruct H as [-> ->].
      rewrite decide_False by (intros Hne; by apply Hne).
      assert (Hd : drop p (delete p fs) = drop (S p) fs).
      { rewrite delete_take_drop, drop_app_length'; [done|].
        rewrite length_take. apply lookup_lt_Some in Hrow. lia. }
      assert (Ht : take p (delete p fs) = take p fs).
      { rewrite delete_take_drop, take_app_length'; [done|].
        rewrite length_take. apply lookup_lt_Some in Hrow. lia. }
      assert (Hd' : drop (p + Z.to_nat (maxy + 1 - (j + 1))) (delete p fs)
                    = drop (p + S (Z.to_nat (maxy + 1 - (j + 1)))) fs).
      { rewrite delete_take_drop, drop_app_add'.
        - rewrite drop_drop. f_equal. lia.
        - rewrite length_take. apply lookup_lt_Some in Hrow. lia. }
      rewrite Hd, Ht, Hd'. split; [done|]. lia.
    + apply IH in H; [|done|lia..].
      cbv zeta in H.
      replace (Z.to_nat (stateY + (j + 1) - clear)) with (S p) in H by lia.
      destruct H as [-> ->].
      rewrite decide_True by done.
      rewrite (take_S_r _ _ _ Hrow), <- !app_assoc. cbn [app length].
      replace (S p + Z.to_nat (maxy + 1 - (j + 1)))%nat
        with (p + S (Z.to_nat (maxy + 1 - (j + 1))))%nat by lia.
      split; [done|]. lia.
Qed.

Lemma placePixels_length fuel data loc state cf (fs : list fieldRow) cf' fs' :
  Field.placePixels fuel data loc state cf fs = Ret (cf', fs') ->
  length fs' = length fs.
Proof.
  revert data loc cf fs.
  induction fuel as [|fuel IH]; intros data loc cf fs H;
    cbn [Field.placePixels] in H.
  - by simplify_eq.
  - destruct data as [|d data]; [discriminate|].
    destruct (Z.eqb_spec d 0) as [->|Hd]; [by simplify_eq|].
    destruct loc as [|l loc]; [discriminate|].
    cbv zeta in H.
    apply bind_Ret in H as (row & Hr & H). cbv beta in H.
    destruct (Z.leb_spec (Z.of_nat (length row))
                (u8 (state_x state + TileCoord.x l))); [discriminate|].
    apply bind_Ret in H as (c & Hc & H). cbv beta in H.
    rewrite (IH _ _ _ _ H). apply length_insert.
Qed.

Lemma pixels_nonzero fuel data loc :
  Forall (fun p => fst p <> 0) (TileShape.pixels fuel data loc).
Proof.
  revert data loc. induction fuel as [|fuel IH]; intros data loc.
  - rewrite pixels_O. constructor.
  - destruct data as [|d data], loc as [|l loc]; cbn [TileShape.pixels];
      try constructor.
    destruct (Z.eqb_spec d 0); constructor; [done|apply IH].
Qed.

Lemma lookup_extend (fs : list fieldRow) (m r : nat) :
  default (replicate 10 0) ((fs ++ replicate m (replicate 10 0)) !! r)
  = default (replicate 10 0) (fs !! r).
Proof.
  rewrite lookup_app. destruct (fs !! r) as [row|]; [done|].
  destruct (replicate m (replicate 10 0) !! (r - length fs)%nat) as [row|] eqn:E;
    [|done].
  apply lookup_replicate_1 in E as [-> _]. reflexivity.
Qed.

Section locked.

Variables (f : field) (t : tile) (pfd : tilePathFinder).
Hypothesis Hok : tile_ok t.
Hypothesis Hfield : field_ok f.
Hypothesis Hco : coherent f.
Hypothesis Hstate : tileState_ok (pfd_state pfd).
Hypothesis Hvalid : validFor f t pfd.

#[local] Abbreviation dir := (state_dir (pfd_state pfd)).
#[local] Abbreviation sx := (state_x (pfd_state pfd)).
#[local] Abbreviation sy := (state_y (pfd_state pfd)).
#[local] Abbreviation miny := (TileCoord.y (tile_min t dir)).
#[local] Abbreviation maxy := (TileCoord.y (tile_max t dir)).
#[local] Abbreviation thePixels :=
  (TileShape.pixels (Z.to_nat maxNumPixels) (tile_data t dir) (tile_loc t dir)).
#[local] Abbreviation notFull :=
  (fun row : fieldRow => compactOf row <> Field.solidRow).

Lemma span_facts :
  0 <= sy + miny /\ 0 <= miny /\ miny <= maxy /\ maxy <= 5
  /\ -128 <= sy <= 127 /\ -128 <= sx <= 127.
Proof.
  pose proof (tile_ok_shape t dir Hok) as Hshape.
  destruct Hvalid as (_ & _ & Hl & Hr & _ & Hfree).
  destruct (above_floor t dir Hshape f _ _ Hl Hr Hfree) as [Hfl Hmm].
  pose proof (shape_maxy _ _ Hshape). pose proof (shape_miny _ _ Hshape).
  destruct Hstate as [Hsx Hsy]. unfold int8 in *. lia.
Qed.

(** A pixel of a valid tile lies in the ten columns, in the rows of the
    bounding box, on a free cell. *)
Lemma pixel_inside p :
  p ∈ thePixels ->
  0 <= sx + TileCoord.x (snd p) <= 9
  /\ miny <= TileCoord.y (snd p) <= maxy
  /\ fst p <> 0
  /\ Z.testbit (Field.compactRowAt f (sy + TileCoord.y (snd p)))
       (sx + TileCoord.x (snd p)) = false.
Proof.
  intros Hp. pose proof (tile_ok_shape t dir Hok) as Hshape.
  destruct Hvalid as (_ & _ & Hl & Hr & _ & Hfree).
  pose proof (shape_pixels _ _ Hshape) as Hpix.
  rewrite Forall_forall in Hpix. destruct (Hpix p Hp) as (Hx & Hy & Hbit).
  destruct (cell_index (TileCoord.y (snd p)) (TileCoord.x (snd p)))
    as [Hq Hm]; [lia|].
  destruct (cell_free t dir Hshape f _ _ _ Hl Hr Hfree Hbit) as (Hc & _ & Hf).
  destruct (shape_box _ _ Hshape _ Hbit) as (_ & _ & Hb).
  rewrite Hq, Hm in *.
  pose proof (pixels_nonzero (Z.to_nat maxNumPixels) (tile_data t dir)
                (tile_loc t dir)) as Hnz.
  rewrite Forall_forall in Hnz. specialize (Hnz p Hp). done.
Qed.

(** The steps of a call of [lock] that returns true: the rows with the
    pixels written, and the rows of the result. *)
Lemma lock_steps f' clear :
  Field.lock f pfd = Ret (true, f', clear) ->
  exists cf1 fs1,
    Field.placePixels (Z.to_nat maxNumPixels) (tile_data t dir)
      (tile_loc t dir) (pfd_state pfd)
      (field_compactFields f
       ++ replicate (Z.to_nat (sy + maxy + 1
                               - Z.of_nat (length (field_fields f)))) 0)
      (field_fields f
       ++ replicate (Z.to_nat (sy + maxy + 1
                               - Z.of_nat (length (field_fields f))))
            (replicate 10 0))
    = Ret (cf1, fs1)
    /\ Z.of_nat (length fs1)
       = Z.max (Z.of_nat (length (field_fields f))) (sy + maxy + 1)
    /\ Forall (fun row => length row = 10%nat) fs1
    /\ cf1 = compactOf <$> fs1
    /\ field_fields f'
       = take (Z.to_nat (sy + miny)) fs1
         ++ filter notFull
              (take (Z.to_nat (maxy + 1 - miny))
                 (drop (Z.to_nat (sy + miny)) fs1))
         ++ drop (Z.to_nat (sy + miny) + Z.to_nat (maxy + 1 - miny)) fs1
    /\ field_compactFields f' = compactOf <$> field_fields f'
    /\ clear = Z.of_nat (Z.to_nat (maxy + 1 - miny))
               - Z.of_nat (length
                   (filter notFull
                      (take (Z.to_nat (maxy + 1 - miny))
                         (drop (Z.to_nat (sy + miny)) fs1)))).
Proof.
  intros H. destruct span_facts as (Hlo & Hminy & Hmm & Hmaxy & Hsy & Hsx).
  apply lock_inv in H
    as [(? & _)|(_ & typ & cf1 & fs1 & cf2 & fs2 & Htyp & _ & _ & Hp & He & ->)];
    [discriminate|].
  destruct Hvalid as (Htyp' & _). rewrite Htyp' in Htyp. injection Htyp as <-.
  rewrite to_size_t_small in Hp by (unfold INT_MAX; lia).
  rewrite (u8_small miny) in He by lia.
  destruct Hfield as (Hlen & Hw & Hver). unfold coherent in Hco.
  exists cf1, fs1. split; [exact Hp|].
  pose proof (placePixels_length _ _ _ _ _ _ _ _ Hp) as Hl1.
  apply placePixels_coherent in Hp as [Hw1 Hcf1].
  2:{ apply Forall_app. split; [done|].
      apply Forall_replicate, length_replicate. }
  2:{ rewrite fmap_app, fmap_replicate, compactOf_empty. by rewrite Hco. }
  split.
  { rewrite Hl1, length_app, length_replicate. lia. }
  split; [done|]. split; [done|].
  pose proof (eraseRows_coherent _ _ _ _ _ _ _ _ _ _ He Hw1 Hcf1) as [_ Hcf2].
  apply eraseRows_filter in He; [|done|lia..].
  cbv zeta in He. rewrite Z.sub_0_r in He. destruct He as [-> ->].
  cbn [field_fields field_compactFields]. split; [done|]. split; [done|]. lia.
Qed.

Lemma cell_extend (fs : list fieldRow) (m r c : nat) :
  nth c (nth r (fs ++ replicate m (replicate 10 0)) []) 0
  = nth c (nth r fs []) 0.
Proof.
  rewrite !(nth_lookup _ r), lookup_app.
  destruct (fs !! r) as [row|]; [done|].
  destruct (replicate m (replicate 10 0) !! (r - length fs)%nat) as [row|] eqn:E.
  - apply lookup_replicate_1 in E as [-> _]. cbn [from_option id].
    rewrite nth_zeros. by destruct c.
  - done.
Qed.

(** The cells after the pixels are written: a cell under a pixel was free
    and holds the data of a pixel that covers it; the others are as they
    were. *)
Lemma placed_cells cf1 fs1 r c :
  Field.placePixels (Z.to_nat maxNumPixels) (tile_data t dir)
    (tile_loc t dir) (pfd_state pfd)
    (field_compactFields f
     ++ replicate (Z.to_nat (sy + maxy + 1
                             - Z.of_nat (length (field_fields f)))) 0)
    (field_fields f
     ++ replicate (Z.to_nat (sy + maxy + 1
                             - Z.of_nat (length (field_fields f))))
          (replicate 10 0))
  = Ret (cf1, fs1) ->
  0 <= r -> 0 <= c < 10 ->
  (covers t (pfd_state pfd) r c = false ->
   nth (Z.to_nat c) (nth (Z.to_nat r) fs1 []) 0 = cellAt f r c)
  /\ (covers t (pfd_state pfd) r c = true ->
      cellAt f r c = 0
      /\ exists p, p ∈ thePixels
                   /\ sy + TileCoord.y (snd p) = r
                   /\ sx + TileCoord.x (snd p) = c
                   /\ nth (Z.to_nat c) (nth (Z.to_nat r) fs1 []) 0 = fst p).
Proof.
  intros Hp Hr Hc. destruct span_facts as (Hlo & Hminy & Hmm & Hmaxy & Hsy & Hsx).
  destruct (placePixels_cells _ _ _ _ _ _ _ _ (Z.to_nat r) (Z.to_nat c) Hp)
    as [Hsame Hhit].
  rewrite cell_extend in Hsame.
  assert (Hpos : forall p, p ∈ thePixels ->
    Z.to_nat (u8 (sy + TileCoord.y (snd p))) = Z.to_nat (sy + TileCoord.y (snd p))
    /\ Z.to_nat (u8 (sx + TileCoord.x (snd p))) = Z.to_nat (sx + TileCoord.x (snd p))
    /\ 0 <= sy + TileCoord.y (snd p) /\ 0 <= sx + TileCoord.x (snd p)).
  { intros p Hin. destruct (pixel_inside p Hin) as (Hx & Hy & _).
    rewrite !u8_small by lia. lia. }
  unfold covers. split.
  - intros Hcov. apply Hsame. rewrite Forall_forall. intros p Hin [H1 H2].
    destruct (Hpos p Hin) as (E1 & E2 & ? & ?). rewrite E1 in H1. rewrite E2 in H2.
    assert (Hex : existsb
      (fun p => (sy + TileCoord.y (snd p) =? r) && (sx + TileCoord.x (snd p) =? c))
      thePixels = true).
    { apply existsb_exists. exists p. split; [by apply list_elem_of_In|].
      apply andb_true_iff. split; apply Z.eqb_eq; lia. }
    congruence.
  - intros Hcov. apply existsb_exists in Hcov as (p & Hin & Hcov).
    apply list_elem_of_In in Hin. apply andb_true_iff in Hcov as [H1 H2].
    apply Z.eqb_eq in H1, H2.
    split.
    + destruct (pixel_inside p Hin) as (Hx & Hy & _ & Hfree).
      rewrite H1, H2 in Hfree.
      rewrite coherent_bits in Hfree by (unfold INT_MAX; try done; lia).
      by destruct (Z.eqb_spec (cellAt f r c) 0).
    + assert (Hex : Exists
        (fun p => Z.to_nat (u8 (sy + TileCoord.y (snd p))) = Z.to_nat r
                  /\ Z.to_nat (u8 (sx + TileCoord.x (snd p))) = Z.to_nat c)
        thePixels).
      { apply Exists_exists. exists p. split; [done|].
        destruct (Hpos p Hin) as (E1 & E2 & _). rewrite E1, E2. lia. }
      apply Hhit in Hex.
      apply Exists_exists in Hex as (q & Hq & (H3 & H4) & Hv).
      exists q. destruct (Hpos q Hq) as (E1 & E2 & ? & ?).
      rewrite E1 in H3. rewrite E2 in H4.
      split; [done|]. split; [lia|]. split; [lia|done].
Qed.

(** A pixel row lies in the rows of the bounding box. *)
Lemma pixel_rows (r : nat) :
  (Z.of_nat r < sy + miny \/ sy + maxy < Z.of_nat r) ->
  Forall (fun p => Z.to_nat (u8 (sy + TileCoord.y (snd p))) <> r) thePixels.
Proof.
  intros Hr. destruct span_facts as (Hlo & Hminy & Hmm & Hmaxy & Hsy & Hsx).
  rewrite Forall_forall. intros p Hin.
  destruct (pixel_inside p Hin) as (_ & Hy & _).
  rewrite u8_small by lia. lia.
Qed.

Lemma compactRowAt_row g r :
  coherent g -> 0 <= r <= INT_MAX ->
  Field.compactRowAt g r
  = compactOf (default (replicate 10 0) (field_fields g !! Z.to_nat r)).
Proof.
  intros Hg Hr. rewrite compactRowAt_lookup by done.
  unfold coherent in Hg. rewrite Hg, list_lookup_fmap.
  destruct (field_fields g !! Z.to_nat r); cbn [fmap option_fmap option_map from_option id];
    [done|].
  symmetry. apply compactOf_empty.
Qed.

(** [lock], when it returns true, has written the pixels of the tile, each
    on a cell that was free, and has then removed the rows that are full
    among the rows of the bounding box, and no other row, keeping the
    others in their order; [clear] counts the rows removed. The field [g]
    of the statement is the field with the pixels written. *)
Theorem lock_writes_then_clears (f' : field) (clear : Z) :
  Field.lock f pfd = Ret (true, f', clear) ->
  exists g : field,
    field_ok g /\ coherent g
    /\ Z.of_nat (length (field_fields g))
       = Z.max (Z.of_nat (length (field_fields f))) (sy + maxy + 1)
    /\ (forall r c, 0 <= r -> 0 <= c < 10 ->
          if covers t (pfd_state pfd) r c
          then cellAt f r c = 0
               /\ exists p, p ∈ thePixels
                            /\ sy + TileCoord.y (snd p) = r
                            /\ sx + TileCoord.x (snd p) = c
                            /\ cellAt g r c = fst p /\ fst p <> 0
          else cellAt g r c = cellAt f r c)
    /\ field_fields f'
       = take (Z.to_nat (sy + miny)) (field_fields g)
         ++ filter notFull
              (take (Z.to_nat (maxy + 1 - miny))
                 (drop (Z.to_nat (sy + miny)) (field_fields g)))
         ++ drop (Z.to_nat (sy + miny) + Z.to_nat (maxy + 1 - miny))
              (field_fields g)
    /\ coherent f'
    /\ clear = Z.of_nat (Z.to_nat (maxy + 1 - miny))
               - Z.of_nat (length
                   (filter notFull
                      (take (Z.to_nat (maxy + 1 - miny))
                         (drop (Z.to_nat (sy + miny)) (field_fields g))))).
Proof.
  intros H.
  destruct (lock_steps f' clear H)
    as (cf1 & fs1 & Hp & Hlen & Hw & Hcf & Hrows & Hco' & Hclear).
  exists (mkField cf1 fs1 (field_version f)).
  cbn [field_fields field_compactFields field_version].
  split.
  { unfold field_ok. cbn [field_fields field_compactFields field_version].
    split; [by rewrite Hcf, length_fmap|]. split; [done|].
    by destruct Hfield as (_ & _ & ?). }
  split; [exact Hcf|]. split; [exact Hlen|]. split.
  { intros r c Hr Hc.
    destruct (placed_cells cf1 fs1 r c Hp Hr Hc) as [Hfree Hcov].
    destruct (covers t (pfd_state pfd) r c).
    - destruct (Hcov eq_refl) as (Hzero & p & Hin & Hy & Hx & Hv).
      split; [exact Hzero|]. exists p.
      destruct (pixel_inside p Hin) as (_ & _ & Hnz & _). done.
    - by apply Hfree. }
  split; [exact Hrows|]. split; [exact Hco'|exact Hclear].
Qed.

(** For a well-formed tile ([tile_ok]: the bounding box that the tile
    stores bounds its cells), valid against a coherent field: after a
    [lock] that returns true, no row of the bounding box of the tile is
    full; the rows under the bounding box are as they were; the rows above
    it are those of the field before, [clear] rows higher; and [clear] is
    at most the height of the bounding box. *)
Theorem lock_leaves_no_full_row (f' : field) (clear : Z) :
  Field.lock f pfd = Ret (true, f', clear) ->
  0 <= clear <= maxy - miny + 1
  /\ (forall r, sy + miny <= r <= sy + maxy - clear ->
        Field.compactRowAt f' r <> Field.solidRow)
  /\ (forall r solidCell, 0 <= r < sy + miny ->
        Field.rowAt f' r solidCell = Field.rowAt f r solidCell
        /\ Field.compactRowAt f' r = Field.compactRowAt f r)
  /\ (forall r solidCell, sy + maxy - clear < r -> r + clear <= INT_MAX ->
        Field.rowAt f' r solidCell = Field.rowAt f (r + clear) solidCell
        /\ Field.compactRowAt f' r = Field.compactRowAt f (r + clear)).
Proof.
  intros H. destruct span_facts as (Hlo & Hminy & Hmm & Hmaxy & Hsy & Hsx).
  destruct (lock_steps f' clear H)
    as (cf1 & fs1 & Hp & Hlen & Hw & Hcf & Hrows & Hco' & Hclear).
  set (lo := Z.to_nat (sy + miny)) in *.
  set (k := Z.to_nat (maxy + 1 - miny)) in *.
  set (kept := filter notFull (take k (drop lo fs1))) in *.
  assert (Hlen' : length (field_fields f') = length (field_compactFields f'))
    by (by rewrite Hco', length_fmap).
  assert (Hseg : length (take k (drop lo fs1)) = k).
  { rewrite length_take, length_drop. lia. }
  assert (Hkept : (length kept <= k)%nat).
  { unfold kept. rewrite <- Hseg at 2. apply length_filter. }
  assert (Htake : length (take lo fs1) = lo) by (rewrite length_take; lia).
  assert (Hrow : forall r, 0 <= r <= INT_MAX ->
    (r < sy + miny \/ sy + maxy < r) ->
    default (replicate 10 0) (fs1 !! Z.to_nat r)
    = default (replicate 10 0) (field_fields f !! Z.to_nat r)).
  { intros r Hr Hout.
    rewrite (placePixels_rows _ _ _ _ _ _ _ _ (Z.to_nat r) Hp)
      by (apply pixel_rows; lia).
    apply lookup_extend. }
  assert (Hboth : forall g r r' s,
    coherent g -> length (field_fields g) = length (field_compactFields g) ->
    0 <= r <= INT_MAX -> 0 <= r' <= INT_MAX ->
    default (replicate 10 0) (field_fields g !! Z.to_nat r)
    = default (replicate 10 0) (field_fields f !! Z.to_nat r') ->
    Field.rowAt g r s = Field.rowAt f r' s
    /\ Field.compactRowAt g r = Field.compactRowAt f r').
  { intros g r r' s Hg Hl Hr Hr' E.
    destruct Hfield as (Hlf & _). rewrite !rowAt_lookup by done.
    rewrite !compactRowAt_row by done. by rewrite E. }
  split; [lia|]. split; [|split].
  - intros r Hr.
    rewrite compactRowAt_row by (unfold INT_MAX; try done; lia).
    rewrite Hrows.
    rewrite lookup_app_r by lia. rewrite Htake.
    rewrite lookup_app_l by lia.
    destruct (lookup_lt_is_Some_2 kept (Z.to_nat r - lo)) as [row Hrow'];
      [lia|].
    rewrite Hrow'. cbn [from_option id].
    apply list_elem_of_lookup_2 in Hrow'. unfold kept in Hrow'.
    apply list_elem_of_filter in Hrow' as [Hnf _]. exact Hnf.
  - intros r s Hr.
    apply Hboth; [done|done|unfold INT_MAX; lia|unfold INT_MAX; lia|].
    rewrite Hrows, lookup_app_l by lia.
    rewrite lookup_take_lt by lia.
    apply Hrow; [unfold INT_MAX|]; lia.
  - intros r s Hr Hmax.
    apply Hboth; [done|done|unfold INT_MAX in *; lia|unfold INT_MAX in *; lia|].
    rewrite Hrows, lookup_app_r by lia. rewrite Htake.
    rewrite lookup_app_r by lia. rewrite lookup_drop.
    replace (lo + k + (Z.to_nat r - lo - length kept))%nat
      with (Z.to_nat (r + clear)) by lia.
    apply Hrow; [unfold INT_MAX in *|]; lia.
Qed.

End locked.

Lemma spun_valid : validFor holeField tileT spun.
Proof. unfold validFor. by_computation. Qed.

Lemma holeField_coherent : coherent holeField.
Proof. vm_compute. reflexivity. Qed.

Lemma spun_state_ok : tileState_ok (pfd_state spun).
Proof. unfold tileState_ok, int8. by_computation. Qed.

Lemma lock_writes_then_clears_witness :
  exists g : field,
    field_ok g /\ coherent g
    /\ cellAt holeField 0 0 = 0
    /\ cellAt g 0 0 <> 0
    /\ cellAt g 0 1 = cellAt holeField 0 1.
Proof.
  assert (Hl : Field.lock holeField spun
               = Ret (true,
                      mkField [3; 1]
                        [[5; 5; 0; 0; 0; 0; 0; 0; 0; 0];
                         [5; 0; 0; 0; 0; 0; 0; 0; 0; 0]] 3, 1))
    by (vm_compute; reflexivity).
  destruct (lock_writes_then_clears holeField tileT spun tileT_ok holeField_ok
              holeField_coherent spun_state_ok spun_valid _ _ Hl)
    as (g & Hok & Hg & _ & Hcells & _).
  exists g. split; [exact Hok|]. split; [exact Hg|].
  pose proof (Hcells 0 0 ltac:(lia) ltac:(lia)) as H00.
  pose proof (Hcells 0 1 ltac:(lia) ltac:(lia)) as H01.
  assert (Hc00 : covers tileT (pfd_state spun) 0 0 = true)
    by (vm_compute; reflexivity).
  assert (Hc01 : covers tileT (pfd_state spun) 0 1 = false)
    by (vm_compute; reflexivity).
  rewrite Hc00 in H00. rewrite Hc01 in H01.
  destruct H00 as (Hfree & p & _ & _ & _ & Hv & Hnz).
  split; [exact Hfree|]. split; [congruence|exact H01].
Defined.

Lemma lock_leaves_no_full_row_witness :
  Field.compactRowAt
    (mkField [3; 1]
       [[5; 5; 0; 0; 0; 0; 0; 0; 0; 0]; [5; 0; 0; 0; 0; 0; 0; 0; 0; 0]] 3) 0
  <> Field.solidRow.
Proof.
  assert (Hl : Field.lock holeField spun
               = Ret (true,
                      mkField [3; 1]
                        [[5; 5; 0; 0; 0; 0; 0; 0; 0; 0];
                         [5; 0; 0; 0; 0; 0; 0; 0; 0; 0]] 3, 1))
    by (vm_compute; reflexivity).
  destruct (lock_leaves_no_full_row holeField tileT spun tileT_ok holeField_ok
              holeField_coherent spun_state_ok spun_valid _ _ Hl)
    as (_ & Hfull & _).
  apply Hfull. vm_compute. split; discriminate.
Defined.

(** * How far a tile moves *)

Lemma freeAt_true f t d x y :
  freeAt f t d x y = true <->
  0 <= x + TileCoord.x (tile_min t d)
  /\ x + TileCoord.x (tile_max t d) <= 9
  /\ 0 <= y + TileCoord.y (tile_max t d)
  /\ Z.land (Field.window f y)
       (CompactField.tileMove (tile_compactTile t d) x) = 0.
Proof. unfold freeAt. rewrite isValidFor_true. pfd_simpl. reflexivity. Qed.

Section sliding.

Variables (f : field) (t : tile).
Hypothesis Hok : tile_ok t.

(** The loop to the right goes through the columns where the tile fits,
    and stops before the first one where it does not. *)
Lemma moveRight_spec d y numSteps x :
  freeAt f t d x y = true ->
  exists k,
    (k <= numSteps)%nat
    /\ Field.moveRight numSteps (Field.window f y) (TileCoord.x (tile_max t d))
         x (CompactField.tileMove (tile_compactTile t d) x)
       = x + Z.of_nat k
    /\ (forall i, 1 <= i <= Z.of_nat k -> freeAt f t d (x + i) y = true)
    /\ ((k < numSteps)%nat -> freeAt f t d (x + Z.of_nat k + 1) y = false).
Proof.
  pose proof (tile_ok_shape t d Hok) as Hshape.
  pose proof (shape_maxx _ _ Hshape). pose proof (shape_minx _ _ Hshape).
  pose proof (coord_range (tile_min t d)).
  pose proof (coord_range (tile_max t d)).
  revert x. induction numSteps as [|n IH]; intros x Hfree;
    cbn [Field.moveRight].
  - exists O. split; [lia|]. split; [lia|]. split; intros; lia.
  - pose proof Hfree as Hfree'.
    apply freeAt_true in Hfree' as (Hl & Hr & Hy & Hland).
    destruct (Z.ltb_spec (x + TileCoord.x (tile_max t d)) 9) as [Hwall|Hwall].
    2:{ exists O. split; [lia|]. split; [lia|]. split; [intros; lia|].
        intros _. destruct (freeAt f t d (x + Z.of_nat 0 + 1) y) eqn:E; [|done].
        apply freeAt_true in E. lia. }
    rewrite (i8_small (x + 1)) by (unfold int8; lia).
    rewrite (tileMove_right t d Hshape) by lia.
    destruct (CompactField.collide _ _) eqn:Hc.
    + rewrite i8_small by (unfold int8; lia).
      exists O. split; [lia|]. split; [lia|]. split; [intros; lia|].
      intros _. destruct (freeAt f t d (x + Z.of_nat 0 + 1) y) eqn:E; [|done].
      apply freeAt_true in E as (_ & _ & _ & E).
      replace (x + Z.of_nat 0 + 1) with (x + 1) in E by lia.
      apply collide_false in E. congruence.
    + apply collide_false in Hc.
      assert (Hnext : freeAt f t d (x + 1) y = true)
        by (apply freeAt_true; repeat split; try done; lia).
      destruct (IH (x + 1) Hnext) as (k & Hk & Hres & Hall & Hstop).
      exists (S k). split; [lia|]. split; [rewrite Hres; lia|]. split.
      * intros i Hi. destruct (Z.eq_dec i 1) as [->|]; [done|].
        replace (x + i) with (x + 1 + (i - 1)) by lia. apply Hall. lia.
      * intros Hlt. replace (x + Z.of_nat (S k) + 1) with (x + 1 + Z.of_nat k + 1) by lia.
        apply Hstop. lia.
Qed.

Lemma moveLeft_spec d y numSteps x :
  freeAt f t d x y = true ->
  exists k,
    (k <= numSteps)%nat
    /\ Field.moveLeft numSteps (Field.window f y) (TileCoord.x (tile_min t d))
         x (CompactField.tileMove (tile_compactTile t d) x)
       = x - Z.of_nat k
    /\ (forall i, 1 <= i <= Z.of_nat k -> freeAt f t d (x - i) y = true)
    /\ ((k < numSteps)%nat -> freeAt f t d (x - Z.of_nat k - 1) y = false).
Proof.
  pose proof (tile_ok_shape t d Hok) as Hshape.
  pose proof (shape_maxx _ _ Hshape). pose proof (shape_minx _ _ Hshape).
  pose proof (coord_range (tile_min t d)).
  pose proof (coord_range (tile_max t d)).
  revert x. induction numSteps as [|n IH]; intros x Hfree;
    cbn [Field.moveLeft].
  - exists O. split; [lia|]. split; [lia|]. split; intros; lia.
  - pose proof Hfree as Hfree'.
    apply freeAt_true in Hfree' as (Hl & Hr & Hy & Hland).
    destruct (Z.ltb_spec 0 (x + TileCoord.x (tile_min t d))) as [Hwall|Hwall].
    2:{ exists O. split; [lia|]. split; [lia|]. split; [intros; lia|].
        intros _. destruct (freeAt f t d (x - Z.of_nat 0 - 1) y) eqn:E; [|done].
        apply freeAt_true in E. lia. }
    rewrite (i8_small (x - 1)) by (unfold int8; lia).
    rewrite (tileMove_left t d Hshape) by lia.
    destruct (CompactField.collide _ _) eqn:Hc.
    + rewrite i8_small by (unfold int8; lia).
      exists O. split; [lia|]. split; [lia|]. split; [intros; lia|].
      intros _. destruct (freeAt f t d (x - Z.of_nat 0 - 1) y) eqn:E; [|done].
      apply freeAt_true in E as (_ & _ & _ & E).
      replace (x - Z.of_nat 0 - 1) with (x - 1) in E by lia.
      apply collide_false in E. congruence.
    + apply collide_false in Hc.
      assert (Hnext : freeAt f t d (x - 1) y = true)
        by (apply freeAt_true; repeat split; try done; lia).
      destruct (IH (x - 1) Hnext) as (k & Hk & Hres & Hall & Hstop).
      exists (S k). split; [lia|]. split; [rewrite Hres; lia|]. split.
      * intros i Hi. destruct (Z.eq_dec i 1) as [->|]; [done|].
        replace (x - i) with (x - 1 - (i - 1)) by lia. apply Hall. lia.
      * intros Hlt. replace (x - Z.of_nat (S k) - 1) with (x - 1 - Z.of_nat k - 1) by lia.
        apply Hstop. lia.
Qed.

(** The loop of [drop] goes down through the rows where the tile fits,
    and stops above the first one where it does not. *)
Lemma dropLoop_spec d x numSteps y :
  int8 y -> freeAt f t d x y = true ->
  exists k,
    (k <= numSteps)%nat
    /\ Field.dropLoop f (CompactField.tileMove (tile_compactTile t d) x)
         numSteps y (Field.window f y)
       = ((numSteps - k)%nat, y - Z.of_nat k, Field.window f (y - Z.of_nat k))
    /\ (forall i, 1 <= i <= Z.of_nat k -> freeAt f t d x (y - i) = true)
    /\ ((k < numSteps)%nat -> freeAt f t d x (y - Z.of_nat k - 1) = false).
Proof.
  pose proof (tile_ok_shape t d Hok) as Hshape.
  pose proof (shape_maxy _ _ Hshape). pose proof (shape_miny _ _ Hshape).
  revert y. induction numSteps as [|n IH]; intros y Hy Hfree;
    cbn [Field.dropLoop].
  - exists O. rewrite Z.sub_0_r. split; [lia|]. split; [done|].
    split; intros; lia.
  - pose proof Hfree as Hfree'.
    apply freeAt_true in Hfree' as (Hl & Hr & Hyy & Hland).
    rewrite window_down.
    destruct (CompactField.collide _ _) eqn:Hc.
    + exists O. rewrite Z.sub_0_r, Nat.sub_0_r. split; [lia|]. split; [done|].
      split; [intros; lia|].
      intros _. destruct (freeAt f t d x (y - 1)) eqn:E; [|done].
      apply freeAt_true in E as (_ & _ & _ & E).
      apply collide_false in E. congruence.
    + apply collide_false in Hc.
      destruct (above_floor t d Hshape f x (y - 1) Hl Hr Hc) as [Hfl Hmm].
      assert (Hy1 : int8 (y - 1)) by (unfold int8 in *; lia).
      rewrite (i8_small _ Hy1).
      assert (Hnext : freeAt f t d x (y - 1) = true)
        by (apply freeAt_true; repeat split; try done; lia).
      destruct (IH (y - 1) Hy1 Hnext) as (k & Hk & Hres & Hall & Hstop).
      exists (S k). split; [lia|]. split.
      * rewrite Hres. replace (y - 1 - Z.of_nat k) with (y - Z.of_nat (S k)) by lia.
        replace (S n - S k)%nat with (n - k)%nat by lia. reflexivity.
      * split.
        -- intros i Hi. destruct (Z.eq_dec i 1) as [->|]; [done|].
           replace (y - i) with (y - 1 - (i - 1)) by lia. apply Hall. lia.
        -- intros Hlt. replace (y - Z.of_nat (S k) - 1) with (y - 1 - Z.of_nat k - 1) by lia.
           apply Hstop. lia.
Qed.

End sliding.

Lemma valid_freeAt f t pfd :
  validFor f t pfd ->
  freeAt f t (state_dir (pfd_state pfd)) (state_x (pfd_state pfd))
    (state_y (pfd_state pfd)) = true.
Proof.
  intros (_ & _ & Hl & Hr & Hy & Hfree). apply freeAt_true. done.
Qed.

(** For a well-formed tile ([tile_ok]: the bounding box that the tile
    stores bounds its cells) in a valid position: [move] slides the tile
    sideways, one column at a time, through the columns where it fits, and
    stops before the first column where it does not (a wall or an occupied
    cell) or after [numSteps] columns: it never jumps over an obstacle. It
    returns false when the tile does not move at all, and then the null
    path finder. *)
Theorem move_slides_until_blocked (f : field) (t : tile)
    (pfd : tilePathFinder) (numSteps : Z) :
  tile_ok t -> validFor f t pfd -> tileState_ok (pfd_state pfd) ->
  legit f pfd -> -128 <= numSteps <= 127 ->
  exists k,
    0 <= k <= Z.abs numSteps
    /\ (forall i, 1 <= i <= k ->
          freeAt f t (state_dir (pfd_state pfd))
            (state_x (pfd_state pfd) + Z.sgn numSteps * i)
            (state_y (pfd_state pfd)) = true)
    /\ (k < Z.abs numSteps ->
          freeAt f t (state_dir (pfd_state pfd))
            (state_x (pfd_state pfd) + Z.sgn numSteps * (k + 1))
            (state_y (pfd_state pfd)) = false)
    /\ Field.move f pfd numSteps
       = if k =? 0 then Ret (false, TilePathFinder.null)
         else Ret (true,
                   placedAt f pfd
                     (state_x (pfd_state pfd) + Z.sgn numSteps * k)
                     (state_y (pfd_state pfd))).
Proof.
  intros Hok Hvalid Hstate Hlegit Hn.
  pose proof (valid_freeAt f t pfd Hvalid) as Hfree.
  pose proof (valid_shiftDefined f t pfd Hvalid) as Hx.
  destruct Hvalid as (Htyp & Hcur & _).
  unfold Field.move.
  rewrite (legit_assertLegit _ _ Hlegit), bind_Ret_l, Htyp.
  unfold deref. rewrite bind_Ret_l. cbv zeta. unfold CompactField.shiftDefined.
  destruct (Z.ltb_spec (-64) (state_x (pfd_state pfd))); [|lia].
  destruct (Z.ltb_spec (state_x (pfd_state pfd)) 64); [|lia].
  cbn [andb negb]. rewrite Hcur.
  destruct (Z.ltb_spec 0 numSteps) as [Hpos|Hpos].
  - destruct (moveRight_spec f t Hok (state_dir (pfd_state pfd))
                (state_y (pfd_state pfd)) (Z.to_nat numSteps) _ Hfree)
      as (k & Hk & -> & Hall & Hstop).
    exists (Z.of_nat k). rewrite Z.sgn_pos, Z.abs_eq by lia.
    split; [lia|]. split; [intros i Hi; rewrite Z.mul_1_l; by apply Hall|].
    split; [intros Hlt; rewrite Z.mul_1_l, Z.add_assoc; apply Hstop; lia|].
    rewrite Z.mul_1_l.
    destruct (Z.eqb_spec (Z.of_nat k) 0) as [Hz|Hz].
    + rewrite Hz, Z.add_0_r, Z.eqb_refl. reflexivity.
    + destruct (Z.eqb_spec (state_x (pfd_state pfd) + Z.of_nat k)
                  (state_x (pfd_state pfd))); [lia|].
      unfold placedAt. rewrite Htyp. pfd_simpl. reflexivity.
  - destruct (Z.ltb_spec numSteps 0) as [Hneg|Hzero].
    + destruct (moveLeft_spec f t Hok (state_dir (pfd_state pfd))
                  (state_y (pfd_state pfd)) (Z.to_nat (- numSteps)) _ Hfree)
        as (k & Hk & -> & Hall & Hstop).
      exists (Z.of_nat k). rewrite Z.sgn_neg, Z.abs_neq by lia.
      split; [lia|]. split.
      { intros i Hi.
        replace (state_x (pfd_state pfd) + -1 * i)
          with (state_x (pfd_state pfd) - i) by lia. by apply Hall. }
      split.
      { intros Hlt.
        replace (state_x (pfd_state pfd) + -1 * (Z.of_nat k + 1))
          with (state_x (pfd_state pfd) - Z.of_nat k - 1) by lia.
        apply Hstop. lia. }
      replace (state_x (pfd_state pfd) + -1 * Z.of_nat k)
        with (state_x (pfd_state pfd) - Z.of_nat k) by lia.
      destruct (Z.eqb_spec (Z.of_nat k) 0) as [Hz|Hz].
      * rewrite Hz, Z.sub_0_r, Z.eqb_refl. reflexivity.
      * destruct (Z.eqb_spec (state_x (pfd_state pfd) - Z.of_nat k)
                    (state_x (pfd_state pfd))); [lia|].
        unfold placedAt. rewrite Htyp. pfd_simpl. reflexivity.
    + exists 0. assert (numSteps = 0) as -> by lia.
      split; [lia|]. split; [intros; lia|]. split; [cbn; lia|].
      rewrite Z.eqb_refl. reflexivity.
Qed.

(** [drop] lets the tile fall, one row at a time, through the rows where
    it fits, and stops above the first row where it does not or after
    [numSteps] rows: it never jumps over an obstacle. It returns false when
    the tile cannot fall at all, and then the null path finder. *)
Theorem drop_falls_until_blocked (f : field) (t : tile)
    (pfd : tilePathFinder) (numSteps : Z) :
  tile_ok t -> validFor f t pfd -> tileState_ok (pfd_state pfd) ->
  legit f pfd -> 0 <= numSteps <= 255 ->
  exists k,
    0 <= k <= numSteps
    /\ (forall i, 1 <= i <= k ->
          freeAt f t (state_dir (pfd_state pfd)) (state_x (pfd_state pfd))
            (state_y (pfd_state pfd) - i) = true)
    /\ (k < numSteps ->
          freeAt f t (state_dir (pfd_state pfd)) (state_x (pfd_state pfd))
            (state_y (pfd_state pfd) - k - 1) = false)
    /\ Field.drop f pfd numSteps
       = if k =? 0 then Ret (false, TilePathFinder.null)
         else Ret (true,
                   placedAt f pfd (state_x (pfd_state pfd))
                     (state_y (pfd_state pfd) - k)).
Proof.
  intros Hok Hvalid Hstate Hlegit Hn.
  pose proof (valid_freeAt f t pfd Hvalid) as Hfree.
  pose proof (valid_shiftDefined f t pfd Hvalid) as Hx.
  destruct Hvalid as (Htyp & Hcur & _). destruct Hstate as [_ Hsy].
  unfold Field.drop.
  rewrite (legit_assertLegit _ _ Hlegit), bind_Ret_l, Htyp.
  unfold deref. rewrite bind_Ret_l. cbv zeta. unfold CompactField.shiftDefined.
  destruct (Z.ltb_spec (-64) (state_x (pfd_state pfd))); [|lia].
  destruct (Z.ltb_spec (state_x (pfd_state pfd)) 64); [|lia].
  cbn [andb negb]. rewrite Hcur.
  destruct (dropLoop_spec f t Hok (state_dir (pfd_state pfd))
              (state_x (pfd_state pfd)) (Z.to_nat numSteps) _ Hsy Hfree)
    as (k & Hk & -> & Hall & Hstop).
  exists (Z.of_nat k). split; [lia|]. split; [exact Hall|].
  split; [intros Hlt; apply Hstop; lia|].
  destruct (Z.eqb_spec (Z.of_nat k) 0) as [Hz|Hz].
  - replace (Z.to_nat numSteps - k)%nat with (Z.to_nat numSteps) by lia.
    rewrite Nat.eqb_refl. reflexivity.
  - destruct (Nat.eqb_spec (Z.to_nat numSteps) (Z.to_nat numSteps - k)); [lia|].
    unfold placedAt. rewrite Htyp. pfd_simpl. reflexivity.
Qed.

Lemma landed_valid : validFor holeField tileT landed.
Proof. unfold validFor. by_computation. Qed.

Lemma landed_state_ok : tileState_ok (pfd_state landed).
Proof. unfold tileState_ok, int8. by_computation. Qed.

Lemma landed_legit : legit holeField landed.
Proof. unfold legit. by_computation. Qed.

Lemma move_slides_until_blocked_witness :
  exists k,
    0 <= k <= 10
    /\ Field.move holeField landed (-10)
       = if k =? 0 then Ret (false, TilePathFinder.null)
         else Ret (true, placedAt holeField landed (2 + -1 * k) (-1)).
Proof.
  destruct (move_slides_until_blocked holeField tileT landed (-10) tileT_ok
              landed_valid landed_state_ok landed_legit ltac:(lia))
    as (k & Hk & _ & _ & Hm).
  exists k. split; [exact Hk|exact Hm].
Defined.

Lemma drop_falls_until_blocked_witness :
  exists k,
    0 <= k <= 20
    /\ Field.drop holeField landed 20
       = if k =? 0 then Ret (false, TilePathFinder.null)
         else Ret (true, placedAt holeField landed 2 (-1 - k)).
Proof.
  destruct (drop_falls_until_blocked holeField tileT landed 20 tileT_ok
              landed_valid landed_state_ok landed_legit ltac:(lia))
    as (k & Hk & _ & _ & Hd).
  exists k. split; [exact Hk|exact Hd].
Defined.

(** * Spawning *)

Lemma rows_above_are_empty f y :
  Z.of_nat (length (field_compactFields f)) <= y -> y <= INT_MAX ->
  Field.compactRowAt f y = 0.
Proof.
  intros Hy Hmax. unfold Field.compactRowAt.
  rewrite to_size_t_small by lia.
  destruct (Z.ltb_spec y 0); [lia|].
  destruct (Z.leb_spec (Z.of_nat (length (field_compactFields f))) y);
    [done|lia].
Qed.

(** [spawn] throws when the path finder has no tile. A fresh path finder
    of a tile stands in column 2 with the bottom of its bounding box in row
    19; [spawn] loads the window of the field at its row and returns true,
    stamping the version of the field, exactly when the tile fits there;
    and it fits whenever the field is at most 19 rows high: the game tops
    out only on a higher stack. *)
Theorem spawn_tops_out_only_above_row_19 (f : field) (t : tile) :
  tile_ok t ->
  Field.spawn f TilePathFinder.null = Throw "tile not specified"
  /\ exists pfd,
       TilePathFinder.of_type (Some t) = Ret pfd
       /\ state_x (pfd_state pfd) = 2
       /\ state_y (pfd_state pfd) + TileCoord.y (tile_min t initial) = 19
       /\ Field.spawn f pfd
          = Ret (if freeAt f t initial 2 (state_y (pfd_state pfd))
                 then (true, placedAt f pfd 2 (state_y (pfd_state pfd)))
                 else (false,
                       TilePathFinder.with_current pfd
                         (Field.window f (state_y (pfd_state pfd)))))
       /\ (Z.of_nat (length (field_compactFields f)) <= 19 ->
           freeAt f t initial 2 (state_y (pfd_state pfd)) = true).
Proof.
  intros Hok. split; [reflexivity|].
  pose proof (tile_ok_shape t initial Hok) as Hshape.
  pose proof (shape_miny _ _ Hshape) as Hminy.
  pose proof (shape_maxy _ _ Hshape) as Hmaxy.
  pose proof (shape_minx _ _ Hshape) as Hminx.
  pose proof (shape_maxx _ _ Hshape) as Hmaxx.
  destruct (shape_bottom _ _ Hshape) as (n0 & Hbit0 & Hrow0).
  destruct (shape_box _ _ Hshape _ Hbit0) as (_ & _ & Hb0).
  assert (Hy : i8 (19 - TileCoord.y (tile_min t initial))
               = 19 - TileCoord.y (tile_min t initial))
    by (apply i8_small; unfold int8; lia).
  exists (TilePathFinder.at_state (Some t) (Tile.initTileState t)).
  split; [reflexivity|]. pfd_simpl. unfold Tile.initTileState.
  cbn [state_x state_y state_dir]. rewrite Hy.
  split; [reflexivity|]. split; [lia|]. split.
  - unfold Field.spawn. pfd_simpl. cbn [state_y].
    unfold freeAt.
    unfold placedAt, TilePathFinder.with_current. pfd_simpl.
    destruct (Field.isValidFor t _); cbn [negb]; reflexivity.
  - intros Hheight. apply freeAt_true.
    split; [lia|]. split; [lia|]. split; [lia|].
    apply Z.bits_inj'. intros n Hn.
    rewrite Z.land_spec, Z.bits_0, window_bits by done.
    rewrite (tileMove_bits t initial Hshape) by lia.
    destruct (Z.testbit (tile_compactTile t initial) (n - 2)) eqn:Hbit;
      [|apply andb_false_r].
    destruct (mask_bit_moved t initial Hshape 2 n ltac:(lia) ltac:(lia) Hbit)
      as (Hn60 & Hq & _).
    destruct (shape_box _ _ Hshape _ Hbit) as (_ & _ & Hb).
    rewrite rows_above_are_empty by (unfold INT_MAX; lia).
    rewrite Z.bits_0. by destruct (n <? 60).
Qed.

Lemma spawn_tops_out_only_above_row_19_witness :
  exists pfd,
    TilePathFinder.of_type (Some tileT) = Ret pfd
    /\ Field.spawn holeField pfd
       = Ret (true, placedAt holeField pfd 2 (state_y (pfd_state pfd))).
Proof.
  destruct (spawn_tops_out_only_above_row_19 holeField tileT tileT_ok)
    as (_ & pfd & Hp & _ & _ & Hs & Hfree).
  exists pfd. split; [exact Hp|].
  rewrite Hfree in Hs by (vm_compute; discriminate). exact Hs.
Defined.

(** * Versions *)

(** Every change of a field outdates the path finders stamped before it:
    after [grow], or after a [lock] that returned true, a path finder that
    carried the version of the field is refused by [move], [drop], [rotate]
    and [lock], which throw; [spawn] does not look at the stamp, and stamps
    the new version when it returns true. *)
Theorem changed_field_refuses_old_path_finders (f f' : field)
    (pfd : tilePathFinder) :
  0 < field_version f < 2 ^ 64 ->
  pfd_version pfd = field_version f ->
  (exists row, f' = Field.grow f row)
  \/ (exists p clear, Field.lock f p = Ret (true, f', clear)) ->
  field_version f' = u64 (field_version f + 1)
  /\ field_version f' <> field_version f
  /\ (forall n, Field.move f' pfd n = Throw "mismatched field version")
  /\ (forall n, Field.drop f' pfd n = Throw "mismatched field version")
  /\ (forall d, Field.rotate f' pfd d = Throw "mismatched field version")
  /\ Field.lock f' pfd = Throw "mismatched field version"
  /\ (forall t, pfd_typ pfd = Some t ->
        exists b r, Field.spawn f' pfd = Ret (b, r)
                    /\ (b = true -> pfd_version r = field_version f')).
Proof.
  intros Hver Hstamp Hchange.
  assert (Hv' : field_version f' = u64 (field_version f + 1)).
  { destruct Hchange as [[row ->]|(p & clear & Hl)]; [reflexivity|].
    apply lock_inv in Hl as [(? & _)|(_ & typ & cf1 & fs1 & cf2 & fs2 & _ & _ & _ & _ & _ & ->)];
      [discriminate|reflexivity]. }
  assert (Hne : field_version f' <> field_version f).
  { rewrite Hv'. unfold u64.
    destruct (Z.eq_dec (field_version f + 1) (2 ^ 64)) as [E|E].
    - rewrite E, Z.mod_same by lia. lia.
    - rewrite Z.mod_small by lia. lia. }
  assert (Hstale : stale f' pfd) by (unfold stale; rewrite Hstamp; lia).
  pose proof (assertLegit_stale f' pfd Hstale) as Hthrow.
  split; [exact Hv'|]. split; [exact Hne|].
  unfold Field.move, Field.drop, Field.rotate, Field.lock.
  rewrite Hthrow.
  split; [done|]. split; [done|]. split; [done|]. split; [done|].
  intros t Htyp.
  destruct (spawn_valid f' t pfd Htyp) as (b & r & Hs & _ & Hb).
  exists b, r. split; [exact Hs|]. intros ->. by destruct (Hb eq_refl).
Qed.

Lemma changed_field_refuses_old_path_finders_witness :
  Field.lock (Field.grow holeField (replicate 10 1)) spun
  = Throw "mismatched field version".
Proof.
  apply (changed_field_refuses_old_path_finders holeField
           (Field.grow holeField (replicate 10 1)) spun).
  - vm_compute. split; reflexivity.
  - reflexivity.
  - left. by exists (replicate 10 1).
Defined.

(** * The previews *)

Lemma rem_wrap a n :
  0 < n -> 0 <= a < 2 * n ->
  Z.rem a n = if a <? n then a else a - n.
Proof.
  intros Hn Ha. rewrite Z.rem_mod_nonneg by lia.
  destruct (Z.ltb_spec a n).
  - apply Z.mod_small. lia.
  - symmetry. apply (Z.mod_unique a n 1). lia. lia.
Qed.

Section previews.

Context {G : Type} `{!tileGenerator G}.

(** What [spawnNextTile] does to the ring when a tile is at its head. *)
Lemma spawnNextTile_inv (pg pg' : playground G) t :
  Playground.spawnNextTile pg = Ret pg' ->
  Field.at_index (pg_preview pg) (pg_previewCursor pg) = Ret (Some t) ->
  exists previous next,
    (if pg_previewCursor pg =? 0
     then Field.at_index (pg_preview pg) (pg_numPreviews pg - 1)
     else Field.at_index (pg_preview pg) (pg_previewCursor pg - 1))
    = Ret previous
    /\ match previous with
       | Some _ => generate (pg_generator pg) = Ret (next, pg_generator pg')
       | None => next = None /\ pg_generator pg' = pg_generator pg
       end
    /\ pg_preview pg' = <[Z.to_nat (pg_previewCursor pg) := next]> (pg_preview pg)
    /\ pg_previewCursor pg'
       = (if pg_numPreviews pg <=? pg_previewCursor pg + 1 then 0
          else pg_previewCursor pg + 1)
    /\ pg_numPreviews pg' = pg_numPreviews pg
    /\ pfd_typ (pg_current pg') = Some t.
Proof.
  unfold Playground.spawnNextTile. intros H Hhead.
  rewrite Hhead, bind_Ret_l in H.
  apply bind_Ret in H as (previous & Hprev & H). cbv beta in H.
  apply bind_Ret in H as ([next g'] & Hnext & H). cbv beta iota zeta in H.
  apply spawnTile_frame in H
    as (_ & Hg & _ & _ & Hn & Hp & Hc & Htyp & _).
  cbn [Playground.set_previews pg_generator pg_numPreviews pg_preview
       pg_previewCursor] in Hg, Hn, Hp, Hc.
  exists previous, next. split; [exact Hprev|]. split.
  - rewrite Hg. destruct previous; [exact Hnext|].
    injection Hnext as <- <-. done.
  - done.
Qed.

(** The previews are a queue: [getPreview] answers [nullptr] outside
    [0 .. numPreviews - 1]; [spawnNextTile] spawns the preview 0, moves
    every other preview one place forward, and puts at the end the next
    tile of the generator (which it does not call once the generator has
    returned [nullptr]). *)
Theorem previews_are_a_queue (pg pg' : playground G) (t : tile) :
  1 <= pg_numPreviews pg <= 2 ^ 30 ->
  Z.of_nat (length (pg_preview pg)) = pg_numPreviews pg ->
  0 <= pg_previewCursor pg < pg_numPreviews pg ->
  getPreview pg 0 = Ret (Some t) ->
  Playground.spawnNextTile pg = Ret pg' ->
  pfd_typ (pg_current pg') = Some t
  /\ (forall i, i < 0 \/ pg_numPreviews pg <= i -> getPreview pg' i = Ret None)
  /\ (forall i, 0 <= i < pg_numPreviews pg - 1 ->
        getPreview pg' i = getPreview pg (i + 1))
  /\ exists last next,
       getPreview pg (pg_numPreviews pg - 1) = Ret last
       /\ getPreview pg' (pg_numPreviews pg - 1) = Ret next
       /\ match last with
          | Some _ =>
            generate (pg_generator pg) = Ret (next, pg_generator pg')
          | None => next = None /\ pg_generator pg' = pg_generator pg
          end.
Proof.
  intros Hn Hlen Hc Hhead Hspawn.
  set (n := pg_numPreviews pg) in *. set (c := pg_previewCursor pg) in *.
  assert (Hget : forall i, 0 <= i < n ->
    getPreview pg i
    = Field.at_index (pg_preview pg) (if c + i <? n then c + i else c + i - n)).
  { intros i Hi. unfold getPreview. fold n c.
    destruct (Z.ltb_spec i 0); [lia|]. destruct (Z.leb_spec n i); [lia|].
    cbn [orb]. destruct (Z.ltb_spec INT_MAX (c + i)); [unfold INT_MAX in *; lia|].
    rewrite rem_wrap by lia. reflexivity. }
  rewrite Hget in Hhead by lia. rewrite Z.add_0_r in Hhead.
  destruct (Z.ltb_spec c n); [|lia].
  destruct (spawnNextTile_inv pg pg' t Hspawn Hhead)
    as (previous & next & Hprev & Hnext & Hp & Hc' & Hn' & Htyp).
  fold n c in Hprev, Hp, Hc', Hn'.
  assert (Hget' : forall i, 0 <= i < n ->
    getPreview pg' i
    = Field.at_index (<[Z.to_nat c := next]> (pg_preview pg))
        (if c + 1 + i <? n then c + 1 + i
         else if c + 1 + i <? 2 * n then c + 1 + i - n else c + 1 + i - 2 * n)).
  { intros i Hi. unfold getPreview. rewrite Hn', Hp, Hc'.
    destruct (Z.ltb_spec i 0); [lia|]. destruct (Z.leb_spec n i); [lia|].
    cbn [orb].
    destruct (Z.leb_spec n (c + 1)).
    - destruct (Z.ltb_spec INT_MAX (0 + i)); [unfold INT_MAX in *; lia|].
      rewrite rem_wrap by lia.
      destruct (Z.ltb_spec (0 + i) n); [|lia].
      destruct (Z.ltb_spec (c + 1 + i) n); [lia|].
      destruct (Z.ltb_spec (c + 1 + i) (2 * n)); [|lia]. f_equal. lia.
    - destruct (Z.ltb_spec INT_MAX (c + 1 + i)); [unfold INT_MAX in *; lia|].
      rewrite rem_wrap by lia.
      destruct (Z.ltb_spec (c + 1 + i) n); [done|].
      destruct (Z.ltb_spec (c + 1 + i) (2 * n)); [done|lia]. }
  assert (Hat : forall j, 0 <= j < n ->
    Field.at_index (<[Z.to_nat c := next]> (pg_preview pg)) j
    = if j =? c then Ret next else Field.at_index (pg_preview pg) j).
  { intros j Hj. unfold Field.at_index. rewrite length_insert.
    destruct (Z.leb_spec 0 j); [|lia].
    destruct (Z.ltb_spec j (Z.of_nat (length (pg_preview pg)))); [|lia].
    cbn [andb]. destruct (Z.eqb_spec j c) as [->|Hne].
    - rewrite list_lookup_insert_eq by lia. reflexivity.
    - rewrite list_lookup_insert_ne by lia. reflexivity. }
  split; [exact Htyp|]. split; [|split].
  - intros i Hi. unfold getPreview. rewrite Hn'. fold n.
    destruct Hi.
    + destruct (Z.ltb_spec i 0); [done|lia].
    + destruct (Z.leb_spec n i); [|lia]. by rewrite orb_true_r.
  - intros i Hi. rewrite Hget', Hget by lia.
    destruct (Z.ltb_spec (c + 1 + i) n).
    + rewrite Hat by lia.
      destruct (Z.eqb_spec (c + 1 + i) c); [lia|].
      destruct (Z.ltb_spec (c + (i + 1)) n); [|lia]. f_equal. lia.
    + destruct (Z.ltb_spec (c + 1 + i) (2 * n)); [|lia].
      rewrite Hat by lia.
      destruct (Z.eqb_spec (c + 1 + i - n) c); [lia|].
      destruct (Z.ltb_spec (c + (i + 1)) n); [lia|]. f_equal. lia.
  - exists previous, next. split; [|split; [|exact Hnext]].
    + rewrite Hget by lia. destruct (Z.eqb_spec c 0) as [E|E].
      * rewrite E in *. destruct (Z.ltb_spec (0 + (n - 1)) n); [|lia].
        rewrite <- Hprev. f_equal.
      * destruct (Z.ltb_spec (c + (n - 1)) n); [lia|].
        rewrite <- Hprev. f_equal. lia.
    + rewrite Hget' by lia.
      destruct (Z.ltb_spec (c + 1 + (n - 1)) n); [lia|].
      destruct (Z.ltb_spec (c + 1 + (n - 1)) (2 * n)); [|lia].
      rewrite Hat by lia.
      destruct (Z.eqb_spec (c + 1 + (n - 1) - n) c); [done|lia].
Qed.

End previews.

Lemma previews_are_a_queue_witness :
  getPreview (exampleAfter [Playground.Start]) 0
  = getPreview (Playground.set_state (exampleAfter []) inGame) (0 + 1)
  /\ getPreview (exampleAfter [Playground.Start]) 3
     = getPreview (Playground.set_state (exampleAfter []) inGame) (3 + 1).
Proof.
  assert (E : Playground.spawnNextTile
                (Playground.set_state (exampleAfter []) inGame)
              = Ret (exampleAfter [Playground.Start]))
    by (vm_compute; reflexivity).
  assert (Eh : exists t,
             getPreview (Playground.set_state (exampleAfter []) inGame) 0
             = Ret (Some t))
    by (eexists; vm_compute; reflexivity).
  destruct Eh as [t Eh].
  destruct (previews_are_a_queue
              (Playground.set_state (exampleAfter []) inGame)
              (exampleAfter [Playground.Start]) t) as (_ & _ & Hq & _).
  - vm_compute. split; discriminate.
  - vm_compute. reflexivity.
  - vm_compute. split; [discriminate|reflexivity].
  - exact Eh.
  - exact E.
  - assert (R0 : 0 <= 0 < pg_numPreviews
                             (Playground.set_state (exampleAfter []) inGame) - 1)
      by (vm_compute; split; [discriminate|reflexivity]).
    assert (R3 : 0 <= 3 < pg_numPreviews
                             (Playground.set_state (exampleAfter []) inGame) - 1)
      by (vm_compute; split; [discriminate|reflexivity]).
    exact (conj (Hq 0 R0) (Hq 3 R3)).
Defined.

(** * The shadow *)

Section shadow.

Context {G : Type} `{!tileGenerator G}.

Lemma tileMove_shadowed (pg pg' : playground G) pfd :
  Playground.tileMove pg pfd = Ret pg' -> shadowed pg'.
Proof.
  unfold Playground.tileMove. intros H.
  apply bind_Ret in H as ([dropped newShadow] & Hd & H). cbv beta iota zeta in H.
  apply bind_Ret in H as (type & _ & H). cbv beta in H. injection H as <-.
  intros _. unfold landing.
  cbn [Playground.dispatch Playground.set_pieces pg_shadow pg_f pg_current].
  rewrite Hd. by destruct dropped.
Qed.

Lemma spawnTile_shadowed (pg pg' : playground G) typ :
  Playground.spawnTile pg typ = Ret pg' ->
  pg_state pg' = inGame -> 
  pfd_state (pg_shadow pg') = landing (pg_f pg') (pg_current pg').
Proof.
  unfold Playground.spawnTile. intros H.
  apply bind_Ret in H as (current & Hc & H). cbv beta in H.
  apply bind_Ret in H as (shadow & Hs & H). cbv beta in H.
  apply bind_Ret in H as ([spawned current'] & Hsp & H). cbv beta iota in H.
  destruct spawned; cbn [negb] in H.
  - apply bind_Ret in H as ([dropped newShadow] & Hd & H).
    cbv beta iota zeta in H.
    apply bind_Ret in H as (type & _ & H). cbv beta in H. injection H as <-.
    intros _. unfold landing.
    cbn [Playground.dispatch Playground.set_pieces pg_shadow pg_f pg_current].
    rewrite Hd. destruct dropped; [done|].
    destruct typ as [t|]; [|discriminate].
    cbn in Hc, Hs. injection Hc as <-. injection Hs as <-.
    destruct (spawn_valid (pg_f pg) t
                (TilePathFinder.at_state (Some t) (Tile.initTileState t))
                eq_refl) as (b & r & Hsp' & Hst & _).
    rewrite Hsp in Hsp'. injection Hsp' as <- <-. by rewrite Hst.
  - apply bind_Ret in H as (current2 & _ & H). cbv beta zeta in H.
    apply bind_Ret in H as (type & _ & H). cbv beta in H. injection H as <-.
    cbn [Playground.dispatch Playground.set_state pg_state]. discriminate.
Qed.

Lemma spawnNextTile_shadowed (pg pg' : playground G) :
  Playground.spawnNextTile pg = Ret pg' -> shadowed pg'.
Proof.
  unfold Playground.spawnNextTile. intros H.
  apply bind_Ret in H as (head & _ & H). cbv beta in H.
  destruct head as [t|].
  - apply bind_Ret in H as (previous & _ & H). cbv beta in H.
    apply bind_Ret in H as ([next g'] & _ & H). cbv beta iota zeta in H.
    intros Hin. by eapply spawnTile_shadowed.
  - injection H as <-. intros Hin.
    cbn [Playground.dispatch Playground.set_state pg_state] in Hin.
    discriminate.
Qed.

Lemma moves_shadowed (pg pg' : playground G) b :
  shadowed pg ->
  (exists dx, Playground.move pg dx = Ret (b, pg'))
  \/ (exists dy, Playground.drop pg dy = Ret (b, pg'))
  \/ (exists d, Playground.rotate pg d = Ret (b, pg')) ->
  shadowed pg'.
Proof.
  intros Hs [[dx H]|[[dy H]|[d H]]];
    unfold Playground.move, Playground.drop, Playground.rotate in H;
    (destruct (negb (Playground.isInGame pg)); [by injection H as _ <-|]);
    apply bind_Ret in H as ([moved pfd] & _ & H); cbv beta iota in H;
    (destruct moved; cbn [negb] in H; [|by injection H as _ <-]);
    apply bind_Ret in H as (pg1 & Hm & H); cbv beta in H;
    injection H as _ <-; by eapply tileMove_shadowed.
Qed.

Lemma step_shadowed (pg pg' : playground G) c :
  shadowed pg -> Playground.step pg c = Ret pg' -> shadowed pg'.
Proof.
  intros Hs H. destruct c; cbn [Playground.step] in H.
  - unfold Playground.start in H. destruct (negb _); [by injection H as <-|].
    by eapply spawnNextTile_shadowed.
  - unfold Playground.complete in H.
    destruct (negb _); injection H as <-; [done|].
    intros Hin. cbn in Hin. discriminate.
  - destruct (Playground.move pg dx) as [[b p]| |] eqn:E; try discriminate.
    injection H as <-. eapply moves_shadowed; eauto.
  - destruct (Playground.drop pg dy) as [[b p]| |] eqn:E; try discriminate.
    injection H as <-. eapply moves_shadowed; eauto.
  - destruct (Playground.hardDrop pg) as [[b p]| |] eqn:E; try discriminate.
    injection H as <-. unfold Playground.hardDrop in E.
    destruct (negb (Playground.isInGame pg)); [by injection E as _ <-|].
    apply bind_Ret in E as ([b1 pg1] & _ & E). cbv beta iota in E.
    apply bind_Ret in E as (type & _ & E). cbv beta zeta in E.
    apply bind_Ret in E as ([[b2 f'] clear] & _ & E). cbv beta iota zeta in E.
    apply bind_Ret in E as (pg2 & Hn & E). cbv beta in E.
    injection E as _ <-.
    destruct (Playground.isInGame _) eqn:Hin.
    + by eapply spawnNextTile_shadowed.
    + injection Hn as <-. intros Hs'.
      unfold Playground.isInGame in Hin.
      apply bool_decide_eq_false_1 in Hin. done.
  - destruct (Playground.rotateCCW pg) as [[b p]| |] eqn:E; try discriminate.
    injection H as <-. unfold Playground.rotateCCW in E.
    destruct (negb _); [by injection E as _ <-|].
    eapply moves_shadowed; eauto.
  - destruct (Playground.rotateCW pg) as [[b p]| |] eqn:E; try discriminate.
    injection H as <-. unfold Playground.rotateCW in E.
    destruct (negb _); [by injection E as _ <-|].
    eapply moves_shadowed; eauto.
  - destruct (Playground.halfTurn pg) as [[b p]| |] eqn:E; try discriminate.
    injection H as <-. unfold Playground.halfTurn in E.
    destruct (negb _); [by injection E as _ <-|].
    eapply moves_shadowed; eauto.
  - destruct (Playground.swapTile pg) as [[b p]| |] eqn:E; try discriminate.
    injection H as <-. unfold Playground.swapTile in E.
    destruct (negb (Playground.isInGame pg)); [by injection E as _ <-|].
    destruct (negb (pg_swapEnabled pg)); [by injection E as _ <-|].
    cbv zeta in E.
    apply bind_Ret in E as (type & _ & E). cbv beta zeta in E.
    apply bind_Ret in E as (pg2 & Hn & E). cbv beta in E.
    injection E as _ <-.
    destruct (pg_swap pg).
    + intros Hin. by eapply spawnTile_shadowed.
    + by eapply spawnNextTile_shadowed.
Qed.

Lemma run_shadowed cs (pg pg' : playground G) :
  shadowed pg -> Playground.run cs pg = Ret pg' -> shadowed pg'.
Proof.
  revert pg. induction cs as [|c cs IH]; intros pg Hs H;
    cbn [Playground.run] in H.
  - by injection H as <-.
  - apply bind_Ret in H as (pg1 & Hstep & H). cbv beta in H.
    eapply IH; [|exact H]. by eapply step_shadowed.
Qed.

Lemma make_shadowed g n (pg : playground G) :
  Playground.make g n = Ret pg -> shadowed pg.
Proof.
  unfold Playground.make. intros H.
  destruct (n <? 0); [discriminate|].
  apply bind_Ret in H as ([preview g'] & _ & H). cbv beta iota in H.
  injection H as <-. intros Hin. cbn in Hin. discriminate.
Qed.

End shadow.

Lemma drop_spec (f : field) (t : tile) (pfd : tilePathFinder) (n : Z) :
  tile_ok t -> validFor f t pfd -> tileState_ok (pfd_state pfd) ->
  legit f pfd -> 0 <= n <= 255 ->
  exists k,
    0 <= k <= n
    /\ (forall i, 1 <= i <= k ->
          freeAt f t (state_dir (pfd_state pfd)) (state_x (pfd_state pfd))
            (state_y (pfd_state pfd) - i) = true)
    /\ (k < n ->
          freeAt f t (state_dir (pfd_state pfd)) (state_x (pfd_state pfd))
            (state_y (pfd_state pfd) - k - 1) = false)
    /\ Field.drop f pfd n
       = if k =? 0 then Ret (false, TilePathFinder.null)
         else Ret (true,
                   placedAt f pfd (state_x (pfd_state pfd))
                     (state_y (pfd_state pfd) - k)).
Proof.
  intros Hok Hvalid Hstate Hlegit Hn.
  pose proof (valid_freeAt f t pfd Hvalid) as Hfree.
  pose proof (valid_shiftDefined f t pfd Hvalid) as Hx.
  destruct Hvalid as (Htyp & Hcur & _). destruct Hstate as [_ Hsy].
  unfold Field.drop.
  rewrite (legit_assertLegit _ _ Hlegit), bind_Ret_l, Htyp.
  unfold deref. rewrite bind_Ret_l. cbv zeta.
  unfold CompactField.shiftDefined.
  destruct (Z.ltb_spec (-64) (state_x (pfd_state pfd))); [|lia].
  destruct (Z.ltb_spec (state_x (pfd_state pfd)) 64); [|lia].
  cbn [andb negb]. rewrite Hcur.
  destruct (dropLoop_spec f t Hok (state_dir (pfd_state pfd))
              (state_x (pfd_state pfd)) (Z.to_nat n) _ Hsy Hfree)
    as (k & Hk & -> & Hall & Hstop).
  exists (Z.of_nat k). split; [lia|]. split; [exact Hall|].
  split; [intros Hlt; apply Hstop; lia|].
  destruct (Z.eqb_spec (Z.of_nat k) 0) as [Hz|Hz].
  - replace (Z.to_nat n - k)%nat with (Z.to_nat n) by lia.
    rewrite Nat.eqb_refl. reflexivity.
  - destruct (Nat.eqb_spec (Z.to_nat n) (Z.to_nat n - k)); [lia|].
    unfold placedAt. rewrite Htyp. pfd_simpl. reflexivity.
Qed.

Lemma landing_spec (f : field) (t : tile) (pfd : tilePathFinder) :
  tile_ok t -> validFor f t pfd -> tileState_ok (pfd_state pfd) ->
  legit f pfd ->
  exists k,
    0 <= k <= 20
    /\ landing f pfd
       = mkTileState (state_dir (pfd_state pfd)) (state_x (pfd_state pfd))
           (state_y (pfd_state pfd) - k)
    /\ (forall i, 1 <= i <= k ->
          freeAt f t (state_dir (pfd_state pfd)) (state_x (pfd_state pfd))
            (state_y (pfd_state pfd) - i) = true)
    /\ (k < 20 ->
          freeAt f t (state_dir (pfd_state pfd)) (state_x (pfd_state pfd))
            (state_y (pfd_state pfd) - k - 1) = false)
    /\ Field.drop f pfd 20
       = if k =? 0 then Ret (false, TilePathFinder.null)
         else Ret (true,
                   placedAt f pfd (state_x (pfd_state pfd))
                     (state_y (pfd_state pfd) - k)).
Proof.
  intros Hok Hvalid Hstate Hlegit.
  destruct (drop_spec f t pfd 20 Hok Hvalid Hstate Hlegit ltac:(lia))
    as (k & Hk & Hall & Hstop & Hdrop).
  exists k. split; [exact Hk|]. split; [|done].
  unfold landing. rewrite Hdrop.
  destruct (Z.eqb_spec k 0) as [->|Hz].
  - rewrite Z.sub_0_r. by destruct (pfd_state pfd).
  - reflexivity.
Qed.

Section landing.

Context {G : Type} `{!tileGenerator G}.
Variable ok : G -> Prop.
Hypothesis Hsteady : steadySupply ok.

Lemma reached (g : G) (numPreviews : Z) (cs : list Playground.command) :
  ok g -> 1 <= numPreviews ->
  exists pg0 pg,
    Playground.make g numPreviews = Ret pg0
    /\ Playground.run cs pg0 = Ret pg
    /\ sound pg /\ supplied ok pg /\ shadowed pg.
Proof.
  intros Hg Hn.
  destruct (make_sound ok Hsteady g numPreviews Hg Hn)
    as (pg0 & Hmake & Hsound & Hsup).
  destruct (run_sound ok Hsteady cs pg0 Hsound Hsup)
    as (pg & Hrun & Hsound' & Hsup').
  exists pg0, pg. split; [done|]. split; [done|]. split; [done|].
  split; [done|].
  eapply run_shadowed; [|exact Hrun]. by eapply make_shadowed.
Qed.

End landing.

(** Whatever the controller calls on a playground fed by a generator that
    deals well-formed tiles, the calls return, and while the game is on the
    shadow stands where the active tile lands: in the same orientation and
    column, [k] rows below it with [k] at most 20, every row on the way
    being free for the tile, and the next row blocked unless [k] is 20. *)
Theorem shadow_marks_the_landing {G : Type} `{!tileGenerator G}
    (ok : G -> Prop) (g : G) (numPreviews : Z)
    (cs : list Playground.command) :
  steadySupply ok -> ok g -> 1 <= numPreviews ->
  exists pg0 pg,
    Playground.make g numPreviews = Ret pg0
    /\ Playground.run cs pg0 = Ret pg
    /\ (pg_state pg = inGame ->
        exists t k,
          pfd_typ (pg_current pg) = Some t
          /\ 0 <= k <= 20
          /\ pfd_state (pg_shadow pg)
             = mkTileState (state_dir (pfd_state (pg_current pg)))
                 (state_x (pfd_state (pg_current pg)))
                 (state_y (pfd_state (pg_current pg)) - k)
          /\ (forall i, 1 <= i <= k ->
                freeAt (pg_f pg) t (state_dir (pfd_state (pg_current pg)))
                  (state_x (pfd_state (pg_current pg)))
                  (state_y (pfd_state (pg_current pg)) - i) = true)
          /\ (k < 20 ->
                freeAt (pg_f pg) t (state_dir (pfd_state (pg_current pg)))
                  (state_x (pfd_state (pg_current pg)))
                  (state_y (pfd_state (pg_current pg)) - k - 1) = false)).
Proof.
  intros Hsteady Hg Hn.
  destruct (reached ok Hsteady g numPreviews cs Hg Hn)
    as (pg0 & pg & Hmake & Hrun & Hsound & _ & Hshadow).
  exists pg0, pg. split; [exact Hmake|]. split; [exact Hrun|]. intros Hin.
  destruct (sound_active pg Hsound Hin)
    as (t & Hok & Hvalid & Hstate & Hlegit & _).
  destruct (landing_spec (pg_f pg) t (pg_current pg) Hok Hvalid Hstate Hlegit)
    as (k & Hk & Hland & Hall & Hstop & _).
  exists t, k. split; [apply Hvalid|]. split; [exact Hk|].
  split; [by rewrite (Hshadow Hin)|]. split; [exact Hall|exact Hstop].
Qed.

Lemma example_steady : steadySupply (bag exampleTiles).
Proof.
  apply permutator_steadySupply.
  - apply example_shuffle_permutes.
  - vm_compute. discriminate.
  - discriminate.
  - repeat constructor; discriminate.
  - exact exampleTiles_ok.
Qed.

Lemma example_bag : bag exampleTiles (ExampleEngine.permutator exampleTiles 0).
Proof.
  apply (bag_make ExampleEngine.seed ExampleEngine.shuffle
           example_shuffle_permutes exampleTiles).
  vm_compute. discriminate.
Qed.

Lemma exampleAfter_run cs pg0 pg :
  Playground.make (ExampleEngine.permutator exampleTiles 0) 5 = Ret pg0 ->
  Playground.run cs pg0 = Ret pg -> exampleAfter cs = pg.
Proof.
  intros Hmake Hrun. unfold exampleAfter, examplePlayground.
  rewrite Hmake, bind_Ret_l, Hrun. reflexivity.
Qed.

Lemma shadow_marks_the_landing_witness :
  let pg := exampleAfter [Playground.Start; Playground.Move 1;
                          Playground.RotateCW] in
  pg_state pg = inGame
  /\ exists t k,
       pfd_typ (pg_current pg) = Some t
       /\ 0 <= k <= 20
       /\ pfd_state (pg_shadow pg)
          = mkTileState (state_dir (pfd_state (pg_current pg)))
              (state_x (pfd_state (pg_current pg)))
              (state_y (pfd_state (pg_current pg)) - k)
       /\ (forall i, 1 <= i <= k ->
             freeAt (pg_f pg) t (state_dir (pfd_state (pg_current pg)))
               (state_x (pfd_state (pg_current pg)))
               (state_y (pfd_state (pg_current pg)) - i) = true)
       /\ (k < 20 ->
             freeAt (pg_f pg) t (state_dir (pfd_state (pg_current pg)))
               (state_x (pfd_state (pg_current pg)))
               (state_y (pfd_state (pg_current pg)) - k - 1) = false).
Proof.
  intros pg.
  assert (Hin : pg_state pg = inGame) by (vm_compute; reflexivity).
  split; [exact Hin|].
  destruct (shadow_marks_the_landing (bag exampleTiles)
              (ExampleEngine.permutator exampleTiles 0) 5
              [Playground.Start; Playground.Move 1; Playground.RotateCW]
              example_steady example_bag ltac:(lia))
    as (pg0 & pg1 & Hmake & Hrun & Hshadow).
  rewrite <- (exampleAfter_run _ _ _ Hmake Hrun) in Hshadow.
  exact (Hshadow Hin).
Defined.

(** * Hard drops *)

Section events.

Context {G : Type} `{!tileGenerator G}.


Lemma spawnTile_events (pg pg' : playground G) t :
  Playground.spawnTile pg (Some t) = Ret pg' ->
  (pg_events pg'
   = pg_events pg
     ++ [tileSpawn t (pfd_state (pg_current pg')) (pfd_state (pg_shadow pg'))]
   /\ pg_state pg' = pg_state pg)
  \/ (pg_events pg'
      = pg_events pg
        ++ [tileSpawn t (pfd_state (pg_current pg'))
              (pfd_state (pg_shadow pg')); gameEnd topOut]
      /\ pg_state pg' = topOut).
Proof.
  unfold Playground.spawnTile. intros H.
  apply bind_Ret in H as (current & Hc & H). cbv beta in H.
  apply bind_Ret in H as (shadow & Hs & H). cbv beta in H.
  apply bind_Ret in H as ([spawned current'] & Hsp & H). cbv beta iota in H.
  apply of_type_typ in Hc. apply spawn_typ in Hsp. rewrite Hc in Hsp.
  destruct spawned; cbn [negb] in H.
  - apply bind_Ret in H as ([dropped newShadow] & Hd & H).
    cbv beta iota zeta in H. rewrite Hsp in H. obind in H.
    injection H as <-. left. done.
  - cbn in H. injection H as <-. right. cbn. by rewrite <- app_assoc.
Qed.

Lemma spawnNextTile_events (pg pg' : playground G) :
  Playground.spawnNextTile pg = Ret pg' ->
  (exists t,
     pg_events pg'
     = pg_events pg
       ++ [tileSpawn t (pfd_state (pg_current pg'))
             (pfd_state (pg_shadow pg'))]
     /\ pg_state pg' = pg_state pg)
  \/ (exists t,
        pg_events pg'
        = pg_events pg
          ++ [tileSpawn t (pfd_state (pg_current pg'))
                (pfd_state (pg_shadow pg')); gameEnd topOut]
        /\ pg_state pg' = topOut)
  \/ (pg_events pg' = pg_events pg ++ [gameEnd exhausted]
      /\ pg_state pg' = exhausted).
Proof.
  unfold Playground.spawnNextTile. intros H.
  apply bind_Ret in H as (head & _ & H). cbv beta in H.
  destruct head as [t|].
  - apply bind_Ret in H as (previous & _ & H). cbv beta in H.
    apply bind_Ret in H as ([next g'] & _ & H). cbv beta iota zeta in H.
    apply spawnTile_events in H as [H|H]; [left|right; left]; exists t; exact H.
  - injection H as <-. right. right. done.
Qed.

End events.



(** * The events *)

Section announced.

Context {G : Type} `{!tileGenerator G}.







End announced.



(** * The hold slot *)

Section hold.

Context {G : Type} `{!tileGenerator G}.

Lemma spawnTile_state (pg pg' : playground G) t :
  Playground.spawnTile pg (Some t) = Ret pg' ->
  pfd_state (pg_current pg') = Tile.initTileState t.
Proof.
  unfold Playground.spawnTile. intros H.
  apply bind_Ret in H as (current & Hc & H). cbv beta in H.
  apply bind_Ret in H as (shadow & Hs & H). cbv beta in H.
  apply bind_Ret in H as ([spawned current'] & Hsp & H). cbv beta iota in H.
  cbn in Hc. injection Hc as <-.
  destruct (spawn_valid (pg_f pg) t
              (TilePathFinder.at_state (Some t) (Tile.initTileState t))
              eq_refl) as (b & r & Hsp' & Hst & _).
  rewrite Hsp in Hsp'. injection Hsp' as <- <-.
  destruct spawned; cbn [negb] in H.
  - apply bind_Ret in H as ([dropped newShadow] & Hd & H).
    cbv beta iota zeta in H.
    apply bind_Ret in H as (type & _ & H). cbv beta in H. injection H as <-.
    cbn. exact Hst.
  - cbn in H. injection H as <-. reflexivity.
Qed.

End hold.

(** In a game fed by a generator that deals well-formed tiles, [swapTile]
    does nothing and returns false while the hold slot is disabled.
    Otherwise it returns true, keeps the field, puts the type of the active
    tile in the hold slot and dispatches [tileSwap] before the spawn. When
    a tile was held, that tile becomes the active one at its spawn state,
    the previews are kept and the slot is disabled; when the slot was
    empty, the head of the previews is spawned instead and the slot stays
    enabled. *)
Theorem swapTile_exchanges_with_the_hold {G : Type} `{!tileGenerator G}
    (ok : G -> Prop) (g : G) (numPreviews : Z)
    (cs : list Playground.command) :
  steadySupply ok -> ok g -> 1 <= numPreviews ->
  exists pg0 pg,
    Playground.make g numPreviews = Ret pg0
    /\ Playground.run cs pg0 = Ret pg
    /\ (pg_state pg = inGame ->
        if pg_swapEnabled pg then
          exists t spawned pg',
            pfd_typ (pg_current pg) = Some t
            /\ Playground.swapTile pg = Ret (true, pg')
            /\ pg_swap pg' = Some t
            /\ pg_f pg' = pg_f pg
            /\ pg_events pg'
               = pg_events pg
                 ++ [tileSwap t (pfd_state (pg_current pg))
                       (pfd_state (pg_shadow pg))] ++ spawned
            /\ match pg_swap pg with
               | Some held =>
                 pfd_typ (pg_current pg') = Some held
                 /\ pfd_state (pg_current pg') = Tile.initTileState held
                 /\ pg_swapEnabled pg' = false
                 /\ pg_preview pg' = pg_preview pg
                 /\ pg_previewCursor pg' = pg_previewCursor pg
               | None =>
                 pg_preview pg !! Z.to_nat (pg_previewCursor pg)
                 = Some (pfd_typ (pg_current pg'))
                 /\ pfd_typ (pg_current pg') <> None
                 /\ pg_swapEnabled pg' = true
               end
        else Playground.swapTile pg = Ret (false, pg)).
Proof.
  intros Hsteady Hg Hn.
  destruct (reached ok Hsteady g numPreviews cs Hg Hn)
    as (pg0 & pg & Hmake & Hrun & Hs & Hsup & _).
  exists pg0, pg. split; [exact Hmake|]. split; [exact Hrun|]. intros Hin.
  destruct (swapTile_sound ok Hsteady pg Hs Hsup) as (b & pg' & Hsw & _ & _).
  pose proof Hsw as H. unfold Playground.swapTile in H.
  rewrite (isInGame_true _ Hin) in H. cbn [negb] in H.
  destruct (pg_swapEnabled pg); cbn [negb] in H;
    [|by injection H as <- <-].
  destruct (sound_active pg Hs Hin) as (t & _ & Hvalid & _).
  destruct Hvalid as (Htyp & _).
  cbv zeta in H. rewrite Htyp in H. unfold deref in H.
  rewrite bind_Ret_l in H.
  apply bind_Ret in H as (pg2 & Hnext & H). cbv beta in H.
  injection H as <- <-.
  destruct (pg_swap pg) as [held|] eqn:Eheld.
  - pose proof (spawnTile_frame _ _ _ Hnext)
      as (Hf & _ & Hswap & Hen & _ & Hp & Hc & Hty & _).
    pose proof (spawnTile_state _ _ _ Hnext) as Hst.
    cbn in Hf, Hswap, Hen, Hp, Hc.
    assert (Hev : exists spawned,
               pg_events pg2
               = pg_events pg
                 ++ [tileSwap t (pfd_state (pg_current pg))
                       (pfd_state (pg_shadow pg))] ++ spawned).
    { destruct (spawnTile_events _ _ _ Hnext) as [[Hev _]|[Hev _]];
        cbn in Hev; rewrite <- app_assoc in Hev; eauto. }
    destruct Hev as (spawned & Hev).
    exists t, spawned, pg2. done.
  - pose proof (spawnNextTile_frame _ _ Hnext)
      as (Hf & Hswap & Hen & _ & head & Hhead & Hty & _).
    cbn in Hf, Hswap, Hen, Hhead.
    assert (Hev : exists spawned,
               pg_events pg2
               = pg_events pg
                 ++ [tileSwap t (pfd_state (pg_current pg))
                       (pfd_state (pg_shadow pg))] ++ spawned).
    { destruct (spawnNextTile_events _ _ Hnext)
        as [(? & Hev & _)|[(? & Hev & _)|(Hev & _)]];
        cbn in Hev; rewrite <- app_assoc in Hev; eauto. }
    destruct Hev as (spawned & Hev).
    exists t, spawned, pg2. rewrite Hen.
    split; [done|]. split; [done|]. split; [done|]. split; [done|].
    split; [done|]. split; [by rewrite Hty|]. split; [|done].
    rewrite Hty. eapply (supplied_preview ok pg); [exact Hsup|].
    apply at_index_lookup; [|exact Hhead].
    destruct Hsup as (_ & _ & Hlen & Hc & _). lia.
Qed.

Lemma swapTile_exchanges_with_the_hold_witness :
  Playground.swapTile
    (exampleAfter [Playground.Start; Playground.SwapTile; Playground.SwapTile])
  = Ret (false,
         exampleAfter [Playground.Start; Playground.SwapTile;
                       Playground.SwapTile])
  /\ exists t held pg',
       pfd_typ (pg_current (exampleAfter [Playground.Start;
                                          Playground.SwapTile])) = Some t
       /\ pg_swap (exampleAfter [Playground.Start; Playground.SwapTile])
          = Some held
       /\ Playground.swapTile
            (exampleAfter [Playground.Start; Playground.SwapTile])
          = Ret (true, pg')
       /\ pg_swap pg' = Some t
       /\ pfd_typ (pg_current pg') = Some held
       /\ pg_swapEnabled pg' = false.
Proof.
  split.
  - destruct (swapTile_exchanges_with_the_hold (bag exampleTiles)
                (ExampleEngine.permutator exampleTiles 0) 5
                [Playground.Start; Playground.SwapTile; Playground.SwapTile]
                example_steady example_bag ltac:(lia))
      as (pg0 & pg1 & Hmake & Hrun & Hswap).
    rewrite <- (exampleAfter_run _ _ _ Hmake Hrun) in Hswap.
    assert (Hin : pg_state (exampleAfter [Playground.Start; Playground.SwapTile;
                                          Playground.SwapTile]) = inGame)
      by (vm_compute; reflexivity).
    assert (Hen : pg_swapEnabled
                    (exampleAfter [Playground.Start; Playground.SwapTile;
                                   Playground.SwapTile]) = false)
      by (vm_compute; reflexivity).
    specialize (Hswap Hin). rewrite Hen in Hswap. exact Hswap.
  - destruct (swapTile_exchanges_with_the_hold (bag exampleTiles)
                (ExampleEngine.permutator exampleTiles 0) 5
                [Playground.Start; Playground.SwapTile]
                example_steady example_bag ltac:(lia))
      as (pg0 & pg1 & Hmake & Hrun & Hswap).
    rewrite <- (exampleAfter_run _ _ _ Hmake Hrun) in Hswap.
    assert (Hin : pg_state (exampleAfter [Playground.Start;
                                          Playground.SwapTile]) = inGame)
      by (vm_compute; reflexivity).
    assert (Hen : pg_swapEnabled
                    (exampleAfter [Playground.Start; Playground.SwapTile])
                  = true)
      by (vm_compute; reflexivity).
    specialize (Hswap Hin). rewrite Hen in Hswap.
    destruct Hswap as (t & spawned & pg' & Htyp & Hsw & Hheld & _ & _ & Hm).
    destruct (pg_swap (exampleAfter [Playground.Start; Playground.SwapTile]))
      as [held|] eqn:E; [|vm_compute in E; discriminate E].
    destruct Hm as (Hty & _ & Hdis & _).
    exists t, held, pg'.
    split; [exact Htyp|]. split; [reflexivity|]. split; [exact Hsw|].
    split; [exact Hheld|]. split; [exact Hty|exact Hdis].
Defined.

(** * historyRoll *)

Lemma occurrences_nil i : occurrences i [] = 0.
Proof. reflexivity. Qed.

Lemma occurrences_cons i j l :
  occurrences i (j :: l) = (if decide (i = j) then 1 else 0) + occurrences i l.
Proof.
  unfold occurrences. rewrite filter_cons.
  destruct (decide (i = j)); cbn [length]; lia.
Qed.

Lemma occurrences_app i l l' :
  occurrences i (l ++ l') = occurrences i l + occurrences i l'.
Proof.
  unfold occurrences. rewrite filter_app, length_app. lia.
Qed.

Lemma occurrences_range i l : 0 <= occurrences i l <= Z.of_nat (length l).
Proof.
  unfold occurrences. pose proof (length_filter (eq i) l). lia.
Qed.

Lemma occurrences_pos i l : 0 < occurrences i l <-> i ∈ l.
Proof.
  induction l as [|j l IH].
  - rewrite occurrences_nil. split; [lia|]. by intros ?%elem_of_nil.
  - rewrite occurrences_cons, elem_of_cons.
    pose proof (occurrences_range i l).
    destruct (decide (i = j)); [split; [by left|lia]|].
    rewrite Z.add_0_l, IH. split; [by right|]. by intros [?|?].
Qed.

Section rolling.

Context {R : Type}.
Variable seedEngine : Z -> R.
Variable sample : R -> Z -> Z -> Z * R.
Hypothesis Hsample :
  forall engine a b, a <= b -> a <= fst (sample engine a b) <= b.

Variable tiles : list (option tile).
Hypothesis Htiles : tiles <> [].
Hypothesis Hfit : Z.of_nat (length tiles) < 2 ^ 64.

Lemma tiles_pos : 0 < Z.of_nat (length tiles).
Proof.
  assert (length tiles <> 0%nat) by (by intros ?%nil_length_inv). lia.
Qed.

Lemma bound_tiles :
  to_size_t (Z.of_nat (length tiles) - 1) = Z.of_nat (length tiles) - 1.
Proof.
  unfold to_size_t. apply Z.mod_small. pose proof tiles_pos. lia.
Qed.

Lemma countHistory_spec history counts done :
  length counts = length tiles ->
  Forall (fun i => 0 <= i) history ->
  Z.of_nat (length done) + Z.of_nat (length history) < 2 ^ 64 ->
  (forall i, 0 <= i < Z.of_nat (length tiles) ->
     counts !! Z.to_nat i = Some (occurrences i done)) ->
  length (HistoryRoll.countHistory (Z.of_nat (length tiles)) counts history)
  = length tiles
  /\ forall i, 0 <= i < Z.of_nat (length tiles) ->
       HistoryRoll.countHistory (Z.of_nat (length tiles)) counts history
         !! Z.to_nat i
       = Some (occurrences i (done ++ history)).
Proof.
  revert counts done.
  induction history as [|j history IH]; intros counts done Hlen Hpos Hsmall Hc.
  - rewrite app_nil_r. done.
  - apply Forall_cons in Hpos as [Hj Hpos]. cbn [length] in Hsmall.
    unfold HistoryRoll.countHistory. cbn [foldl].
    fold (HistoryRoll.countHistory (Z.of_nat (length tiles))).
    replace (done ++ j :: history) with ((done ++ [j]) ++ history)
      by (by rewrite <- app_assoc).
    apply IH.
    + destruct (j <? _); [by rewrite length_insert|done].
    + exact Hpos.
    + rewrite length_app. cbn [length]. lia.
    + intros i Hi. rewrite occurrences_app, occurrences_cons, occurrences_nil.
      destruct (Z.ltb_spec j (Z.of_nat (length tiles))) as [Hlt|Hge].
      * destruct (decide (i = j)) as [->|Hne].
        -- rewrite list_lookup_insert_eq by lia.
           rewrite (nth_lookup_Some _ _ _ _ (Hc j ltac:(lia))).
           unfold u64. rewrite Z.mod_small; [f_equal; lia|].
           pose proof (occurrences_range j done). lia.
        -- rewrite list_lookup_insert_ne by lia. rewrite Hc by lia.
           f_equal. lia.
      * destruct (decide (i = j)) as [->|Hne]; [lia|].
        rewrite Hc by lia. f_equal. lia.
Qed.

Lemma make_rolling retryTimes initialHistory seed :
  Forall (fun i => 0 <= i < 2 ^ 64) initialHistory ->
  Z.of_nat (length initialHistory) < 2 ^ 64 - 1 ->
  rolling tiles
    (HistoryRoll.make seedEngine tiles retryTimes initialHistory seed).
Proof.
  intros Hpos Hsmall. unfold rolling, HistoryRoll.make.
  cbn [roll_tiles roll_numTiles roll_counts roll_history roll_historySize].
  destruct (countHistory_spec initialHistory (replicate (length tiles) 0) [])
    as [Hlen Hc].
  - apply length_replicate.
  - eapply Forall_impl; [exact Hpos|]. cbn. intros; lia.
  - cbn [length]. lia.
  - intros i Hi. rewrite occurrences_nil. apply lookup_replicate_2. lia.
  - done.
Qed.

Lemma retry_spec counts history fuel result engine :
  length counts = length tiles ->
  (forall i, 0 <= i < Z.of_nat (length tiles) ->
     counts !! Z.to_nat i = Some (occurrences i history)) ->
  0 <= result < Z.of_nat (length tiles) ->
  exists k result' engine',
    (k <= fuel)%nat
    /\ HistoryRoll.retry sample fuel counts (Z.of_nat (length tiles) - 1)
         result engine = Ret (result', engine')
    /\ 0 <= result' < Z.of_nat (length tiles)
    /\ (result :: HistoryRoll.samples sample fuel
                    (Z.of_nat (length tiles) - 1) engine) !! k = Some result'
    /\ (forall j s, (j < k)%nat ->
          (result :: HistoryRoll.samples sample fuel
                       (Z.of_nat (length tiles) - 1) engine) !! j = Some s ->
          s ∈ history)
    /\ ((k < fuel)%nat -> result' ∉ history).
Proof.
  intros Hlen Hc. revert result engine.
  induction fuel as [|fuel IH]; intros result engine Hr.
  - exists O, result, engine. cbn. split; [lia|]. split; [done|].
    split; [done|]. split; [done|]. split; intros; lia.
  - cbn [HistoryRoll.retry HistoryRoll.samples].
    rewrite (at_index_lookup counts result _ ltac:(lia) (Hc result Hr)).
    rewrite bind_Ret_l.
    destruct (Z.ltb_spec 0 (occurrences result history)) as [Hin|Hout].
    + pose proof (Hsample engine 0 (Z.of_nat (length tiles) - 1)) as Hs.
      destruct (sample engine 0 (Z.of_nat (length tiles) - 1))
        as [next engine1].
      cbn [fst] in Hs.
      destruct (IH next engine1) as (k & r' & e' & Hk & Hret & Hr' & Hnth
                                     & Hall & Hlast).
      { pose proof tiles_pos. lia. }
      exists (S k), r', e'. split; [lia|]. split; [exact Hret|].
      split; [exact Hr'|]. split; [exact Hnth|]. split.
      * intros [|j] s Hj Hs'.
        -- cbn in Hs'. injection Hs' as <-. by apply occurrences_pos.
        -- apply (Hall j); [lia|exact Hs'].
      * intros Hlt. apply Hlast. lia.
    + exists O, result, engine. split; [lia|]. split; [done|].
      split; [done|]. split; [done|]. split; [intros; lia|].
      intros _ Hin. apply occurrences_pos in Hin. lia.
Qed.

Lemma generate_spec (r : historyRoll R) :
  rolling tiles r ->
  exists k result t r',
    (k <= Z.to_nat (roll_retryTimes r))%nat
    /\ 0 <= result < Z.of_nat (length tiles)
    /\ HistoryRoll.samples sample (S (Z.to_nat (roll_retryTimes r)))
         (Z.of_nat (length tiles) - 1) (roll_workData r) !! k = Some result
    /\ (forall j s, (j < k)%nat ->
          HistoryRoll.samples sample (S (Z.to_nat (roll_retryTimes r)))
            (Z.of_nat (length tiles) - 1) (roll_workData r) !! j = Some s ->
          s ∈ roll_history r)
    /\ ((k < Z.to_nat (roll_retryTimes r))%nat -> result ∉ roll_history r)
    /\ tiles !! Z.to_nat result = Some t
    /\ HistoryRoll.generate sample r = Ret (t, r')
    /\ roll_history r' = tail (roll_history r ++ [result])
    /\ roll_retryTimes r' = roll_retryTimes r
    /\ rolling tiles r'.
Proof.
  intros (Ht & Hn & Hlen & Hsize & Hsmall & Hpos & Hc).
  unfold HistoryRoll.generate. rewrite Hn, bound_tiles. cbv zeta.
  cbn [HistoryRoll.samples].
  pose proof (Hsample (roll_workData r) 0 (Z.of_nat (length tiles) - 1)) as Hs.
  destruct (sample (roll_workData r) 0 (Z.of_nat (length tiles) - 1))
    as [first engine1].
  cbn [fst] in Hs. pose proof tiles_pos as Hpos0.
  destruct (retry_spec (roll_counts r) (roll_history r)
              (Z.to_nat (roll_retryTimes r)) first engine1 Hlen Hc
              ltac:(lia))
    as (k & result & engine' & Hk & Hret & Hr & Hnth & Hall & Hlast).
  rewrite Hret, bind_Ret_l. cbv beta iota.
  rewrite (at_index_lookup (roll_counts r) result _ ltac:(lia) (Hc result Hr)).
  rewrite bind_Ret_l.
  destruct (lookup_lt_is_Some_2 tiles (Z.to_nat result) ltac:(lia)) as [t Hlt].
  exists k, result, t.
  assert (Hl : exists front tl,
             roll_history r ++ [result] = front :: tl
             /\ 0 <= front < 2 ^ 64
             /\ Forall (fun i => 0 <= i < 2 ^ 64) tl
             /\ length tl = length (roll_history r)
             /\ forall i,
                  occurrences i (roll_history r)
                  + (if decide (i = result) then 1 else 0)
                  = (if decide (i = front) then 1 else 0) + occurrences i tl).
  { assert (Hall' : Forall (fun i => 0 <= i < 2 ^ 64)
                      (roll_history r ++ [result])).
    { apply Forall_app. split; [exact Hpos|]. repeat constructor; lia. }
    assert (Hlen' : length (roll_history r ++ [result])
                    = S (length (roll_history r)))
      by (rewrite length_app; cbn [length]; lia).
    assert (Hocc : forall i,
               occurrences i (roll_history r ++ [result])
               = occurrences i (roll_history r)
                 + (if decide (i = result) then 1 else 0)).
    { intros i.
      rewrite occurrences_app, occurrences_cons, occurrences_nil. lia. }
    destruct (roll_history r ++ [result]) as [|front tl]; [discriminate|].
    apply Forall_cons in Hall' as [Hf Htl].
    exists front, tl. split; [done|]. split; [done|]. split; [done|].
    split; [by injection Hlen'|].
    intros i. rewrite <- Hocc, occurrences_cons. reflexivity. }
  destruct Hl as (front & tl & El & Hfront & Htl & Hlentl & Hocc).
  rewrite El. cbn [head tail deref]. rewrite bind_Ret_l.
  assert (Hinc : forall i, 0 <= i < Z.of_nat (length tiles) ->
             <[Z.to_nat result := u64 (occurrences result (roll_history r) + 1)]>
               (roll_counts r) !! Z.to_nat i
             = Some (occurrences i (roll_history r)
                     + (if decide (i = result) then 1 else 0))).
  { intros i Hi. destruct (decide (i = result)) as [->|Hne].
    - rewrite list_lookup_insert_eq by lia. unfold u64.
      rewrite Z.mod_small; [done|].
      pose proof (occurrences_range result (roll_history r)). lia.
    - rewrite list_lookup_insert_ne by lia. rewrite Hc by lia.
      f_equal. lia. }
  assert (Hcounts : exists counts',
             (if front <? Z.of_nat (length tiles)
              then
                c ← Field.at_index
                      (<[Z.to_nat result
                         := u64 (occurrences result (roll_history r) + 1)]>
                         (roll_counts r)) front;
                Ret (<[Z.to_nat front := u64 (c - 1)]>
                       (<[Z.to_nat result
                          := u64 (occurrences result (roll_history r) + 1)]>
                          (roll_counts r)))
              else
                Ret (<[Z.to_nat result
                       := u64 (occurrences result (roll_history r) + 1)]>
                       (roll_counts r)))
             = Ret counts'
             /\ length counts' = length tiles
             /\ forall i, 0 <= i < Z.of_nat (length tiles) ->
                  counts' !! Z.to_nat i = Some (occurrences i tl)).
  { destruct (Z.ltb_spec front (Z.of_nat (length tiles))) as [Hlt'|Hge].
    - rewrite (at_index_lookup _ front _ ltac:(lia) (Hinc front ltac:(lia))).
      rewrite bind_Ret_l. eexists. split; [reflexivity|].
      split; [by rewrite !length_insert|].
      intros i Hi. pose proof (Hocc i) as Hi'. pose proof (Hocc front) as Hf'.
      pose proof (occurrences_range i tl).
      pose proof (occurrences_range front tl).
      destruct (decide (i = front)) as [->|Hne].
      + rewrite list_lookup_insert_eq by (rewrite length_insert; lia).
        unfold u64. rewrite Z.mod_small; [f_equal; lia|]. lia.
      + rewrite list_lookup_insert_ne by lia. rewrite Hinc by lia.
        f_equal. lia.
    - eexists. split; [reflexivity|]. split; [by rewrite length_insert|].
      intros i Hi. rewrite Hinc by lia. pose proof (Hocc i) as Hi'.
      destruct (decide (i = front)); [lia|]. f_equal. lia. }
  destruct Hcounts as (counts' & -> & Hlen' & Hc').
  rewrite bind_Ret_l, Ht.
  rewrite (at_index_lookup tiles result _ ltac:(lia) Hlt), bind_Ret_l.
  eexists. split; [exact Hk|]. split; [exact Hr|]. split; [exact Hnth|].
  split; [exact Hall|]. split; [exact Hlast|]. split; [exact Hlt|].
  split; [reflexivity|]. cbn [roll_history roll_retryTimes].
  split; [reflexivity|]. split; [reflexivity|].
  unfold rolling.
  cbn [roll_tiles roll_numTiles roll_counts roll_history roll_historySize].
  split; [done|]. split; [done|]. split; [done|]. split; [lia|].
  split; [done|]. split; [done|]. exact Hc'.
Qed.

End rolling.

Lemma exampleSample_range engine a b :
  a <= b -> a <= fst (exampleSample engine a b) <= b.
Proof.
  intros Hab. unfold exampleSample. cbn [fst].
  pose proof (Z.mod_pos_bound engine (b - a + 1) ltac:(lia)). lia.
Qed.

(** A [historyRoll] over at least one tile never fails and remembers its
    last results: [n] calls of [generate] return [n] tiles of the working
    set, and afterwards the history holds the last [historySize] indices of
    the initial history followed by the indices drawn, and [counts] the
    occurrences of every index in that history. Over no tile at all,
    [generate] reads outside [counts], which is undefined. *)
Theorem historyRoll_remembers_the_last_results {R : Type}
    (seedEngine : Z -> R) (sample : R -> Z -> Z -> Z * R)
    (tiles : list (option tile)) (retryTimes : Z) (initialHistory : list Z)
    (seed : Z) (n : nat) :
  (forall engine a b, a <= b -> a <= fst (sample engine a b) <= b) ->
  Z.of_nat (length tiles) < 2 ^ 64 ->
  Forall (fun i => 0 <= i < 2 ^ 64) initialHistory ->
  Z.of_nat (length initialHistory) < 2 ^ 64 - 1 ->
  (tiles = [] ->
   HistoryRoll.generate sample
     (HistoryRoll.make seedEngine tiles retryTimes initialHistory seed)
   = Undefined)
  /\ (tiles <> [] ->
      exists ts results r,
        HistoryRoll.draws sample n
          (HistoryRoll.make seedEngine tiles retryTimes initialHistory seed)
        = Ret (ts, r)
        /\ length results = n
        /\ Forall2 (fun t i => 0 <= i /\ tiles !! Z.to_nat i = Some t)
             ts results
        /\ roll_history r = drop n (initialHistory ++ results)
        /\ length (roll_history r) = length initialHistory
        /\ forall i, 0 <= i < Z.of_nat (length tiles) ->
             Field.at_index (roll_counts r) i
             = Ret (occurrences i (roll_history r))).
Proof.
  intros Hsample Hfit Hpos Hsmall. split; [intros ->|intros Htiles].
  - unfold HistoryRoll.generate, HistoryRoll.make.
    cbn [roll_numTiles roll_workData roll_counts roll_retryTimes length
         replicate].
    assert (Hc : forall h, HistoryRoll.countHistory (Z.of_nat 0) [] h = []).
    { induction h as [|i h IH]; [done|].
      unfold HistoryRoll.countHistory. cbn [foldl].
      destruct (i <? _); exact IH. }
    rewrite Hc.
    destruct (sample _ _ _) as [result engine].
    destruct (Z.to_nat retryTimes) as [|fuel]; cbn [HistoryRoll.retry].
    + rewrite bind_Ret_l. cbv beta iota.
      unfold Field.at_index. cbn [length].
      by destruct ((0 <=? result) && (result <? Z.of_nat 0)) eqn:E;
        [apply andb_true_iff in E as [?%Z.leb_le ?%Z.ltb_lt]; lia|].
    + unfold Field.at_index. cbn [length].
      by destruct ((0 <=? result) && (result <? Z.of_nat 0)) eqn:E;
        [apply andb_true_iff in E as [?%Z.leb_le ?%Z.ltb_lt]; lia|].
  - pose proof (make_rolling seedEngine tiles retryTimes initialHistory
                  seed Hpos Hsmall) as Hroll.
    change initialHistory
      with (roll_history
              (HistoryRoll.make seedEngine tiles retryTimes initialHistory
                 seed)) at 2 3.
    generalize dependent
      (HistoryRoll.make seedEngine tiles retryTimes initialHistory seed).
    clear Hpos Hsmall.
    induction n as [|n IH]; intros r Hroll; cbn [HistoryRoll.draws].
    + exists [], [], r. rewrite app_nil_r, drop_0.
      split; [done|]. split; [done|]. split; [constructor|].
      split; [done|]. split; [done|].
      intros i Hi. destruct Hroll as (_ & _ & Hlen & _ & _ & _ & Hc).
      apply at_index_lookup; [lia|]. by apply Hc.
    + destruct (generate_spec sample Hsample tiles Htiles Hfit r Hroll)
        as (k & result & t & r1 & _ & Hr & _ & _ & _ & Ht & Hg & Hh & _ & Hroll1).
      rewrite Hg, bind_Ret_l. cbv beta iota.
      destruct (IH r1 Hroll1) as (ts & results & r' & Hd & Hlen & Hall & Hh'
                                  & Hlen' & Hc).
      rewrite Hd, bind_Ret_l. cbv beta iota.
      exists (t :: ts), (result :: results), r'.
      split; [done|]. split; [cbn [length]; lia|].
      split; [constructor; [split; [lia|done]|done]|].
      split; [|split; [|exact Hc]].
      * rewrite Hh', Hh.
        replace (roll_history r ++ result :: results)
          with ((roll_history r ++ [result]) ++ results)
          by (by rewrite <- app_assoc).
        destruct (roll_history r ++ [result]) as [|front tl] eqn:El.
        { by destruct (roll_history r). }
        reflexivity.
      * rewrite Hlen', Hh.
        destruct (roll_history r ++ [result]) as [|front tl] eqn:El.
        { by destruct (roll_history r). }
        apply (f_equal length) in El. rewrite length_app in El.
        cbn [length tail] in *. lia.
Qed.

Lemma historyRoll_remembers_the_last_results_witness :
  exists ts results r,
    HistoryRoll.draws exampleSample 4
      (HistoryRoll.make ExampleEngine.seed exampleTiles 2 [0; 5] 7)
    = Ret (ts, r)
    /\ length results = 4%nat
    /\ Forall2 (fun t i => 0 <= i /\ exampleTiles !! Z.to_nat i = Some t)
         ts results
    /\ roll_history r = drop 4 ([0; 5] ++ results)
    /\ length (roll_history r) = length [0; 5]
    /\ forall i, 0 <= i < Z.of_nat (length exampleTiles) ->
         Field.at_index (roll_counts r) i
         = Ret (occurrences i (roll_history r)).
Proof.
  apply (historyRoll_remembers_the_last_results ExampleEngine.seed
           exampleSample exampleTiles 2 [0; 5] 7 4).
  - exact exampleSample_range.
  - vm_compute. reflexivity.
  - repeat constructor; discriminate.
  - vm_compute. reflexivity.
  - discriminate.
Defined.

(** One call of [generate] on a [historyRoll] over at least one tile draws
    at most [retryTimes + 1] samples and returns the tile of the last one
    drawn: every sample before it stands in the history, and when the
    result itself stands in the history (a recent tile comes again) all
    the [retryTimes + 1] draws did. With an empty history or no retry the
    first sample is the result. *)
Theorem historyRoll_retries_recent_tiles {R : Type}
    (sample : R -> Z -> Z -> Z * R) (tiles : list (option tile))
    (r : historyRoll R) :
  (forall engine a b, a <= b -> a <= fst (sample engine a b) <= b) ->
  tiles <> [] -> Z.of_nat (length tiles) < 2 ^ 64 ->
  rolling tiles r ->
  exists k result t r',
    HistoryRoll.generate sample r = Ret (t, r')
    /\ tiles !! Z.to_nat result = Some t
    /\ 0 <= result < Z.of_nat (length tiles)
    /\ (k <= Z.to_nat (roll_retryTimes r))%nat
    /\ HistoryRoll.samples sample (S (Z.to_nat (roll_retryTimes r)))
         (Z.of_nat (length tiles) - 1) (roll_workData r) !! k = Some result
    /\ (forall j s, (j < k)%nat ->
          HistoryRoll.samples sample (S (Z.to_nat (roll_retryTimes r)))
            (Z.of_nat (length tiles) - 1) (roll_workData r) !! j = Some s ->
          s ∈ roll_history r)
    /\ (result ∈ roll_history r -> k = Z.to_nat (roll_retryTimes r))
    /\ (roll_history r = [] \/ roll_retryTimes r <= 0 -> k = O).
Proof.
  intros Hsample Htiles Hfit Hroll.
  destruct (generate_spec sample Hsample tiles Htiles Hfit r Hroll)
    as (k & result & t & r' & Hk & Hr & Hnth & Hall & Hlast & Ht & Hg & _).
  exists k, result, t, r'. split; [exact Hg|]. split; [exact Ht|].
  split; [exact Hr|]. split; [exact Hk|]. split; [exact Hnth|].
  split; [exact Hall|]. split.
  - intros Hin. destruct (decide (k < Z.to_nat (roll_retryTimes r))%nat) as [Hlt|];
      [|lia].
    by apply Hlast in Hlt.
  - intros [Hempty|Hzero]; [|lia].
    destruct k as [|k]; [done|]. exfalso.
    cbn [HistoryRoll.samples] in Hall.
    destruct (sample (roll_workData r) 0 (Z.of_nat (length tiles) - 1))
      as [first engine1].
    specialize (Hall O first ltac:(lia) eq_refl).
    rewrite Hempty in Hall. by apply elem_of_nil in Hall.
Qed.

Lemma historyRoll_retries_recent_tiles_witness :
  exists k result t r',
    HistoryRoll.generate exampleSample
      (HistoryRoll.make ExampleEngine.seed exampleTiles 2 [0; 5] 7)
    = Ret (t, r')
    /\ exampleTiles !! Z.to_nat result = Some t
    /\ (k <= 2)%nat
    /\ (result ∈ [0; 5] -> k = 2%nat).
Proof.
  destruct (historyRoll_retries_recent_tiles exampleSample exampleTiles
              (HistoryRoll.make ExampleEngine.seed exampleTiles 2 [0; 5] 7)
              exampleSample_range)
    as (k & result & t & r' & Hg & Ht & _ & Hk & _ & _ & Hin & _).
  - discriminate.
  - vm_compute. reflexivity.
  - apply make_rolling.
    + repeat constructor; discriminate.
    + vm_compute. reflexivity.
  - exists k, result, t, r'. split; [exact Hg|]. split; [exact Ht|].
    split; [exact Hk|exact Hin].
Defined.

(** * The constructor of a tile *)

Lemma coord_x_packed b c :
  0 <= b <= 7 -> 0 <= c <= 7 -> TileCoord.x (16 * b + c) = c.
Proof.
  intros Hb Hc. unfold TileCoord.x, TileCoord.sext4.
  replace ((16 * b + c) mod 16) with c
    by (apply (Z.mod_unique_pos _ _ b); lia).
  destruct (Z.ltb_spec c 8); lia.
Qed.

Lemma coord_y_packed b c :
  0 <= b <= 7 -> 0 <= c <= 7 -> TileCoord.y (16 * b + c) = b.
Proof.
  intros Hb Hc. unfold TileCoord.y, TileCoord.sext4.
  replace ((16 * b + c) / 16) with b
    by (apply (Z.div_unique_pos _ _ _ c); lia).
  rewrite Z.mod_small by lia. destruct (Z.ltb_spec b 8); lia.
Qed.

Lemma set_x_packed b c a :
  0 <= b <= 7 -> 0 <= c <= 7 -> 0 <= a <= 7 ->
  TileCoord.set_x (16 * b + c) a = 16 * b + a.
Proof.
  intros Hb Hc Ha. unfold TileCoord.set_x.
  replace ((16 * b + c) / 16) with b
    by (apply (Z.div_unique_pos _ _ _ c); lia).
  rewrite !Z.mod_small by lia. lia.
Qed.

Lemma set_y_packed b c a :
  0 <= b <= 7 -> 0 <= c <= 7 -> 0 <= a <= 7 ->
  TileCoord.set_y (16 * b + c) a = 16 * a + c.
Proof.
  intros Hb Hc Ha. unfold TileCoord.set_y.
  replace ((16 * b + c) mod 16) with c
    by (apply (Z.mod_unique_pos _ _ b); lia).
  rewrite Z.mod_small by lia. lia.
Qed.

Lemma tileCoordAt_packed x y :
  0 <= x <= 7 -> 0 <= y <= 7 -> tileCoordAt x y = 16 * y + x.
Proof.
  intros Hx Hy. unfold tileCoordAt.
  change 0 with (16 * 0 + 0) at 1.
  rewrite set_x_packed, set_y_packed by lia. reflexivity.
Qed.

Lemma cells_range c :
  c ∈ Tile.cells -> 0 <= fst c <= 5 /\ 0 <= snd c <= 5.
Proof.
  assert (H : forallb (fun c => (0 <=? fst c) && (fst c <=? 5)
                                && (0 <=? snd c) && (snd c <=? 5))
                Tile.cells = true) by reflexivity.
  rewrite forallb_forall in H. intros Hc%list_elem_of_In%H.
  rewrite !andb_true_iff in Hc. lia.
Qed.

Lemma cell_bit x y :
  0 <= x <= 5 -> 0 <= y <= 5 ->
  u64 (Z.shiftl (u64 (Z.shiftl 1 x)) (10 * y)) = 2 ^ (10 * y + x).
Proof.
  intros Hx Hy. rewrite Z.shiftl_1_l. unfold u64.
  rewrite (Z.mod_small (2 ^ x)).
  2:{ split; [apply Z.pow_nonneg; lia|].
      apply Z.pow_lt_mono_r; lia. }
  rewrite Z.shiftl_mul_pow2 by lia.
  rewrite <- Z.pow_add_r by lia.
  rewrite Z.mod_small; [f_equal; lia|].
  split; [apply Z.pow_nonneg; lia|]. apply Z.pow_lt_mono_r; lia.
Qed.

Section scan.

Variable input : tileData.
Variable i : Z.

Lemma scanCell_dark s x y :
  Tile.input_at input i y x = 0 -> Tile.scanCell input i s (x, y) = Ret s.
Proof. intros H. unfold Tile.scanCell. by rewrite H. Qed.

Lemma scanCell_full s x y :
  Tile.input_at input i y x <> 0 ->
  (8 <= length (Tile.s_data s))%nat ->
  Tile.scanCell input i s (x, y) = Throw "too many pixels".
Proof.
  intros H Hlen. unfold Tile.scanCell.
  destruct (Z.eqb_spec (Tile.input_at input i y x) 0); [done|].
  unfold maxNumPixels. destruct (Z.leb_spec 8 (Z.of_nat (length (Tile.s_data s))));
    [done|lia].
Qed.

Lemma scanCell_lit ps s x y :
  scanned input i ps s ->
  Tile.input_at input i y x <> 0 ->
  1 <= x <= 5 -> 1 <= y <= 5 ->
  (forall c, c ∈ ps -> 1 <= fst c /\ 1 <= snd c) ->
  (length ps < 8)%nat ->
  exists s',
    Tile.scanCell input i s (x, y) = Ret s'
    /\ scanned input i (ps ++ [(x, y)]) s'.
Proof.
  intros (Hd & Hl & Hpos & Hbits & minx & miny & maxx & maxy & Hmin & Hmax
          & Rminx & Rminy & Rmaxx & Rmaxy & Hnil & Hall & Hhit)
         Hv Hx Hy Hps Hlen.
  unfold Tile.scanCell.
  destruct (Z.eqb_spec (Tile.input_at input i y x) 0); [done|].
  assert (Hlen' : length (Tile.s_data s) = length ps)
    by (rewrite Hd; apply length_fmap).
  unfold maxNumPixels. rewrite Hlen'.
  destruct (Z.leb_spec 8 (Z.of_nat (length ps))); [lia|].
  eexists. split; [reflexivity|].
  unfold scanned. cbn [Tile.s_data Tile.s_loc Tile.s_compact Tile.s_vmin
                       Tile.s_vmax].
  split; [by rewrite Hd, fmap_app|]. split; [by rewrite Hl, fmap_app|].
  rewrite cell_bit by lia.
  split; [apply Z.lor_nonneg; split; [done|apply Z.pow_nonneg; lia]|].
  split.
  { intros m. rewrite Z.lor_spec, orb_true_iff, Hbits.
    rewrite Z.pow2_bits_eqb by lia. rewrite Z.eqb_eq.
    split.
    - intros [(c & Hc & Hn)|Hn].
      + exists c. split; [apply elem_of_app; by left|done].
      + exists (x, y). split; [apply elem_of_app; right; by constructor|].
        cbn. lia.
    - intros (c & Hc & Hn). apply elem_of_app in Hc as [Hc|Hc].
      + left. eauto.
      + apply list_elem_of_singleton in Hc as ->. right. cbn in Hn. lia. }
  rewrite Hmin, Hmax.
  rewrite (coord_x_packed miny minx) by lia.
  destruct ps as [|p ps].
  - destruct (Hnil eq_refl) as (-> & -> & -> & ->).
    change (16 * 0 + 0) with 0.
    assert (Esx : TileCoord.set_x 0 x = x).
    { pose proof (set_x_packed 0 0 x) as E.
      rewrite Z.mul_0_r, !Z.add_0_l in E. apply E; lia. }
    assert (Eyx : TileCoord.y x = 0).
    { pose proof (coord_y_packed 0 x) as E.
      rewrite Z.mul_0_r, Z.add_0_l in E. apply E; lia. }
    assert (Esy : TileCoord.set_y x y = 16 * y + x).
    { pose proof (set_y_packed 0 x y) as E.
      rewrite Z.mul_0_r, Z.add_0_l in E. apply E; lia. }
    change (TileCoord.x 0) with 0. cbn [Z.eqb orb].
    rewrite Esx, Eyx. cbn [Z.eqb orb]. rewrite Esy.
    exists x, y, x, y. cbn [app].
    split; [done|]. split; [done|].
    split; [lia|]. split; [lia|]. split; [lia|]. split; [lia|].
    split; [done|]. split.
    + intros c ->%list_elem_of_singleton. cbn. lia.
    + intros _. repeat split; exists (x, y); (split; [by constructor|done]).
  - destruct (Hhit ltac:(done)) as ((c1 & Hc1 & E1) & (c2 & Hc2 & E2)
                                    & (c3 & Hc3 & E3) & (c4 & Hc4 & E4)).
    pose proof (Hps c1 Hc1). pose proof (Hps c2 Hc2).
    pose proof (Hps c3 Hc3). pose proof (Hps c4 Hc4).
    pose proof (Hall c1 Hc1). pose proof (Hall c2 Hc2).
    pose proof (Hall c3 Hc3). pose proof (Hall c4 Hc4).
    destruct (Z.eqb_spec minx 0); [lia|]. cbn [orb].
    set (minx' := if x <? minx then x else minx).
    set (miny' := if y <? miny then y else miny).
    set (maxx' := if maxx <? x then x else maxx).
    set (maxy' := if maxy <? y then y else maxy).
    assert (Hminx : minx' = Z.min x minx)
      by (unfold minx'; destruct (Z.ltb_spec x minx); lia).
    assert (Hminy : miny' = Z.min y miny)
      by (unfold miny'; destruct (Z.ltb_spec y miny); lia).
    assert (Hmaxx : maxx' = Z.max x maxx)
      by (unfold maxx'; destruct (Z.ltb_spec maxx x); lia).
    assert (Hmaxy : maxy' = Z.max y maxy)
      by (unfold maxy'; destruct (Z.ltb_spec maxy y); lia).
    assert (E1' : (if x <? minx then TileCoord.set_x (16 * miny + minx) x
                   else 16 * miny + minx) = 16 * miny + minx').
    { unfold minx'. destruct (x <? minx); [|done].
      by rewrite set_x_packed by lia. }
    rewrite E1'. rewrite (coord_y_packed miny minx') by lia.
    destruct (Z.eqb_spec miny 0); [lia|]. cbn [orb].
    assert (E2' : (if y <? miny then TileCoord.set_y (16 * miny + minx') y
                   else 16 * miny + minx') = 16 * miny' + minx').
    { unfold miny'. destruct (y <? miny); [|done].
      by rewrite set_y_packed by lia. }
    rewrite E2'. rewrite (coord_x_packed maxy maxx) by lia.
    destruct (Z.eqb_spec maxx 0); [lia|]. cbn [orb].
    assert (E3' : (if maxx <? x then TileCoord.set_x (16 * maxy + maxx) x
                   else 16 * maxy + maxx) = 16 * maxy + maxx').
    { unfold maxx'. destruct (maxx <? x); [|done].
      by rewrite set_x_packed by lia. }
    rewrite E3'. rewrite (coord_y_packed maxy maxx') by lia.
    destruct (Z.eqb_spec maxy 0); [lia|]. cbn [orb].
    assert (E4' : (if maxy <? y then TileCoord.set_y (16 * maxy + maxx') y
                   else 16 * maxy + maxx') = 16 * maxy' + maxx').
    { unfold maxy'. destruct (maxy <? y); [|done].
      by rewrite set_y_packed by lia. }
    rewrite E4'.
    exists minx', miny', maxx', maxy'.
    split; [done|]. split; [done|].
    split; [lia|]. split; [lia|]. split; [lia|]. split; [lia|].
    split; [done|]. split.
    + intros c Hc. apply elem_of_app in Hc as [Hc|Hc].
      * pose proof (Hall c Hc). lia.
      * apply list_elem_of_singleton in Hc as ->. cbn. lia.
    + intros _.
      assert (Hold : forall c, c ∈ p :: ps -> c ∈ (p :: ps) ++ [(x, y)])
        by (intros; apply elem_of_app; by left).
      assert (Hnew : (x, y) ∈ (p :: ps) ++ [(x, y)])
        by (apply elem_of_app; right; by constructor).
      split; [|split; [|split]].
      * destruct (Z.le_gt_cases x minx);
          [exists (x, y)|exists c1]; split; auto; cbn; lia.
      * destruct (Z.le_gt_cases y miny);
          [exists (x, y)|exists c2]; split; auto; cbn; lia.
      * destruct (Z.le_gt_cases maxx x);
          [exists (x, y)|exists c3]; split; auto; cbn; lia.
      * destruct (Z.le_gt_cases maxy y);
          [exists (x, y)|exists c4]; split; auto; cbn; lia.
Qed.

Lemma scanCells_spec cs ps s :
  scanned input i ps s ->
  (forall c, c ∈ cs -> 0 <= fst c <= 5 /\ 0 <= snd c <= 5) ->
  (forall c,
     c ∈ ps ++ filter (fun c => Tile.input_at input i (snd c) (fst c) <> 0) cs ->
     1 <= fst c /\ 1 <= snd c) ->
  (length ps
   + length (filter (fun c => Tile.input_at input i (snd c) (fst c) <> 0%Z)
               cs)
   <= 8)%nat ->
  exists s',
    Tile.scanCells input i cs s = Ret s'
    /\ scanned input i
         (ps ++ filter (fun c => Tile.input_at input i (snd c) (fst c) <> 0) cs)
         s'.
Proof.
  revert ps s. induction cs as [|[x y] cs IH]; intros ps s Hs Hr Hlit Hlen.
  - rewrite filter_nil, app_nil_r. cbn. eauto.
  - cbn [Tile.scanCells]. rewrite filter_cons in Hlit, Hlen |- *.
    cbn [fst snd] in Hlit, Hlen |- *.
    pose proof (Hr (x, y) ltac:(by left)) as [Hx Hy]. cbn [fst snd] in Hx, Hy.
    assert (Hr' : forall c, c ∈ cs -> 0 <= fst c <= 5 /\ 0 <= snd c <= 5)
      by (intros c Hc; apply Hr; by right).
    destruct (decide (Tile.input_at input i y x <> 0)) as [Hv|Hv].
    + cbn [length] in Hlen.
      pose proof (Hlit (x, y) ltac:(apply elem_of_app; right; by left))
        as [Hx1 Hy1]. cbn [fst snd] in Hx1, Hy1.
      destruct (scanCell_lit ps s x y Hs Hv ltac:(lia) ltac:(lia))
        as (s1 & -> & Hs1).
      { intros c Hc. apply Hlit, elem_of_app. by left. }
      { lia. }
      rewrite bind_Ret_l.
      replace (ps ++ (x, y) :: filter _ cs)
        with ((ps ++ [(x, y)]) ++
              filter (fun c => Tile.input_at input i (snd c) (fst c) <> 0) cs)
        in Hlit |- * by (by rewrite <- app_assoc).
      apply IH; [done|done|done|]. rewrite length_app. cbn [length]. lia.
    + rewrite scanCell_dark by (by destruct (decide (Tile.input_at input i y x = 0))).
      rewrite bind_Ret_l. by apply IH.
Qed.

Lemma scanCells_throw cs s :
  (length (Tile.s_data s) <= 8)%nat ->
  (8 < length (Tile.s_data s)
       + length (filter (fun c => Tile.input_at input i (snd c) (fst c) <> 0%Z)
                   cs))%nat ->
  Tile.scanCells input i cs s = Throw "too many pixels".
Proof.
  revert s. induction cs as [|[x y] cs IH]; intros s Hs Hlen.
  - rewrite filter_nil in Hlen. cbn [length] in Hlen. lia.
  - cbn [Tile.scanCells]. rewrite filter_cons in Hlen. cbn [fst snd] in Hlen.
    destruct (decide (Tile.input_at input i y x <> 0)) as [Hv|Hv].
    + cbn [length] in Hlen.
      destruct (decide (8 <= length (Tile.s_data s))%nat) as [Hfull|Hroom].
      * by rewrite scanCell_full.
      * unfold Tile.scanCell.
        destruct (Z.eqb_spec (Tile.input_at input i y x) 0); [done|].
        unfold maxNumPixels.
        destruct (Z.leb_spec 8 (Z.of_nat (length (Tile.s_data s)))); [lia|].
        rewrite bind_Ret_l. apply IH; cbn [Tile.s_data];
          rewrite length_app; cbn [length]; lia.
    + rewrite scanCell_dark by (by destruct (decide (Tile.input_at input i y x = 0))).
      rewrite bind_Ret_l. by apply IH.
Qed.

Lemma scanned_empty : scanned input i [] (Tile.mkScan [] [] 0 0 0).
Proof.
  unfold scanned. cbn. split; [done|]. split; [done|]. split; [done|].
  split.
  - intros n. rewrite Z.bits_0. split; [done|].
    by intros (c & ?%elem_of_nil & _).
  - exists 0, 0, 0, 0. split; [done|]. split; [done|].
    do 4 (split; [lia|]). split; [done|].
    split; [by intros c ?%elem_of_nil|done].
Qed.

Lemma scanOrientation_spec :
  (length (litCells input i) <= 8)%nat ->
  (forall c, c ∈ litCells input i -> 1 <= fst c /\ 1 <= snd c) ->
  exists s0,
    scanned input i (litCells input i) s0
    /\ Tile.scanOrientation input i
       = Ret (if Z.of_nat (length (litCells input i)) <? 8
              then Tile.mkScan (Tile.s_data s0 ++ [0]) (Tile.s_loc s0 ++ [0])
                     (Tile.s_compact s0) (Tile.s_vmin s0) (Tile.s_vmax s0)
              else s0).
Proof.
  intros Hlen Hlit.
  destruct (scanCells_spec Tile.cells [] (Tile.mkScan [] [] 0 0 0)
              scanned_empty cells_range Hlit Hlen) as (s0 & Hs0 & Hscan).
  cbn [app] in Hscan. fold (litCells input i) in Hscan.
  exists s0. split; [exact Hscan|].
  assert (Hlen0 : length (Tile.s_data s0) = length (litCells input i))
    by (destruct Hscan as (Hd & _); rewrite Hd; apply length_fmap).
  unfold Tile.scanOrientation. rewrite Hs0, bind_Ret_l, Hlen0.
  unfold maxNumPixels.
  by destruct (Z.of_nat (length (litCells input i)) <? 8).
Qed.

Lemma scanOrientation_throw :
  (8 < length (litCells input i))%nat ->
  Tile.scanOrientation input i = Throw "too many pixels".
Proof.
  intros Hlen. unfold Tile.scanOrientation.
  rewrite scanCells_throw; [done|cbn; lia|cbn [Tile.s_data length]; exact Hlen].
Qed.

End scan.

Lemma tableEntry_get rotation i j n v :
  0 <= i -> 0 <= j ->
  tableEntry rotation i j !! n = Some v ->
  (n < 12)%nat /\ RotationTable.get rotation i j (Z.of_nat n) = Ret v.
Proof.
  intros Hi Hj H. unfold tableEntry in H.
  apply lookup_take_Some in H as [H Hn]. rewrite lookup_drop in H.
  split; [exact Hn|]. unfold RotationTable.get.
  assert (E : (0 <=? Z.of_nat n) && (Z.of_nat n <? maxNumRotations) = true).
  { unfold maxNumRotations. apply andb_true_iff.
    split; [apply Z.leb_le|apply Z.ltb_lt]; lia. }
  rewrite E.
  replace (RotationTable.index i j (Z.of_nat n))
    with (RotationTable.index i j 0 + n)%nat
    by (unfold RotationTable.index; lia).
  exact (f_equal (fun o => match o with
                           | Some v0 => Ret v0
                           | None => Undefined
                           end) H).
Qed.

Lemma copyRotations_spec rotation i j rest :
  0 <= i -> 0 <= j ->
  forall fuel acc,
    tableEntry rotation i j = acc ++ rest ->
    0 ∈ rest -> (length rest < fuel)%nat ->
    Tile.copyRotations fuel rotation i j acc = Ret (acc ++ upToZero rest).
Proof.
  intros Hi Hj.
  induction rest as [|v rest IH]; intros fuel acc Hentry Hzero Hfuel.
  - by apply elem_of_nil in Hzero.
  - destruct fuel as [|fuel]; [cbn [length] in Hfuel; lia|].
    cbn [Tile.copyRotations length] in *.
    assert (Hv : tableEntry rotation i j !! length acc = Some v).
    { rewrite Hentry, lookup_app_r by lia.
      by rewrite Nat.sub_diag. }
    apply tableEntry_get in Hv as [Hn Hv]; [|done..].
    rewrite Hv, bind_Ret_l. cbn [upToZero].
    destruct (Z.eqb_spec v 0) as [->|Hne].
    + unfold maxNumRotations.
      destruct (Z.ltb_spec (Z.of_nat (length acc)) 12); [done|lia].
    + unfold maxNumRotations.
      destruct (Z.leb_spec 12 (Z.of_nat (length acc))); [lia|].
      rewrite (IH fuel (acc ++ [v])).
      * by rewrite <- app_assoc.
      * by rewrite <- app_assoc.
      * apply elem_of_cons in Hzero as [?|?]; [congruence|done].
      * lia.
Qed.

Lemma tableEntry_length rotation i j : (length (tableEntry rotation i j) <= 12)%nat.
Proof. unfold tableEntry. rewrite length_take. lia. Qed.

Lemma scanRotation_spec rotation i j :
  0 <= i -> 0 <= j -> 0 ∈ tableEntry rotation i j ->
  Tile.scanRotation rotation i j = Ret (upToZero (tableEntry rotation i j)).
Proof.
  intros Hi Hj Hzero. unfold Tile.scanRotation.
  rewrite (copyRotations_spec rotation i j (tableEntry rotation i j) Hi Hj
             14 []); [done|done|done|].
  pose proof (tableEntry_length rotation i j). lia.
Qed.

Lemma upToZero_terminated l fuel :
  0 ∈ l -> TileShape.terminated fuel (upToZero l) = true.
Proof.
  revert fuel. induction l as [|v l IH]; intros fuel Hzero.
  - by apply elem_of_nil in Hzero.
  - cbn [upToZero]. destruct (Z.eqb_spec v 0) as [->|Hne].
    + by destruct fuel.
    + destruct fuel as [|fuel]; [done|]. cbn [TileShape.terminated].
      rewrite IH; [by rewrite orb_true_r|].
      apply elem_of_cons in Hzero as [?|?]; [congruence|done].
Qed.

Lemma upToZero_kicks l fuel :
  RotateSpec.kicks fuel (upToZero l) = RotateSpec.kicks fuel l.
Proof.
  revert fuel. induction l as [|v l IH]; intros fuel; [done|].
  cbn [upToZero]. destruct (Z.eqb_spec v 0) as [->|Hne].
  - by destruct fuel.
  - destruct fuel as [|fuel]; [done|]. cbn [RotateSpec.kicks].
    by rewrite IH.
Qed.

Lemma mapM_Ret {A B} (f : A -> outcome B) (g : A -> B) (l : list A) :
  (forall a, a ∈ l -> f a = Ret (g a)) -> mapM f l = Ret (g <$> l).
Proof.
  induction l as [|a l IH]; intros H; [done|].
  cbn [mapM fmap list_fmap]. rewrite (H a) by (by left).
  rewrite bind_Ret_l, IH by (intros; apply H; by right).
  reflexivity.
Qed.

Lemma pixels_built input i lit fuel term :
  (length lit <= fuel)%nat ->
  (forall c, c ∈ lit -> Tile.input_at input i (snd c) (fst c) <> 0) ->
  term = [] \/ term = [0] ->
  TileShape.pixels fuel
    (((fun c => Tile.input_at input i (snd c) (fst c)) <$> lit) ++ term)
    (((fun c => tileCoordAt (fst c) (snd c)) <$> lit) ++ term)
  = pixelAt input i <$> lit.
Proof.
  revert fuel. induction lit as [|c lit IH]; intros fuel Hlen Hlit Hterm.
  - cbn [fmap list_fmap app].
    destruct Hterm as [->| ->]; destruct fuel; reflexivity.
  - destruct fuel as [|fuel]; [cbn [length] in Hlen; lia|].
    cbn [fmap list_fmap app TileShape.pixels length] in *.
    destruct (Z.eqb_spec (Tile.input_at input i (snd c) (fst c)) 0) as [E|_].
    + by apply Hlit in E; [|left].
    + f_equal. apply IH; [lia| |done]. intros; apply Hlit; by right.
Qed.

Lemma terminated_built (colours : list Z) fuel term :
  (length colours <= fuel)%nat ->
  term = (if Z.of_nat (length colours) <? Z.of_nat fuel then [0] else []) ->
  TileShape.terminated fuel (colours ++ term) = true.
Proof.
  revert fuel term. induction colours as [|v l IH]; intros fuel term Hlen ->.
  - destruct fuel; [done|]. cbn [length].
    destruct (Z.ltb_spec (Z.of_nat 0) (Z.of_nat (S fuel))); [done|lia].
  - destruct fuel as [|fuel]; [done|].
    cbn [app TileShape.terminated length] in *.
    rewrite IH; [by rewrite orb_true_r|lia|].
    destruct (Z.ltb_spec (Z.of_nat (S (length l))) (Z.of_nat (S fuel)));
      destruct (Z.ltb_spec (Z.of_nat (length l)) (Z.of_nat fuel)); try done; lia.
Qed.

Lemma litCells_lit input i c :
  c ∈ litCells input i ->
  Tile.input_at input i (snd c) (fst c) <> 0
  /\ 0 <= fst c <= 5 /\ 0 <= snd c <= 5.
Proof.
  unfold litCells. intros [Hv Hc]%list_elem_of_filter.
  split; [done|]. by apply cells_range.
Qed.

Lemma checkDir_built input i (t : tile) (d : tileDirection) s0 term :
  scanned input i (litCells input i) s0 ->
  litCells input i <> [] ->
  (length (litCells input i) <= 8)%nat ->
  (forall c, c ∈ litCells input i -> 1 <= fst c /\ 1 <= snd c) ->
  term = (if Z.of_nat (length (litCells input i)) <? 8 then [0] else []) ->
  tile_data t d = Tile.s_data s0 ++ term ->
  tile_loc t d = Tile.s_loc s0 ++ term ->
  tile_compactTile t d = Tile.s_compact s0 ->
  tile_min t d = Tile.s_vmin s0 ->
  tile_max t d = Tile.s_vmax s0 ->
  (forall j, TileShape.terminated (Z.to_nat maxNumRotations)
               (tile_rotateTable t d j) = true) ->
  TileShape.checkDir t d = true.
Proof.
  intros (Hd & Hl & Hpos & Hbits & minx & miny & maxx & maxy & Hmin & Hmax
          & Rminx & Rminy & Rmaxx & Rmaxy & _ & Hall & Hhit)
         Hne Hlen Hlit Hterm Edata Eloc Emask Emin Emax Hrot.
  destruct (Hhit Hne) as (_ & (cb & Hcb & Ecb) & _).
  assert (Hsmall : Tile.s_compact s0 < 2 ^ 64).
  { apply (Z.bounded_iff_bits_nonneg 64); [lia|done|].
    intros m Hm. destruct (Z.testbit (Tile.s_compact s0) m) eqn:E; [|done].
    apply Hbits in E as (c & Hc & ->).
    apply litCells_lit in Hc as (_ & ? & ?). lia. }
  unfold TileShape.checkDir. cbv zeta.
  rewrite Edata, Eloc, Emask, Emin, Emax, Hmin, Hmax.
  rewrite !coord_x_packed, !coord_y_packed by lia.
  rewrite !andb_true_iff. repeat split.
  - lia.
  - lia.
  - lia.
  - lia.
  - lia.
  - lia.
  - apply forallb_forall. intros n _.
    destruct (Z.testbit (Tile.s_compact s0) n) eqn:E; [|done]. cbn [implb].
    apply Hbits in E as (c & Hc & ->).
    pose proof (Hall c Hc). apply litCells_lit in Hc as (_ & ? & ?).
    unfold TileShape.inBox.
    replace ((10 * snd c + fst c) mod 10) with (fst c)
      by (apply (Z.mod_unique_pos _ _ (snd c)); lia).
    replace ((10 * snd c + fst c) / 10) with (snd c)
      by (apply (Z.div_unique_pos _ _ _ (fst c)); lia).
    rewrite !andb_true_iff. lia.
  - apply existsb_exists. exists (10 * snd cb + fst cb).
    pose proof (litCells_lit _ _ _ Hcb) as (_ & ? & ?).
    split; [apply list_elem_of_In, bits_range; lia|].
    apply andb_true_iff. split; [apply Hbits; eauto|].
    replace ((10 * snd cb + fst cb) / 10) with (snd cb)
      by (apply (Z.div_unique_pos _ _ _ (fst cb)); lia).
    lia.
  - rewrite Hd, Hl.
    rewrite (pixels_built input i (litCells input i) (Z.to_nat maxNumPixels)
               term).
    + apply forallb_forall. intros [v l] Hp.
      apply list_elem_of_In, list_elem_of_fmap in Hp as (c & Ep & Hc).
      injection Ep as -> ->.
      pose proof (litCells_lit _ _ _ Hc) as (_ & ? & ?).
      rewrite tileCoordAt_packed by lia.
      rewrite coord_x_packed, coord_y_packed by lia.
      rewrite !andb_true_iff.
      split; [lia|]. apply Hbits. eauto.
    + unfold maxNumPixels. lia.
    + intros c Hc. by apply litCells_lit in Hc as (? & _).
    + rewrite Hterm. destruct (_ <? 8); auto.
  - rewrite Hd. apply terminated_built.
    + rewrite length_fmap. unfold maxNumPixels. lia.
    + rewrite length_fmap, Hterm. reflexivity.
  - apply Nat.leb_le. rewrite Hd, Hl, !length_app, !length_fmap. lia.
  - apply forallb_forall. intros j _. apply Hrot.
Qed.

Lemma four_range (i : Z) : i ∈ [0; 1; 2; 3] -> 0 <= i <= 3.
Proof.
  intros H. repeat (apply elem_of_cons in H as [->|H]; [lia|]).
  by apply elem_of_nil in H.
Qed.

Lemma make_built input rotation s0 s1 s2 s3 (g : Z -> Z -> list Z) :
  Tile.scanOrientation input 0 = Ret s0 ->
  Tile.scanOrientation input 1 = Ret s1 ->
  Tile.scanOrientation input 2 = Ret s2 ->
  Tile.scanOrientation input 3 = Ret s3 ->
  (forall i j, 0 <= i <= 3 -> 0 <= j <= 3 ->
     Tile.scanRotation rotation i j = Ret (g i j)) ->
  exists t,
    Tile.make input rotation = Ret t
    /\ (forall d,
          let s := match d with
                   | initial => s0 | right => s1
                   | halfTurned => s2 | left => s3
                   end in
          tile_data t d = Tile.s_data s
          /\ tile_loc t d = Tile.s_loc s
          /\ tile_compactTile t d = Tile.s_compact s
          /\ tile_min t d = Tile.s_vmin s
          /\ tile_max t d = Tile.s_vmax s)
    /\ forall di dj,
         tile_rotateTable t di dj
         = g (TileDirection.getValue di) (TileDirection.getValue dj).
Proof.
  intros H0 H1 H2 H3 Hg. unfold Tile.make.
  rewrite H0, bind_Ret_l, H1, bind_Ret_l, H2, bind_Ret_l, H3, bind_Ret_l.
  rewrite (mapM_Ret _ (fun i => g i <$> [0; 1; 2; 3])).
  - rewrite bind_Ret_l. eexists. split; [reflexivity|]. split.
    + intros d. by destruct d.
    + intros di dj. cbn [tile_rotateTable].
      destruct di, dj; reflexivity.
  - intros i Hi. apply mapM_Ret. intros j Hj. apply Hg.
    + by apply four_range.
    + by apply four_range.
Qed.

Lemma make_scanned (input : tileData) (rotation : tileRotationTable) :
  (forall d,
     (length (litCells input (TileDirection.getValue d)) <= 8)%nat
     /\ forall c, c ∈ litCells input (TileDirection.getValue d) ->
          1 <= fst c /\ 1 <= snd c) ->
  (forall di dj,
     0 ∈ tableEntry rotation (TileDirection.getValue di)
           (TileDirection.getValue dj)) ->
  exists t,
    Tile.make input rotation = Ret t
    /\ (forall d,
          exists s term,
            scanned input (TileDirection.getValue d)
              (litCells input (TileDirection.getValue d)) s
            /\ term = (if Z.of_nat (length (litCells input
                                              (TileDirection.getValue d)))
                          <? 8 then [0] else [])
            /\ tile_data t d = Tile.s_data s ++ term
            /\ tile_loc t d = Tile.s_loc s ++ term
            /\ tile_compactTile t d = Tile.s_compact s
            /\ tile_min t d = Tile.s_vmin s
            /\ tile_max t d = Tile.s_vmax s)
    /\ forall di dj,
         tile_rotateTable t di dj
         = upToZero (tableEntry rotation (TileDirection.getValue di)
                       (TileDirection.getValue dj)).
Proof.
  intros Hlit Hrot.
  assert (Hscan : forall d,
             exists s0,
               scanned input (TileDirection.getValue d)
                 (litCells input (TileDirection.getValue d)) s0
               /\ Tile.scanOrientation input (TileDirection.getValue d)
                  = Ret (if Z.of_nat (length (litCells input
                                                (TileDirection.getValue d)))
                            <? 8
                         then Tile.mkScan (Tile.s_data s0 ++ [0])
                                (Tile.s_loc s0 ++ [0]) (Tile.s_compact s0)
                                (Tile.s_vmin s0) (Tile.s_vmax s0)
                         else s0)).
  { intros d. destruct (Hlit d) as (Hlen & Hpos).
    by apply scanOrientation_spec. }
  destruct (Hscan initial) as (s0 & Hs0 & E0).
  destruct (Hscan right) as (s1 & Hs1 & E1).
  destruct (Hscan halfTurned) as (s2 & Hs2 & E2).
  destruct (Hscan left) as (s3 & Hs3 & E3).
  cbn [TileDirection.getValue] in E0, E1, E2, E3.
  destruct (make_built input rotation _ _ _ _
              (fun i j => upToZero (tableEntry rotation i j)) E0 E1 E2 E3)
    as (t & Hmake & Hfields & Htable).
  { intros i j Hi Hj. apply scanRotation_spec; [lia|lia|].
    assert (Ei : exists di, i = TileDirection.getValue di).
    { assert (i = 0 \/ i = 1 \/ i = 2 \/ i = 3) as [->|[->|[->| ->]]] by lia;
        [by exists initial|by exists right|by exists halfTurned|by exists left]. }
    assert (Ej : exists dj, j = TileDirection.getValue dj).
    { assert (j = 0 \/ j = 1 \/ j = 2 \/ j = 3) as [->|[->|[->| ->]]] by lia;
        [by exists initial|by exists right|by exists halfTurned|by exists left]. }
    destruct Ei as [di ->]. destruct Ej as [dj ->]. apply Hrot. }
  assert (Hbuilt : forall d,
             exists s term,
               scanned input (TileDirection.getValue d)
                 (litCells input (TileDirection.getValue d)) s
               /\ term = (if Z.of_nat (length (litCells input
                                                 (TileDirection.getValue d)))
                             <? 8 then [0] else [])
               /\ tile_data t d = Tile.s_data s ++ term
               /\ tile_loc t d = Tile.s_loc s ++ term
               /\ tile_compactTile t d = Tile.s_compact s
               /\ tile_min t d = Tile.s_vmin s
               /\ tile_max t d = Tile.s_vmax s).
  { intros d. destruct (Hfields d) as (Ed & El & Ec & Emin & Emax).
    destruct d; cbn [TileDirection.getValue] in *;
      [exists s0|exists s1|exists s2|exists s3];
      eexists; (split; [done|]); (split; [reflexivity|]);
      rewrite Ed, El, Ec, Emin, Emax;
      match goal with
      | |- context [if ?b then _ else _] => destruct b
      end;
      cbn [Tile.s_data Tile.s_loc Tile.s_compact Tile.s_vmin Tile.s_vmax];
      rewrite ?app_nil_r; repeat split. }
  exists t. split; [exact Hmake|]. split; [exact Hbuilt|].
  intros di dj. apply Htable.
Qed.

(** The constructor of [tile] accepts a bitmap whose four orientations
    have between one and eight non-zero cells, none of them in column 0 or
    in the bottom row (the value 0 of a coordinate stands for "not set" in
    the bounding box), with a rotation table whose entries hold a zero. The
    tile it builds satisfies the invariant of tiles; its pixels are the
    non-zero cells in scanning order, with their colours; its mask has
    exactly their bits; its bounding box is theirs; and its kicks are the
    bytes of each entry up to the first zero. *)
Theorem tile_constructor_builds_well_formed_tiles (input : tileData)
    (rotation : tileRotationTable) :
  (forall d,
     litCells input (TileDirection.getValue d) <> []
     /\ (length (litCells input (TileDirection.getValue d)) <= 8)%nat
     /\ forall c, c ∈ litCells input (TileDirection.getValue d) ->
          1 <= fst c /\ 1 <= snd c) ->
  (forall di dj,
     0 ∈ tableEntry rotation (TileDirection.getValue di)
           (TileDirection.getValue dj)) ->
  exists t,
    Tile.make input rotation = Ret t
    /\ tile_ok t
    /\ forall d,
         let lit := litCells input (TileDirection.getValue d) in
         TileShape.pixels (Z.to_nat maxNumPixels) (tile_data t d) (tile_loc t d)
         = pixelAt input (TileDirection.getValue d) <$> lit
         /\ (forall n, Z.testbit (tile_compactTile t d) n = true
                       <-> exists c, c ∈ lit /\ n = 10 * snd c + fst c)
         /\ (forall c, c ∈ lit ->
               TileCoord.x (tile_min t d) <= fst c <= TileCoord.x (tile_max t d)
               /\ TileCoord.y (tile_min t d) <= snd c
                  <= TileCoord.y (tile_max t d))
         /\ (exists c, c ∈ lit /\ fst c = TileCoord.x (tile_min t d))
         /\ (exists c, c ∈ lit /\ snd c = TileCoord.y (tile_min t d))
         /\ (exists c, c ∈ lit /\ fst c = TileCoord.x (tile_max t d))
         /\ (exists c, c ∈ lit /\ snd c = TileCoord.y (tile_max t d))
         /\ forall dj,
              tile_rotateTable t d dj
              = upToZero (tableEntry rotation (TileDirection.getValue d)
                            (TileDirection.getValue dj)).
Proof.
  intros Hlit Hrot.
  destruct (make_scanned input rotation) as (t & Hmake & Hbuilt & Htable).
  { intros d. destruct (Hlit d) as (_ & Hlen & Hpos). done. }
  { exact Hrot. }
  exists t. split; [exact Hmake|]. split.
  - unfold tile_ok, TileShape.check. apply forallb_forall. intros d _.
    destruct (Hbuilt d) as (s & term & Hs & Hterm & Ed & El & Ec & Emin & Emax).
    destruct (Hlit d) as (Hne & Hlen & Hpos).
    apply (checkDir_built input (TileDirection.getValue d) t d s term);
      try done.
    intros j. rewrite Htable. apply upToZero_terminated, Hrot.
  - intros d. cbv zeta.
    destruct (Hbuilt d) as (s & term & Hs & Hterm & Ed & El & Ec & Emin & Emax).
    destruct (Hlit d) as (Hne & Hlen & Hpos).
    destruct Hs as (Hd & Hl & _ & Hbits & minx & miny & maxx & maxy & Hmin
                    & Hmax & Rminx & Rminy & Rmaxx & Rmaxy & _ & Hall & Hhit).
    destruct (Hhit Hne) as (A1 & A2 & A3 & A4).
    rewrite Emin, Emax, Hmin, Hmax, Ec.
    rewrite !coord_x_packed, !coord_y_packed by lia.
    split.
    { rewrite Ed, El, Hd, Hl. apply pixels_built.
      - unfold maxNumPixels. lia.
      - intros c Hc. by apply litCells_lit in Hc as (? & _).
      - rewrite Hterm. case (_ <? 8); [by right|by left]. }
    split; [exact Hbits|]. split; [exact Hall|].
    split; [exact A1|]. split; [exact A2|]. split; [exact A3|].
    split; [exact A4|]. intros dj. apply Htable.
Qed.

Lemma zero_in (l : list Z) : existsb (Z.eqb 0) l = true -> 0 ∈ l.
Proof.
  intros (v & Hv & ->%Z.eqb_eq)%existsb_exists. by apply list_elem_of_In.
Qed.

Lemma tile_constructor_builds_well_formed_tiles_witness :
  exists t,
    Tile.make (createTetrominoTileData tetromino_T 0) exampleKicks = Ret t
    /\ tile_ok t
    /\ forall d,
         TileShape.pixels (Z.to_nat maxNumPixels) (tile_data t d) (tile_loc t d)
         = pixelAt (createTetrominoTileData tetromino_T 0)
             (TileDirection.getValue d)
           <$> litCells (createTetrominoTileData tetromino_T 0)
                 (TileDirection.getValue d).
Proof.
  destruct (tile_constructor_builds_well_formed_tiles
              (createTetrominoTileData tetromino_T 0) exampleKicks)
    as (t & Hmake & Hok & Hshape).
  - intros d.
    assert (Hlit : forallb (fun c => (1 <=? fst c) && (1 <=? snd c))
                     (litCells (createTetrominoTileData tetromino_T 0)
                        (TileDirection.getValue d)) = true)
      by (destruct d; vm_compute; reflexivity).
    split; [destruct d; vm_compute; discriminate|].
    split; [apply Nat.leb_le; destruct d; vm_compute; reflexivity|].
    intros c Hc. rewrite forallb_forall in Hlit.
    apply list_elem_of_In, Hlit, andb_true_iff in Hc. lia.
  - intros di dj. apply zero_in. destruct di, dj; vm_compute; reflexivity.
  - exists t. split; [exact Hmake|]. split; [exact Hok|].
    intros d. apply Hshape.
Defined.

Section rejected.

Variable input : tileData.
Variable i : Z.

Lemma scanCells_returns cs s :
  (length (Tile.s_data s)
   + length (filter (fun c => Tile.input_at input i (snd c) (fst c) <> 0%Z)
               cs)
   <= 8)%nat ->
  exists s', Tile.scanCells input i cs s = Ret s'.
Proof.
  revert s. induction cs as [|[x y] cs IH]; intros s Hlen.
  - cbn. eauto.
  - cbn [Tile.scanCells]. rewrite filter_cons in Hlen. cbn [fst snd] in Hlen.
    destruct (decide (Tile.input_at input i y x <> 0)) as [Hv|Hv].
    + cbn [length] in Hlen. unfold Tile.scanCell.
      destruct (Z.eqb_spec (Tile.input_at input i y x) 0); [done|].
      unfold maxNumPixels.
      destruct (Z.leb_spec 8 (Z.of_nat (length (Tile.s_data s)))); [lia|].
      rewrite bind_Ret_l. apply IH. cbn [Tile.s_data].
      rewrite length_app. cbn [length]. lia.
    + rewrite scanCell_dark by (by destruct (decide (Tile.input_at input i y x = 0))).
      rewrite bind_Ret_l. by apply IH.
Qed.

Lemma scanOrientation_returns :
  (length (litCells input i) <= 8)%nat ->
  exists s, Tile.scanOrientation input i = Ret s.
Proof.
  intros Hlen. unfold Tile.scanOrientation.
  destruct (scanCells_returns Tile.cells (Tile.mkScan [] [] 0 0 0))
    as [s ->]; [exact Hlen|].
  rewrite bind_Ret_l. destruct (_ <? _); eauto.
Qed.

End rejected.

Lemma copyRotations_what fuel rotation i j acc what :
  Tile.copyRotations fuel rotation i j acc = Throw what ->
  what = "too many rotations"%string.
Proof.
  revert acc. induction fuel as [|fuel IH]; intros acc; [done|].
  cbn [Tile.copyRotations]. unfold RotationTable.get.
  destruct (_ && _); [|done].
  destruct (rotation !! _); [|done]. rewrite bind_Ret_l.
  destruct (_ =? 0); [done|].
  destruct (_ <=? _); [by intros [= <-]|]. apply IH.
Qed.

Lemma mapM_Throw {A B} (f : A -> outcome B) (l : list A) what :
  mapM f l = Throw what -> exists a, a ∈ l /\ f a = Throw what.
Proof.
  induction l as [|a l IH]; [done|]. cbn [mapM].
  destruct (f a) as [b| |] eqn:E; [|intros [= <-]; exists a; split; [by left|done]|done].
  rewrite bind_Ret_l.
  destruct (mapM f l) as [bs| |] eqn:El; [done| |done].
  intros [= <-]. destruct (IH eq_refl) as (a' & Ha' & Hf).
  exists a'. split; [by right|done].
Qed.

(** The constructor of [tile] throws "too many pixels" exactly when one of
    the four orientations of the bitmap has more than eight non-zero
    cells, whatever the rotation table holds. *)
Theorem tile_constructor_rejects_large_bitmaps (input : tileData)
    (rotation : tileRotationTable) :
  Tile.make input rotation = Throw "too many pixels"
  <-> exists d,
        (8 < length (litCells input (TileDirection.getValue d)))%nat.
Proof.
  unfold Tile.make.
  destruct (decide (length (litCells input 0) <= 8)%nat) as [H0|H0].
  2:{ rewrite (scanOrientation_throw input 0) by lia. split; [|done].
      intros _. exists initial. cbn [TileDirection.getValue]. lia. }
  destruct (scanOrientation_returns input 0 H0) as [s0 ->].
  rewrite bind_Ret_l.
  destruct (decide (length (litCells input 1) <= 8)%nat) as [H1|H1].
  2:{ rewrite (scanOrientation_throw input 1) by lia. split; [|done].
      intros _. exists right. cbn [TileDirection.getValue]. lia. }
  destruct (scanOrientation_returns input 1 H1) as [s1 ->].
  rewrite bind_Ret_l.
  destruct (decide (length (litCells input 2) <= 8)%nat) as [H2|H2].
  2:{ rewrite (scanOrientation_throw input 2) by lia. split; [|done].
      intros _. exists halfTurned. cbn [TileDirection.getValue]. lia. }
  destruct (scanOrientation_returns input 2 H2) as [s2 ->].
  rewrite bind_Ret_l.
  destruct (decide (length (litCells input 3) <= 8)%nat) as [H3|H3].
  2:{ rewrite (scanOrientation_throw input 3) by lia. split; [|done].
      intros _. exists left. cbn [TileDirection.getValue]. lia. }
  destruct (scanOrientation_returns input 3 H3) as [s3 ->].
  rewrite bind_Ret_l. split.
  - destruct (mapM _ _) as [rs| |] eqn:E; [done| |done].
    intros [= ->]. apply mapM_Throw in E as (a & _ & E).
    apply mapM_Throw in E as (b & _ & E).
    apply copyRotations_what in E. discriminate E.
  - intros [d Hd]. destruct d; cbn [TileDirection.getValue] in Hd; lia.
Qed.

(** * Reading a tile back *)

Lemma insert_take_drop {A} (data r : list A) (k : nat) (d : A) :
  data !! k = Some d -> (k < length r)%nat ->
  <[k := d]> (take k data ++ drop k r) = take (S k) data ++ drop (S k) r.
Proof.
  intros Hd Hr. apply lookup_lt_is_Some_2 in Hr as [x Hx].
  rewrite (take_S_r _ _ _ Hd), (drop_S _ _ _ Hx), <- app_assoc.
  pose proof (lookup_lt_Some _ _ _ Hd) as Hlt.
  rewrite insert_app_r_alt by (rewrite length_take; lia).
  rewrite length_take, Nat.min_l, Nat.sub_diag by lia. reflexivity.
Qed.

Lemma store_take_drop (data r : list Z) (k : nat) (d : Z) :
  data !! k = Some d -> (k < length r)%nat ->
  store (take k data ++ drop k r) (Z.of_nat k) d
  = Ret (take (S k) data ++ drop (S k) r).
Proof.
  intros Hd Hr. unfold store.
  pose proof (lookup_lt_Some _ _ _ Hd) as Hlt.
  rewrite length_app, length_take, length_drop.
  destruct (Z.leb_spec 0 (Z.of_nat k)); [|lia].
  destruct (Z.ltb_spec (Z.of_nat k)
              (Z.of_nat (k `min` length data + (length r - k)))); [|lia].
  cbn [andb]. rewrite Nat2Z.id. by rewrite insert_take_drop.
Qed.

Lemma retrieveLoop_spec (data loc rdata rloc : list Z) (n : nat) :
  (n <= 8)%nat ->
  length data = (if (n <? 8)%nat then S n else 8%nat) ->
  length loc = length data ->
  (forall k l, (k < n)%nat -> loc !! k = Some l -> l <> 0) ->
  ((n < 8)%nat -> loc !! n = Some 0) ->
  (8 <= length rdata)%nat -> (8 <= length rloc)%nat ->
  forall fuel k,
    (k + fuel = 8)%nat -> (k <= n)%nat ->
    retrieveLoop fuel (Z.of_nat k) data loc
      (take k data ++ drop k rdata) (take k loc ++ drop k rloc)
    = Ret (Z.of_nat n, data ++ drop (length data) rdata,
           loc ++ drop (length loc) rloc).
Proof.
  intros Hn Hdata Hloc Hlit Hend Hrdata Hrloc.
  induction fuel as [|fuel IH]; intros k Hk Hkn.
  - assert (k = 8%nat) as -> by lia. assert (n = 8%nat) as -> by lia.
    cbn [retrieveLoop Nat.ltb Nat.leb] in *.
    rewrite !firstn_all2 by lia. rewrite Hloc, Hdata. reflexivity.
  - cbn [retrieveLoop].
    assert (Hkd : (k < length data)%nat).
    { rewrite Hdata. destruct (Nat.ltb_spec n 8); lia. }
    destruct (lookup_lt_is_Some_2 data k Hkd) as [d Hd].
    destruct (lookup_lt_is_Some_2 loc k ltac:(lia)) as [l Hl].
    rewrite (at_index_lookup data (Z.of_nat k) d) by first [lia | by rewrite Nat2Z.id].
    rewrite bind_Ret_l, (store_take_drop data rdata k d Hd) by lia.
    rewrite bind_Ret_l.
    rewrite (at_index_lookup loc (Z.of_nat k) l) by first [lia | by rewrite Nat2Z.id].
    rewrite bind_Ret_l, (store_take_drop loc rloc k l Hl) by lia.
    rewrite bind_Ret_l.
    destruct (decide (k = n)) as [->|Hne].
    + assert (Hn8 : (n < 8)%nat) by lia.
      rewrite (Hend Hn8) in Hl. injection Hl as <-. cbn [Z.eqb].
      destruct (Nat.ltb_spec n 8); [|lia].
      rewrite Hloc, Hdata.
      rewrite (firstn_all2 data), (firstn_all2 loc) by lia. reflexivity.
    + pose proof (Hlit k l ltac:(lia) Hl) as Hnz.
      destruct (Z.eqb_spec l 0); [done|].
      replace (Z.of_nat k + 1) with (Z.of_nat (S k)) by lia.
      apply IH; lia.
Qed.

(** [retrieveTileData] gives back the bitmap the tile was built from: for
    a tile built by the constructor from a bitmap with at most eight
    non-zero cells per orientation, none in column 0 or in the bottom row,
    and for buffers of [maxNumPixels] entries, it returns the number of
    non-zero cells of the orientation, having written their colours and
    their coordinates in scanning order, then the closing zero when there
    are fewer than eight, and nothing else. [retrieveBoundingBox] gives the
    bounding box of those cells, and zero for an orientation without
    cells. *)
Theorem retrieveTileData_reads_the_bitmap_back (input : tileData)
    (rotation : tileRotationTable) (rdata rloc : list Z) :
  (forall d,
     (length (litCells input (TileDirection.getValue d)) <= 8)%nat
     /\ forall c, c ∈ litCells input (TileDirection.getValue d) ->
          1 <= fst c /\ 1 <= snd c) ->
  (forall di dj,
     0 ∈ tableEntry rotation (TileDirection.getValue di)
           (TileDirection.getValue dj)) ->
  (8 <= length rdata)%nat -> (8 <= length rloc)%nat ->
  exists t,
    Tile.make input rotation = Ret t
    /\ forall d,
         let lit := litCells input (TileDirection.getValue d) in
         exists rdata' rloc',
           retrieveTileData t d rdata rloc
           = Ret (Z.of_nat (length lit), rdata', rloc')
           /\ take (length lit) rdata'
              = (fun c => Tile.input_at input (TileDirection.getValue d)
                            (snd c) (fst c)) <$> lit
           /\ (fun l => (TileCoord.x l, TileCoord.y l))
                <$> take (length lit) rloc' = lit
           /\ ((length lit < 8)%nat ->
               rdata' !! length lit = Some 0 /\ rloc' !! length lit = Some 0)
           /\ (forall j, (length lit < j \/ 8 <= j)%nat ->
                 rdata' !! j = rdata !! j /\ rloc' !! j = rloc !! j)
           /\ (lit = [] -> retrieveBoundingBox t d = (0, 0))
           /\ (forall c, c ∈ lit ->
                 TileCoord.x (fst (retrieveBoundingBox t d)) <= fst c
                 <= TileCoord.x (snd (retrieveBoundingBox t d))
                 /\ TileCoord.y (fst (retrieveBoundingBox t d)) <= snd c
                    <= TileCoord.y (snd (retrieveBoundingBox t d))).
Proof.
  intros Hlit Hrot Hrdata Hrloc.
  destruct (make_scanned input rotation Hlit Hrot)
    as (t & Hmake & Hbuilt & _).
  exists t. split; [exact Hmake|]. intros d. cbv zeta.
  destruct (Hbuilt d) as (s & term & Hs & Hterm & Ed & El & _ & Emin & Emax).
  destruct (Hlit d) as (Hlen & Hpos).
  destruct Hs as (Hd & Hl & _ & _ & minx & miny & maxx & maxy & Hmin & Hmax
                  & Rminx & Rminy & Rmaxx & Rmaxy & Hnil & Hall & _).
  set (i := TileDirection.getValue d) in *.
  set (lit := litCells input i) in *.
  assert (Hterm' : term = if (length lit <? 8)%nat then [0] else []).
  { rewrite Hterm. destruct (Z.ltb_spec (Z.of_nat (length lit)) 8);
      destruct (Nat.ltb_spec (length lit) 8); try done; lia. }
  assert (Hldata : length (tile_data t d)
                   = if (length lit <? 8)%nat then S (length lit) else 8%nat).
  { rewrite Ed, Hd, length_app, length_fmap, Hterm'.
    destruct (Nat.ltb_spec (length lit) 8); cbn [length]; lia. }
  assert (Hlloc : length (tile_loc t d) = length (tile_data t d)).
  { by rewrite Ed, El, Hd, Hl, !length_app, !length_fmap. }
  assert (Hnz : forall k l, (k < length lit)%nat ->
                  tile_loc t d !! k = Some l -> l <> 0).
  { intros k l Hk Hlk. rewrite El, Hl in Hlk.
    rewrite lookup_app_l in Hlk by (by rewrite length_fmap).
    apply list_lookup_fmap_Some in Hlk as (c & -> & Hc).
    apply list_elem_of_lookup_2 in Hc.
    pose proof (Hpos c Hc). apply litCells_lit in Hc as (_ & ? & ?).
    rewrite tileCoordAt_packed by lia. lia. }
  assert (Hz : (length lit < 8)%nat ->
               tile_data t d !! length lit = Some 0
               /\ tile_loc t d !! length lit = Some 0).
  { intros Hlt. rewrite Ed, El, Hd, Hl, Hterm'.
    destruct (Nat.ltb_spec (length lit) 8); [|lia].
    rewrite !lookup_app_r by (by rewrite length_fmap).
    by rewrite !length_fmap, Nat.sub_diag. }
  pose proof (retrieveLoop_spec (tile_data t d) (tile_loc t d) rdata rloc
                (length lit) Hlen Hldata Hlloc Hnz (fun H => proj2 (Hz H))
                Hrdata Hrloc 8 0 eq_refl ltac:(lia)) as Hloop.
  rewrite !take_0, !drop_0 in Hloop. cbn [app] in Hloop.
  eexists _, _. split; [exact Hloop|].
  assert (Htd : take (length lit) (tile_data t d)
                = (fun c => Tile.input_at input i (snd c) (fst c)) <$> lit).
  { rewrite Ed, Hd. rewrite take_app_length'; [done|by rewrite length_fmap]. }
  assert (Htl : take (length lit) (tile_loc t d)
                = (fun c => tileCoordAt (fst c) (snd c)) <$> lit).
  { rewrite El, Hl. rewrite take_app_length'; [done|by rewrite length_fmap]. }
  assert (Hle : (length lit <= length (tile_data t d))%nat).
  { rewrite Hldata. destruct (Nat.ltb_spec (length lit) 8); lia. }
  split; [by rewrite take_app_le by lia|].
  split.
  { rewrite take_app_le by lia. rewrite Htl, <- list_fmap_compose.
    rewrite <- (list_fmap_id lit) at 2. apply Forall_fmap_ext, Forall_forall.
    intros [x y] Hc. pose proof (litCells_lit _ _ _ Hc) as (_ & ? & ?).
    cbn [fst snd compose] in *. rewrite tileCoordAt_packed by lia.
    by rewrite coord_x_packed, coord_y_packed by lia. }
  split.
  { intros Hlt. destruct (Hz Hlt) as [Hzd Hzl].
    assert (length lit < length (tile_data t d))%nat.
    { rewrite Hldata. destruct (Nat.ltb_spec (length lit) 8); lia. }
    rewrite !lookup_app_l by lia. done. }
  split.
  { intros j Hj.
    assert (length (tile_data t d) <= j)%nat.
    { rewrite Hldata. destruct (Nat.ltb_spec (length lit) 8); lia. }
    rewrite !lookup_app_r by lia. rewrite !lookup_drop.
    split; f_equal; lia. }
  unfold retrieveBoundingBox. cbn [fst snd].
  rewrite Emin, Emax, Hmin, Hmax. split.
  - intros E. destruct (Hnil E) as (-> & -> & -> & ->). reflexivity.
  - intros c Hc. rewrite !coord_x_packed, !coord_y_packed by lia.
    by apply Hall.
Qed.

Lemma retrieveTileData_reads_the_bitmap_back_witness :
  exists t,
    Tile.make (createTetrominoTileData tetromino_T 0) exampleKicks = Ret t
    /\ forall d,
         exists rdata' rloc',
           retrieveTileData t d (replicate 8 255) (replicate 8 255)
           = Ret (Z.of_nat
                    (length (litCells (createTetrominoTileData tetromino_T 0)
                               (TileDirection.getValue d))),
                  rdata', rloc')
           /\ (fun l => (TileCoord.x l, TileCoord.y l))
                <$> take (length (litCells
                                    (createTetrominoTileData tetromino_T 0)
                                    (TileDirection.getValue d))) rloc'
              = litCells (createTetrominoTileData tetromino_T 0)
                  (TileDirection.getValue d).
Proof.
  destruct (retrieveTileData_reads_the_bitmap_back
              (createTetrominoTileData tetromino_T 0) exampleKicks
              (replicate 8 255) (replicate 8 255))
    as (t & Hmake & Hread).
  - intros d.
    assert (Hlit : forallb (fun c => (1 <=? fst c) && (1 <=? snd c))
                     (litCells (createTetrominoTileData tetromino_T 0)
                        (TileDirection.getValue d)) = true)
      by (destruct d; vm_compute; reflexivity).
    split; [apply Nat.leb_le; destruct d; vm_compute; reflexivity|].
    intros c Hc. rewrite forallb_forall in Hlit.
    apply list_elem_of_In, Hlit, andb_true_iff in Hc. lia.
  - intros di dj. apply zero_in. destruct di, dj; vm_compute; reflexivity.
  - cbn. lia.
  - cbn. lia.
  - exists t. split; [exact Hmake|]. intros d.
    destruct (Hread d) as (rdata' & rloc' & Hr & _ & Hl & _).
    exists rdata', rloc'. split; [exact Hr|exact Hl].
Defined.

(** * What fitting means *)

Lemma make_well_formed (input : tileData) (rotation : tileRotationTable) :
  (forall d,
     litCells input (TileDirection.getValue d) <> []
     /\ (length (litCells input (TileDirection.getValue d)) <= 8)%nat
     /\ forall c, c ∈ litCells input (TileDirection.getValue d) ->
          1 <= fst c /\ 1 <= snd c) ->
  (forall di dj,
     0 ∈ tableEntry rotation (TileDirection.getValue di)
           (TileDirection.getValue dj)) ->
  exists t,
    Tile.make input rotation = Ret t
    /\ tile_ok t
    /\ forall d,
         exists s,
           scanned input (TileDirection.getValue d)
             (litCells input (TileDirection.getValue d)) s
           /\ tile_compactTile t d = Tile.s_compact s
           /\ tile_min t d = Tile.s_vmin s
           /\ tile_max t d = Tile.s_vmax s.
Proof.
  intros Hlit Hrot.
  destruct (make_scanned input rotation) as (t & Hmake & Hbuilt & Htable).
  { intros d. destruct (Hlit d) as (_ & Hlen & Hpos). done. }
  { exact Hrot. }
  exists t. split; [exact Hmake|]. split.
  - unfold tile_ok, TileShape.check. apply forallb_forall. intros d _.
    destruct (Hbuilt d) as (s & term & Hs & Hterm & Ed & El & Ec & Emin & Emax).
    destruct (Hlit d) as (Hne & Hlen & Hpos).
    apply (checkDir_built input (TileDirection.getValue d) t d s term);
      try done.
    intros j. rewrite Htable. apply upToZero_terminated, Hrot.
  - intros d.
    destruct (Hbuilt d) as (s & term & Hs & _ & _ & _ & Ec & Emin & Emax).
    exists s. done.
Qed.

(** The test on the packed rows means what it should on the cells: a
    tile built by the constructor fits a field at column [x] and row [y]
    (the test [isValid] of [spawn], [move], [drop] and [rotate] against
    the window of the field at [y]) exactly when each of its cells falls
    in one of the ten columns, on or above the floor, and on an empty cell
    of the field. *)
Theorem tile_fits_iff_its_cells_are_free (input : tileData)
    (rotation : tileRotationTable) :
  (forall d,
     litCells input (TileDirection.getValue d) <> []
     /\ (length (litCells input (TileDirection.getValue d)) <= 8)%nat
     /\ forall c, c ∈ litCells input (TileDirection.getValue d) ->
          1 <= fst c /\ 1 <= snd c) ->
  (forall di dj,
     0 ∈ tableEntry rotation (TileDirection.getValue di)
           (TileDirection.getValue dj)) ->
  exists t,
    Tile.make input rotation = Ret t
    /\ forall (f : field) (d : tileDirection) (x y : Z),
         coherent f -> -128 <= y <= 127 ->
         (freeAt f t d x y = true
          <-> forall c, c ∈ litCells input (TileDirection.getValue d) ->
                0 <= x + fst c <= 9
                /\ 0 <= y + snd c
                /\ cellAt f (y + snd c) (x + fst c) = 0).
Proof.
  intros Hlit Hrot.
  destruct (make_well_formed input rotation Hlit Hrot)
    as (t & Hmake & Hok & Hbuilt).
  exists t. split; [exact Hmake|]. intros f d x y Hco Hy.
  pose proof (tile_ok_shape t d Hok) as Hshape.
  destruct (Hbuilt d) as (s & Hs & Ec & Emin & Emax).
  destruct (Hlit d) as (Hne & _ & _).
  destruct Hs as (_ & _ & _ & Hbits & minx & miny & maxx & maxy & Hmin & Hmax
                  & Rminx & Rminy & Rmaxx & Rmaxy & _ & Hall & Hhit).
  destruct (Hhit Hne) as ((c1 & Hc1 & E1) & _ & (c3 & Hc3 & E3)
                          & (c4 & Hc4 & E4)).
  assert (Eminx : TileCoord.x (tile_min t d) = minx)
    by (rewrite Emin, Hmin; apply coord_x_packed; lia).
  assert (Emaxx : TileCoord.x (tile_max t d) = maxx)
    by (rewrite Emax, Hmax; apply coord_x_packed; lia).
  assert (Emaxy : TileCoord.y (tile_max t d) = maxy)
    by (rewrite Emax, Hmax; apply coord_y_packed; lia).
  rewrite <- Ec in Hbits.
  rewrite freeAt_true, Eminx, Emaxx, Emaxy. split.
  - intros (Hl & Hr & Hup & Hland) c Hc.
    assert (Hbit : Z.testbit (tile_compactTile t d) (10 * snd c + fst c) = true)
      by (apply Hbits; eauto).
    pose proof (litCells_lit _ _ _ Hc) as (_ & Hx & Hrow).
    destruct (cell_free t d Hshape f x y (10 * snd c + fst c))
      as (Hcol & Hfloor & Hfree); [lia|lia|done|done|].
    destruct (cell_index (snd c) (fst c) ltac:(lia)) as [Eq Er].
    rewrite Er in Hcol. rewrite Eq in Hfloor. rewrite Eq, Er in Hfree.
    split; [exact Hcol|]. split; [exact Hfloor|].
    rewrite coherent_bits in Hfree by (unfold INT_MAX; first [done|lia]).
    apply negb_false_iff, Z.eqb_eq in Hfree. exact Hfree.
  - intros Hcells.
    pose proof (Hcells c1 Hc1) as (? & _ & _).
    pose proof (Hcells c3 Hc3) as (? & _ & _).
    pose proof (Hcells c4 Hc4) as (_ & ? & _).
    split; [lia|]. split; [lia|]. split; [lia|].
    apply Z.bits_inj'. intros m Hm. rewrite Z.land_spec, Z.bits_0.
    rewrite (tileMove_bits t d Hshape x m) by lia.
    destruct (Z.testbit (tile_compactTile t d) (m - x)) eqn:E;
      [|apply andb_false_r].
    rewrite andb_true_r.
    destruct (mask_bit_moved t d Hshape x m ltac:(lia) ltac:(lia) E)
      as (Hm60 & Hq & Hr).
    apply Hbits in E as (c & Hc & En).
    pose proof (litCells_lit _ _ _ Hc) as (_ & Hx & Hrow).
    destruct (cell_index (snd c) (fst c) ltac:(lia)) as [Eq Er].
    rewrite En, Eq in Hq. rewrite En, Er in Hr.
    destruct (Hcells c Hc) as (Hcol & Hfloor & Hfree).
    rewrite window_bits by done. rewrite Hq, Hr.
    destruct (Z.ltb_spec m 60); [|lia]. cbn [andb].
    replace (fst c + x) with (x + fst c) by lia.
    rewrite coherent_bits by (unfold INT_MAX; first [done|lia]).
    by rewrite Hfree.
Qed.

Lemma tile_fits_iff_its_cells_are_free_witness :
  exists t,
    Tile.make (createTetrominoTileData tetromino_T 0) exampleKicks = Ret t
    /\ (freeAt holeField t initial 2 0 = true
        <-> forall c,
              c ∈ litCells (createTetrominoTileData tetromino_T 0) 0 ->
              0 <= 2 + fst c <= 9
              /\ 0 <= 0 + snd c
              /\ cellAt holeField (0 + snd c) (2 + fst c) = 0).
Proof.
  destruct (tile_fits_iff_its_cells_are_free
              (createTetrominoTileData tetromino_T 0) exampleKicks)
    as (t & Hmake & Hfits).
  - intros d.
    assert (Hlit : forallb (fun c => (1 <=? fst c) && (1 <=? snd c))
                     (litCells (createTetrominoTileData tetromino_T 0)
                        (TileDirection.getValue d)) = true)
      by (destruct d; vm_compute; reflexivity).
    split; [destruct d; vm_compute; discriminate|].
    split; [apply Nat.leb_le; destruct d; vm_compute; reflexivity|].
    intros c Hc. rewrite forallb_forall in Hlit.
    apply list_elem_of_In, Hlit, andb_true_iff in Hc. lia.
  - intros di dj. apply zero_in. destruct di, dj; vm_compute; reflexivity.
  - exists t. split; [exact Hmake|].
    apply (Hfits holeField initial 2 0); [exact holeField_coherent|lia].
Defined.

(** * Moves one after the other *)

Lemma move_spec (f : field) (t : tile)
    (pfd : tilePathFinder) (numSteps : Z) :
  tile_ok t -> validFor f t pfd -> tileState_ok (pfd_state pfd) ->
  legit f pfd -> -128 <= numSteps <= 127 ->
  exists k,
    0 <= k <= Z.abs numSteps
    /\ (forall i, 1 <= i <= k ->
          freeAt f t (state_dir (pfd_state pfd))
            (state_x (pfd_state pfd) + Z.sgn numSteps * i)
            (state_y (pfd_state pfd)) = true)
    /\ (k < Z.abs numSteps ->
          freeAt f t (state_dir (pfd_state pfd))
            (state_x (pfd_state pfd) + Z.sgn numSteps * (k + 1))
            (state_y (pfd_state pfd)) = false)
    /\ Field.move f pfd numSteps
       = if k =? 0 then Ret (false, TilePathFinder.null)
         else Ret (true,
                   placedAt f pfd
                     (state_x (pfd_state pfd) + Z.sgn numSteps * k)
                     (state_y (pfd_state pfd))).
Proof.
  intros Hok Hvalid Hstate Hlegit Hn.
  pose proof (valid_freeAt f t pfd Hvalid) as Hfree.
  pose proof (valid_shiftDefined f t pfd Hvalid) as Hx.
  destruct Hvalid as (Htyp & Hcur & _).
  unfold Field.move.
  rewrite (legit_assertLegit _ _ Hlegit), bind_Ret_l, Htyp.
  unfold deref. rewrite bind_Ret_l. cbv zeta. unfold CompactField.shiftDefined.
  destruct (Z.ltb_spec (-64) (state_x (pfd_state pfd))); [|lia].
  destruct (Z.ltb_spec (state_x (pfd_state pfd)) 64); [|lia].
  cbn [andb negb]. rewrite Hcur.
  destruct (Z.ltb_spec 0 numSteps) as [Hpos|Hpos].
  - destruct (moveRight_spec f t Hok (state_dir (pfd_state pfd))
                (state_y (pfd_state pfd)) (Z.to_nat numSteps) _ Hfree)
      as (k & Hk & -> & Hall & Hstop).
    exists (Z.of_nat k). rewrite Z.sgn_pos, Z.abs_eq by lia.
    split; [lia|]. split; [intros i Hi; rewrite Z.mul_1_l; by apply Hall|].
    split; [intros Hlt; rewrite Z.mul_1_l, Z.add_assoc; apply Hstop; lia|].
    rewrite Z.mul_1_l.
    destruct (Z.eqb_spec (Z.of_nat k) 0) as [Hz|Hz].
    + rewrite Hz, Z.add_0_r, Z.eqb_refl. reflexivity.
    + destruct (Z.eqb_spec (state_x (pfd_state pfd) + Z.of_nat k)
                  (state_x (pfd_state pfd))); [lia|].
      unfold placedAt. rewrite Htyp. pfd_simpl. reflexivity.
  - destruct (Z.ltb_spec numSteps 0) as [Hneg|Hzero].
    + destruct (moveLeft_spec f t Hok (state_dir (pfd_state pfd))
                  (state_y (pfd_state pfd)) (Z.to_nat (- numSteps)) _ Hfree)
        as (k & Hk & -> & Hall & Hstop).
      exists (Z.of_nat k). rewrite Z.sgn_neg, Z.abs_neq by lia.
      split; [lia|]. split.
      { intros i Hi.
        replace (state_x (pfd_state pfd) + -1 * i)
          with (state_x (pfd_state pfd) - i) by lia. by apply Hall. }
      split.
      { intros Hlt.
        replace (state_x (pfd_state pfd) + -1 * (Z.of_nat k + 1))
          with (state_x (pfd_state pfd) - Z.of_nat k - 1) by lia.
        apply Hstop. lia. }
      replace (state_x (pfd_state pfd) + -1 * Z.of_nat k)
        with (state_x (pfd_state pfd) - Z.of_nat k) by lia.
      destruct (Z.eqb_spec (Z.of_nat k) 0) as [Hz|Hz].
      * rewrite Hz, Z.sub_0_r, Z.eqb_refl. reflexivity.
      * destruct (Z.eqb_spec (state_x (pfd_state pfd) - Z.of_nat k)
                    (state_x (pfd_state pfd))); [lia|].
        unfold placedAt. rewrite Htyp. pfd_simpl. reflexivity.
    + exists 0. assert (numSteps = 0) as -> by lia.
      split; [lia|]. split; [intros; lia|]. split; [cbn; lia|].
      rewrite Z.eqb_refl. reflexivity.
Qed.

Lemma placedAt_valid f t pfd x y :
  pfd_typ pfd = Some t -> freeAt f t (state_dir (pfd_state pfd)) x y = true ->
  validFor f t (placedAt f pfd x y) /\ legit f (placedAt f pfd x y).
Proof.
  intros Htyp Hfree. apply freeAt_true in Hfree as (Hl & Hr & Hy & Hland).
  unfold validFor, legit, placedAt. pfd_simpl.
  split; [|by right]. done.
Qed.

(** For a well-formed tile ([tile_ok]: the bounding box that the tile
    stores bounds its cells) in a valid position, a sideways move can be
    taken back: after a [move] that returned true, the [move] by the
    opposite of the distance covered returns true and puts the tile back
    in its column, in the same row and orientation. *)
Theorem move_back_returns_to_the_start (f : field) (t : tile)
    (pfd r : tilePathFinder) (numSteps : Z) :
  tile_ok t -> validFor f t pfd -> tileState_ok (pfd_state pfd) ->
  legit f pfd -> -128 <= numSteps <= 127 ->
  Field.move f pfd numSteps = Ret (true, r) ->
  state_x (pfd_state r) <> state_x (pfd_state pfd)
  /\ Z.abs (state_x (pfd_state r) - state_x (pfd_state pfd))
     <= Z.abs numSteps
  /\ Field.move f r (state_x (pfd_state pfd) - state_x (pfd_state r))
     = Ret (true,
            placedAt f pfd (state_x (pfd_state pfd))
              (state_y (pfd_state pfd))).
Proof.
  intros Hok Hvalid Hstate Hlegit Hn Hmove.
  destruct (move_spec f t pfd numSteps Hok Hvalid Hstate Hlegit Hn)
    as (k & Hk & Hall & _ & Hm).
  rewrite Hm in Hmove.
  destruct (Z.eqb_spec k 0) as [Hk0|Hk0]; [discriminate|].
  injection Hmove as <-.
  pose proof (valid_freeAt f t pfd Hvalid) as Hfree.
  pose proof Hvalid as (Htyp & _).
  set (x := state_x (pfd_state pfd)) in *.
  set (y := state_y (pfd_state pfd)) in *.
  set (d := state_dir (pfd_state pfd)) in *.
  assert (Hs : exists s, Z.sgn numSteps = s /\ (s = 1 \/ s = -1)).
  { exists (Z.sgn numSteps). split; [done|].
    destruct (Z.sgn_spec numSteps) as [[? ?]|[[? ?]|[? ?]]]; lia. }
  destruct Hs as (s & Es & Hs). rewrite Es in *. clear Es.
  assert (Hsk : s * k = k \/ s * k = - k) by (destruct Hs as [-> | ->]; lia).
  destruct (placedAt_valid f t pfd (x + s * k) y Htyp (Hall k ltac:(lia)))
    as [Hvalid' Hlegit'].
  assert (Hstate' : tileState_ok (pfd_state (placedAt f pfd (x + s * k) y))).
  { destruct Hstate as [Hsx Hsy]. unfold placedAt. cbn [pfd_state].
    split; cbn [state_x state_y]; [|exact Hsy].
    apply freeAt_true in Hfree as (? & ? & _).
    pose proof (Hall k ltac:(lia)) as Hf.
    apply freeAt_true in Hf as (? & ? & _).
    pose proof (coord_range (tile_min t d)).
    pose proof (coord_range (tile_max t d)).
    unfold int8. lia. }
  change (state_x (pfd_state (placedAt f pfd (x + s * k) y)))
    with (x + s * k).
  split; [lia|]. split; [lia|].
  replace (x - (x + s * k)) with (- s * k) by ring.
  assert (Hrange : -128 <= - s * k <= 127).
  { pose proof (tile_ok_shape t d Hok) as Hshape.
    destruct (shape_bottom _ _ Hshape) as (n & Hbit & _).
    destruct (shape_box _ _ Hshape _ Hbit) as (_ & ? & _).
    apply freeAt_true in Hfree as (? & ? & _).
    pose proof (Hall k ltac:(lia)) as Hf.
    apply freeAt_true in Hf as (? & ? & _). lia. }
  destruct (move_spec f t (placedAt f pfd (x + s * k) y) (- s * k) Hok Hvalid'
              Hstate' Hlegit' Hrange) as (k' & Hk' & Hall' & Hstop' & Hm').
  unfold placedAt in Hk', Hall', Hstop', Hm'.
  cbn [pfd_state pfd_typ state_x state_y state_dir] in Hk', Hall', Hstop', Hm'.
  fold d in Hall', Hstop', Hm'.
  assert (Hsgn' : Z.sgn (- s * k) = - s)
    by (destruct Hs as [-> | ->]; [apply Z.sgn_neg|apply Z.sgn_pos]; lia).
  assert (Habs' : Z.abs (- s * k) = k) by (destruct Hs as [-> | ->]; lia).
  rewrite Hsgn', Habs' in *.
  assert (k' = k) as ->.
  { destruct (Z.eq_dec k' k) as [|Hne]; [done|]. exfalso.
    specialize (Hstop' ltac:(lia)).
    replace (x + s * k + - s * (k' + 1)) with (x + s * (k - k' - 1))
      in Hstop' by ring.
    destruct (Z.eq_dec (k - k' - 1) 0) as [E|E].
    - rewrite E, Z.mul_0_r, Z.add_0_r in Hstop'. congruence.
    - rewrite Hall in Hstop' by lia. discriminate. }
  unfold placedAt at 1. fold d. rewrite Hm'.
  destruct (Z.eqb_spec k 0); [lia|].
  unfold placedAt. fold d. do 3 f_equal. f_equal. ring.
Qed.

Lemma move_back_returns_to_the_start_witness :
  Field.move holeField landed (-2)
  = Ret (true, placedAt holeField landed 0 (-1))
  /\ Field.move holeField (placedAt holeField landed 0 (-1)) (2 - 0)
     = Ret (true, placedAt holeField landed 2 (-1)).
Proof.
  assert (Hm : Field.move holeField landed (-2)
               = Ret (true, placedAt holeField landed 0 (-1)))
    by (vm_compute; reflexivity).
  split; [exact Hm|].
  destruct (move_back_returns_to_the_start holeField tileT landed
              (placedAt holeField landed 0 (-1)) (-2) tileT_ok landed_valid
              landed_state_ok landed_legit ltac:(lia) Hm) as (_ & _ & Hback).
  exact Hback.
Defined.

Lemma afterDrop_spec (f : field) (t : tile) (pfd : tilePathFinder) (n : Z) :
  tile_ok t -> validFor f t pfd -> tileState_ok (pfd_state pfd) ->
  legit f pfd -> 0 <= n <= 255 ->
  exists k,
    0 <= k <= n
    /\ pfd_state (afterDrop f pfd n)
       = mkTileState (state_dir (pfd_state pfd)) (state_x (pfd_state pfd))
           (state_y (pfd_state pfd) - k)
    /\ (forall i, 1 <= i <= k ->
          freeAt f t (state_dir (pfd_state pfd)) (state_x (pfd_state pfd))
            (state_y (pfd_state pfd) - i) = true)
    /\ (k < n ->
          freeAt f t (state_dir (pfd_state pfd)) (state_x (pfd_state pfd))
            (state_y (pfd_state pfd) - k - 1) = false)
    /\ validFor f t (afterDrop f pfd n)
    /\ tileState_ok (pfd_state (afterDrop f pfd n))
    /\ legit f (afterDrop f pfd n).
Proof.
  intros Hok Hvalid Hstate Hlegit Hn.
  destruct (drop_spec f t pfd n Hok Hvalid Hstate Hlegit Hn)
    as (k & Hk & Hall & Hstop & Hdrop).
  exists k. split; [exact Hk|]. unfold afterDrop.
  destruct (Z.eqb_spec k 0) as [Hz|Hz].
  - rewrite Hdrop. subst k. rewrite Z.sub_0_r in Hstop |- *.
    split; [by destruct (pfd_state pfd)|]. split; [intros; lia|].
    split; [exact Hstop|]. done.
  - destruct (drop_valid f t pfd Hok Hvalid Hstate n _ Hdrop)
      as (Hv & Hs & Hver).
    rewrite Hdrop. split; [reflexivity|]. split; [exact Hall|].
    split; [exact Hstop|]. split; [exact Hv|]. split; [exact Hs|]. by right.
Qed.

(** Drops add up: letting the tile fall by [a] rows and then by [b] rows
    leaves it where one drop by [a + b] rows does, whether it lands on the
    way or not. *)
Theorem drops_add_up (f : field) (t : tile) (pfd : tilePathFinder)
    (a b : Z) :
  tile_ok t -> validFor f t pfd -> tileState_ok (pfd_state pfd) ->
  legit f pfd -> 0 <= a -> 0 <= b -> a + b <= 255 ->
  pfd_state (afterDrop f (afterDrop f pfd a) b)
  = pfd_state (afterDrop f pfd (a + b)).
Proof.
  intros Hok Hvalid Hstate Hlegit Ha Hb Hab.
  destruct (afterDrop_spec f t pfd a Hok Hvalid Hstate Hlegit ltac:(lia))
    as (ka & Hka & Ea & Halla & Hstopa & Hva & Hsa & Hla).
  destruct (afterDrop_spec f t pfd (a + b) Hok Hvalid Hstate Hlegit ltac:(lia))
    as (kab & Hkab & Eab & Hallab & Hstopab & _).
  destruct (afterDrop_spec f t (afterDrop f pfd a) b Hok Hva Hsa Hla
              ltac:(lia))
    as (kb & Hkb & Eb & Hallb & Hstopb & _).
  rewrite Ea in Eb, Hallb, Hstopb.
  cbn [state_dir state_x state_y] in Eb, Hallb, Hstopb.
  rewrite Eb, Eab. f_equal.
  set (d := state_dir (pfd_state pfd)) in *.
  set (x := state_x (pfd_state pfd)) in *.
  set (y := state_y (pfd_state pfd)) in *.
  assert (Hfree : forall i, 1 <= i <= ka + kb -> freeAt f t d x (y - i) = true).
  { intros i Hi. destruct (Z.le_gt_cases i ka); [apply Halla; lia|].
    replace (y - i) with (y - ka - (i - ka)) by lia. apply Hallb. lia. }
  assert (Hblocked : ka + kb < a + b ->
                     freeAt f t d x (y - (ka + kb) - 1) = false).
  { intros Hlt. destruct (Z.eq_dec kb b) as [->|Hne].
    - assert (Hlta : ka < a) by lia.
      assert (b = 0 \/ 0 < b) as [->|Hpos] by lia.
      + rewrite Z.add_0_r. by apply Hstopa.
      + specialize (Hstopa Hlta).
        rewrite (Hallb 1) in Hstopa by lia. discriminate.
    - replace (y - (ka + kb) - 1) with (y - ka - kb - 1) by lia.
      apply Hstopb. lia. }
  destruct (Z.lt_trichotomy kab (ka + kb)) as [Hlt|[->|Hgt]]; [|lia|].
  - specialize (Hstopab ltac:(lia)).
    replace (y - kab - 1) with (y - (kab + 1)) in Hstopab by lia.
    rewrite Hfree in Hstopab by lia. discriminate.
  - specialize (Hblocked ltac:(lia)).
    replace (y - (ka + kb) - 1) with (y - (ka + kb + 1)) in Hblocked by lia.
    rewrite Hallab in Hblocked by lia. discriminate.
Qed.

Lemma drops_add_up_witness :
  pfd_state (afterDrop holeField (afterDrop holeField spawnT 7) 30)
  = pfd_state (afterDrop holeField spawnT (7 + 30)).
Proof.
  apply (drops_add_up holeField tileT).
  - exact tileT_ok.
  - unfold validFor. by_computation.
  - unfold tileState_ok, int8. by_computation.
  - left. reflexivity.
  - lia.
  - lia.
  - lia.
Defined.

(** * The registry of listeners *)

Section store.

Context {H : Type}.
Implicit Types m : list (eventSubscription H).
#[local] Open Scope nat_scope.

Lemma load_Some m a n :
  m !! a = Some n -> EventSubscription.load m (Some a) = Ret n.
Proof. intros E. unfold EventSubscription.load. cbn. by rewrite E. Qed.

Lemma next_at_Some m a v :
  next_at m a = Some v -> exists n, m !! a = Some n /\ sub_next n = v.
Proof.
  unfold next_at. destruct (m !! a) as [n|]; [|done].
  intros [= <-]. eauto.
Qed.

Lemma previous_at_Some m a v :
  previous_at m a = Some v -> exists n, m !! a = Some n /\ sub_previous n = v.
Proof.
  unfold previous_at. destruct (m !! a) as [n|]; [|done].
  intros [= <-]. eauto.
Qed.

Lemma set_next_spec m x v :
  x < length m ->
  exists m',
    EventSubscription.set_next m (Some x) v = Ret m'
    /\ length m' = length m
    /\ (forall a, next_at m' a = if decide (a = x) then Some v else next_at m a)
    /\ (forall a, previous_at m' a = previous_at m a)
    /\ (forall a, handler_at m' a = handler_at m a)
    /\ (forall a, a <> x -> m' !! a = m !! a).
Proof.
  intros Hx. destruct (lookup_lt_is_Some_2 m x Hx) as [n Hn].
  unfold EventSubscription.set_next. cbn. rewrite Hn. cbn.
  eexists. split; [reflexivity|]. split; [apply length_insert|].
  unfold next_at, previous_at, handler_at.
  split; [|split; [|split]]; intros a.
  - destruct (decide (a = x)) as [->|Hne].
    + by rewrite list_lookup_insert_eq.
    + by rewrite list_lookup_insert_ne.
  - destruct (decide (a = x)) as [->|Hne].
    + rewrite list_lookup_insert_eq by done. by rewrite Hn.
    + by rewrite list_lookup_insert_ne.
  - destruct (decide (a = x)) as [->|Hne].
    + rewrite list_lookup_insert_eq by done. by rewrite Hn.
    + by rewrite list_lookup_insert_ne.
  - intros Hne. by rewrite list_lookup_insert_ne.
Qed.

Lemma set_previous_spec m x v :
  x < length m ->
  exists m',
    EventSubscription.set_previous m (Some x) v = Ret m'
    /\ length m' = length m
    /\ (forall a, previous_at m' a
                  = if decide (a = x) then Some v else previous_at m a)
    /\ (forall a, next_at m' a = next_at m a)
    /\ (forall a, handler_at m' a = handler_at m a)
    /\ (forall a, a <> x -> m' !! a = m !! a).
Proof.
  intros Hx. destruct (lookup_lt_is_Some_2 m x Hx) as [n Hn].
  unfold EventSubscription.set_previous. cbn. rewrite Hn. cbn.
  eexists. split; [reflexivity|]. split; [apply length_insert|].
  unfold next_at, previous_at, handler_at.
  split; [|split; [|split]]; intros a.
  - destruct (decide (a = x)) as [->|Hne].
    + by rewrite list_lookup_insert_eq.
    + by rewrite list_lookup_insert_ne.
  - destruct (decide (a = x)) as [->|Hne].
    + rewrite list_lookup_insert_eq by done. by rewrite Hn.
    + by rewrite list_lookup_insert_ne.
  - destruct (decide (a = x)) as [->|Hne].
    + rewrite list_lookup_insert_eq by done. by rewrite Hn.
    + by rewrite list_lookup_insert_ne.
  - intros Hne. by rewrite list_lookup_insert_ne.
Qed.

Lemma next_at_lt m a v : next_at m a = Some v -> a < length m.
Proof.
  intros (n & Hn & _)%next_at_Some. by eapply lookup_lt_Some.
Qed.

Lemma previous_at_lt m a v : previous_at m a = Some v -> a < length m.
Proof.
  intros (n & Hn & _)%previous_at_Some. by eapply lookup_lt_Some.
Qed.

Lemma chain_frame m m' a l z :
  (forall x, x ∈ a :: l -> next_at m' x = next_at m x) ->
  (forall x, x ∈ l ++ [z] -> previous_at m' x = previous_at m x) ->
  chain m a l z -> chain m' a l z.
Proof.
  revert a. induction l as [|b l IH]; intros a Hn Hp; cbn [chain app].
  - intros [H1 H2]. rewrite Hn, Hp by (by left). done.
  - intros (H1 & H2 & Hc). rewrite Hn, Hp by (by left).
    split; [done|]. split; [done|]. apply IH; [| |done].
    + intros x Hx. apply Hn. by right.
    + intros x Hx. apply Hp. by right.
Qed.

Lemma chain_app m a l1 b l2 z :
  chain m a (l1 ++ b :: l2) z <-> chain m a l1 b /\ chain m b l2 z.
Proof.
  revert a. induction l1 as [|c l1 IH]; intros a; cbn [chain app].
  - tauto.
  - rewrite IH. tauto.
Qed.

Lemma chain_snoc m a l b z :
  chain m a (l ++ [b]) z
  <-> chain m a l b
      /\ next_at m b = Some (Some z) /\ previous_at m z = Some (Some b).
Proof. rewrite chain_app. cbn [chain]. tauto. Qed.

Lemma chain_lt m a l z :
  chain m a l z -> Forall (fun x => x < length m) (a :: l ++ [z]).
Proof.
  revert a. induction l as [|b l IH]; intros a; cbn [chain app].
  - intros [H1 H2]. repeat constructor.
    + by eapply next_at_lt.
    + by eapply previous_at_lt.
  - intros (H1 & H2 & Hc). constructor; [by eapply next_at_lt|]. by apply IH.
Qed.

End store.

Section registry.

Context {H : Type}.
Implicit Types m : list (eventSubscription H).
#[local] Open Scope nat_scope.

Lemma app_spec m (n : eventSubscription H) :
  length (m ++ [n]) = S (length m)
  /\ (forall a, next_at (m ++ [n]) a
                = if decide (a = length m) then Some (sub_next n)
                  else next_at m a)
  /\ (forall a, previous_at (m ++ [n]) a
                = if decide (a = length m) then Some (sub_previous n)
                  else previous_at m a)
  /\ (forall a, handler_at (m ++ [n]) a
                = if decide (a = length m) then Some (sub_handler n)
                  else handler_at m a)
  /\ (forall a, a <> length m -> (m ++ [n]) !! a = m !! a).
Proof.
  assert (Hl : forall a,
             (m ++ [n]) !! a
             = if decide (a = length m) then Some n else m !! a).
  { intros a. destruct (decide (a = length m)) as [->|Hne].
    - rewrite lookup_app_r by lia. by rewrite Nat.sub_diag.
    - destruct (decide (a < length m)).
      + by rewrite lookup_app_l.
      + rewrite !lookup_ge_None_2; [done|lia|rewrite length_app; cbn; lia]. }
  split; [rewrite length_app; cbn; lia|].
  unfold next_at, previous_at, handler_at.
  split; [|split; [|split]]; intros a; rewrite Hl;
    destruct (decide (a = length m)); done.
Qed.

Lemma set_next_opt m p v :
  (forall x, p = Some x -> x < length m) ->
  exists m',
    match p with
    | Some _ => EventSubscription.set_next m p v
    | None => Ret m
    end = Ret m'
    /\ length m' = length m
    /\ (forall a, next_at m' a
                  = if decide (Some a = p) then Some v else next_at m a)
    /\ (forall a, previous_at m' a = previous_at m a)
    /\ (forall a, handler_at m' a = handler_at m a).
Proof.
  intros Hp. destruct p as [x|].
  - destruct (set_next_spec m x v (Hp x eq_refl))
      as (m' & E & Hl & Hn & Hpv & Hh & _).
    exists m'. split; [done|]. split; [done|]. split; [|done].
    intros a. rewrite Hn.
    destruct (decide (a = x)), (decide (Some a = Some x)); congruence.
  - exists m. split; [done|]. split; [done|]. split; [|done].
    intros a. by destruct (decide (Some a = None)).
Qed.

Lemma set_previous_opt m p v :
  (forall x, p = Some x -> x < length m) ->
  exists m',
    match p with
    | Some _ => EventSubscription.set_previous m p v
    | None => Ret m
    end = Ret m'
    /\ length m' = length m
    /\ (forall a, previous_at m' a
                  = if decide (Some a = p) then Some v else previous_at m a)
    /\ (forall a, next_at m' a = next_at m a)
    /\ (forall a, handler_at m' a = handler_at m a).
Proof.
  intros Hp. destruct p as [x|].
  - destruct (set_previous_spec m x v (Hp x eq_refl))
      as (m' & E & Hl & Hn & Hpv & Hh & _).
    exists m'. split; [done|]. split; [done|]. split; [|done].
    intros a. rewrite Hn.
    destruct (decide (a = x)), (decide (Some a = Some x)); congruence.
  - exists m. split; [done|]. split; [done|]. split; [|done].
    intros a. by destruct (decide (Some a = None)).
Qed.

(** What the insertion constructor leaves in the store. *)
Lemma insert_fields m p hd n :
  m !! p = Some n ->
  (forall x, sub_next n = Some x -> x < length m) ->
  exists m',
    EventSubscription.insert m (Some p) hd = Ret (length m, m')
    /\ length m' = S (length m)
    /\ (forall a, next_at m' a
                  = if decide (a = p) then Some (Some (length m))
                    else if decide (a = length m) then Some (sub_next n)
                    else next_at m a)
    /\ (forall a, previous_at m' a
                  = if decide (Some a = sub_next n)
                    then Some (Some (length m))
                    else if decide (a = length m) then Some (Some p)
                    else previous_at m a)
    /\ (forall a, handler_at m' a
                  = if decide (a = length m) then Some hd
                    else handler_at m a).
Proof.
  intros En Hnx. pose proof (lookup_lt_Some _ _ _ En) as Hp.
  unfold EventSubscription.insert.
  rewrite (load_Some m p n En), bind_Ret_l.
  destruct (app_spec m (mkSubscription (Some p) (sub_next n) hd))
    as (Hl0 & Hn0 & Hp0 & Hh0 & _).
  cbn [sub_next sub_previous sub_handler] in Hn0, Hp0, Hh0.
  set (m0 := m ++ [mkSubscription (Some p) (sub_next n) hd]) in *.
  destruct (set_next_spec m0 p (Some (length m)))
    as (m1 & -> & Hl1 & Hn1 & Hp1 & Hh1 & _); [lia|].
  rewrite bind_Ret_l.
  destruct (set_previous_opt m1 (sub_next n) (Some (length m)))
    as (m2 & -> & Hl2 & Hp2 & Hn2 & Hh2).
  { intros x Hx. specialize (Hnx x Hx). lia. }
  rewrite bind_Ret_l. exists m2. split; [done|]. split; [lia|].
  split; [|split]; intros a.
  - by rewrite Hn2, Hn1, Hn0.
  - by rewrite Hp2, Hp1, Hp0.
  - by rewrite Hh2, Hh1, Hh0.
Qed.

(** What the move constructor leaves in the store. *)
Lemma move_fields m r n :
  m !! r = Some n ->
  (forall x, sub_previous n = Some x -> x < length m) ->
  (forall x, sub_next n = Some x -> x < length m) ->
  exists m',
    EventSubscription.move m r = Ret (length m, m')
    /\ length m' = S (length m)
    /\ (forall a, next_at m' a
                  = if decide (a = r) then Some None
                    else if decide (Some a = sub_previous n)
                    then Some (Some (length m))
                    else if decide (a = length m) then Some (sub_next n)
                    else next_at m a)
    /\ (forall a, previous_at m' a
                  = if decide (a = r) then Some None
                    else if decide (Some a = sub_next n)
                    then Some (Some (length m))
                    else if decide (a = length m) then Some (sub_previous n)
                    else previous_at m a)
    /\ (forall a, handler_at m' a
                  = if decide (a = length m) then Some (sub_handler n)
                    else handler_at m a).
Proof.
  intros En Hpv Hnx. pose proof (lookup_lt_Some _ _ _ En) as Hr.
  unfold EventSubscription.move.
  rewrite (load_Some m r n En), bind_Ret_l.
  destruct (app_spec m (mkSubscription (sub_previous n) (sub_next n)
                          (sub_handler n)))
    as (Hl0 & Hn0 & Hp0 & Hh0 & _).
  cbn [sub_next sub_previous sub_handler] in Hn0, Hp0, Hh0.
  set (m0 := m ++ [mkSubscription (sub_previous n) (sub_next n)
                     (sub_handler n)]) in *.
  destruct (set_next_opt m0 (sub_previous n) (Some (length m)))
    as (m1 & -> & Hl1 & Hn1 & Hp1 & Hh1).
  { intros x Hx. specialize (Hpv x Hx). lia. }
  rewrite bind_Ret_l.
  destruct (set_previous_opt m1 (sub_next n) (Some (length m)))
    as (m2 & -> & Hl2 & Hp2 & Hn2 & Hh2).
  { intros x Hx. specialize (Hnx x Hx). lia. }
  rewrite bind_Ret_l.
  destruct (set_previous_spec m2 r None)
    as (m3 & -> & Hl3 & Hp3 & Hn3 & Hh3 & _); [lia|].
  rewrite bind_Ret_l.
  destruct (set_next_spec m3 r None)
    as (m4 & -> & Hl4 & Hn4 & Hp4 & Hh4 & _); [lia|].
  rewrite bind_Ret_l. exists m4. split; [done|]. split; [lia|].
  split; [|split]; intros a.
  - by rewrite Hn4, Hn3, Hn2, Hn1, Hn0.
  - by rewrite Hp4, Hp3, Hp2, Hp1, Hp0.
  - by rewrite Hh4, Hh3, Hh2, Hh1, Hh0.
Qed.

(** What the destructor leaves in the store. *)
Lemma destroy_fields m t n :
  m !! t = Some n ->
  (forall x, sub_previous n = Some x -> x < length m) ->
  (forall x, sub_next n = Some x -> x < length m) ->
  exists m',
    EventSubscription.destroy m t = Ret m'
    /\ length m' = length m
    /\ (forall a, next_at m' a
                  = if decide (Some a = sub_previous n)
                    then Some (sub_next n) else next_at m a)
    /\ (forall a, previous_at m' a
                  = if decide (Some a = sub_next n)
                    then Some (sub_previous n) else previous_at m a)
    /\ (forall a, handler_at m' a = handler_at m a).
Proof.
  intros En Hpv Hnx. pose proof (lookup_lt_Some _ _ _ En) as Ht.
  unfold EventSubscription.destroy.
  rewrite (load_Some m t n En), bind_Ret_l.
  destruct (set_next_opt m (sub_previous n) (sub_next n) Hpv)
    as (m1 & -> & Hl1 & Hn1 & Hp1 & Hh1).
  rewrite bind_Ret_l.
  assert (En1 : exists n1, m1 !! t = Some n1
                           /\ sub_next n1 = sub_next n
                           /\ sub_previous n1 = sub_previous n).
  { destruct (lookup_lt_is_Some_2 m1 t) as [n1 E1]; [lia|].
    exists n1. split; [done|].
    pose proof (Hn1 t) as Hnt. pose proof (Hp1 t) as Hpt.
    unfold next_at, previous_at in Hnt, Hpt. rewrite E1, En in Hnt, Hpt.
    cbn in Hnt, Hpt. split; [|congruence].
    destruct (decide (Some t = sub_previous n)); congruence. }
  destruct En1 as (n1 & E1 & Enx & Epv).
  rewrite (load_Some m1 t n1 E1), bind_Ret_l, Enx, Epv.
  destruct (set_previous_opt m1 (sub_next n) (sub_previous n))
    as (m2 & -> & Hl2 & Hp2 & Hn2 & Hh2).
  { intros x Hx. specialize (Hnx x Hx). lia. }
  exists m2. split; [done|]. split; [lia|].
  split; [|split]; intros a.
  - by rewrite Hn2, Hn1.
  - by rewrite Hp2, Hp1.
  - by rewrite Hh2, Hh1.
Qed.

Lemma chain_last m a l z :
  chain m a l z ->
  exists b,
    last (a :: l) = Some b
    /\ next_at m b = Some (Some z) /\ previous_at m z = Some (Some b).
Proof.
  revert a. induction l as [|c l IH]; intros a; cbn [chain].
  - intros [H1 H2]. by exists a.
  - intros (_ & _ & Hc). destruct (IH c Hc) as (b & E & H1 & H2).
    exists b. by rewrite last_cons, E.
Qed.

Lemma chain_head m a l z :
  chain m a l z ->
  exists b,
    head (l ++ [z]) = Some b
    /\ next_at m a = Some (Some b) /\ previous_at m b = Some (Some a).
Proof.
  destruct l as [|c l]; cbn [chain app head].
  - intros [H1 H2]. by exists z.
  - intros (H1 & H2 & _). by exists c.
Qed.

Lemma last_elem_of {A} (l : list A) (x : A) : last l = Some x -> x ∈ l.
Proof.
  intros E. apply last_Some in E as [l' ->].
  apply elem_of_app. right. by left.
Qed.

Lemma head_elem_of {A} (l : list A) (x : A) : head l = Some x -> x ∈ l.
Proof. destruct l; intros [= <-]. by left. Qed.

(** The links between the last object of [s :: l1] and the first of
    [l2 ++ [s]] are replaced; the rest of the ring is kept. *)
Lemma chain_splice m m' s l1 old mid l2 p q :
  NoDup (s :: l1 ++ l2) ->
  last (s :: l1) = Some p -> head (l2 ++ [s]) = Some q ->
  (forall x, x ∈ s :: l1 ++ l2 -> x <> p -> next_at m' x = next_at m x) ->
  (forall x, x ∈ s :: l1 ++ l2 -> x <> q ->
             previous_at m' x = previous_at m x) ->
  chain m s (l1 ++ old ++ l2) s ->
  chain m' p mid q ->
  chain m' s (l1 ++ mid ++ l2) s.
Proof.
  intros Hnd Hp Hq Hn Hpv Hc Hmid.
  apply NoDup_cons in Hnd as [Hs Hnd].
  apply NoDup_app in Hnd as (Hnd1 & Hdis & Hnd2).
  rewrite elem_of_app in Hs.
  assert (Hp_in : p ∈ s :: l1) by by apply last_elem_of.
  assert (Hp2 : p ∉ l2).
  { apply elem_of_cons in Hp_in as [->|Hin]; [tauto|by apply Hdis]. }
  assert (Hsuffix : chain m p (old ++ l2) s -> chain m' p (mid ++ l2) s).
  { destruct l2 as [|q' l2].
    - cbn in Hq. injection Hq as <-. rewrite !app_nil_r. by intros _.
    - cbn in Hq. injection Hq as ->. rewrite !chain_app.
      intros [_ Hc2]. split; [done|].
      apply NoDup_cons in Hnd2 as [Hq2 Hnd2].
      revert Hc2. apply chain_frame.
      + intros x Hx. apply Hn.
        * right. apply elem_of_app. by right.
        * intros ->. done.
      + intros x Hx. apply Hpv.
        * apply elem_of_app in Hx as [Hx|Hx%list_elem_of_singleton].
          -- right. apply elem_of_app. right. by right.
          -- subst x. by left.
        * intros ->.
          apply elem_of_app in Hx as [Hx|Hx%list_elem_of_singleton];
            [done|].
          subst q. apply Hs. right. by left. }
  destruct l1 as [|x l1 _] using rev_ind.
  - cbn in Hp. injection Hp as <-. cbn [app] in Hc |- *. by apply Hsuffix.
  - assert (x = p) as ->.
    { rewrite app_comm_cons, last_snoc in Hp. congruence. }
    rewrite <- !app_assoc in Hc |- *. cbn [app] in Hc |- *.
    rewrite chain_app in Hc |- *. destruct Hc as [Hc1 Hc2].
    split; [|by apply Hsuffix].
    apply NoDup_app in Hnd1 as (Hnd1 & Hdis1 & _).
    assert (Hq_in : q ∈ l2 ++ [s]) by by apply head_elem_of.
    revert Hc1. apply chain_frame.
    + intros x Hx. apply Hn.
      * apply elem_of_cons in Hx as [->|Hx]; [by left|].
        right. rewrite !elem_of_app. by left; left.
      * intros ->. apply elem_of_cons in Hx as [->|Hx].
        -- apply Hs. left. apply elem_of_app. right. by left.
        -- apply (Hdis1 p Hx). by left.
    + intros x Hx. apply Hpv.
      * right. apply elem_of_app. by left.
      * intros ->.
        apply elem_of_app in Hq_in as [Hq2|Hq2%list_elem_of_singleton].
        -- by apply (Hdis q Hx).
        -- subst q. apply Hs. by left.
Qed.

Lemma ring_splice m m' s (l1 old mid l2 : list (nat * H)) p q :
  ring m s (l1 ++ old ++ l2) ->
  last (s :: l1.*1) = Some p -> head (l2.*1 ++ [s]) = Some q ->
  (forall x, x ∈ s :: l1.*1 ++ l2.*1 -> x <> p ->
             next_at m' x = next_at m x) ->
  (forall x, x ∈ s :: l1.*1 ++ l2.*1 -> x <> q ->
             previous_at m' x = previous_at m x) ->
  (forall x, x ∈ l1.*1 ++ l2.*1 -> handler_at m' x = handler_at m x) ->
  NoDup mid.*1 -> (forall x, x ∈ mid.*1 -> x ∉ s :: l1.*1 ++ l2.*1) ->
  chain m' p mid.*1 q ->
  Forall (fun x => handler_at m' (fst x) = Some (Some (snd x))) mid ->
  ring m' s (l1 ++ mid ++ l2).
Proof.
  intros (Hnd & Hc & Hh) Hp Hq Hn Hpv Hhd Hndm Hfresh Hmid Hhm.
  rewrite !fmap_app in Hnd, Hc.
  assert (Hnd' : NoDup (s :: l1.*1 ++ l2.*1)).
  { eapply sublist_NoDup; [exact Hnd|]. apply sublist_skip.
    apply sublist_app; [done|]. by apply sublist_inserts_l. }
  split; [|split].
  - rewrite !fmap_app, app_comm_cons, Permutation_app_swap_app.
    apply NoDup_app. split; [done|]. split; [|done].
    intros x Hx. by apply Hfresh.
  - rewrite !fmap_app. by eapply chain_splice.
  - rewrite Forall_forall in Hh, Hhm. apply Forall_forall. intros x Hx.
    rewrite !elem_of_app in Hx. destruct Hx as [Hx|[Hx|Hx]].
    + rewrite Hhd.
      * apply Hh. rewrite !elem_of_app. by left.
      * apply elem_of_app. left. by apply list_elem_of_fmap_2.
    + by apply Hhm.
    + rewrite Hhd.
      * apply Hh. rewrite !elem_of_app. by right; right.
      * apply elem_of_app. right. by apply list_elem_of_fmap_2.
Qed.

(** A destructor that finds both pointers null leaves the store as it
    is. *)
Lemma destroy_null m t :
  next_at m t = Some None -> previous_at m t = Some None ->
  EventSubscription.destroy m t = Ret m.
Proof.
  intros (n & En & Hn)%next_at_Some Hp. unfold previous_at in Hp.
  rewrite En in Hp. injection Hp as Hp.
  unfold EventSubscription.destroy.
  rewrite (load_Some m t n En), bind_Ret_l, Hp, bind_Ret_l.
  by rewrite (load_Some m t n En), bind_Ret_l, Hn.
Qed.

Lemma make_ring m :
  ring (EventRegistry.make m).2 (EventRegistry.make m).1 [].
Proof.
  unfold EventRegistry.make. cbn [fst snd].
  destruct (app_spec m (mkSubscription (Some (length m)) (Some (length m))
                          (@None H)))
    as (_ & Hn & Hp & _).
  split; [|split].
  - cbn. apply NoDup_singleton.
  - cbn [fmap list_fmap chain]. rewrite Hn, Hp.
    destruct (decide (length m = length m)) as [_|Hne]; [done|].
    by destruct Hne.
  - constructor.
Qed.

Lemma ring_lt m s l :
  ring m s l -> Forall (fun x => x < length m) (s :: l.*1).
Proof.
  intros (_ & Hc & _). apply chain_lt in Hc.
  rewrite app_comm_cons in Hc. by apply Forall_app in Hc as [Hc _].
Qed.

Lemma ring_length m s l : ring m s l -> length l < length m.
Proof.
  intros Hr. pose proof (ring_lt m s l Hr) as Hlt. destruct Hr as (Hnd & _).
  assert (Hsub : s :: l.*1 ⊆+ seq 0 (length m)).
  { apply NoDup_submseteq; [done|]. intros x Hx. apply elem_of_seq.
    rewrite Forall_forall in Hlt. specialize (Hlt x Hx). lia. }
  apply submseteq_length in Hsub.
  rewrite length_seq in Hsub. cbn [length] in Hsub.
  rewrite length_fmap in Hsub. lia.
Qed.

Lemma visit_spec m s l :
  s ∉ l.*1 ->
  Forall (fun x => handler_at m (fst x) = Some (Some (snd x))) l ->
  forall prev fuel nx,
    chain m prev l.*1 s -> next_at m prev = Some nx -> length l < fuel ->
    EventRegistry.visit fuel m s nx = Ret l.*2.
Proof.
  induction l as [|[b hd] l IH]; intros Hs Hh prev fuel nx Hc Hn Hfuel;
    (destruct fuel as [|fuel]; [cbn in Hfuel; lia|]);
    cbn [chain fmap list_fmap fst snd] in Hc; cbn [EventRegistry.visit].
  - destruct Hc as [Hc _]. rewrite Hc in Hn. injection Hn as <-.
    by rewrite bool_decide_eq_true_2.
  - destruct Hc as (Hc & _ & Hrest). rewrite Hc in Hn. injection Hn as <-.
    cbn [fmap list_fmap fst] in Hs.
    apply not_elem_of_cons in Hs as [Hne Hs].
    rewrite bool_decide_eq_false_2 by congruence.
    apply Forall_cons in Hh as [Hb Hh]. cbn [fst snd] in Hb.
    unfold handler_at in Hb.
    destruct (m !! b) as [n|] eqn:En; [|done]. injection Hb as Hb.
    rewrite (load_Some m b n En), bind_Ret_l, Hb. cbn [deref].
    rewrite bind_Ret_l.
    rewrite (IH Hs Hh b fuel (sub_next n) Hrest).
    + reflexivity.
    + unfold next_at. by rewrite En.
    + cbn [length] in Hfuel. lia.
Qed.

Lemma dispatch_spec m s l :
  ring m s l -> EventRegistry.dispatch m s = Ret l.*2.
Proof.
  intros Hr. pose proof (ring_length m s l Hr) as Hlen.
  destruct Hr as (Hnd & Hc & Hh).
  apply NoDup_cons in Hnd as [Hs _].
  assert (Hn : exists nx, next_at m s = Some nx).
  { destruct l; cbn [chain fmap list_fmap] in Hc; destruct Hc as [-> _]; eauto. }
  destruct Hn as [nx Hn].
  destruct (next_at_Some m s nx Hn) as (sn & Es & <-).
  unfold EventRegistry.dispatch. rewrite (load_Some m s sn Es), bind_Ret_l.
  apply (visit_spec m s l Hs Hh s); [done|done|lia].
Qed.

Lemma subscribe_spec m s l hd :
  ring m s l ->
  exists m',
    EventRegistry.subscribe m s (Some hd) = Ret (S (length m), m')
    /\ length m' = S (S (length m))
    /\ ring m' s (l ++ [(S (length m), hd)])
    /\ (forall x, x < length m -> x ∉ s :: l.*1 ->
                  next_at m' x = next_at m x
                  /\ previous_at m' x = previous_at m x)
    /\ (forall x, x < length m -> handler_at m' x = handler_at m x).
Proof.
  intros Hr. pose proof (ring_lt m s l Hr) as Hlt.
  rewrite Forall_forall in Hlt.
  pose proof Hr as (Hnd & Hc & Hh).
  destruct (chain_last m s l.*1 s Hc) as (p & Hp & Hnp & Hps).
  destruct (previous_at_Some m s _ Hps) as (sn & Es & Esp).
  destruct (next_at_Some m p _ Hnp) as (pn & Ep & Epn).
  pose proof (lookup_lt_Some _ _ _ Es) as Hs_lt.
  pose proof (lookup_lt_Some _ _ _ Ep) as Hp_lt.
  unfold EventRegistry.subscribe.
  rewrite (load_Some m s sn Es), bind_Ret_l, Esp.
  destruct (insert_fields m p (Some hd) pn Ep)
    as (m1 & -> & Hl1 & Hn1 & Hp1 & Hh1).
  { rewrite Epn. by intros x [= <-]. }
  rewrite bind_Ret_l. cbv beta iota. rewrite Epn in Hn1, Hp1.
  assert (Et : exists tn, m1 !! length m = Some tn
                          /\ sub_next tn = Some s
                          /\ sub_previous tn = Some p
                          /\ sub_handler tn = Some hd).
  { destruct (lookup_lt_is_Some_2 m1 (length m)) as [tn Et]; [lia|].
    exists tn. split; [done|].
    pose proof (Hn1 (length m)) as A. pose proof (Hp1 (length m)) as B.
    pose proof (Hh1 (length m)) as C.
    unfold next_at, previous_at, handler_at in A, B, C.
    rewrite Et in A, B, C. cbn [fmap option_fmap option_map] in A, B, C.
    repeat case_decide; simplify_eq; try lia. done. }
  destruct Et as (tn & Et & Etn & Etp & Eth).
  destruct (move_fields m1 (length m) tn Et)
    as (m2 & Em & Hl2 & Hn2 & Hp2 & Hh2).
  { rewrite Etp. intros x [= <-]. lia. }
  { rewrite Etn. intros x [= <-]. lia. }
  rewrite Em, bind_Ret_l. cbv beta iota.
  rewrite Etn, Etp in Hn2, Hp2. rewrite Eth in Hh2. rewrite Hl1 in *.
  rewrite (destroy_null m2 (length m)).
  2: { rewrite Hn2. by rewrite decide_True. }
  2: { rewrite Hp2. by rewrite decide_True. }
  rewrite bind_Ret_l. exists m2. split; [done|]. split; [lia|].
  split; [|split].
  - change (l ++ [(S (length m), hd)])
      with (l ++ [(S (length m), hd)] ++ []).
    apply (ring_splice m m2 s l [] [(S (length m), hd)] [] p s).
    + by rewrite app_nil_r.
    + done.
    + done.
    + intros x Hx Hne. cbn [fmap list_fmap] in Hx. rewrite app_nil_r in Hx.
      specialize (Hlt x Hx). rewrite Hn2, Hn1.
      repeat case_decide; simplify_eq; try lia. done.
    + intros x Hx Hne. cbn [fmap list_fmap] in Hx. rewrite app_nil_r in Hx.
      specialize (Hlt x Hx). rewrite Hp2, Hp1.
      repeat case_decide; simplify_eq; try lia. done.
    + intros x Hx. cbn [fmap list_fmap] in Hx. rewrite app_nil_r in Hx.
      assert (Hx' : x ∈ s :: l.*1) by by right.
      specialize (Hlt x Hx'). rewrite Hh2, Hh1.
      repeat case_decide; simplify_eq; try lia. done.
    + cbn. apply NoDup_singleton.
    + intros x Hx%list_elem_of_singleton Hin. subst x.
      cbn [fmap list_fmap fst] in Hin. rewrite app_nil_r in Hin.
      specialize (Hlt _ Hin). lia.
    + cbn [fmap list_fmap fst chain]. rewrite !Hn2, !Hp2.
      repeat case_decide; simplify_eq; try lia. done.
    + constructor; [|constructor]. cbn [fst snd]. rewrite Hh2.
      by rewrite decide_True.
  - intros x Hx Hnin. apply not_elem_of_cons in Hnin as [Hxs Hnin].
    assert (x <> p).
    { intros ->. apply last_elem_of in Hp.
      apply elem_of_cons in Hp as [->|Hp]; done. }
    rewrite Hn2, Hn1, Hp2, Hp1.
    repeat case_decide; simplify_eq; try lia. done.
  - intros x Hx. rewrite Hh2, Hh1.
    repeat case_decide; simplify_eq; try lia. done.
Qed.

(** The neighbours of a subscription of the ring. *)
Lemma ring_member m s l1 a hd l2 :
  ring m s (l1 ++ (a, hd) :: l2) ->
  exists p q n,
    last (s :: l1.*1) = Some p /\ head (l2.*1 ++ [s]) = Some q
    /\ m !! a = Some n
    /\ sub_previous n = Some p /\ sub_next n = Some q
    /\ sub_handler n = Some hd
    /\ next_at m p = Some (Some a) /\ previous_at m q = Some (Some a)
    /\ (a ∉ s :: l1.*1 ++ l2.*1)
    /\ (forall x, x ∈ s :: l1.*1 ++ l2.*1 -> x < length m).
Proof.
  intros Hr. pose proof (ring_lt _ _ _ Hr) as Hlt.
  destruct Hr as (Hnd & Hc & Hh).
  rewrite fmap_app, fmap_cons in Hnd, Hc, Hlt. cbn [fst] in Hnd, Hc, Hlt.
  apply chain_app in Hc as [Hc1 Hc2].
  destruct (chain_last _ _ _ _ Hc1) as (p & Hp & Hnp & Hpa).
  destruct (chain_head _ _ _ _ Hc2) as (q & Hq & Hna & Hpq).
  destruct (next_at_Some _ _ _ Hna) as (n & En & Enx).
  exists p, q, n. split; [done|]. split; [done|]. split; [done|].
  split.
  { unfold previous_at in Hpa. rewrite En in Hpa. by injection Hpa. }
  split; [done|]. split.
  { apply Forall_app in Hh as [_ Hh]. apply Forall_cons in Hh as [Hh _].
    cbn [fst snd] in Hh. unfold handler_at in Hh. rewrite En in Hh.
    by injection Hh. }
  split; [done|]. split; [done|]. split.
  - rewrite app_comm_cons in Hnd.
    apply NoDup_app in Hnd as (_ & Hdis & Hnd2).
    apply NoDup_cons in Hnd2 as [Ha2 _].
    rewrite app_comm_cons. intros [Hin|Hin]%elem_of_app; [|done].
    apply (Hdis a Hin). by left.
  - rewrite Forall_forall in Hlt. intros x Hx. apply Hlt.
    rewrite app_comm_cons in Hx |- *. rewrite elem_of_app in Hx |- *.
    destruct Hx as [Hx|Hx]; [by left|]. right. by right.
Qed.

Lemma unsubscribe_spec m s l1 a hd l2 :
  ring m s (l1 ++ (a, hd) :: l2) ->
  exists m',
    EventSubscription.destroy m a = Ret m'
    /\ length m' = length m
    /\ ring m' s (l1 ++ l2).
Proof.
  intros Hr.
  destruct (ring_member _ _ _ _ _ _ Hr)
    as (p & q & n & Hp & Hq & En & Epv & Enx & Ehd & Hnp & Hpq & Ha & Hlt).
  assert (Hp_lt : p < length m) by by eapply next_at_lt.
  assert (Hq_lt : q < length m) by by eapply previous_at_lt.
  destruct (destroy_fields m a n En) as (m' & E & Hl & Hn & Hpv & Hh).
  { rewrite Epv. by intros x [= <-]. }
  { rewrite Enx. by intros x [= <-]. }
  rewrite Epv, Enx in Hn, Hpv.
  exists m'. split; [done|]. split; [done|].
  change (l1 ++ l2) with (l1 ++ [] ++ l2).
  apply (ring_splice m m' s l1 [(a, hd)] [] l2 p q); try done.
  - intros x Hx Hne. rewrite Hn. by case_decide; simplify_eq.
  - intros x Hx Hne. rewrite Hpv. by case_decide; simplify_eq.
  - apply NoDup_nil_2.
  - intros x Hx. by apply elem_of_nil in Hx.
  - cbn [fmap list_fmap chain]. rewrite Hn, Hpv.
    by rewrite !decide_True.
Qed.

Lemma move_ring m s l1 a hd l2 :
  ring m s (l1 ++ (a, hd) :: l2) ->
  exists m',
    EventSubscription.move m a = Ret (length m, m')
    /\ length m' = S (length m)
    /\ ring m' s (l1 ++ (length m, hd) :: l2)
    /\ next_at m' a = Some None /\ previous_at m' a = Some None.
Proof.
  intros Hr.
  destruct (ring_member _ _ _ _ _ _ Hr)
    as (p & q & n & Hp & Hq & En & Epv & Enx & Ehd & Hnp & Hpq & Ha & Hlt).
  assert (Hp_lt : p < length m) by by eapply next_at_lt.
  assert (Hq_lt : q < length m) by by eapply previous_at_lt.
  pose proof (lookup_lt_Some _ _ _ En) as Ha_lt.
  assert (Hpa : p <> a).
  { intros ->. apply Ha. apply last_elem_of in Hp.
    rewrite app_comm_cons. apply elem_of_app. by left. }
  assert (Hqa : q <> a).
  { intros ->. apply Ha. apply head_elem_of in Hq.
    apply elem_of_app in Hq as [Hq|Hq%list_elem_of_singleton].
    - right. apply elem_of_app. by right.
    - subst. by left. }
  destruct (move_fields m a n En) as (m' & E & Hl & Hn & Hpv & Hh).
  { rewrite Epv. by intros x [= <-]. }
  { rewrite Enx. by intros x [= <-]. }
  rewrite Epv, Enx in Hn, Hpv. rewrite Ehd in Hh.
  exists m'. split; [done|]. split; [done|]. split; [|split].
  - change (l1 ++ (length m, hd) :: l2)
      with (l1 ++ [(length m, hd)] ++ l2).
    apply (ring_splice m m' s l1 [(a, hd)] [(length m, hd)] l2 p q);
      try done.
    + intros x Hx Hne. specialize (Hlt x Hx). rewrite Hn.
      repeat case_decide; simplify_eq; try lia; done.
    + intros x Hx Hne. specialize (Hlt x Hx). rewrite Hpv.
      repeat case_decide; simplify_eq; try lia; done.
    + intros x Hx. rewrite Hh. case_decide; [|done].
      subst x. assert (length m ∈ s :: l1.*1 ++ l2.*1) as Hin%Hlt by by right.
      lia.
    + cbn. apply NoDup_singleton.
    + intros x Hx%list_elem_of_singleton Hin%Hlt. cbn [fst] in Hx. lia.
    + cbn [fmap list_fmap fst chain]. rewrite !Hn, !Hpv.
      repeat case_decide; simplify_eq; try lia; done.
    + constructor; [|constructor]. cbn [fst snd]. rewrite Hh.
      by rewrite decide_True.
  - rewrite Hn. by rewrite decide_True.
  - rewrite Hpv. by rewrite decide_True.
Qed.

Lemma ask_spec m s l (accepts : H -> bool) :
  s ∉ l.*1 ->
  Forall (fun x => handler_at m (fst x) = Some (Some (snd x))) l ->
  forall prev fuel nx,
    chain m prev l.*1 s -> next_at m prev = Some nx -> length l < fuel ->
    exists asked,
      EventRegistry.ask fuel m s nx accepts
      = Ret (forallb accepts l.*2, asked)
      /\ (forallb accepts l.*2 = true /\ asked = l.*2
          \/ exists hs h rest,
               l.*2 = hs ++ h :: rest /\ asked = hs ++ [h]
               /\ forallb accepts hs = true /\ accepts h = false).
Proof.
  induction l as [|[b hd] l IH]; intros Hs Hh prev fuel nx Hc Hn Hfuel;
    (destruct fuel as [|fuel]; [cbn in Hfuel; lia|]);
    cbn [chain fmap list_fmap fst snd] in Hc; cbn [EventRegistry.ask].
  - destruct Hc as [Hc _]. rewrite Hc in Hn. injection Hn as <-.
    rewrite bool_decide_eq_true_2 by done. exists []. split; [done|].
    by left.
  - destruct Hc as (Hc & _ & Hrest). rewrite Hc in Hn. injection Hn as <-.
    cbn [fmap list_fmap fst] in Hs.
    apply not_elem_of_cons in Hs as [Hne Hs].
    rewrite bool_decide_eq_false_2 by congruence.
    apply Forall_cons in Hh as [Hb Hh]. cbn [fst snd] in Hb.
    unfold handler_at in Hb.
    destruct (m !! b) as [n|] eqn:En; [|done]. injection Hb as Hb.
    rewrite (load_Some m b n En), bind_Ret_l, Hb. cbn [deref].
    rewrite bind_Ret_l. cbn [fmap list_fmap snd forallb].
    destruct (accepts hd) eqn:Ea; cbn [negb andb].
    + destruct (IH Hs Hh b fuel (sub_next n) Hrest) as (asked & -> & Hasked).
      * unfold next_at. by rewrite En.
      * cbn [length] in Hfuel. lia.
      * rewrite bind_Ret_l. exists (hd :: asked). split; [done|].
        destruct Hasked as [[Hall ->]|(hs & h & rest & E & -> & Hall & Hh')].
        -- by left.
        -- right. exists (hd :: hs), h, rest. rewrite E.
           cbn [forallb]. by rewrite Ea.
    + exists [hd]. split; [done|]. right. by exists [], hd, l.*2.
Qed.

Lemma chain_nexts m a l z :
  chain m a l z ->
  forall i x, (a :: l) !! i = Some x -> next_at m x = Some ((l ++ [z]) !! i).
Proof.
  revert a. induction l as [|b l IH]; intros a; cbn [chain app].
  - intros [Hn _] [|i] x Hx; [|done]. injection Hx as <-. done.
  - intros (Hn & _ & Hc) [|i] x Hx.
    + injection Hx as <-. done.
    + apply (IH b Hc i x Hx).
Qed.

Lemma dissolveLoop_spec s l :
  forall fuel m,
    length l < fuel -> NoDup (s :: l) ->
    (forall i x, (s :: l) !! i = Some x -> next_at m x = Some (l !! i)) ->
    exists m',
      EventSubscription.dissolveLoop fuel m s = Ret m'
      /\ length m' = length m
      /\ (forall x, x ∈ l ->
                    next_at m' x = Some None /\ previous_at m' x = Some None)
      /\ next_at m' s = Some None
      /\ previous_at m' s = previous_at m s
      /\ (forall x, x ∉ s :: l ->
                    next_at m' x = next_at m x
                    /\ previous_at m' x = previous_at m x)
      /\ (forall x, handler_at m' x = handler_at m x).
Proof.
  induction l as [|b l IH]; intros fuel m Hfuel Hnd Hnx;
    (destruct fuel as [|fuel]; [cbn in Hfuel; lia|]);
    cbn [EventSubscription.dissolveLoop];
    destruct (next_at_Some m s _ (Hnx 0 s eq_refl)) as (n & En & Hn);
    cbn [lookup list_lookup] in Hn;
    rewrite (load_Some m s n En), bind_Ret_l, Hn.
  - exists m. split; [done|]. split; [done|]. split.
    { intros x Hx. by apply elem_of_nil in Hx. }
    split; [apply (Hnx 0 s eq_refl)|]. done.
  - pose proof (Hnx 1 b eq_refl) as Hnb.
    pose proof (next_at_lt _ _ _ Hnb) as Hb_lt.
    pose proof (lookup_lt_Some _ _ _ En) as Hs_lt.
    apply NoDup_cons in Hnd as [Hs Hnd].
    apply not_elem_of_cons in Hs as [Hsb Hs].
    pose proof Hnd as [Hb Hnd']%NoDup_cons.
    destruct (set_previous_spec m b None Hb_lt)
      as (m1 & -> & Hl1 & Hp1 & Hn1 & Hh1 & _).
    rewrite bind_Ret_l.
    assert (Hnb1 : next_at m1 b = Some (l !! 0)) by by rewrite Hn1.
    destruct (next_at_Some _ _ _ Hnb1) as (n1 & En1 & Hn1b).
    rewrite (load_Some m1 b n1 En1), bind_Ret_l. cbv zeta.
    destruct (set_next_spec m1 b None)
      as (m2 & -> & Hl2 & Hn2 & Hp2 & Hh2 & _); [lia|].
    rewrite bind_Ret_l.
    destruct (set_next_spec m2 s (sub_next n1))
      as (m3 & -> & Hl3 & Hn3 & Hp3 & Hh3 & _); [lia|].
    rewrite bind_Ret_l.
    destruct (IH fuel m3) as (m' & -> & Hl & Hnull & Hns & Hps & Hfr & Hh).
    + cbn [length] in Hfuel. lia.
    + by apply NoDup_cons.
    + intros [|i] x Hx.
      * injection Hx as <-. rewrite Hn3, decide_True by done. by rewrite Hn1b.
      * cbn [lookup list_lookup] in Hx.
        assert (Hin : x ∈ l) by by eapply list_elem_of_lookup_2.
        rewrite Hn3, Hn2, Hn1.
        rewrite !decide_False by (intros ->; done).
        apply (Hnx (S (S i)) x Hx).
    + exists m'. split; [done|]. split; [lia|]. split; [|split; [|split; [|split]]].
      * intros x [->|Hx]%elem_of_cons; [|by apply Hnull].
        destruct (Hfr b) as [-> ->].
        { intros [->|Hin]%elem_of_cons; done. }
        rewrite Hn3, Hn2, Hp3, Hp2, Hp1.
        rewrite decide_False by done. by rewrite !decide_True.
      * done.
      * rewrite Hps, Hp3, Hp2, Hp1. by rewrite decide_False.
      * intros x Hx. apply not_elem_of_cons in Hx as [Hxs Hx].
        apply not_elem_of_cons in Hx as [Hxb Hx].
        destruct (Hfr x) as [-> ->].
        { intros [->|Hin]%elem_of_cons; done. }
        rewrite Hn3, Hn2, Hn1, Hp3, Hp2, Hp1.
        by rewrite !decide_False.
      * intros x. by rewrite Hh, Hh3, Hh2, Hh1.
Qed.

Lemma registry_destroy_spec m s l :
  ring m s l ->
  exists m',
    EventRegistry.destroy m s = Ret m'
    /\ length m' = length m
    /\ (forall x, x ∈ l.*1 ->
                  next_at m' x = Some None /\ previous_at m' x = Some None)
    /\ (forall x, x ∉ s :: l.*1 ->
                  next_at m' x = next_at m x
                  /\ previous_at m' x = previous_at m x)
    /\ (forall x, handler_at m' x = handler_at m x).
Proof.
  intros Hr. pose proof (ring_length m s l Hr) as Hlen.
  destruct Hr as (Hnd & Hc & Hh).
  destruct (chain_last m s l.*1 s Hc) as (p & Hp & Hnp & Hps).
  destruct (previous_at_Some m s _ Hps) as (sn & Es & Esp).
  pose proof (next_at_lt _ _ _ Hnp) as Hp_lt.
  pose proof (lookup_lt_Some _ _ _ Es) as Hs_lt.
  assert (Hp_in : p ∈ s :: l.*1) by by apply last_elem_of.
  unfold EventRegistry.destroy, EventSubscription.dissolveChain.
  rewrite (load_Some m s sn Es), bind_Ret_l, Esp.
  destruct (set_next_spec m p None Hp_lt)
    as (m1 & -> & Hl1 & Hn1 & Hp1 & Hh1 & _).
  rewrite !bind_Ret_l.
  destruct (dissolveLoop_spec s l.*1 (S (length m1)) m1)
    as (m2 & -> & Hl2 & Hnull & Hns & Hps2 & Hfr & Hh2).
  { rewrite length_fmap. lia. }
  { done. }
  { intros i x Hx. rewrite Hn1.
    pose proof (lookup_lt_Some _ _ _ Hx) as Hi. cbn [length] in Hi.
    rewrite last_lookup in Hp. cbn [length Nat.pred] in Hp.
    destruct (decide (i = length l.*1)) as [->|Hne].
    - rewrite Hp in Hx. injection Hx as <-. rewrite decide_True by done.
      by rewrite lookup_ge_None_2.
    - rewrite decide_False.
      + rewrite (chain_nexts m s l.*1 s Hc i x Hx).
        by rewrite lookup_app_l by lia.
      + intros ->. apply Hne. by apply (NoDup_lookup _ _ _ _ Hnd Hx Hp). }
  rewrite bind_Ret_l.
  assert (Es2 : exists n2, m2 !! s = Some n2
                           /\ sub_previous n2 = Some p
                           /\ sub_next n2 = None).
  { destruct (next_at_Some _ _ _ Hns) as (n2 & E2 & Hn2).
    exists n2. split; [done|]. split; [|done].
    rewrite Hp1, Hps in Hps2. unfold previous_at in Hps2.
    rewrite E2 in Hps2. by injection Hps2. }
  destruct Es2 as (n2 & Es2 & Epv2 & Enx2).
  destruct (destroy_fields m2 s n2 Es2) as (m3 & -> & Hl3 & Hn3 & Hp3 & Hh3).
  { rewrite Epv2. intros x [= <-]. lia. }
  { by rewrite Enx2. }
  rewrite Epv2, Enx2 in Hn3, Hp3.
  exists m3. split; [done|]. split; [lia|]. split; [|split].
  - intros x Hx. destruct (Hnull x Hx) as [Hnx Hpx].
    rewrite Hn3, Hp3, Hnx, Hpx.
    rewrite (decide_False (P := Some x = None)) by done.
    by case_decide.
  - intros x Hx. destruct (Hfr x Hx) as [Hnx Hpx].
    rewrite Hn3, Hp3, Hnx, Hpx, Hn1, Hp1.
    rewrite (decide_False (P := Some x = None)) by done.
    rewrite !decide_False; [done| |]; intros E; simplify_eq; done.
  - intros x. by rewrite Hh3, Hh2, Hh1.
Qed.

End registry.

Lemma exampleStore_ring :
  ring exampleStore 0%nat [(2%nat, "view"%string); (4%nat, "sound"%string)].
Proof.
  split; [|split].
  - cbn [fmap list_fmap fst]. repeat (apply NoDup_cons; split).
    + intros [E|[E|E]%elem_of_cons]%elem_of_cons; try discriminate.
      by apply elem_of_nil in E.
    + intros [E|E]%elem_of_cons; try discriminate.
      by apply elem_of_nil in E.
    + apply not_elem_of_nil.
    + apply NoDup_nil_2.
  - cbn. done.
  - repeat constructor.
Qed.

(** X26 (util/event.hpp, subscribe and dispatch): subscribing a handler to
    a registry returns a new subscription that stands last in the ring,
    after the ones that were there, and dispatch calls the handlers of the
    ring in the order in which they were subscribed, the new one last. *)
Theorem subscribers_are_called_in_order {H : Type}
    (m : list (eventSubscription H)) (sentinel : nat) (l : list (nat * H))
    (handler : H) :
  ring m sentinel l ->
  exists result m',
    EventRegistry.subscribe m sentinel (Some handler) = Ret (result, m')
    /\ ring m' sentinel (l ++ [(result, handler)])
    /\ EventRegistry.dispatch m sentinel = Ret l.*2
    /\ EventRegistry.dispatch m' sentinel = Ret (l.*2 ++ [handler]).
Proof.
  intros Hr.
  destruct (subscribe_spec m sentinel l handler Hr)
    as (m' & Hs & _ & Hr' & _).
  exists (S (length m)), m'. split; [exact Hs|]. split; [exact Hr'|].
  split; [by apply dispatch_spec|].
  rewrite (dispatch_spec m' sentinel _ Hr'), fmap_app. reflexivity.
Qed.

Lemma subscribers_are_called_in_order_witness :
  exists result m',
    EventRegistry.subscribe exampleStore 0%nat (Some "score"%string)
    = Ret (result, m')
    /\ EventRegistry.dispatch m' 0%nat
       = Ret ["view"; "sound"; "score"]%string.
Proof.
  destruct (subscribers_are_called_in_order exampleStore 0%nat
              [(2%nat, "view"%string); (4%nat, "sound"%string)]
              "score"%string exampleStore_ring)
    as (result & m' & Hs & _ & _ & Hd).
  exists result, m'. split; [exact Hs|exact Hd].
Defined.

(** X27 (util/event.hpp, prefilter): prefilter asks the handlers of the
    ring in the order of their subscription and stops at the first one
    that refuses; it returns true exactly when every handler accepts, and
    then all of them were asked. *)
Theorem prefilter_stops_at_the_first_refusal {H : Type}
    (m : list (eventSubscription H)) (sentinel : nat) (l : list (nat * H))
    (accepts : H -> bool) :
  ring m sentinel l ->
  exists asked,
    EventRegistry.prefilter m sentinel accepts
    = Ret (forallb accepts l.*2, asked)
    /\ (forallb accepts l.*2 = true /\ asked = l.*2
        \/ exists hs h rest,
             l.*2 = hs ++ h :: rest /\ asked = hs ++ [h]
             /\ forallb accepts hs = true /\ accepts h = false).
Proof.
  intros Hr. pose proof (ring_length m sentinel l Hr) as Hlen.
  destruct Hr as (Hnd & Hc & Hh).
  apply NoDup_cons in Hnd as [Hs _].
  assert (Hn : exists nx, next_at m sentinel = Some nx).
  { destruct l; cbn [chain fmap list_fmap] in Hc; destruct Hc as [-> _];
      eauto. }
  destruct Hn as [nx Hn].
  destruct (next_at_Some m sentinel nx Hn) as (sn & Es & <-).
  unfold EventRegistry.prefilter.
  rewrite (load_Some m sentinel sn Es), bind_Ret_l.
  apply (ask_spec m sentinel l accepts Hs Hh sentinel); [done|done|lia].
Qed.

Lemma prefilter_stops_at_the_first_refusal_witness :
  EventRegistry.prefilter exampleStore 0%nat
    (fun h => negb (String.eqb h "view"))
  = Ret (false, ["view"%string]).
Proof.
  destruct (prefilter_stops_at_the_first_refusal exampleStore 0%nat
              [(2%nat, "view"%string); (4%nat, "sound"%string)]
              (fun h => negb (String.eqb h "view")) exampleStore_ring)
    as (asked & Hp & [[Hall _]|(hs & h & rest & E & -> & Hhs & Hh)]).
  - discriminate Hall.
  - rewrite Hp. destruct hs as [|h0 hs].
    + injection E as <- _. reflexivity.
    + injection E as <- _. discriminate Hhs.
Defined.

(** X28 (util/event.hpp, the destructor of a subscription): destroying a
    subscription of a registry takes it out of the ring and leaves the
    others in their order, so that dispatch no longer calls its handler. *)
Theorem destroyed_subscription_is_not_called {H : Type}
    (m : list (eventSubscription H)) (sentinel : nat)
    (l1 l2 : list (nat * H)) (a : nat) (handler : H) :
  ring m sentinel (l1 ++ (a, handler) :: l2) ->
  exists m',
    EventSubscription.destroy m a = Ret m'
    /\ ring m' sentinel (l1 ++ l2)
    /\ EventRegistry.dispatch m sentinel = Ret (l1.*2 ++ handler :: l2.*2)
    /\ EventRegistry.dispatch m' sentinel = Ret (l1.*2 ++ l2.*2).
Proof.
  intros Hr.
  destruct (unsubscribe_spec m sentinel l1 a handler l2 Hr)
    as (m' & Hd & _ & Hr').
  exists m'. split; [exact Hd|]. split; [exact Hr'|]. split.
  - rewrite (dispatch_spec m sentinel _ Hr), fmap_app. reflexivity.
  - rewrite (dispatch_spec m' sentinel _ Hr'), fmap_app. reflexivity.
Qed.

Lemma destroyed_subscription_is_not_called_witness :
  exists m',
    EventSubscription.destroy exampleStore 2%nat = Ret m'
    /\ EventRegistry.dispatch exampleStore 0%nat
       = Ret ["view"; "sound"]%string
    /\ EventRegistry.dispatch m' 0%nat = Ret ["sound"%string].
Proof.
  destruct (destroyed_subscription_is_not_called exampleStore 0%nat
              [] [(4%nat, "sound"%string)] 2%nat "view"%string
              exampleStore_ring)
    as (m' & Hd & _ & Hbefore & Hafter).
  exists m'. split; [exact Hd|]. split; [exact Hbefore|exact Hafter].
Defined.

(** X29 (util/event.hpp, the move constructor of a subscription): moving
    a subscription of a registry puts the new object at the place of the
    old one in the ring, with the same handler, so that dispatch calls the
    same handlers in the same order; the old object is left with null
    pointers, and destroying it afterwards changes nothing. *)
Theorem moved_subscription_keeps_its_place {H : Type}
    (m : list (eventSubscription H)) (sentinel : nat)
    (l1 l2 : list (nat * H)) (a : nat) (handler : H) :
  ring m sentinel (l1 ++ (a, handler) :: l2) ->
  exists this m',
    EventSubscription.move m a = Ret (this, m')
    /\ ring m' sentinel (l1 ++ (this, handler) :: l2)
    /\ EventRegistry.dispatch m' sentinel = EventRegistry.dispatch m sentinel
    /\ next_at m' a = Some None /\ previous_at m' a = Some None
    /\ EventSubscription.destroy m' a = Ret m'.
Proof.
  intros Hr.
  destruct (move_ring m sentinel l1 a handler l2 Hr)
    as (m' & Hm & _ & Hr' & Hn & Hp).
  exists (length m), m'. split; [exact Hm|]. split; [exact Hr'|]. split.
  - rewrite (dispatch_spec m sentinel _ Hr), (dispatch_spec m' sentinel _ Hr').
    by rewrite !fmap_app.
  - split; [exact Hn|]. split; [exact Hp|]. by apply destroy_null.
Qed.

Lemma moved_subscription_keeps_its_place_witness :
  exists this m',
    EventSubscription.move exampleStore 4%nat = Ret (this, m')
    /\ ring m' 0%nat [(2%nat, "view"%string); (this, "sound"%string)]
    /\ EventSubscription.destroy m' 4%nat = Ret m'.
Proof.
  destruct (moved_subscription_keeps_its_place exampleStore 0%nat
              [(2%nat, "view"%string)] [] 4%nat "sound"%string
              exampleStore_ring)
    as (this & m' & Hm & Hr & _ & _ & _ & Hd).
  exists this, m'. split; [exact Hm|]. split; [exact Hr|exact Hd].
Defined.

(** X30 (util/event.hpp, the destructor of a registry): destroying a
    registry returns and leaves every subscription of its ring with null
    pointers and its handler, so that a subscription that outlives the
    registry is destroyed without touching the store. *)
Theorem subscriptions_outlive_the_registry {H : Type}
    (m : list (eventSubscription H)) (sentinel : nat)
    (l : list (nat * H)) :
  ring m sentinel l ->
  exists m',
    EventRegistry.destroy m sentinel = Ret m'
    /\ forall a handler,
         (a, handler) ∈ l ->
         next_at m' a = Some None /\ previous_at m' a = Some None
         /\ handler_at m' a = Some (Some handler)
         /\ EventSubscription.destroy m' a = Ret m'.
Proof.
  intros Hr.
  destruct (registry_destroy_spec m sentinel l Hr)
    as (m' & Hd & _ & Hnull & _ & Hh).
  exists m'. split; [exact Hd|]. intros a handler Hin.
  destruct (Hnull a) as [Hn Hp].
  { apply list_elem_of_fmap. by exists (a, handler). }
  split; [exact Hn|]. split; [exact Hp|]. split.
  - rewrite Hh. destruct Hr as (_ & _ & Hhs).
    rewrite Forall_forall in Hhs. apply (Hhs _ Hin).
  - by apply destroy_null.
Qed.

Lemma subscriptions_outlive_the_registry_witness :
  exists m',
    EventRegistry.destroy exampleStore 0%nat = Ret m'
    /\ EventSubscription.destroy m' 2%nat = Ret m'
    /\ EventSubscription.destroy m' 4%nat = Ret m'.
Proof.
  destruct (subscriptions_outlive_the_registry exampleStore 0%nat
              [(2%nat, "view"%string); (4%nat, "sound"%string)]
              exampleStore_ring)
    as (m' & Hd & Hall).
  exists m'. split; [exact Hd|]. split.
  - apply (Hall 2%nat "view"%string). by left.
  - apply (Hall 4%nat "sound"%string). right. by left.
Defined.
